(** * Aho-Corasick matcher (justecorruptio/ahocorasick): model and properties

    The repository holds successive versions of one file, [ahocorasick.go]:
    - [FixedArray]: src/ahocorasick.go, nodes linked by pointers, every node
      carrying two 256-entry pointer arrays ([child], [fails]) and a call
      counter used to suppress duplicate reports;
    - [Table]: src/unnamed/part_001 (second file of the part), nodes addressed
      by [int32] identifiers through a chunked table, lazily allocated child
      slices, no [fails] array, and a per-call [marks] map.

    Memory model.  Every node that [buildTrie] allocates ([&node{}]) lives in
    a store, kept in allocation order.  A Go value of type [*node] is [nil]
    or the address of a node of the store; an assignment through a pointer
    ([c.fail = ...]) is an update of the store at that address.  A Go panic
    (nil dereference, index out of range) and an exhausted loop budget are
    both the result [None]. *)

From stdpp Require Import base option list gmap strings.
From Stdlib Require Import ZArith.
From Stdlib.Strings Require Import Byte.

#[global] Instance byte_eq_dec : EqDecision byte := Byte.byte_eq_dec.

(** A [*node]: [None] is [nil]. *)
Abbreviation ptr := (option nat).

(** The byte values 0, 1, ..., 255 in increasing order: the range of the
    loops [for i := 0; i < 256; i++]. *)
Definition all_bytes : list byte := omap Byte.of_nat (seq 0 256).

(** The slices [b[1:]], [b[2:]], ..., [b[len(b)-1:]] visited by
    [for j := 1; j < len(b); j++]. *)
Definition strict_suffixes (bl : list byte) : list (list byte) :=
  (λ j, drop j bl) <$> seq 1 (length bl - 1).

(** Go's [int] on a 64-bit platform: [+] wraps around. *)
Definition wrap_int (z : Z) : Z := ((z + 2 ^ 63) `mod` 2 ^ 64 - 2 ^ 63)%Z.

(** ** src/ahocorasick.go *)
Module FixedArray.

Record node := mkNode {
  root : bool;
  b : list byte;
  output : bool;
  index : Z;
  counter : Z;
  child : byte → ptr;      (* [256]*node *)
  fails : byte → ptr;      (* [256]*node *)
  suffix : ptr;
  fail : ptr
}.

(** [Matcher], with the store of its nodes. *)
Record Matcher := mkMatcher {
  m_counter : Z;
  m_root : ptr;
  mem : list node
}.

(** [&node{}] *)
Definition zero_node : node :=
  mkNode false [] false 0 0 (λ _, None) (λ _, None) None None.

Definition set_root (v : bool) (n : node) : node :=
  mkNode v (b n) (output n) (index n) (counter n) (child n) (fails n) (suffix n) (fail n).
Definition set_b (v : list byte) (n : node) : node :=
  mkNode (root n) v (output n) (index n) (counter n) (child n) (fails n) (suffix n) (fail n).
Definition set_output (v : bool) (n : node) : node :=
  mkNode (root n) (b n) v (index n) (counter n) (child n) (fails n) (suffix n) (fail n).
Definition set_index (v : Z) (n : node) : node :=
  mkNode (root n) (b n) (output n) v (counter n) (child n) (fails n) (suffix n) (fail n).
Definition set_counter (v : Z) (n : node) : node :=
  mkNode (root n) (b n) (output n) (index n) v (child n) (fails n) (suffix n) (fail n).
Definition set_child (c : byte) (v : ptr) (n : node) : node :=
  mkNode (root n) (b n) (output n) (index n) (counter n)
         (λ x, if decide (x = c) then v else child n x) (fails n) (suffix n) (fail n).
Definition set_fails (c : byte) (v : ptr) (n : node) : node :=
  mkNode (root n) (b n) (output n) (index n) (counter n) (child n)
         (λ x, if decide (x = c) then v else fails n x) (suffix n) (fail n).
Definition set_suffix (v : ptr) (n : node) : node :=
  mkNode (root n) (b n) (output n) (index n) (counter n) (child n) (fails n) v (fail n).
Definition set_fail (v : ptr) (n : node) : node :=
  mkNode (root n) (b n) (output n) (index n) (counter n) (child n) (fails n) (suffix n) v.

(** [*p]: panics on [nil]. *)
Definition deref (hp : list node) (p : ptr) : option node := a ← p; hp !! a.

(** [findBlice]: the loop [for n != nil && len(b) > 0], started at [n]. *)
Fixpoint findBlice_loop (hp : list node) (n : ptr) (bl : list byte) : option ptr :=
  match bl with
  | [] => Some n
  | c :: bl' =>
      match n with
      | None => Some None
      | Some a => nd ← hp !! a; findBlice_loop hp (child nd c) bl'
      end
  end.

Definition findBlice (m : Matcher) (bl : list byte) : option ptr :=
  findBlice_loop (mem m) (m_root m) bl.

(** *** buildTrie, first loop: insertion (lines 88-123) *)

(** One iteration of [for _, b := range blice]; the state is the store, the
    slice [nodes], the pointer [n] and [path]. *)
Definition trie_step (rt : ptr) (st : list node * list ptr * ptr * list byte) (c : byte)
  : option (list node * list ptr * ptr * list byte) :=
  let '(hp, nodes, n, path) := st in
  let path := path ++ [c] in
  a ← n; nd ← hp !! a;
  match child nd c with
  | Some q => Some (hp, nodes, Some q, path)
  | None =>
      let q := length hp in
      let hp := hp ++ [zero_node] in
      let nodes := nodes ++ [Some q] in
      let hp := alter (set_child c (Some q)) a hp in
      let hp := alter (set_b path) q hp in
      let hp := if decide (length path = 1) then alter (set_fail rt) q hp else hp in
      let hp := alter (set_suffix rt) q hp in
      Some (hp, nodes, Some q, path)
  end.

Fixpoint trie_blice (rt : ptr) (st : list node * list ptr * ptr * list byte) (blice : list byte)
  : option (list node * list ptr * ptr * list byte) :=
  match blice with
  | [] => Some st
  | c :: rest => st ← trie_step rt st c; trie_blice rt st rest
  end.

(** One iteration of [for i, blice := range dictionary]. *)
Definition trie_entry (rt : ptr) (st : list node * list ptr) (i : nat) (blice : list byte)
  : option (list node * list ptr) :=
  let '(hp, nodes) := st in
  '(hp, nodes, n, _) ← trie_blice rt (hp, nodes, rt, []) blice;
  a ← n; _ ← hp !! a;
  let hp := alter (set_output true) a hp in
  let hp := alter (set_index (Z.of_nat i)) a hp in
  Some (hp, nodes).

Fixpoint trie_entries (rt : ptr) (st : list node * list ptr) (i : nat) (dictionary : list (list byte))
  : option (list node * list ptr) :=
  match dictionary with
  | [] => Some st
  | blice :: rest => st ← trie_entry rt st i blice; trie_entries rt st (S i) rest
  end.

(** *** buildTrie, second loop: breadth-first links (lines 125-156) *)

(** [for j := 1; j < len(c.b); j++ { c.fail = m.findBlice(c.b[j:]); ... }] *)
Fixpoint fail_loop (rt : ptr) (hp : list node) (c : nat) (sufs : list (list byte))
  : option (list node) :=
  match sufs with
  | [] => Some hp
  | s :: rest =>
      r ← findBlice_loop hp rt s;
      let hp := alter (set_fail r) c hp in
      if r is Some _ then Some hp else fail_loop rt hp c rest
  end.

(** [for j := 1; j < len(c.b); j++ { s := m.findBlice(c.b[j:]); ... }] *)
Fixpoint suffix_loop (rt : ptr) (hp : list node) (c : nat) (sufs : list (list byte))
  : option (list node) :=
  match sufs with
  | [] => Some hp
  | s :: rest =>
      r ← findBlice_loop hp rt s;
      match r with
      | Some a =>
          sd ← hp !! a;
          if output sd then Some (alter (set_suffix r) c hp)
          else suffix_loop rt hp c rest
      | None => suffix_loop rt hp c rest
      end
  end.

(** The body of [if c != nil] after the push (lines 136-153). *)
Definition fix_links (rt : ptr) (hp : list node) (c : nat) : option (list node) :=
  cd ← hp !! c;
  hp ← fail_loop rt hp c (strict_suffixes (b cd));
  cd ← hp !! c;
  let hp := if fail cd is None then alter (set_fail rt) c hp else hp in
  cd ← hp !! c;
  suffix_loop rt hp c (strict_suffixes (b cd)).

(** [for i := 0; i < 256; i++] for the dequeued node [n]; [l] is the queue. *)
Fixpoint bfs_children (rt : ptr) (hp : list node) (l : list ptr) (n : nat) (bytes : list byte)
  : option (list node * list ptr) :=
  match bytes with
  | [] => Some (hp, l)
  | i :: rest =>
      nd ← hp !! n;
      match child nd i with
      | Some c =>
          hp ← fix_links rt hp c;
          bfs_children rt hp (l ++ [Some c]) n rest
      | None => bfs_children rt hp l n rest
      end
  end.

(** [for l.Len() > 0]; [fuel] bounds the number of dequeues. *)
Fixpoint bfs (fuel : nat) (rt : ptr) (hp : list node) (l : list ptr) : option (list node) :=
  match l with
  | [] => Some hp
  | p :: l =>
      match fuel with
      | O => None
      | S fuel =>
          n ← p;
          '(hp, l) ← bfs_children rt hp l n all_bytes;
          bfs fuel rt hp l
      end
  end.

(** *** buildTrie, third loop: the [fails] arrays (lines 158-166) *)

(** [for n.child[c] == nil && !n.root { n = n.fail }] *)
Fixpoint follow_fail (fuel : nat) (hp : list node) (n : ptr) (c : byte) : option ptr :=
  nd ← deref hp n;
  match child nd c with
  | Some _ => Some n
  | None =>
      if root nd then Some n
      else match fuel with
           | O => None
           | S fuel => follow_fail fuel hp (fail nd) c
           end
  end.

Fixpoint fails_bytes (hp : list node) (nodes : list ptr) (i : nat) (bytes : list byte)
  : option (list node) :=
  match bytes with
  | [] => Some hp
  | c :: rest =>
      n ← nodes !! i;
      n ← follow_fail (length hp) hp n c;
      p ← nodes !! i; a ← p; _ ← hp !! a;
      fails_bytes (alter (set_fails c n) a hp) nodes i rest
  end.

Fixpoint fails_nodes (hp : list node) (nodes : list ptr) (ixs : list nat) : option (list node) :=
  match ixs with
  | [] => Some hp
  | i :: rest => hp ← fails_bytes hp nodes i all_bytes; fails_nodes hp nodes rest
  end.

Definition buildTrie (m : Matcher) (dictionary : list (list byte)) : option Matcher :=
  let hp := [set_root true zero_node] in
  let rt : ptr := Some 0 in
  let nodes := [rt] in
  '(hp, nodes) ← trie_entries rt (hp, nodes) 0 dictionary;
  hp ← bfs (length hp) rt hp [rt];
  hp ← fails_nodes hp nodes (seq 0 (length nodes));
  Some (mkMatcher (m_counter m) rt hp).

(** [new(Matcher)] *)
Definition new_Matcher : Matcher := mkMatcher 0 None [].

Definition NewMatcher (dictionary : list (list byte)) : option Matcher :=
  buildTrie new_Matcher dictionary.

(** *** Match (lines 196-236) *)

(** [for !f.suffix.root { ... }]; [cnt] is [m.counter]. *)
Fixpoint suffix_walk (fuel : nat) (cnt : Z) (hp : list node) (f : nat) (hits : list Z)
  : option (list node * list Z) :=
  fd ← hp !! f;
  sd ← deref hp (suffix fd);
  if root sd then Some (hp, hits)
  else match fuel with
       | O => None
       | S fuel =>
           s ← suffix fd;
           if decide (counter sd ≠ cnt)
           then suffix_walk fuel cnt (alter (set_counter cnt) s hp) s (hits ++ [index sd])
           else Some (hp, hits)
       end.

(** One iteration of [for _, b := range in]. *)
Definition match_byte (cnt : Z) (st : list node * ptr * list Z) (c : byte)
  : option (list node * ptr * list Z) :=
  let '(hp, n, hits) := st in
  nd ← deref hp n;
  let n := if negb (root nd) && bool_decide (child nd c = None) then fails nd c else n in
  nd ← deref hp n;
  match child nd c with
  | Some f =>
      fd ← hp !! f;
      let '(hp, hits) :=
        if output fd && bool_decide (counter fd ≠ cnt)
        then (alter (set_counter cnt) f hp, hits ++ [index fd])
        else (hp, hits) in
      '(hp, hits) ← suffix_walk (length hp) cnt hp f hits;
      Some (hp, Some f, hits)
  | None => Some (hp, n, hits)
  end.

Fixpoint match_loop (cnt : Z) (st : list node * ptr * list Z) (input : list byte)
  : option (list node * ptr * list Z) :=
  match input with
  | [] => Some st
  | c :: rest => st ← match_byte cnt st c; match_loop cnt st rest
  end.

(** [Match]: the hits and the matcher as the call leaves it. *)
Definition Match (m : Matcher) (input : list byte) : option (list Z * Matcher) :=
  let cnt := wrap_int (m_counter m + 1) in
  '(hp, _, hits) ← match_loop cnt (mem m, m_root m, []) input;
  Some (hits, mkMatcher cnt (m_root m) hp).

End FixedArray.

(** ** src/unnamed/part_001, the version with the [marks] map *)
Module Table.

Definition TABLE_WIDTH : Z := 1024.

(** Go's [int32]: [+] wraps around. *)
Definition wrap_int32 (z : Z) : Z := ((z + 2 ^ 31) `mod` 2 ^ 32 - 2 ^ 31)%Z.

Record node := mkNode {
  b : list byte;
  output : bool;
  index : Z;
  child : option (byte → Z);   (* []int32: nil, or make([]int32, 256) *)
  suffix : Z;
  fail : Z
}.

(** [Matcher], with the store of its nodes. *)
Record Matcher := mkMatcher {
  m_root : ptr;
  table : list (list ptr);
  tableSize : Z;
  mem : list node
}.

(** [&node{}] *)
Definition zero_node : node := mkNode [] false 0 None 0 0.

Definition set_b (v : list byte) (n : node) : node :=
  mkNode v (output n) (index n) (child n) (suffix n) (fail n).
Definition set_output (v : bool) (n : node) : node :=
  mkNode (b n) v (index n) (child n) (suffix n) (fail n).
Definition set_index (v : Z) (n : node) : node :=
  mkNode (b n) (output n) v (child n) (suffix n) (fail n).
Definition set_suffix (v : Z) (n : node) : node :=
  mkNode (b n) (output n) (index n) (child n) v (fail n).
Definition set_fail (v : Z) (n : node) : node :=
  mkNode (b n) (output n) (index n) (child n) (suffix n) v.

Definition set_table (v : list (list ptr)) (m : Matcher) : Matcher :=
  mkMatcher (m_root m) v (tableSize m) (mem m).
Definition set_tableSize (v : Z) (m : Matcher) : Matcher :=
  mkMatcher (m_root m) (table m) v (mem m).
Definition set_mem (v : list node) (m : Matcher) : Matcher :=
  mkMatcher (m_root m) (table m) (tableSize m) v.
Definition set_m_root (v : ptr) (m : Matcher) : Matcher :=
  mkMatcher v (table m) (tableSize m) (mem m).

(** [*p]: panics on [nil]. *)
Definition deref (hp : list node) (p : ptr) : option node := a ← p; hp !! a.

(** [s[i]] on a slice: panics when [i] is out of range. *)
Definition at_index {A} (s : list A) (i : Z) : option A :=
  if decide (0 ≤ i)%Z then s !! Z.to_nat i else None.

(** Go's [/] and [%] truncate towards zero. *)
Definition tableGet (m : Matcher) (i : Z) : option ptr :=
  row ← at_index (table m) (i `quot` TABLE_WIDTH);
  at_index row (i `rem` TABLE_WIDTH).

Definition tableSet (m : Matcher) (i : Z) (n : ptr) : option Matcher :=
  let tbl :=
    if decide (wrap_int32 (Z.of_nat (length (table m))) ≤ i `quot` TABLE_WIDTH)%Z
    then table m ++ [replicate (Z.to_nat TABLE_WIDTH) None]
    else table m in
  row ← at_index tbl (i `quot` TABLE_WIDTH);
  _ ← at_index row (i `rem` TABLE_WIDTH);
  Some (set_table (<[Z.to_nat (i `quot` TABLE_WIDTH) :=
                      <[Z.to_nat (i `rem` TABLE_WIDTH) := n]> row]> tbl) m).

Definition getChild (n : node) (i : byte) : Z :=
  match child n with
  | None => 0%Z
  | Some a => a i
  end.

Definition setChild (i : byte) (v : Z) (n : node) : node :=
  let a := match child n with
           | None => λ _, 0%Z
           | Some a => a
           end in
  mkNode (b n) (output n) (index n) (Some (λ x, if decide (x = i) then v else a x))
         (suffix n) (fail n).

(** [findBlice]: the loop [for i != 0 && len(b) > 0], started at [i]. *)
Fixpoint findBlice_loop (m : Matcher) (i : Z) (bl : list byte) : option Z :=
  match bl with
  | [] => Some i
  | c :: bl' =>
      if decide (i = 0%Z) then Some i
      else p ← tableGet m i; nd ← deref (mem m) p;
           findBlice_loop m (getChild nd c) bl'
  end.

Definition findBlice (m : Matcher) (bl : list byte) : option Z :=
  findBlice_loop m 1 bl.

(** *** buildTrie, first loop: insertion (lines 394-431) *)

Definition trie_step (st : Matcher * ptr * list byte) (c : byte)
  : option (Matcher * ptr * list byte) :=
  let '(m, n, path) := st in
  let path := path ++ [c] in
  nd ← deref (mem m) n;
  p ← tableGet m (getChild nd c);
  match p with
  | Some _ => Some (m, p, path)
  | None =>
      let q := length (mem m) in
      let m := set_mem (mem m ++ [zero_node]) m in
      m ← tableSet m (tableSize m) (Some q);
      a ← n;
      let m := set_mem (alter (setChild c (tableSize m)) a (mem m)) m in
      let m := set_tableSize (wrap_int32 (tableSize m + 1)) m in
      let m := set_mem (alter (set_b path) q (mem m)) m in
      let m := if decide (length path = 1)
               then set_mem (alter (set_fail 1) q (mem m)) m else m in
      let m := set_mem (alter (set_suffix 1) q (mem m)) m in
      Some (m, Some q, path)
  end.

Fixpoint trie_blice (st : Matcher * ptr * list byte) (blice : list byte)
  : option (Matcher * ptr * list byte) :=
  match blice with
  | [] => Some st
  | c :: rest => st ← trie_step st c; trie_blice st rest
  end.

Definition trie_entry (m : Matcher) (i : nat) (blice : list byte) : option Matcher :=
  '(m, n, _) ← trie_blice (m, m_root m, []) blice;
  a ← n; _ ← mem m !! a;
  let m := set_mem (alter (set_output true) a (mem m)) m in
  let m := set_mem (alter (set_index (Z.of_nat i)) a (mem m)) m in
  Some m.

Fixpoint trie_entries (m : Matcher) (i : nat) (dictionary : list (list byte))
  : option Matcher :=
  match dictionary with
  | [] => Some m
  | blice :: rest => m ← trie_entry m i blice; trie_entries m (S i) rest
  end.

(** *** buildTrie, second loop: breadth-first links (lines 433-464) *)

Fixpoint fail_loop (m : Matcher) (c : nat) (sufs : list (list byte)) : option Matcher :=
  match sufs with
  | [] => Some m
  | s :: rest =>
      r ← findBlice m s;
      let m := set_mem (alter (set_fail r) c (mem m)) m in
      if decide (r ≠ 0%Z) then Some m else fail_loop m c rest
  end.

Fixpoint suffix_loop (m : Matcher) (c : nat) (sufs : list (list byte)) : option Matcher :=
  match sufs with
  | [] => Some m
  | s :: rest =>
      si ← findBlice m s;
      if decide (si ≠ 0%Z)
      then p ← tableGet m si; sd ← deref (mem m) p;
           if output sd then Some (set_mem (alter (set_suffix si) c (mem m)) m)
           else suffix_loop m c rest
      else suffix_loop m c rest
  end.

Definition fix_links (m : Matcher) (c : nat) : option Matcher :=
  cd ← mem m !! c;
  m ← fail_loop m c (strict_suffixes (b cd));
  cd ← mem m !! c;
  let m := if decide (fail cd = 0%Z)
           then set_mem (alter (set_fail 1) c (mem m)) m else m in
  cd ← mem m !! c;
  suffix_loop m c (strict_suffixes (b cd)).

Fixpoint bfs_children (m : Matcher) (l : list ptr) (n : nat) (bytes : list byte)
  : option (Matcher * list ptr) :=
  match bytes with
  | [] => Some (m, l)
  | i :: rest =>
      nd ← mem m !! n;
      p ← tableGet m (getChild nd i);
      match p with
      | Some c =>
          m ← fix_links m c;
          bfs_children m (l ++ [p]) n rest
      | None => bfs_children m l n rest
      end
  end.

Fixpoint bfs (fuel : nat) (m : Matcher) (l : list ptr) : option Matcher :=
  match l with
  | [] => Some m
  | p :: l =>
      match fuel with
      | O => None
      | S fuel =>
          n ← p;
          '(m, l) ← bfs_children m l n all_bytes;
          bfs fuel m l
      end
  end.

Definition buildTrie (m : Matcher) (dictionary : list (list byte)) : option Matcher :=
  let m := set_table [] m in
  let m := set_m_root (Some (length (mem m))) (set_mem (mem m ++ [zero_node]) m) in
  m ← tableSet m 0 None;
  m ← tableSet m 1 (m_root m);
  let m := set_tableSize 2 m in
  m ← trie_entries m 0 dictionary;
  bfs (length (mem m)) m [m_root m].

(** [new(Matcher)] *)
Definition new_Matcher : Matcher := mkMatcher None [] 0 [].

Definition NewMatcher (dictionary : list (list byte)) : option Matcher :=
  buildTrie new_Matcher dictionary.

(** *** Match (lines 494-540) *)

(** [for f.suffix != 1 { ... }] *)
Fixpoint suffix_walk (fuel : nat) (m : Matcher) (f : ptr) (marks : gmap Z bool) (hits : list Z)
  : option (gmap Z bool * list Z) :=
  fd ← deref (mem m) f;
  if decide (suffix fd = 1%Z) then Some (marks, hits)
  else match fuel with
       | O => None
       | S fuel =>
           let fi := suffix fd in
           f ← tableGet m fi;
           fd ← deref (mem m) f;
           match marks !! fi with
           | None => suffix_walk fuel m f (<[fi := true]> marks) (hits ++ [index fd])
           | Some _ => Some (marks, hits)
           end
       end.

(** One iteration of [for _, b := range in]; the state is [ni], [n], [marks]
    and [hits]. *)
Definition match_byte (m : Matcher) (st : Z * ptr * gmap Z bool * list Z) (c : byte)
  : option (Z * ptr * gmap Z bool * list Z) :=
  let '(ni, n, marks, hits) := st in
  nd ← deref (mem m) n;
  '(ni, n) ← (if decide (ni ≠ 1%Z ∧ getChild nd c = 0%Z)
              then p ← tableGet m (fail nd); Some (fail nd, p)
              else Some (ni, n));
  nd ← deref (mem m) n;
  let fi := getChild nd c in
  if decide (fi ≠ 0%Z) then
    f ← tableGet m fi;
    fd ← deref (mem m) f;
    let '(marks, hits) :=
      match marks !! fi with
      | None => if output fd then (<[fi := true]> marks, hits ++ [index fd])
                else (marks, hits)
      | Some _ => (marks, hits)
      end in
    '(marks, hits) ← suffix_walk (length (mem m)) m f marks hits;
    Some (fi, f, marks, hits)
  else Some (ni, n, marks, hits).

Fixpoint match_loop (m : Matcher) (st : Z * ptr * gmap Z bool * list Z) (input : list byte)
  : option (Z * ptr * gmap Z bool * list Z) :=
  match input with
  | [] => Some st
  | c :: rest => st ← match_byte m st c; match_loop m st rest
  end.

(** [Match]: no store, field or table is written, so the matcher after the
    call is the matcher before it. *)
Definition Match (m : Matcher) (input : list byte) : option (list Z * Matcher) :=
  '(_, _, _, hits) ← match_loop m (1%Z, m_root m, ∅, []) input;
  Some (hits, m).

End Table.

(** * The fixed-array version: the trie built by the first loop *)
Module FixedArrayTrie.
Import FixedArray.

(** Two stores that agree on what [view] shows of every node. *)
Definition same_by {V} (view : node → V) (hp hp' : list node) : Prop :=
  view <$> hp = view <$> hp'.

Section same_by.
  Context {V : Type} (view : node → V).

Lemma same_by_refl hp : same_by view hp hp.
  Proof. done. Qed.

Lemma same_by_sym hp hp' : same_by view hp hp' → same_by view hp' hp.
  Proof. unfold same_by. congruence. Qed.

Lemma same_by_trans hp1 hp2 hp3 :
    same_by view hp1 hp2 → same_by view hp2 hp3 → same_by view hp1 hp3.
  Proof. unfold same_by. congruence. Qed.

Lemma same_by_length hp hp' : same_by view hp hp' → length hp = length hp'.
  Proof.
    intros H. rewrite <- (length_fmap view hp), <- (length_fmap view hp'). by rewrite H.
  Qed.

Lemma same_by_lookup hp hp' a nd :
    same_by view hp hp' → hp !! a = Some nd →
    ∃ nd', hp' !! a = Some nd' ∧ view nd' = view nd.
  Proof.
    intros H Ha. assert (Hs : (view <$> hp') !! a = Some (view nd)).
    { rewrite <- H, list_lookup_fmap, Ha. done. }
    rewrite list_lookup_fmap in Hs. destruct (hp' !! a) as [nd'|]; [|done].
    exists nd'. split; [done|]. simpl in Hs. by apply (inj Some) in Hs.
  Qed.

Lemma same_by_lookup_None hp hp' a :
    same_by view hp hp' → hp !! a = None → hp' !! a = None.
  Proof.
    intros H Ha. apply lookup_ge_None. rewrite <- (same_by_length _ _ H).
    by apply lookup_ge_None.
  Qed.

Lemma same_by_alter hp a f :
    (∀ nd, view (f nd) = view nd) → same_by view hp (alter f a hp).
  Proof.
    intros Hf. unfold same_by.
    rewrite (list_fmap_alter view f id) by (apply Forall_true; intros; apply Hf).
    by rewrite list_alter_id.
  Qed.

Lemma same_by_coarse {W} (g : V → W) hp hp' :
    same_by view hp hp' → same_by (g ∘ view) hp hp'.
  Proof. unfold same_by. intros H. by rewrite !(list_fmap_compose view g), H. Qed.
End same_by.

(** What the shape of the trie depends on. *)
Definition frame (nd : node) : bool * list byte * (byte → ptr) :=
  (root nd, b nd, child nd).

(** What the insertion loop writes and the later loops only read. *)
Definition skel (nd : node) : bool * list byte * (byte → ptr) * bool * Z :=
  (frame nd, output nd, index nd).

Abbreviation same_frame := (same_by frame).
Abbreviation same_trie := (same_by skel).

Lemma same_trie_frame hp hp' : same_trie hp hp' → same_frame hp hp'.
Proof. apply (same_by_coarse skel (λ x, x.1.1)). Qed.

Lemma frame_fields nd nd' :
  frame nd' = frame nd → root nd' = root nd ∧ b nd' = b nd ∧ child nd' = child nd.
Proof.
  intros H. split_and!;
    [exact (f_equal (λ x, x.1.1) H)|exact (f_equal (λ x, x.1.2) H)|exact (f_equal snd H)].
Qed.

Lemma skel_fields nd nd' :
  skel nd' = skel nd →
  frame nd' = frame nd ∧ output nd' = output nd ∧ index nd' = index nd.
Proof.
  intros H. split_and!;
    [exact (f_equal (λ x, x.1.1) H)|exact (f_equal (λ x, x.1.2) H)|exact (f_equal snd H)].
Qed.

(** [a] is the node of path [w]. *)
Definition node_at (hp : list node) (a : nat) (w : list byte) : Prop :=
  ∃ nd, hp !! a = Some nd ∧ b nd = w.

Definition has_path (hp : list node) (w : list byte) : Prop :=
  ∃ a, node_at hp a w.

Record shape (hp : list node) : Prop := mkShape {
  sh_root : ∃ rd, hp !! 0 = Some rd ∧ root rd = true ∧ b rd = [];
  sh_nonroot : ∀ a nd, hp !! a = Some nd → a ≠ 0 → root nd = false;
  sh_child : ∀ a nd c q, hp !! a = Some nd → child nd c = Some q →
             ∃ qd, hp !! q = Some qd ∧ b qd = b nd ++ [c];
  sh_parent : ∀ q qd, hp !! q = Some qd → q ≠ 0 →
              ∃ a nd c, hp !! a = Some nd ∧ child nd c = Some q ∧ b qd = b nd ++ [c];
  sh_inj : ∀ a a' nd nd', hp !! a = Some nd → hp !! a' = Some nd' → b nd = b nd' → a = a';
  sh_depth : ∀ a nd, hp !! a = Some nd → length (b nd) ≤ a
}.

(** Ltac: move a lookup across [same_frame]. *)
Ltac transport H Hst nd' :=
  let Hx := fresh "Hx" in let Hk := fresh "Hk" in
  destruct (same_by_lookup _ _ _ _ _ Hst H) as (nd' & Hx & Hk);
  apply frame_fields in Hk; destruct Hk as (? & ? & ?).

Lemma shape_same hp hp' : same_frame hp hp' → shape hp → shape hp'.
Proof.
  intros Hst [H1 H2 H3 H4 H5 H6]. pose proof (same_by_sym _ _ _ Hst) as Hts.
  split.
  - destruct H1 as (rd & Hr & ? & ?). transport Hr Hst rd'. exists rd'.
    split_and!; congruence.
  - intros a nd Ha Hne. transport Ha Hts nd0. transitivity (root nd0); [done|eauto].
  - intros a nd c q Ha Hc. transport Ha Hts nd0.
    destruct (H3 a nd0 c q) as (qd & Hq & Hb); [done|congruence|].
    transport Hq Hst qd'. exists qd'. split; congruence.
  - intros q qd Hq Hne. transport Hq Hts qd0.
    destruct (H4 q qd0) as (a & nd & c & Ha & Hc & Hb); [done..|].
    transport Ha Hst nd'. exists a, nd', c. split_and!; congruence.
  - intros a a' nd nd' Ha Ha' Hb. transport Ha Hts nd0. transport Ha' Hts nd0'.
    apply (H5 a a' nd0 nd0'); congruence.
  - intros a nd Ha. transport Ha Hts nd0. replace (b nd) with (b nd0) by congruence. eauto.
Qed.

Lemma findBlice_loop_same hp hp' n w :
  same_frame hp hp' → findBlice_loop hp n w = findBlice_loop hp' n w.
Proof.
  intros Hst. revert n. induction w as [|c w IH]; intros n; simpl; [done|].
  destruct n as [a|]; [|done].
  destruct (hp !! a) as [nd|] eqn:Ha.
  - transport Ha Hst nd'. rewrite Hx. simpl. rewrite IH. congruence.
  - by rewrite (same_by_lookup_None _ _ _ _ Hst Ha).
Qed.

Lemma node_at_same hp hp' a w : same_frame hp hp' → node_at hp a w → node_at hp' a w.
Proof. intros Hst (nd & Ha & Hb). transport Ha Hst nd'. exists nd'. split; congruence. Qed.

Lemma has_path_same hp hp' w : same_frame hp hp' → has_path hp w → has_path hp' w.
Proof. intros Hst (a & Ha). exists a. eauto using node_at_same. Qed.

Section shape_facts.
  Context (hp : list node) (Hsh : shape hp).

Lemma node_at_inj a a' w : node_at hp a w → node_at hp a' w → a = a'.
  Proof. intros (nd & Ha & Hb) (nd' & Ha' & Hb'). eapply sh_inj; eauto. congruence. Qed.

Lemma node_at_root : node_at hp 0 [].
  Proof. destruct (sh_root _ Hsh) as (rd & ? & ? & ?). by exists rd. Qed.

Lemma node_at_nil a : node_at hp a [] → a = 0.
  Proof. intros H. eapply node_at_inj; eauto using node_at_root. Qed.

Lemma node_at_lt a w : node_at hp a w → a < length hp.
  Proof. intros (nd & Ha & _). by eapply lookup_lt_Some. Qed.

  (** The paths of the trie are closed under prefix. *)
Lemma has_path_prefix u v : has_path hp (u ++ v) → has_path hp u.
  Proof.
    induction v as [|x v IH] using rev_ind.
    - by rewrite app_nil_r.
    - intros (q & qd & Hq & Hb). apply IH.
      assert (q ≠ 0) as Hne.
      { intros ->. pose proof (node_at_nil 0 node_at_root).
        destruct (sh_root _ Hsh) as (rd & Hr & _ & Hbr). simplify_eq.
        rewrite Hbr in Hb. symmetry in Hb. rewrite app_assoc in Hb.
        by apply app_nil in Hb as [_ ?]. }
      destruct (sh_parent _ Hsh q qd Hq Hne) as (a & nd & c & Ha & Hc & Hb').
      rewrite Hb, app_assoc in Hb'. apply app_inj_tail in Hb' as [Hb' _].
      exists a, nd. done.
  Qed.

Lemma child_node_at a nd c q :
    hp !! a = Some nd → child nd c = Some q → node_at hp q (b nd ++ [c]).
  Proof. intros Ha Hc. destruct (sh_child _ Hsh a nd c q Ha Hc) as (qd & ? & ?). by exists qd. Qed.

Lemma node_at_child a nd c q :
    hp !! a = Some nd → node_at hp q (b nd ++ [c]) → child nd c = Some q.
  Proof.
    intros Ha (qd & Hq & Hb).
    assert (q ≠ 0) as Hne.
    { intros ->. destruct (sh_root _ Hsh) as (rd & Hr & _ & Hbr). simplify_eq.
      rewrite Hbr in Hb. by apply app_cons_not_nil in Hb. }
    destruct (sh_parent _ Hsh q qd Hq Hne) as (a' & nd' & c' & Ha' & Hc & Hb').
    rewrite Hb in Hb'. apply app_inj_tail in Hb' as [Hb' ->].
    assert (a = a') by (eapply sh_inj; eauto). by simplify_eq.
  Qed.

Lemma findBlice_loop_nil w : findBlice_loop hp None w = Some None.
  Proof. by destruct w. Qed.

  (** [findBlice] started at the node of [u] returns the node of [u ++ w], or
      [nil] when the trie has no such path. *)
Lemma findBlice_loop_spec w : ∀ a u,
    node_at hp a u →
    ∃ r, findBlice_loop hp (Some a) w = Some r ∧
         match r with
         | Some q => node_at hp q (u ++ w)
         | None => ¬ has_path hp (u ++ w)
         end.
  Proof.
    induction w as [|c w IH]; intros a u Ha.
    - exists (Some a). rewrite app_nil_r. done.
    - simpl. destruct Ha as (nd & Ha & Hb). rewrite Ha. simpl.
      destruct (child nd c) as [q|] eqn:Hc.
      + destruct (IH q (u ++ [c])) as (r & Hr & Hspec).
        { subst u. by eapply child_node_at. }
        exists r. by rewrite <- app_assoc in Hspec.
      + exists None. rewrite findBlice_loop_nil. split; [done|].
        intros Hp. rewrite (cons_middle c u w), app_assoc in Hp.
        apply has_path_prefix in Hp as (q & Hq). subst u.
        by rewrite (node_at_child a nd c q) in Hc.
  Qed.

Lemma findBlice_root_spec w :
    ∃ r, findBlice_loop hp (Some 0) w = Some r ∧
         match r with
         | Some q => node_at hp q w
         | None => ¬ has_path hp w
         end.
  Proof. apply (findBlice_loop_spec w 0 []), node_at_root. Qed.

Lemma findBlice_found w q :
    node_at hp q w → findBlice_loop hp (Some 0) w = Some (Some q).
  Proof.
    intros Hq. destruct (findBlice_root_spec w) as ([q'|] & -> & Hs).
    - by rewrite (node_at_inj q q' w).
    - destruct Hs. by exists q.
  Qed.

Lemma findBlice_missing w :
    ¬ has_path hp w → findBlice_loop hp (Some 0) w = Some None.
  Proof.
    intros Hq. destruct (findBlice_root_spec w) as ([q'|] & -> & Hs); [|done].
    destruct Hq. by exists q'.
  Qed.

Lemma node_at_depth a w : node_at hp a w → length w ≤ a.
  Proof. intros (nd & Ha & <-). by eapply sh_depth. Qed.

Lemma node_at_nonroot a w : node_at hp a w → a ≠ 0 → w ≠ [].
  Proof. intros Ha Hne ->. by apply node_at_nil in Ha. Qed.
End shape_facts.

End FixedArrayTrie.

(** * What the dictionary says about the trie *)

(** [w] is the empty path or a prefix of a pattern. *)
Definition is_path (D : list (list byte)) (w : list byte) : Prop :=
  w = [] ∨ ∃ pat, pat ∈ D ∧ w `prefix_of` pat.

(** [z] is the last position of [w] in the dictionary. *)
Definition last_index (D : list (list byte)) (w : list byte) (z : Z) : Prop :=
  ∃ i, z = Z.of_nat i ∧ D !! i = Some w ∧ ∀ j, i < j → D !! j ≠ Some w.

Lemma is_path_snoc D pat w :
  is_path (D ++ [pat]) w ↔ is_path D w ∨ w `prefix_of` pat.
Proof.
  unfold is_path. split.
  - intros [->|(p & Hp & Hw)]; [by left; left|].
    apply elem_of_app in Hp as [Hp|Hp%list_elem_of_singleton]; [|subst; by right].
    left; right. eauto.
  - intros [[->|(p & Hp & Hw)]|Hw]; [by left| |].
    + right. exists p. split; [|done]. apply elem_of_app. by left.
    + right. exists pat. split; [|done]. apply elem_of_app. right. by apply list_elem_of_singleton.
Qed.

Lemma last_index_snoc_new D w : last_index (D ++ [w]) w (Z.of_nat (length D)).
Proof.
  exists (length D). split_and!; [done|by apply list_lookup_middle|].
  intros j Hj. rewrite lookup_ge_None_2; [done|]. rewrite length_app. simpl. lia.
Qed.

Lemma last_index_snoc_old D w pat z :
  w ≠ pat → last_index D w z → last_index (D ++ [pat]) w z.
Proof.
  intros Hne (i & -> & Hi & Hlast). exists i. split_and!; [done| |].
  - by apply lookup_app_l_Some.
  - intros j Hj Hl. apply lookup_app_Some in Hl as [Hl|[_ Hl]].
    + by apply (Hlast j).
    + apply list_lookup_singleton_Some in Hl as [_ ?]. done.
Qed.

Module FixedArrayBuild.
Import FixedArray FixedArrayTrie.

Record outputs (hp : list node) (D : list (list byte)) : Prop := mkOutputs {
  out_iff : ∀ a nd, hp !! a = Some nd → (output nd = true ↔ b nd ∈ D);
  out_index : ∀ a nd, hp !! a = Some nd → output nd = true → last_index D (b nd) (index nd)
}.

(** The links as the insertion loop leaves them. *)
Definition fresh_node (nd : node) : Prop :=
  suffix nd = Some 0 ∧ (length (b nd) = 1 → fail nd = Some 0).

Record fresh (hp : list node) : Prop := mkFresh {
  fr_links : ∀ a nd, hp !! a = Some nd → a ≠ 0 → fresh_node nd;
  fr_counter : ∀ a nd, hp !! a = Some nd → counter nd = 0%Z
}.

Record building (hp : list node) (nodes : list ptr) (D : list (list byte)) : Prop := mkBuilding {
  bd_shape : shape hp;
  bd_nodes : nodes = Some <$> seq 0 (length hp);
  bd_out : outputs hp D;
  bd_fresh : fresh hp;
  bd_dict : ∀ w, is_path D w → has_path hp w
}.

Definition within (hp : list node) (P : list byte → Prop) : Prop :=
  ∀ w, has_path hp w → P w.

(** ** Allocating a child *)
Section extend.
  Context (hp hp' : list node) (a : nat) (nd newnd : node) (c : byte).
  Context (Hsh : shape hp) (Ha : hp !! a = Some nd) (Hc : child nd c = None).
  Context (Ha' : hp' !! a = Some (set_child c (Some (length hp)) nd))
          (Hq' : hp' !! length hp = Some newnd)
          (Hroot : root newnd = false) (Hb : b newnd = b nd ++ [c])
          (Hch : ∀ x, child newnd x = None)
          (Hother : ∀ x, x ≠ a → x ≠ length hp → hp' !! x = hp !! x).

Lemma ext_a_lt : a < length hp.
  Proof. by eapply lookup_lt_Some. Qed.

Lemma ext_old x ndx :
    hp !! x = Some ndx →
    hp' !! x = Some ndx ∨ (x = a ∧ ndx = nd ∧ hp' !! x = Some (set_child c (Some (length hp)) nd)).
  Proof.
    intros Hx. destruct (decide (x = a)) as [->|Hne].
    - right. by simplify_eq.
    - left. rewrite Hother; [done..|]. apply lookup_lt_Some in Hx. lia.
  Qed.

Lemma ext_new x ndx' :
    hp' !! x = Some ndx' →
    (x = length hp ∧ ndx' = newnd) ∨ (x ≠ a ∧ hp !! x = Some ndx') ∨
    (x = a ∧ ndx' = set_child c (Some (length hp)) nd).
  Proof.
    intros Hx. destruct (decide (x = a)) as [->|Hne]; [right; right; by simplify_eq|].
    destruct (decide (x = length hp)) as [->|Hne']; [left; by simplify_eq|].
    right; left. by rewrite <- Hother.
  Qed.

Lemma ext_new_b x ndx' :
    hp' !! x = Some ndx' →
    (x = length hp ∧ ndx' = newnd) ∨ (∃ ndx, hp !! x = Some ndx ∧ b ndx = b ndx').
  Proof.
    intros Hx. destruct (ext_new x ndx' Hx) as [?|[[? ?]|[-> ->]]]; [by left|right; eauto..].
  Qed.

Lemma ext_old_b x ndx :
    hp !! x = Some ndx → ∃ ndx', hp' !! x = Some ndx' ∧ b ndx' = b ndx.
  Proof. intros Hx. destruct (ext_old x ndx Hx) as [?|(-> & -> & ?)]; eauto. Qed.

Lemma ext_no_path : ¬ has_path hp (b nd ++ [c]).
  Proof. intros (x & Hx). by rewrite (node_at_child hp Hsh a nd c x) in Hc. Qed.

Lemma shape_extend : shape hp'.
  Proof.
    pose proof ext_a_lt as Hlt. split.
    - destruct (sh_root _ Hsh) as (rd & Hr & Hrr & Hrb).
      destruct (ext_old 0 rd Hr) as [H|(? & -> & H)]; eauto.
    - intros x ndx' Hx Hne.
      destruct (ext_new x ndx' Hx) as [[-> ->]|[[? Hx0]|[-> ->]]];
        [done|by eapply sh_nonroot|by apply (sh_nonroot _ Hsh a nd)].
    - intros x ndx' y q' Hx Hy.
      assert (∀ ndx, hp !! x = Some ndx → b ndx = b ndx' → child ndx y = Some q' →
                ∃ qd, hp' !! q' = Some qd ∧ b qd = b ndx' ++ [y]) as Hold.
      { intros ndx Hx0 Hbx Hy0. destruct (sh_child _ Hsh x ndx y q' Hx0 Hy0) as (qd & Hqd & Hbq).
        destruct (ext_old_b q' qd Hqd) as (qd' & ? & ?). exists qd'. split; congruence. }
      destruct (ext_new x ndx' Hx) as [[-> ->]|[[? Hx0]|[-> ->]]].
      + by rewrite Hch in Hy.
      + eauto.
      + simpl in Hy. destruct (decide (y = c)) as [->|Hne]; [|eauto].
        simplify_eq. exists newnd. done.
    - intros x ndx' Hx Hne.
      assert (∀ ndx, hp !! x = Some ndx → b ndx = b ndx' →
                ∃ a0 nd0 c0, hp' !! a0 = Some nd0 ∧ child nd0 c0 = Some x ∧ b ndx' = b nd0 ++ [c0])
        as Hold.
      { intros ndx Hx0 Hbx. destruct (sh_parent _ Hsh x ndx Hx0 Hne) as (a0 & nd0 & c0 & Ha0 & Hc0 & Hb0).
        destruct (ext_old a0 nd0 Ha0) as [H|(-> & -> & H)].
        - exists a0, nd0, c0. split_and!; congruence.
        - exists a, (set_child c (Some (length hp)) nd), c0. split_and!; [done| |simpl; congruence].
          simpl. destruct (decide (c0 = c)) as [->|]; congruence. }
      destruct (ext_new x ndx' Hx) as [[-> ->]|[[? Hx0]|[-> ->]]]; [|eauto..].
      exists a, (set_child c (Some (length hp)) nd), c. split_and!; [done| |done].
      simpl. by rewrite decide_True.
    - intros x x' ndx ndx' Hx Hx' Hbb.
      destruct (ext_new_b x ndx Hx) as [[-> ->]|(nd0 & Hx0 & Hb0)];
        destruct (ext_new_b x' ndx' Hx') as [[-> ->]|(nd0' & Hx0' & Hb0')]; [done| | |].
      + destruct ext_no_path. exists x', nd0'. split; congruence.
      + destruct ext_no_path. exists x, nd0. split; congruence.
      + apply (sh_inj _ Hsh x x' nd0 nd0'); congruence.
    - intros x ndx' Hx.
      destruct (ext_new_b x ndx' Hx) as [[-> ->]|(nd0 & Hx0 & Hb0)].
      + rewrite Hb, length_app. simpl. pose proof (sh_depth _ Hsh a nd Ha). lia.
      + rewrite <- Hb0. by eapply sh_depth.
  Qed.

Lemma has_path_extend w : has_path hp' w ↔ has_path hp w ∨ w = b nd ++ [c].
  Proof.
    split.
    - intros (x & ndx' & Hx & Hbx).
      destruct (ext_new_b x ndx' Hx) as [[-> ->]|(nd0 & Hx0 & Hb0)].
      + right. congruence.
      + left. exists x, nd0. split; congruence.
    - intros [(x & ndx & Hx & Hbx)| ->].
      + destruct (ext_old_b x ndx Hx) as (ndx' & ? & ?). exists x, ndx'. split; congruence.
      + exists (length hp), newnd. done.
  Qed.

Lemma outputs_extend D :
    outputs hp D → (∀ w, w ∈ D → has_path hp w) → output newnd = false → outputs hp' D.
  Proof.
    intros [H1 H2] HD Hout. split.
    - intros x ndx' Hx. destruct (ext_new x ndx' Hx) as [[-> ->]|[[? Hx0]|[-> ->]]].
      + rewrite Hout, Hb. split; [done|]. intros Hin. destruct ext_no_path. eauto.
      + eauto.
      + apply (H1 a nd Ha).
    - intros x ndx' Hx. destruct (ext_new x ndx' Hx) as [[-> ->]|[[? Hx0]|[-> ->]]].
      + by rewrite Hout.
      + eauto.
      + apply (H2 a nd Ha).
  Qed.

Lemma fresh_extend :
    fresh hp → fresh_node newnd → counter newnd = 0%Z → fresh hp'.
  Proof.
    intros [H1 H2] Hf Hcnt. split.
    - intros x ndx' Hx Hne. destruct (ext_new x ndx' Hx) as [[-> ->]|[[? Hx0]|[-> ->]]].
      + done.
      + eauto.
      + apply (H1 a nd Ha Hne).
    - intros x ndx' Hx. destruct (ext_new x ndx' Hx) as [[-> ->]|[[? Hx0]|[-> ->]]].
      + done.
      + eauto.
      + apply (H2 a nd Ha).
  Qed.
End extend.

End FixedArrayBuild.

Module FixedArrayInsert.
Import FixedArray FixedArrayTrie FixedArrayBuild.

(** Total length of the patterns: a bound on the number of allocations. *)
Definition total_length (D : list (list byte)) : nat := sum_list (length <$> D).

Lemma nodes_snoc n : Some <$> seq 0 (S n) = (Some <$> seq 0 n) ++ [Some n].
Proof. by rewrite seq_S, fmap_app. Qed.

Lemma trie_step_spec hp nodes n path c D (P : list byte → Prop) :
  building hp nodes D → node_at hp n path → within hp P → P (path ++ [c]) →
  ∃ hp' nodes' n',
    trie_step (Some 0) (hp, nodes, Some n, path) c = Some (hp', nodes', Some n', path ++ [c]) ∧
    building hp' nodes' D ∧ node_at hp' n' (path ++ [c]) ∧ within hp' P ∧
    length hp' ≤ S (length hp).
Proof.
  intros [Hsh Hnodes Hout Hfr Hdict] (nd & Hn & Hb) Hwithin HP.
  unfold trie_step. simpl. rewrite Hn. simpl.
  destruct (child nd c) as [q|] eqn:Hc.
  - exists hp, nodes, q. split_and!; [done|done| |done|lia].
    subst path. by eapply child_node_at.
  - eexists _, _, _. split; [reflexivity|].
    set (q := length hp).
    set (newnd := mkNode false (path ++ [c]) false 0 0 (λ _, None) (λ _, None) (Some 0)
                    (if decide (length (path ++ [c]) = 1) then Some 0 else None)).
    set (hp1 := alter (set_b (path ++ [c])) q
                  (alter (set_child c (Some q)) n (hp ++ [zero_node]))).
    set (hp2 := if decide (length (path ++ [c]) = 1)
                then alter (set_fail (Some 0)) q hp1 else hp1).
    assert (n < q) as Hlt by (by eapply lookup_lt_Some).
    assert (length hp2 = S q) as Hlen.
    { unfold hp2, hp1. destruct (decide _); rewrite !length_alter, length_app; simpl; lia. }
    assert (alter (set_suffix (Some 0)) q hp2 !! q = Some newnd) as Hq.
    { rewrite list_lookup_alter_eq. unfold hp2, hp1, newnd.
      destruct (decide _);
        rewrite !list_lookup_alter_eq, ?list_lookup_alter_ne, list_lookup_middle by (done || lia);
        done. }
    assert (alter (set_suffix (Some 0)) q hp2 !! n = Some (set_child c (Some q) nd)) as Hn'.
    { rewrite list_lookup_alter_ne by lia. unfold hp2, hp1.
      destruct (decide _);
        rewrite ?(list_lookup_alter_ne _ _ q n) by lia;
        rewrite list_lookup_alter_eq, lookup_app_l, Hn by lia; done. }
    assert (∀ x, x ≠ n → x ≠ q → alter (set_suffix (Some 0)) q hp2 !! x = hp !! x) as Hoth.
    { intros x Hx1 Hx2. rewrite list_lookup_alter_ne by lia. unfold hp2, hp1.
      destruct (decide _); rewrite !list_lookup_alter_ne by lia.
      all: destruct (decide (x < q)); [by rewrite lookup_app_l by lia|].
      all: rewrite !lookup_ge_None_2; [done|lia|rewrite length_app; simpl; lia]. }
    assert (b newnd = b nd ++ [c]) as Hbn by (simpl; congruence).
    split_and!.
    + split.
      * eapply (shape_extend hp _ n nd newnd c); eauto.
      * rewrite !length_alter, Hlen, nodes_snoc. by rewrite Hnodes.
      * eapply (outputs_extend hp _ n nd newnd c); eauto.
        intros w Hw. apply Hdict. right. exists w. done.
      * eapply (fresh_extend hp _ n nd newnd c); eauto.
        split; simpl; [done|]. intros Hl. by rewrite decide_True.
      * intros w Hw. eapply (has_path_extend hp _ n nd newnd c); eauto.
    + exists newnd. done.
    + intros w Hw. eapply (has_path_extend hp _ n nd newnd c) in Hw as [Hw| ->]; eauto.
      by rewrite Hb.
    + rewrite length_alter, Hlen. done.
Qed.

Lemma trie_blice_cons rt st c rest :
  trie_blice rt st (c :: rest) = st' ← trie_step rt st c; trie_blice rt st' rest.
Proof. done. Qed.

Lemma trie_entries_cons rt st i blice rest :
  trie_entries rt st i (blice :: rest) =
  st' ← trie_entry rt st i blice; trie_entries rt st' (S i) rest.
Proof. done. Qed.

Lemma trie_blice_spec bl : ∀ hp nodes n path D (P : list byte → Prop),
  building hp nodes D → node_at hp n path → within hp P →
  (∀ w, w `prefix_of` path ++ bl → P w) →
  ∃ hp' nodes' n',
    trie_blice (Some 0) (hp, nodes, Some n, path) bl = Some (hp', nodes', Some n', path ++ bl) ∧
    building hp' nodes' D ∧ node_at hp' n' (path ++ bl) ∧ within hp' P ∧
    length hp' ≤ length hp + length bl.
Proof.
  induction bl as [|c bl IH]; intros hp nodes n path D P Hbd Hn Hw HP.
  - exists hp, nodes, n. rewrite app_nil_r. simpl. split_and!; [done..|lia].
  - destruct (trie_step_spec hp nodes n path c D P) as (hp1 & nodes1 & n1 & Hstep & Hbd1 & Hn1 & Hw1 & Hl1);
      [done..| |].
    { apply HP. exists bl. by rewrite <- app_assoc. }
    destruct (IH hp1 nodes1 n1 (path ++ [c]) D P) as (hp2 & nodes2 & n2 & Hrest & Hbd2 & Hn2 & Hw2 & Hl2);
      [done..| |].
    { intros w Hpre. apply HP. by rewrite <- app_assoc in Hpre. }
    exists hp2, nodes2, n2. rewrite trie_blice_cons, Hstep. simpl.
    rewrite <- app_assoc in Hrest, Hn2. simpl in Hrest, Hn2.
    split_and!; [done..|]. simpl. lia.
Qed.

Lemma trie_entry_spec hp nodes D blice :
  building hp nodes D → within hp (is_path D) →
  ∃ hp' nodes',
    trie_entry (Some 0) (hp, nodes) (length D) blice = Some (hp', nodes') ∧
    building hp' nodes' (D ++ [blice]) ∧ within hp' (is_path (D ++ [blice])) ∧
    length hp' ≤ length hp + length blice.
Proof.
  intros Hbd Hw.
  destruct (trie_blice_spec blice hp nodes 0 [] D (is_path (D ++ [blice])))
    as (hp1 & nodes1 & n & Hloop & [Hsh Hnodes Hout Hfr Hdict] & (nd & Hn & Hb) & Hw1 & Hl1); [done| | | |].
  { apply node_at_root, Hbd. }
  { intros w Hp. apply is_path_snoc. left. by apply Hw. }
  { intros w Hp. apply is_path_snoc. by right. }
  simpl in Hloop, Hb.
  set (hp2 := alter (set_index (Z.of_nat (length D))) n (alter (set_output true) n hp1)).
  assert (same_frame hp1 hp2) as Hsf.
  { eapply same_by_trans; apply same_by_alter; done. }
  assert (hp2 !! n = Some (set_index (Z.of_nat (length D)) (set_output true nd))) as Hn2.
  { unfold hp2. by rewrite !list_lookup_alter_eq, Hn. }
  assert (∀ x, x ≠ n → hp2 !! x = hp1 !! x) as Hoth.
  { intros x Hx. unfold hp2. by rewrite !list_lookup_alter_ne. }
  exists hp2, nodes1. unfold trie_entry. cbv beta iota.
  rewrite Hloop. simpl. rewrite Hn. simpl.
  split_and!; [done| | |].
  - split.
    + by eapply shape_same.
    + by rewrite <- (same_by_length _ _ _ Hsf).
    + split.
      * intros x ndx Hx. destruct (decide (x = n)) as [->|Hne].
        -- rewrite Hn2 in Hx. apply (inj Some) in Hx as <-. simpl. rewrite Hb.
           split; [|done]. intros _.
           apply elem_of_app. right. by apply list_elem_of_singleton.
        -- rewrite Hoth in Hx by done. rewrite (out_iff _ _ Hout x ndx Hx).
           rewrite elem_of_app, list_elem_of_singleton.
           split; [tauto|]. intros [?|Hbx]; [done|].
           destruct Hne. eapply (sh_inj _ Hsh); eauto. congruence.
      * intros x ndx Hx Ho. destruct (decide (x = n)) as [->|Hne].
        -- rewrite Hn2 in Hx. apply (inj Some) in Hx as <-. simpl. rewrite Hb.
           apply last_index_snoc_new.
        -- rewrite Hoth in Hx by done. apply last_index_snoc_old; [|by eapply out_index].
           intros Hbx. destruct Hne. eapply (sh_inj _ Hsh); eauto. congruence.
    + destruct Hfr as [H1 H2]. split.
      * intros x ndx Hx Hne. destruct (decide (x = n)) as [->|Hne'].
        -- rewrite Hn2 in Hx. apply (inj Some) in Hx as <-. apply (H1 n nd Hn Hne).
        -- rewrite Hoth in Hx by done. eauto.
      * intros x ndx Hx. destruct (decide (x = n)) as [->|Hne'].
        -- rewrite Hn2 in Hx. apply (inj Some) in Hx as <-. apply (H2 n nd Hn).
        -- rewrite Hoth in Hx by done. eauto.
    + intros w Hp. apply (has_path_same hp1); [done|].
      apply is_path_snoc in Hp as [Hp|[k ->]]; [by apply Hdict|].
      apply (has_path_prefix hp1 Hsh w k). exists n, nd. done.
  - intros w Hp. apply Hw1. apply (has_path_same hp2); [by apply same_by_sym|done].
  - by rewrite <- (same_by_length _ _ _ Hsf).
Qed.

Lemma trie_entries_spec D1 : ∀ hp nodes D0,
  building hp nodes D0 → within hp (is_path D0) →
  ∃ hp' nodes',
    trie_entries (Some 0) (hp, nodes) (length D0) D1 = Some (hp', nodes') ∧
    building hp' nodes' (D0 ++ D1) ∧ within hp' (is_path (D0 ++ D1)) ∧
    length hp' ≤ length hp + total_length D1.
Proof.
  induction D1 as [|blice D1 IH]; intros hp nodes D0 Hbd Hw.
  - exists hp, nodes. rewrite app_nil_r. simpl. split_and!; [done..|lia].
  - destruct (trie_entry_spec hp nodes D0 blice) as (hp1 & nodes1 & Hent & Hbd1 & Hw1 & Hl1); [done..|].
    destruct (IH hp1 nodes1 (D0 ++ [blice])) as (hp2 & nodes2 & Hrest & Hbd2 & Hw2 & Hl2); [done..|].
    exists hp2, nodes2. rewrite trie_entries_cons, Hent. simpl.
    rewrite length_app, Nat.add_1_r in Hrest. rewrite <- app_assoc in Hbd2, Hw2.
    split_and!; [done..|]. unfold total_length in *. rewrite fmap_cons.
    change (sum_list (length blice :: (length <$> D1)))
      with (length blice + sum_list (length <$> D1)).
    lia.
Qed.

(** The store before the first loop: the root alone. *)
Lemma building_init : building [set_root true zero_node] [Some 0] [].
Proof.
  split.
  - split.
    + by eexists.
    + intros [|a] nd Ha Hne; [done|]. by simpl in Ha.
    + intros [|a] nd c q Ha Hc; [|done]. by simplify_eq/=.
    + intros [|a] nd Ha Hne; [done|]. by simpl in Ha.
    + intros [|a] [|a'] nd nd' Ha Ha' _; simplify_eq/=; done.
    + intros [|a] nd Ha; [|done]. by simplify_eq/=.
  - done.
  - split.
    + intros [|a] nd Ha; [|done]. simplify_eq/=. split; [done|]. by intros ?%elem_of_nil.
    + intros [|a] nd Ha; [|done]. by simplify_eq/=.
  - split.
    + intros [|a] nd Ha Hne; [done|]. by simpl in Ha.
    + intros [|a] nd Ha; [|done]. by simplify_eq/=.
  - intros w [->|(pat & Hp%elem_of_nil & _)]; [|done]. by exists 0; eexists.
Qed.

Lemma within_init : within [set_root true zero_node] (is_path []).
Proof. intros w ([|a] & nd & Ha & Hb); [|done]. simplify_eq/=. by left. Qed.

End FixedArrayInsert.

(** * Proper suffixes *)

Definition strict_suffix (w u : list byte) : Prop :=
  w `suffix_of` u ∧ length w < length u.

Lemma suffix_is_drop (w u : list byte) :
  w `suffix_of` u → w = drop (length u - length w) u.
Proof.
  intros [k ->]. rewrite length_app.
  replace (length k + length w - length w) with (length k) by lia.
  by rewrite drop_app_length.
Qed.

Lemma suffix_of_suffix (w1 w2 u : list byte) :
  w1 `suffix_of` u → w2 `suffix_of` u → length w1 ≤ length w2 → w1 `suffix_of` w2.
Proof.
  intros H1 H2 Hl. destruct (suffix_weak_total w1 w2 u H1 H2) as [?|H]; [done|].
  pose proof (suffix_length _ _ H).
  assert (w2 = w1) as ->; [|done].
  destruct H as [k Hk]. destruct k as [|x k]; [done|].
  apply (f_equal length) in Hk. rewrite length_app in Hk. simpl in Hk. lia.
Qed.

Lemma suffix_same_length (w1 w2 u : list byte) :
  w1 `suffix_of` u → w2 `suffix_of` u → length w1 = length w2 → w1 = w2.
Proof.
  intros H1 H2 Hl. rewrite (suffix_is_drop w1 u H1), (suffix_is_drop w2 u H2). by rewrite Hl.
Qed.

Lemma strict_suffixes_length bl : length (strict_suffixes bl) = length bl - 1.
Proof. unfold strict_suffixes. by rewrite length_fmap, length_seq. Qed.

Lemma strict_suffixes_lookup bl i w :
  strict_suffixes bl !! i = Some w ↔ w = drop (S i) bl ∧ S i < length bl.
Proof.
  unfold strict_suffixes. rewrite list_lookup_fmap. split.
  - intros H. destruct (seq 1 (length bl - 1) !! i) as [j|] eqn:Hj; [|done].
    apply lookup_seq in Hj as [-> Hj]. simpl in H. simplify_eq. split; [done|lia].
  - intros [-> Hi]. rewrite lookup_seq_lt by lia. done.
Qed.

Lemma elem_of_strict_suffixes w bl :
  w ∈ strict_suffixes bl ↔ w ≠ [] ∧ strict_suffix w bl.
Proof.
  rewrite list_elem_of_lookup. split.
  - intros (i & Hi). apply strict_suffixes_lookup in Hi as [-> Hi].
    assert (length (drop (S i) bl) = length bl - S i) as Hl by apply length_drop.
    split; [|split].
    + intros Hnil. rewrite Hnil in Hl. simpl in Hl. lia.
    + apply suffix_drop.
    + lia.
  - intros (Hne & Hs & Hl). exists (length bl - length w - 1).
    apply strict_suffixes_lookup. destruct w as [|x w]; [done|]. simpl in *.
    split; [|lia]. rewrite (suffix_is_drop (x :: w) bl Hs) at 1. f_equal. simpl. lia.
Qed.

(** [strict_suffixes] lists the proper suffixes from the longest down. *)
Lemma strict_suffixes_before bl pre s post w :
  strict_suffixes bl = pre ++ s :: post →
  w ≠ [] → strict_suffix w bl → length s < length w → w ∈ pre.
Proof.
  intros Hsplit Hne Hw Hlt.
  assert (w ∈ strict_suffixes bl) as Hin by by apply elem_of_strict_suffixes.
  apply list_elem_of_lookup in Hin as (i & Hi).
  assert (strict_suffixes bl !! length pre = Some s) as Hs.
  { rewrite Hsplit. by apply list_lookup_middle. }
  pose proof Hi as Hi'. apply strict_suffixes_lookup in Hi' as [Hwi Hi'].
  apply strict_suffixes_lookup in Hs as [Hsi Hs'].
  apply (f_equal length) in Hwi, Hsi. rewrite length_drop in Hwi, Hsi.
  assert (i < length pre) as Hip by lia.
  rewrite Hsplit, lookup_app_l in Hi by done.
  apply list_elem_of_lookup. eauto.
Qed.

Module FixedArrayLinks.
Import FixedArray FixedArrayTrie FixedArrayBuild FixedArrayInsert.

(** [nd.fail] is the node of the longest proper suffix of [nd.b] that is a
    path of the trie. *)
Definition fail_ok (hp : list node) (nd : node) : Prop :=
  ∃ r rd, fail nd = Some r ∧ hp !! r = Some rd ∧ strict_suffix (b rd) (b nd) ∧
    ∀ w, strict_suffix w (b nd) → has_path hp w → length w ≤ length (b rd).

(** [nd.suffix] is the node of the longest proper suffix of [nd.b] that is a
    non-root output node, or the root when there is none. *)
Definition suffix_ok (hp : list node) (nd : node) : Prop :=
  ∃ r rd, suffix nd = Some r ∧ hp !! r = Some rd ∧ strict_suffix (b rd) (b nd) ∧
    (r = 0 ∨ output rd = true) ∧
    ∀ q qd, hp !! q = Some qd → q ≠ 0 → output qd = true →
            strict_suffix (b qd) (b nd) → length (b qd) ≤ length (b rd).

Definition linked (hp : list node) (nd : node) : Prop := fail_ok hp nd ∧ suffix_ok hp nd.

Lemma fail_ok_same hp hp' nd : same_trie hp hp' → fail_ok hp nd → fail_ok hp' nd.
Proof.
  intros Hst (r & rd & Hf & Hr & Hs & Hmax).
  destruct (same_by_lookup _ _ _ _ _ Hst Hr) as (rd' & Hr' & Hk).
  apply skel_fields in Hk as (Hk%frame_fields & _ & _). destruct Hk as (_ & Hb & _).
  exists r, rd'. rewrite Hb. split_and!; [done..|].
  intros w Hw Hp. apply Hmax; [done|].
  eapply has_path_same; [|done]. by apply same_trie_frame, same_by_sym.
Qed.

Lemma suffix_ok_same hp hp' nd : same_trie hp hp' → suffix_ok hp nd → suffix_ok hp' nd.
Proof.
  intros Hst (r & rd & Hf & Hr & Hs & Hout & Hmax).
  destruct (same_by_lookup _ _ _ _ _ Hst Hr) as (rd' & Hr' & Hk).
  apply skel_fields in Hk as (Hk%frame_fields & Ho & _). destruct Hk as (_ & Hb & _).
  exists r, rd'. rewrite Hb, Ho. split_and!; [done..|].
  intros q qd' Hq Hne Hoq Hsq.
  destruct (same_by_lookup _ _ _ _ _ (same_by_sym _ _ _ Hst) Hq) as (qd & Hq0 & Hk).
  apply skel_fields in Hk as (Hk%frame_fields & Ho' & _). destruct Hk as (_ & Hb' & _).
  rewrite <- Hb'. apply (Hmax q qd); congruence.
Qed.

Lemma linked_same hp hp' nd : same_trie hp hp' → linked hp nd → linked hp' nd.
Proof. intros Hst [? ?]. split; eauto using fail_ok_same, suffix_ok_same. Qed.

Lemma alter_twice (f g : node → node) c (hp : list node) :
  alter f c (alter g c hp) = alter (λ nd, f (g nd)) c hp.
Proof. apply list_alter_alter_eq. Qed.

Lemma alter_same (f : node → node) c (hp : list node) cd :
  hp !! c = Some cd → f cd = cd → alter f c hp = hp.
Proof.
  intros Hc Hf. rewrite <- (list_alter_id id hp c) at 2 by done.
  apply list_alter_ext; [|done]. intros x Hx. by simplify_eq.
Qed.

Lemma fail_loop_cons rt hp c s rest :
  fail_loop rt hp c (s :: rest) =
  r ← findBlice_loop hp rt s;
  if r is Some _ then Some (alter (set_fail r) c hp)
  else fail_loop rt (alter (set_fail r) c hp) c rest.
Proof. done. Qed.

Lemma fail_loop_spec c sufs : ∀ hp, shape hp →
  ∃ v, fail_loop (Some 0) hp c sufs
       = Some (if sufs is [] then hp else alter (set_fail v) c hp) ∧
       match v with
       | Some q => ∃ pre s post, sufs = pre ++ s :: post ∧ node_at hp q s ∧
                                 Forall (λ s', ¬ has_path hp s') pre
       | None => Forall (λ s', ¬ has_path hp s') sufs
       end.
Proof.
  induction sufs as [|s rest IH]; intros hp Hsh.
  - exists None. done.
  - rewrite fail_loop_cons.
    destruct (findBlice_root_spec hp Hsh s) as ([q|] & -> & Hspec); simpl.
    + exists (Some q). split; [done|]. exists [], s, rest. done.
    + assert (same_frame hp (alter (set_fail None) c hp)) as Hsf by by apply same_by_alter.
      destruct (IH (alter (set_fail None) c hp)) as (v & Hloop & Hv).
      { by eapply shape_same. }
      assert (∀ w, ¬ has_path (alter (set_fail None) c hp) w → ¬ has_path hp w) as Hnp.
      { intros w Hw Hp. apply Hw. by eapply has_path_same. }
      exists v. rewrite Hloop. split.
      * destruct rest; [|by rewrite alter_twice].
        destruct v as [q|]; [|done]. destruct Hv as (pre & s' & post & Hv & _).
        by destruct pre.
      * destruct v as [q|].
        -- destruct Hv as (pre & s' & post & -> & Hq & Hpre). exists (s :: pre), s', post.
           split_and!; [done| |].
           ++ eapply node_at_same; [|done]. by apply same_by_sym.
           ++ constructor; [done|]. eapply Forall_impl; [done|]. done.
        -- constructor; [done|]. eapply Forall_impl; [done|]. done.
Qed.

Definition no_output_at (hp : list node) (s : list byte) : Prop :=
  ∀ q qd, hp !! q = Some qd → b qd = s → output qd = false.

Lemma suffix_loop_spec hp c sufs : shape hp →
  ∃ v, suffix_loop (Some 0) hp c sufs
       = Some (if v is Some q then alter (set_suffix (Some q)) c hp else hp) ∧
       match v with
       | Some q => ∃ pre s post qd, sufs = pre ++ s :: post ∧ hp !! q = Some qd ∧
                                    b qd = s ∧ output qd = true ∧
                                    Forall (no_output_at hp) pre
       | None => Forall (no_output_at hp) sufs
       end.
Proof.
  intros Hsh. induction sufs as [|s rest IH].
  - exists None. done.
  - destruct IH as (v & Hloop & Hv). simpl.
    destruct (findBlice_root_spec hp Hsh s) as ([q|] & -> & Hspec); simpl.
    + destruct Hspec as (qd & Hq & Hb). rewrite Hq. simpl.
      destruct (output qd) eqn:Ho.
      * exists (Some q). split; [done|]. exists [], s, rest, qd. done.
      * assert (no_output_at hp s) as Hno.
        { intros q' qd' Hq' Hb'. assert (q' = q) by (eapply (sh_inj _ Hsh); eauto; congruence).
          by simplify_eq. }
        exists v. split; [done|]. destruct v as [q'|].
        -- destruct Hv as (pre & s' & post & qd' & -> & ? & ? & ? & ?).
           exists (s :: pre), s', post, qd'. split_and!; try done. by constructor.
        -- by constructor.
    + assert (no_output_at hp s) as Hno.
      { intros q' qd' Hq' Hb'. destruct Hspec. by exists q', qd'. }
      exists v. split; [done|]. destruct v as [q'|].
      * destruct Hv as (pre & s' & post & qd' & -> & ? & ? & ? & ?).
        exists (s :: pre), s', post, qd'. split_and!; try done. by constructor.
      * by constructor.
Qed.

(** The body of the breadth-first loop gives [c] its two links and writes
    nothing else. *)
Lemma fix_links_spec hp c cd :
  shape hp → hp !! c = Some cd → c ≠ 0 → fresh_node cd →
  ∃ vf vs, fix_links (Some 0) hp c = Some (alter (λ nd, set_suffix vs (set_fail vf nd)) c hp) ∧
           linked hp (set_suffix vs (set_fail vf cd)).
Proof.
  intros Hsh Hc Hne [Hfs Hff].
  assert (b cd ≠ []) as Hbne.
  { eapply (node_at_nonroot hp Hsh c); [|done]. by exists cd. }
  destruct (sh_root _ Hsh) as (rd & Hr & _ & Hrb).
  unfold fix_links. rewrite Hc. simpl.
  destruct (fail_loop_spec c (strict_suffixes (b cd)) hp Hsh) as (v & -> & Hv). simpl.
  (* the fail link after the first loop and the test for nil *)
  set (vf1 := if strict_suffixes (b cd) is [] then fail cd else v).
  set (vf := if vf1 is None then Some 0 else vf1).
  assert ((if strict_suffixes (b cd) is [] then hp else alter (set_fail v) c hp)
          = alter (set_fail vf1) c hp) as ->.
  { unfold vf1. destruct (strict_suffixes (b cd)); [|done].
    symmetry. apply (alter_same _ _ _ cd); [done|]. by destruct cd. }
  rewrite list_lookup_alter_eq, Hc. simpl.
  assert ((if vf1 is None then alter (set_fail (Some 0)) c (alter (set_fail vf1) c hp)
           else alter (set_fail vf1) c hp) = alter (set_fail vf) c hp) as ->.
  { unfold vf. destruct vf1; [done|]. by rewrite alter_twice. }
  rewrite list_lookup_alter_eq, Hc. simpl.
  assert (same_frame hp (alter (set_fail vf) c hp)) as Hsf by by apply same_by_alter.
  assert (same_trie hp (alter (set_fail vf) c hp)) as Hst by by apply same_by_alter.
  destruct (suffix_loop_spec (alter (set_fail vf) c hp) c (strict_suffixes (b cd)))
    as (vs0 & -> & Hvs); [by eapply shape_same|].
  set (vs := if vs0 is Some q then Some q else suffix cd).
  exists vf, vs. split.
  { f_equal. unfold vs. destruct vs0 as [q|]; [by rewrite alter_twice|].
    apply list_alter_ext; [|done]. intros x Hx. rewrite Hc in Hx.
    apply (inj Some) in Hx as <-. by destruct cd. }
  split.
  - (* fail *)
    assert (strict_suffixes (b cd) = [] → length (b cd) = 1) as Hone.
    { intros Hnil. apply (f_equal length) in Hnil. rewrite strict_suffixes_length in Hnil.
      destruct (b cd); simpl in *; [done|lia]. }
    assert (vf = Some 0 ∧ Forall (λ s', ¬ has_path hp s') (strict_suffixes (b cd)) ∨
            ∃ q pre s post, vf = Some q ∧ strict_suffixes (b cd) = pre ++ s :: post ∧
                            node_at hp q s ∧ Forall (λ s', ¬ has_path hp s') pre) as Hcases.
    { unfold vf, vf1. destruct (strict_suffixes (b cd)) as [|s0 rest] eqn:Hss.
      - left. rewrite Hff by auto. done.
      - destruct v as [q|]; [|by left].
        destruct Hv as (pre & s & post & ? & ? & ?). right. by exists q, pre, s, post. }
    destruct Hcases as [[-> Hnone]|(q & pre & s & post & -> & Hsplit & (qd & Hq & Hbq) & Hpre)].
    + exists 0, rd. simpl. rewrite Hrb. split_and!; [done..| |].
      * split; [apply suffix_nil|]. destruct (b cd); simpl; [done|lia].
      * intros w Hw Hp. destruct w as [|x w]; [done|].
        rewrite Forall_forall in Hnone. destruct (Hnone (x :: w)); [|done].
        by apply elem_of_strict_suffixes.
    + assert (s ∈ strict_suffixes (b cd)) as Hin.
      { rewrite Hsplit. apply elem_of_app. right. by left. }
      apply elem_of_strict_suffixes in Hin as [Hsne Hss].
      exists q, qd. simpl. rewrite Hbq. split_and!; [done..|].
      intros w Hw Hp. destruct (decide (length w ≤ length s)) as [|Hgt]; [done|].
      destruct w as [|x w]; [simpl in *; lia|].
      assert (x :: w ∈ pre) as Hin.
      { eapply strict_suffixes_before; eauto. lia. }
      rewrite Forall_forall in Hpre. by destruct (Hpre _ Hin).
  - (* suffix *)
    assert (∀ s, no_output_at (alter (set_fail vf) c hp) s → no_output_at hp s) as Hno.
    { intros s Hs q qd Hq Hb.
      destruct (same_by_lookup _ _ _ _ _ Hst Hq) as (qd' & Hq' & Hk).
      apply skel_fields in Hk as (Hk%frame_fields & Ho & _). destruct Hk as (_ & Hb' & _).
      rewrite <- Ho. apply (Hs q qd'); congruence. }
    destruct vs0 as [q|].
    + destruct Hvs as (pre & s & post & qd' & Hsplit & Hq' & Hbq' & Hoq' & Hpre).
      destruct (same_by_lookup _ _ _ _ _ (same_by_sym _ _ _ Hst) Hq') as (qd & Hq & Hk).
      apply skel_fields in Hk as (Hk%frame_fields & Ho & _). destruct Hk as (_ & Hb' & _).
      assert (s ∈ strict_suffixes (b cd)) as Hin.
      { rewrite Hsplit. apply elem_of_app. right. by left. }
      apply elem_of_strict_suffixes in Hin as [Hsne Hss].
      exists q, qd. simpl. rewrite Hb', Hbq', Ho, Hoq'. split_and!; [done|done|done|by right|].
      intros x xd Hx Hxne Hxo Hxs.
      destruct (decide (length (b xd) ≤ length s)) as [|Hgt]; [done|].
      assert (b xd ∈ pre) as Hin.
      { eapply strict_suffixes_before; eauto; [|lia].
        eapply (node_at_nonroot hp Hsh x); [|done]. by exists xd. }
      rewrite Forall_forall in Hpre. apply Hpre, Hno in Hin.
      rewrite (Hin x xd) in Hxo; done.
    + exists 0, rd. simpl. rewrite Hrb. split_and!; [done|done| |by left|].
      * split; [apply suffix_nil|]. destruct (b cd); simpl; [done|lia].
      * intros x xd Hx Hxne Hxo Hxs.
        assert (b xd ∈ strict_suffixes (b cd)) as Hin.
        { apply elem_of_strict_suffixes. split; [|done].
          eapply (node_at_nonroot hp Hsh x); [|done]. by exists xd. }
        rewrite Forall_forall in Hvs. apply Hvs, Hno in Hin.
        rewrite (Hin x xd) in Hxo; done.
Qed.

End FixedArrayLinks.

Lemma elem_of_all_bytes (c : byte) : c ∈ all_bytes.
Proof.
  unfold all_bytes. apply list_elem_of_omap. exists (Byte.to_nat c). split.
  - apply elem_of_seq. pose proof (Byte.to_nat_bounded c). lia.
  - apply Byte.of_to_nat.
Qed.

Lemma NoDup_all_bytes : NoDup all_bytes.
Proof.
  apply (NoDup_fmap_1 Byte.to_nat).
  replace (Byte.to_nat <$> all_bytes) with (seq 0 256) by (vm_compute; reflexivity).
  apply NoDup_seq.
Qed.

(** [Some x ≫= f] as a rewriting step: the loops over [all_bytes] must not be
    unfolded by conversion. *)
Lemma bind_some {A B} (x : A) (f : A → option B) : Some x ≫= f = f x.
Proof. reflexivity. Qed.

Module FixedArrayBfs.
Import FixedArray FixedArrayTrie FixedArrayBuild FixedArrayInsert FixedArrayLinks.

(** What the breadth-first loop leaves alone: everything but the two links. *)
Definition unlinked (nd : node) : bool * list byte * (byte → ptr) * bool * Z * Z * (byte → ptr) :=
  (skel nd, counter nd, fails nd).

Abbreviation same_unlinked := (same_by unlinked).

Lemma same_unlinked_trie hp hp' : same_unlinked hp hp' → same_trie hp hp'.
Proof. apply (same_by_coarse unlinked (λ x, x.1.1)). Qed.

Definition edge (hp : list node) (a : nat) (c : byte) (q : nat) : Prop :=
  ∃ nd, hp !! a = Some nd ∧ child nd c = Some q.

Lemma edge_same hp hp' a c q : same_frame hp hp' → edge hp a c q → edge hp' a c q.
Proof.
  intros Hsf (nd & Ha & Hc). destruct (same_by_lookup _ _ _ _ _ Hsf Ha) as (nd' & Ha' & Hk).
  apply frame_fields in Hk as (_ & _ & Hch). exists nd'. split; congruence.
Qed.

Lemma edge_unique hp a c q a' c' :
  shape hp → edge hp a c q → edge hp a' c' q → a = a' ∧ c = c'.
Proof.
  intros Hsh (nd & Ha & Hc) (nd' & Ha' & Hc').
  destruct (sh_child _ Hsh a nd c q Ha Hc) as (qd & Hq & Hb).
  destruct (sh_child _ Hsh a' nd' c' q Ha' Hc') as (qd' & Hq' & Hb').
  simplify_eq. rewrite Hb in Hb'. apply app_inj_tail in Hb' as [Hb' ->].
  split; [|done]. eapply (sh_inj _ Hsh); eauto.
Qed.

Lemma edge_target hp a c q :
  shape hp → edge hp a c q → q ≠ 0 ∧ ∃ qd, hp !! q = Some qd.
Proof.
  intros Hsh (nd & Ha & Hc). destruct (sh_child _ Hsh a nd c q Ha Hc) as (qd & Hq & Hb).
  split; [|eauto]. intros ->. destruct (sh_root _ Hsh) as (rd & Hr & _ & Hrb). simplify_eq.
  rewrite Hrb in Hb. by apply app_cons_not_nil in Hb.
Qed.

Lemma edge_parent hp q qd :
  shape hp → hp !! q = Some qd → q ≠ 0 →
  ∃ a nd c, edge hp a c q ∧ hp !! a = Some nd ∧ b qd = b nd ++ [c].
Proof.
  intros Hsh Hq Hne. destruct (sh_parent _ Hsh q qd Hq Hne) as (a & nd & c & Ha & Hc & Hb).
  exists a, nd, c. split_and!; [by exists nd|done..].
Qed.

(** The loop invariant of [for l.Len() > 0]: [ql] is the queue and [E] the
    nodes already dequeued. *)
Record bfs_inv (hp : list node) (ql E : list nat) : Prop := mkBfsInv {
  bi_nodup : NoDup (ql ++ E);
  bi_root : 0 ∈ ql ++ E;
  bi_edge : ∀ a c q, edge hp a c q → (q ∈ ql ++ E ↔ a ∈ E);
  bi_linked : ∀ q qd, hp !! q = Some qd → q ≠ 0 → q ∈ ql ++ E → linked hp qd;
  bi_fresh : ∀ q qd, hp !! q = Some qd → q ≠ 0 → q ∉ ql ++ E → fresh_node qd;
  bi_bound : ∀ q, q ∈ ql ++ E → q < length hp
}.

(** The invariant of the inner loop over the bytes [done] already tried for
    the dequeued node [n]. *)
Record children_inv (hp : list node) (ql E : list nat) (n : nat) (done : list byte) : Prop :=
  mkChildrenInv {
  ci_nodup : NoDup (n :: ql ++ E);
  ci_root : 0 ∈ n :: ql ++ E;
  ci_edge : ∀ a c q, edge hp a c q → (q ∈ n :: ql ++ E ↔ a ∈ E ∨ (a = n ∧ c ∈ done));
  ci_linked : ∀ q qd, hp !! q = Some qd → q ≠ 0 → q ∈ n :: ql ++ E → linked hp qd;
  ci_fresh : ∀ q qd, hp !! q = Some qd → q ≠ 0 → q ∉ n :: ql ++ E → fresh_node qd;
  ci_bound : ∀ q, q ∈ n :: ql ++ E → q < length hp
}.

Lemma elem_of_pushed (x n c : nat) ql E :
  x ∈ n :: (ql ++ [c]) ++ E ↔ x = c ∨ x ∈ n :: ql ++ E.
Proof. rewrite !elem_of_cons, !elem_of_app, list_elem_of_singleton. tauto. Qed.

Lemma elem_of_dequeued (x n : nat) ql E :
  x ∈ ql ++ n :: E ↔ x ∈ n :: ql ++ E.
Proof. rewrite !elem_of_cons, !elem_of_app, elem_of_cons. tauto. Qed.

Lemma bfs_children_cons rt hp l n i rest :
  bfs_children rt hp l n (i :: rest) =
  nd ← hp !! n;
  match child nd i with
  | Some c => hp' ← fix_links rt hp c; bfs_children rt hp' (l ++ [Some c]) n rest
  | None => bfs_children rt hp l n rest
  end.
Proof. done. Qed.

Lemma bfs_children_spec n E rest : ∀ hp ql done,
  shape hp → children_inv hp ql E n done → NoDup (done ++ rest) →
  ∃ hp' ql',
    bfs_children (Some 0) hp (Some <$> ql) n rest = Some (hp', Some <$> ql') ∧
    same_unlinked hp hp' ∧ children_inv hp' ql' E n (done ++ rest).
Proof.
  induction rest as [|i rest IH]; intros hp ql done Hsh Hinv Hnd.
  - exists hp, ql. rewrite app_nil_r. done.
  - rewrite bfs_children_cons.
    assert (n < length hp) as Hn by (apply (ci_bound _ _ _ _ _ Hinv); by left).
    apply lookup_lt_is_Some in Hn as [nd Hn]. rewrite Hn. simpl.
    assert (i ∉ done) as Hi.
    { intros Hin. apply NoDup_app in Hnd as (_ & Hnd & _). apply (Hnd i Hin). by left. }
    assert (n ∉ E) as HnE.
    { pose proof (ci_nodup _ _ _ _ _ Hinv) as H. apply NoDup_cons in H as [H _].
      intros Hin. apply H, elem_of_app. by right. }
    rewrite (cons_middle i done rest), app_assoc in Hnd |- *.
    destruct (child nd i) as [c|] eqn:Hc.
    + assert (edge hp n i c) as Hedge by by exists nd.
      destruct (edge_target hp n i c Hsh Hedge) as (Hc0 & cd & Hcd).
      assert (c ∉ n :: ql ++ E) as Hcnew.
      { rewrite (ci_edge _ _ _ _ _ Hinv n i c Hedge). tauto. }
      destruct (fix_links_spec hp c cd Hsh Hcd Hc0) as (vf & vs & Hfix & Hlinked).
      { by apply (ci_fresh _ _ _ _ _ Hinv c cd). }
      rewrite Hfix. simpl.
      set (hp1 := alter (λ nd0, set_suffix vs (set_fail vf nd0)) c hp) in *.
      assert (same_unlinked hp hp1) as Hsu by by apply same_by_alter.
      pose proof (same_unlinked_trie _ _ Hsu) as Hst.
      pose proof (same_trie_frame _ _ Hst) as Hsf.
      destruct (IH hp1 (ql ++ [c]) (done ++ [i])) as (hp' & ql' & Hrest & Hsu' & Hinv');
        [by eapply shape_same| |done|].
      { destruct Hinv as [I1 I2 I3 I4 I5 I6]. split.
        - apply (NoDup_Permutation_proper _ (c :: n :: ql ++ E)).
          + rewrite <- app_assoc. simpl. rewrite <- Permutation_middle.
            apply Permutation_swap.
          + by apply NoDup_cons.
        - apply elem_of_pushed. by right.
        - intros a' c' q' He'. apply (edge_same hp1 hp) in He'; [|by apply same_by_sym].
          rewrite elem_of_pushed, (I3 a' c' q' He'), elem_of_app, list_elem_of_singleton.
          split.
          + intros [->|[?|[? ?]]]; [|tauto..].
            destruct (edge_unique hp a' c' c n i Hsh He' Hedge) as [-> ->]. tauto.
          + intros [?|[-> [?| ->]]]; [tauto..|].
            left. destruct He' as (nd' & Hn' & Hc'). by simplify_eq.
        - intros q qd Hq Hq0 Hin. apply (linked_same hp hp1 _ Hst).
          destruct (decide (q = c)) as [->|Hqc].
          + unfold hp1 in Hq. rewrite list_lookup_alter_eq, Hcd in Hq. by simplify_eq/=.
          + unfold hp1 in Hq. rewrite list_lookup_alter_ne in Hq by done.
            apply (I4 q qd Hq Hq0). apply elem_of_pushed in Hin as [?|?]; done.
        - intros q qd Hq Hq0 Hin.
          assert (q ≠ c) as Hqc by (intros ->; apply Hin, elem_of_pushed; by left).
          unfold hp1 in Hq. rewrite list_lookup_alter_ne in Hq by done.
          apply (I5 q qd Hq Hq0). intros Hin'. apply Hin, elem_of_pushed. by right.
        - intros q Hin. unfold hp1. rewrite length_alter.
          apply elem_of_pushed in Hin as [->|?]; [by eapply lookup_lt_Some|by apply I6]. }
      exists hp', ql'. rewrite <- Hrest, fmap_app. split_and!; [done| |done].
      by eapply same_by_trans.
    + destruct (IH hp ql (done ++ [i])) as (hp' & ql' & Hrest & Hsu' & Hinv'); [done| |done|].
      { destruct Hinv as [I1 I2 I3 I4 I5 I6]. split; try done.
        intros a' c' q' He'. rewrite (I3 a' c' q' He'), elem_of_app, list_elem_of_singleton.
        split; [tauto|]. intros [?|[-> [?| ->]]]; [tauto..|].
        destruct He' as (nd' & Hn' & Hc'). by simplify_eq. }
      exists hp', ql'. done.
Qed.

Lemma NoDup_bounded_length (l : list nat) (N : nat) :
  NoDup l → (∀ x, x ∈ l → x < N) → length l ≤ N.
Proof.
  intros Hnd Hb. trans (length (seq 0 N)); [|by rewrite length_seq].
  apply submseteq_length, NoDup_submseteq; [done|].
  intros x Hx. apply elem_of_seq. specialize (Hb x Hx). lia.
Qed.

Lemma bfs_cons fuel rt hp p l :
  bfs (S fuel) rt hp (p :: l) =
  n ← p; '(hp', l') ← bfs_children rt hp l n all_bytes; bfs fuel rt hp' l'.
Proof. done. Qed.

Lemma bfs_spec fuel : ∀ hp ql E,
  shape hp → bfs_inv hp ql E → length hp ≤ fuel + length E →
  ∃ hp' E', bfs fuel (Some 0) hp (Some <$> ql) = Some hp' ∧
            same_unlinked hp hp' ∧ bfs_inv hp' [] E'.
Proof.
  induction fuel as [|fuel IH]; intros hp ql E Hsh Hinv Hfuel.
  - destruct ql as [|n ql]; [by exists hp, E|].
    pose proof (NoDup_bounded_length _ (length hp) (bi_nodup _ _ _ Hinv) (bi_bound _ _ _ Hinv)) as Hl.
    rewrite length_app in Hl. simpl in *. lia.
  - destruct ql as [|n ql]; [by exists hp, E|].
    rewrite fmap_cons, bfs_cons, bind_some.
    destruct (bfs_children_spec n E all_bytes hp ql []) as (hp1 & ql1 & Hch & Hsu & Hinv1);
      [done| |rewrite app_nil_l; apply NoDup_all_bytes|].
    { destruct Hinv as [I1 I2 I3 I4 I5 I6]. split; try done.
      intros a c q He. rewrite elem_of_nil. specialize (I3 a c q He). simpl in I3. tauto. }
    rewrite Hch, bind_some. rewrite app_nil_l in Hinv1.
    pose proof (same_trie_frame _ _ (same_unlinked_trie _ _ Hsu)) as Hsf.
    destruct (IH hp1 ql1 (n :: E)) as (hp' & E' & Hbfs & Hsu' & Hinv'); [by eapply shape_same| |..].
    { destruct Hinv1 as [I1 I2 I3 I4 I5 I6]. split.
      - apply (NoDup_Permutation_proper _ (n :: ql1 ++ E)); [|done].
        by rewrite <- Permutation_middle.
      - by apply elem_of_dequeued.
      - intros a c q He. rewrite elem_of_dequeued, (I3 a c q He), elem_of_cons.
        pose proof (elem_of_all_bytes c) as Hc. clear -Hc. tauto.
      - intros q qd Hq Hq0 Hin. apply (I4 q qd Hq Hq0). by apply elem_of_dequeued.
      - intros q qd Hq Hq0 Hin. apply (I5 q qd Hq Hq0). intros Hin'. by apply Hin, elem_of_dequeued.
      - intros q Hin. apply I6. by apply elem_of_dequeued. }
    { rewrite <- (same_by_length _ _ _ Hsu). clear -Hfuel. cbn [length]. lia. }
    exists hp', E'. split_and!; [done| |done]. by eapply same_by_trans.
Qed.

(** When the queue is empty every node has been dequeued. *)
Lemma bfs_inv_all hp E :
  shape hp → bfs_inv hp [] E → ∀ k q qd, hp !! q = Some qd → length (b qd) = k → q ∈ E.
Proof.
  intros Hsh Hinv. induction k as [|k IH]; intros q qd Hq Hl.
  - assert (q = 0) as ->.
    { apply (node_at_nil hp Hsh). exists qd. split; [done|]. by destruct (b qd). }
    apply (bi_root _ _ _ Hinv).
  - assert (q ≠ 0) as Hq0.
    { intros ->. destruct (sh_root _ Hsh) as (rd & Hr & _ & Hrb). simplify_eq.
      by rewrite Hrb in Hl. }
    destruct (edge_parent hp q qd Hsh Hq Hq0) as (a & nd & c & He & Ha & Hb).
    apply (bi_edge _ _ _ Hinv a c q He). apply (IH a nd Ha).
    rewrite Hb, length_app in Hl. simpl in Hl. lia.
Qed.

(** The links of a built trie. *)
Definition all_linked (hp : list node) : Prop :=
  ∀ q qd, hp !! q = Some qd → q ≠ 0 → linked hp qd.

Lemma bfs_links hp nodes D :
  building hp nodes D →
  ∃ hp', bfs (length hp) (Some 0) hp [Some 0] = Some hp' ∧
         same_unlinked hp hp' ∧ all_linked hp'.
Proof.
  intros [Hsh Hnodes Hout Hfr Hdict].
  destruct (bfs_spec (length hp) hp [0] []) as (hp' & E' & Hbfs & Hsu & Hinv); [done| |simpl; lia|].
  { split.
    - apply NoDup_singleton.
    - by left.
    - intros a c q He. destruct (edge_target hp a c q Hsh He) as [Hq0 _].
      simpl. rewrite list_elem_of_singleton, elem_of_nil. tauto.
    - intros q qd Hq Hq0 Hin. simpl in Hin. by apply list_elem_of_singleton in Hin.
    - intros q qd Hq Hq0 _. by apply (fr_links _ Hfr q qd).
    - intros q Hin. simpl in Hin. apply list_elem_of_singleton in Hin as ->.
      destruct (sh_root _ Hsh) as (rd & Hr & _). by eapply lookup_lt_Some. }
  exists hp'. split_and!; [done..|].
  pose proof (same_trie_frame _ _ (same_unlinked_trie _ _ Hsu)) as Hsf.
  intros q qd Hq Hq0. apply (bi_linked _ _ _ Hinv q qd Hq Hq0).
  eapply (bfs_inv_all hp' E'); eauto. by eapply shape_same.
Qed.

End FixedArrayBfs.

Module FixedArrayFails.
Import FixedArray FixedArrayTrie FixedArrayBuild FixedArrayInsert FixedArrayLinks FixedArrayBfs.

(** What the third loop leaves alone: everything but the [fails] arrays. *)
Definition unfailed (nd : node) : bool * list byte * (byte → ptr) * bool * Z * Z * ptr * ptr :=
  (skel nd, counter nd, suffix nd, fail nd).

Abbreviation same_unfailed := (same_by unfailed).

Lemma same_unfailed_trie hp hp' : same_unfailed hp hp' → same_trie hp hp'.
Proof. apply (same_by_coarse unfailed (λ x, x.1.1.1)). Qed.

Lemma unfailed_fields nd nd' :
  unfailed nd' = unfailed nd →
  skel nd' = skel nd ∧ counter nd' = counter nd ∧ suffix nd' = suffix nd ∧ fail nd' = fail nd.
Proof.
  intros H. split_and!;
    [exact (f_equal (λ x, x.1.1.1) H)|exact (f_equal (λ x, x.1.1.2) H)|
     exact (f_equal (λ x, x.1.2) H)|exact (f_equal snd H)].
Qed.

Lemma linked_node hp nd nd' :
  b nd' = b nd → fail nd' = fail nd → suffix nd' = suffix nd → linked hp nd → linked hp nd'.
Proof.
  intros Hb Hf Hs [(r & rd & ? & ? & ? & ?) (r' & rd' & ? & ? & ? & ? & ?)]. split.
  - exists r, rd. rewrite Hb, Hf. done.
  - exists r', rd'. rewrite Hb, Hs. done.
Qed.

Lemma all_linked_same hp hp' : same_unfailed hp hp' → all_linked hp → all_linked hp'.
Proof.
  intros Hsu Hall q qd' Hq Hq0.
  destruct (same_by_lookup _ _ _ _ _ (same_by_sym _ _ _ Hsu) Hq) as (qd & Hq' & Hk).
  apply unfailed_fields in Hk as (Hk & _ & Hs & Hf).
  apply skel_fields in Hk as (Hk%frame_fields & _ & _). destruct Hk as (_ & Hb & _).
  apply (linked_same hp hp'); [by apply same_unfailed_trie|].
  apply (linked_node hp qd qd'); [congruence..|]. by apply (Hall q).
Qed.

Lemma outputs_same hp hp' D : same_trie hp hp' → outputs hp D → outputs hp' D.
Proof.
  intros Hst [H1 H2]. split.
  - intros a nd' Ha.
    destruct (same_by_lookup _ _ _ _ _ (same_by_sym _ _ _ Hst) Ha) as (nd & Ha' & Hk).
    apply skel_fields in Hk as (Hk%frame_fields & Ho & _). destruct Hk as (_ & Hb & _).
    rewrite <- Ho, <- Hb. eauto.
  - intros a nd' Ha.
    destruct (same_by_lookup _ _ _ _ _ (same_by_sym _ _ _ Hst) Ha) as (nd & Ha' & Hk).
    apply skel_fields in Hk as (Hk%frame_fields & Ho & Hi). destruct Hk as (_ & Hb & _).
    rewrite <- Ho, <- Hb, <- Hi. eauto.
Qed.

(** [r] is where the scan resumes from [nd] on byte [c]: the node of the
    longest suffix of [nd.b] that has a child for [c], or the root. *)
Definition fails_target (hp : list node) (nd : node) (c : byte) (r : nat) : Prop :=
  ∃ rd, hp !! r = Some rd ∧ b rd `suffix_of` b nd ∧
        (r = 0 ∨ child rd c ≠ None) ∧
        ∀ w, w `suffix_of` b nd → has_path hp (w ++ [c]) → length w ≤ length (b rd).

Definition fails_ok_on (done : list byte) (hp : list node) (nd : node) : Prop :=
  ∀ c, c ∈ done → ∃ r, fails nd c = Some r ∧ fails_target hp nd c r.

Definition fails_ok (hp : list node) (nd : node) : Prop :=
  ∀ c, ∃ r, fails nd c = Some r ∧ fails_target hp nd c r.

Lemma fails_target_same hp hp' nd nd' c r :
  same_frame hp hp' → b nd' = b nd → fails_target hp nd c r → fails_target hp' nd' c r.
Proof.
  intros Hsf Hb (rd & Hr & Hs & Hc & Hmax).
  destruct (same_by_lookup _ _ _ _ _ Hsf Hr) as (rd' & Hr' & Hk).
  apply frame_fields in Hk as (_ & Hbr & Hch).
  exists rd'. rewrite Hb, Hbr, Hch. split_and!; [done..|].
  intros w Hw Hp. apply Hmax; [done|]. eapply has_path_same; [|done]. by apply same_by_sym.
Qed.

Lemma follow_fail_eq fuel hp n c :
  follow_fail fuel hp n c =
  nd ← deref hp n;
  match child nd c with
  | Some _ => Some n
  | None =>
      if root nd then Some n
      else match fuel with
           | O => None
           | S fuel => follow_fail fuel hp (fail nd) c
           end
  end.
Proof. by destruct fuel. Qed.

Lemma follow_fail_spec hp nd c :
  shape hp → all_linked hp →
  ∀ fuel x xd,
    hp !! x = Some xd → b xd `suffix_of` b nd →
    (∀ w, w `suffix_of` b nd → has_path hp (w ++ [c]) → length w ≤ length (b xd)) →
    length (b xd) ≤ fuel →
    ∃ r, follow_fail fuel hp (Some x) c = Some (Some r) ∧ fails_target hp nd c r.
Proof.
  intros Hsh Hall.
  assert (∀ x xd, hp !! x = Some xd → root xd = true → x = 0) as Hrootx.
  { intros x xd Hx Hr. destruct (decide (x = 0)); [done|].
    by rewrite (sh_nonroot _ Hsh x xd) in Hr. }
  assert (∀ x xd, hp !! x = Some xd → root xd = false → b xd ≠ []) as Hnonroot.
  { intros x xd Hx Hr. eapply (node_at_nonroot hp Hsh x); [by exists xd|].
    intros ->. destruct (sh_root _ Hsh) as (rd & Hrd & Hrr & _). simplify_eq. congruence. }
  induction fuel as [|fuel IH]; intros x xd Hx Hsuf Hmax Hfuel.
  all: rewrite follow_fail_eq; simpl; rewrite Hx; simpl.
  all: destruct (child xd c) as [q|] eqn:Hc.
  all: try (exists x; split; [done|]; exists xd; split_and!; [done|done| |done];
            right; congruence).
  all: destruct (root xd) eqn:Hroot.
  all: try (pose proof (Hrootx x xd Hx Hroot) as ->;
            exists 0; split; [done|]; exists xd; split_and!; [done|done|by left|done]).
  - specialize (Hnonroot x xd Hx Hroot). destruct (b xd); simpl in *; [done|lia].
  - assert (x ≠ 0) as Hx0.
    { intros ->. destruct (sh_root _ Hsh) as (rd & Hr & Hrr & _). simplify_eq. congruence. }
    destruct (Hall x xd Hx Hx0) as [(y & yd & Hf & Hy & [Hys Hyl] & Hymax) _].
    rewrite Hf. apply (IH y yd); [done|by etrans| |lia].
    intros w Hw Hp. apply Hymax.
    + assert (length w ≠ length (b xd)) as Hlen.
      { intros Hl. assert (w = b xd) as -> by by eapply suffix_same_length.
        destruct Hp as (q & Hq). by rewrite (node_at_child hp Hsh x xd c q) in Hc. }
      specialize (Hmax w Hw Hp). split; [|lia].
      eapply suffix_of_suffix; eauto.
    + by eapply has_path_prefix.
Qed.

Lemma fails_bytes_cons hp nodes i c rest :
  fails_bytes hp nodes i (c :: rest) =
  n ← nodes !! i;
  n ← follow_fail (length hp) hp n c;
  p ← nodes !! i; a ← p; _ ← hp !! a;
  fails_bytes (alter (set_fails c n) a hp) nodes i rest.
Proof. done. Qed.

Lemma fails_bytes_spec i nodes bytes : ∀ hp done,
  shape hp → all_linked hp → nodes = Some <$> seq 0 (length hp) → i < length hp →
  (∀ nd, hp !! i = Some nd → fails_ok_on done hp nd) →
  ∃ hp', fails_bytes hp nodes i bytes = Some hp' ∧ same_unfailed hp hp' ∧
         (∀ j, j ≠ i → hp' !! j = hp !! j) ∧
         (∀ nd, hp' !! i = Some nd → fails_ok_on (done ++ bytes) hp' nd).
Proof.
  induction bytes as [|c rest IH]; intros hp done Hsh Hall Hnodes Hi Hdone.
  - exists hp. rewrite app_nil_r. done.
  - rewrite fails_bytes_cons.
    assert (nodes !! i = Some (Some i)) as Hni.
    { rewrite Hnodes, list_lookup_fmap, lookup_seq_lt by done. done. }
    rewrite Hni, bind_some.
    destruct (lookup_lt_is_Some_2 hp i Hi) as [nd Hnd].
    destruct (follow_fail_spec hp nd c Hsh Hall (length hp) i nd Hnd) as (r & Hff & Htarget);
      [done| |by eapply Nat.lt_le_incl, Nat.le_lt_trans; [eapply sh_depth|]|].
    { intros w Hw _. by apply suffix_length. }
    rewrite Hff, !bind_some, Hnd, bind_some.
    set (hp1 := alter (set_fails c (Some r)) i hp).
    assert (same_unfailed hp hp1) as Hsu by by apply same_by_alter.
    pose proof (same_trie_frame _ _ (same_unfailed_trie _ _ Hsu)) as Hsf.
    destruct (IH hp1 (done ++ [c])) as (hp' & Hrest & Hsu' & Hoth & Hok).
    + by eapply shape_same.
    + by eapply all_linked_same.
    + unfold hp1. by rewrite length_alter.
    + unfold hp1. by rewrite length_alter.
    + intros nd1 Hnd1. unfold hp1 in Hnd1. rewrite list_lookup_alter_eq, Hnd in Hnd1.
      apply (inj Some) in Hnd1 as <-. intros c' Hc'.
      apply elem_of_app in Hc' as [Hc'|Hc'%list_elem_of_singleton].
      * destruct (decide (c' = c)) as [->|Hne].
        -- exists r. simpl. rewrite decide_True by done. split; [done|].
           by apply (fails_target_same hp _ nd).
        -- destruct (Hdone nd Hnd c' Hc') as (r' & Hr' & Ht').
           exists r'. simpl. rewrite decide_False by done. split; [done|].
           by apply (fails_target_same hp _ nd).
      * subst c'. exists r. simpl. rewrite decide_True by done. split; [done|].
        by apply (fails_target_same hp _ nd).
    + exists hp'. rewrite <- app_assoc in Hok. split_and!; [done| | |done].
      * by eapply same_by_trans.
      * intros j Hj. rewrite Hoth by done. unfold hp1. by rewrite list_lookup_alter_ne.
Qed.

Lemma fails_nodes_cons hp nodes i rest :
  fails_nodes hp nodes (i :: rest) =
  hp' ← fails_bytes hp nodes i all_bytes; fails_nodes hp' nodes rest.
Proof. done. Qed.

Lemma fails_nodes_spec nodes ixs : ∀ hp (seen : list nat),
  shape hp → all_linked hp → nodes = Some <$> seq 0 (length hp) →
  (∀ i, i ∈ ixs → i < length hp) →
  (∀ i nd, i ∈ seen → hp !! i = Some nd → fails_ok hp nd) →
  ∃ hp', fails_nodes hp nodes ixs = Some hp' ∧ same_unfailed hp hp' ∧
         (∀ i nd, i ∈ seen ++ ixs → hp' !! i = Some nd → fails_ok hp' nd).
Proof.
  induction ixs as [|i rest IH]; intros hp seen Hsh Hall Hnodes Hbound Hseen.
  - exists hp. rewrite app_nil_r. done.
  - rewrite fails_nodes_cons.
    destruct (fails_bytes_spec i nodes all_bytes hp [] Hsh Hall Hnodes)
      as (hp1 & Hbytes & Hsu & Hoth & Hok).
    { apply Hbound. by left. }
    { intros nd _ c Hc. by apply elem_of_nil in Hc. }
    rewrite Hbytes, bind_some.
    pose proof (same_trie_frame _ _ (same_unfailed_trie _ _ Hsu)) as Hsf.
    destruct (IH hp1 (seen ++ [i])) as (hp' & Hrest & Hsu' & Hall').
    + by eapply shape_same.
    + by eapply all_linked_same.
    + by rewrite <- (same_by_length _ _ _ Hsu).
    + intros j Hj. rewrite <- (same_by_length _ _ _ Hsu). apply Hbound. by right.
    + intros j nd Hj Hnd. destruct (decide (j = i)) as [->|Hne].
      * intros c. apply (Hok nd Hnd c). rewrite app_nil_l. apply elem_of_all_bytes.
      * apply elem_of_app in Hj as [Hj|Hj%list_elem_of_singleton]; [|done].
        rewrite Hoth in Hnd by done. intros c.
        destruct (Hseen j nd Hj Hnd c) as (r & Hr & Ht). exists r. split; [done|].
        by apply (fails_target_same hp _ nd).
    + exists hp'. rewrite <- app_assoc in Hall'. split_and!; [done| |done].
      by eapply same_by_trans.
Qed.

(** ** The automaton that [NewMatcher] returns *)
Record automaton (hp : list node) (D : list (list byte)) : Prop := mkAutomaton {
  au_shape : shape hp;
  au_out : outputs hp D;
  au_paths : ∀ w, has_path hp w ↔ is_path D w;
  au_linked : all_linked hp;
  au_fails : ∀ a nd, hp !! a = Some nd → fails_ok hp nd
}.

Definition counters_zero (hp : list node) : Prop :=
  ∀ a nd, hp !! a = Some nd → counter nd = 0%Z.

Lemma NewMatcher_spec D :
  ∃ hp, NewMatcher D = Some (mkMatcher 0 (Some 0) hp) ∧
        automaton hp D ∧ counters_zero hp ∧ length hp ≤ 1 + total_length D.
Proof.
  unfold NewMatcher, buildTrie.
  destruct (trie_entries_spec D _ _ [] building_init within_init)
    as (hp1 & nodes1 & Hins & Hbd & Hwithin & Hlen).
  simpl in Hins, Hbd, Hwithin, Hlen.
  change (length []) with 0 in Hins. rewrite Hins, bind_some.
  destruct (bfs_links hp1 nodes1 D Hbd) as (hp2 & Hbfs & Hsu & Hall).
  rewrite Hbfs, bind_some.
  destruct Hbd as [Hsh Hnodes Hout Hfr Hdict].
  pose proof (same_unlinked_trie _ _ Hsu) as Hst.
  pose proof (same_trie_frame _ _ Hst) as Hsf.
  destruct (fails_nodes_spec nodes1 (seq 0 (length nodes1)) hp2 [])
    as (hp3 & Hfails & Hsu3 & Hfok).
  { by eapply shape_same. }
  { done. }
  { by rewrite <- (same_by_length _ _ _ Hsu). }
  { intros i Hi. apply elem_of_seq in Hi.
    rewrite Hnodes, length_fmap, length_seq, (same_by_length _ _ _ Hsu) in Hi. lia. }
  { intros i nd Hi. by apply elem_of_nil in Hi. }
  rewrite Hfails, bind_some.
  pose proof (same_unfailed_trie _ _ Hsu3) as Hst3.
  pose proof (same_trie_frame _ _ Hst3) as Hsf3.
  exists hp3. split; [done|]. split_and!.
  - split.
    + eapply shape_same; [exact Hsf3|]. by eapply shape_same.
    + eapply outputs_same; [exact Hst3|]. by eapply outputs_same.
    + intros w. split.
      * intros Hp. apply Hwithin. eapply has_path_same; [|exact Hp].
        eapply same_by_sym, same_by_trans; eauto.
      * intros Hp. eapply has_path_same; [exact Hsf3|]. eapply has_path_same; [exact Hsf|].
        by apply Hdict.
    + by eapply all_linked_same.
    + intros a nd Ha. apply (Hfok a nd); [|done]. rewrite app_nil_l. apply elem_of_seq.
      apply lookup_lt_Some in Ha.
      rewrite Hnodes, length_fmap, length_seq, (same_by_length _ _ _ Hsu),
        (same_by_length _ _ _ Hsu3). lia.
  - intros a nd3 Ha.
    destruct (same_by_lookup _ _ _ _ _ (same_by_sym _ _ _ Hsu3) Ha) as (nd2 & Ha2 & Hk2).
    apply unfailed_fields in Hk2 as (_ & Hc2 & _).
    destruct (same_by_lookup _ _ _ _ _ (same_by_sym _ _ _ Hsu) Ha2) as (nd1 & Ha1 & Hk1).
    assert (counter nd1 = counter nd2) as Hc1 by exact (f_equal (λ x, x.1.2) Hk1).
    rewrite <- Hc2, <- Hc1. by eapply fr_counter.
  - rewrite <- (same_by_length _ _ _ Hsu3), <- (same_by_length _ _ _ Hsu). simpl in Hlen. lia.
Qed.

End FixedArrayFails.

(** * Occurrences *)

(** [w] occurs in [t] as a contiguous substring. *)
Definition occurs (w t : list byte) : Prop := ∃ t1 t2, t = t1 ++ w ++ t2.

Lemma occurs_snoc w t c : occurs w (t ++ [c]) ↔ occurs w t ∨ w `suffix_of` t ++ [c].
Proof.
  split.
  - intros (t1 & t2 & H). destruct t2 as [|x t2 _] using rev_ind.
    + right. exists t1. by rewrite app_nil_r in H.
    + left. rewrite !app_assoc in H. apply app_inj_tail in H as [H _].
      exists t1, t2. by rewrite app_assoc.
  - intros [(t1 & t2 & ->)|[k ->]].
    + exists t1, (t2 ++ [c]). by rewrite <- !app_assoc.
    + exists k, []. by rewrite app_nil_r.
Qed.

Lemma occurs_suffix w u t : w `suffix_of` u → occurs u t → occurs w t.
Proof. intros [k ->] (t1 & t2 & ->). exists (t1 ++ k), t2. by rewrite <- !app_assoc. Qed.

Lemma occurs_nil_inv w : occurs w [] → w = [].
Proof.
  intros (t1 & t2 & H). symmetry in H.
  apply app_eq_nil in H as [_ H]. by apply app_eq_nil in H as [H _].
Qed.

Lemma last_index_unique D w w' z : last_index D w z → last_index D w' z → w = w'.
Proof. intros (i & -> & Hi & _) (j & Hj & Hj' & _). apply Nat2Z.inj in Hj as <-. congruence. Qed.

Lemma last_index_fun D w z z' : last_index D w z → last_index D w z' → z = z'.
Proof.
  intros (i & -> & Hi & Hl) (j & -> & Hj & Hl'). f_equal.
  destruct (Nat.lt_trichotomy i j) as [H|[H|H]]; [|done|].
  - by destruct (Hl j H).
  - by destruct (Hl' i H).
Qed.

Lemma last_index_exists D w : w ∈ D → ∃ z, last_index D w z.
Proof.
  induction D as [|p D IH] using rev_ind; intros Hin; [by apply elem_of_nil in Hin|].
  destruct (decide (w = p)) as [->|Hne].
  - eexists. apply last_index_snoc_new.
  - apply elem_of_app in Hin as [Hin|Hin%list_elem_of_singleton]; [|done].
    destruct (IH Hin) as (z & Hz). exists z. by apply last_index_snoc_old.
Qed.

Module FixedArrayGoto.
Import FixedArray FixedArrayTrie FixedArrayBuild FixedArrayInsert FixedArrayLinks FixedArrayBfs
       FixedArrayFails.

(** What [Match] leaves alone: everything but the counters. *)
Definition uncounted (nd : node)
  : bool * list byte * (byte → ptr) * bool * Z * ptr * ptr * (byte → ptr) :=
  (skel nd, suffix nd, fail nd, fails nd).

Abbreviation same_uncounted := (same_by uncounted).

Lemma uncounted_fields nd nd' :
  uncounted nd' = uncounted nd →
  skel nd' = skel nd ∧ suffix nd' = suffix nd ∧ fail nd' = fail nd ∧ fails nd' = fails nd.
Proof.
  intros H. split_and!;
    [exact (f_equal (λ x, x.1.1.1) H)|exact (f_equal (λ x, x.1.1.2) H)|
     exact (f_equal (λ x, x.1.2) H)|exact (f_equal snd H)].
Qed.

Lemma uncounted_all nd nd' :
  uncounted nd' = uncounted nd →
  root nd' = root nd ∧ b nd' = b nd ∧ child nd' = child nd ∧ output nd' = output nd ∧
  index nd' = index nd ∧ suffix nd' = suffix nd ∧ fail nd' = fail nd ∧ fails nd' = fails nd.
Proof.
  intros (Hs & ? & ? & ?)%uncounted_fields.
  apply skel_fields in Hs as (Hf & ? & ?). apply frame_fields in Hf as (? & ? & ?). done.
Qed.

Lemma same_uncounted_trie hp hp' : same_uncounted hp hp' → same_trie hp hp'.
Proof. apply (same_by_coarse uncounted (λ x, x.1.1.1)). Qed.

Lemma same_uncounted_frame hp hp' : same_uncounted hp hp' → same_frame hp hp'.
Proof. intros. by apply same_trie_frame, same_uncounted_trie. Qed.

Lemma automaton_same hp hp' D : same_uncounted hp hp' → automaton hp D → automaton hp' D.
Proof.
  intros Hsu [Hsh Hout Hpaths Hlinked Hfails].
  pose proof (same_uncounted_trie _ _ Hsu) as Hst.
  pose proof (same_trie_frame _ _ Hst) as Hsf.
  pose proof (same_by_sym _ _ _ Hsu) as Hus.
  split.
  - by eapply shape_same.
  - by eapply outputs_same.
  - intros w. rewrite <- Hpaths. split; apply has_path_same; [by apply same_by_sym|done].
  - intros q qd' Hq Hq0.
    destruct (same_by_lookup _ _ _ _ _ Hus Hq) as (qd & Hq' & Hk).
    apply uncounted_all in Hk as (_ & ? & _ & _ & _ & ? & ? & _).
    apply (linked_same hp hp' _ Hst). apply (linked_node hp qd qd'); [congruence..|].
    by apply (Hlinked q).
  - intros a nd' Ha c.
    destruct (same_by_lookup _ _ _ _ _ Hus Ha) as (nd & Ha' & Hk).
    apply uncounted_all in Hk as (_ & Hb & _ & _ & _ & _ & _ & Hfl).
    destruct (Hfails a nd Ha' c) as (r & Hr & Ht). exists r. split; [congruence|].
    apply (fails_target_same hp hp' nd nd'); done.
Qed.

(** [a] is the node of the longest suffix of [t] that is a path of the trie. *)
Definition longest_suffix (hp : list node) (t : list byte) (a : nat) : Prop :=
  ∃ nd, hp !! a = Some nd ∧ b nd `suffix_of` t ∧
        ∀ w, w `suffix_of` t → has_path hp w → length w ≤ length (b nd).

Section goto.
  Context (hp : list node) (D : list (list byte)) (Hau : automaton hp D).
Let Hsh : shape hp := au_shape _ _ Hau.

Lemma longest_suffix_nil : longest_suffix hp [] 0.
  Proof.
    destruct (sh_root _ Hsh) as (rd & Hr & _ & Hb). exists rd. rewrite Hb.
    split_and!; [done..|]. intros w Hw%suffix_nil_inv _. by subst.
  Qed.

  (** A suffix of [t ++ [c]] that is a path is empty or a suffix of [t] that is
      a path, followed by [c]. *)
Lemma suffix_snoc_path (t : list byte) c w :
    w `suffix_of` t ++ [c] → w = [] ∨ ∃ w', w = w' ++ [c] ∧ w' `suffix_of` t.
  Proof.
    intros Hw. destruct w as [|x w _] using rev_ind; [by left|]. right.
    destruct Hw as [k Hk]. rewrite app_assoc in Hk. apply app_inj_tail in Hk as [-> ->].
    exists w. split; [done|]. by exists k.
  Qed.

Lemma goto_child t a nd c f :
    longest_suffix hp t a → hp !! a = Some nd → child nd c = Some f →
    longest_suffix hp (t ++ [c]) f.
  Proof.
    intros (nd' & Ha & Hsuf & Hmax) Ha' Hc. rewrite Ha' in Ha. apply (inj Some) in Ha as <-.
    destruct (sh_child _ Hsh a nd c f Ha' Hc) as (fd & Hf & Hb).
    exists fd. rewrite Hb. split_and!; [done|by apply suffix_app|].
    intros w Hw Hp. destruct (suffix_snoc_path t c w Hw) as [->|(w' & -> & Hw')].
    - simpl. lia.
    - rewrite !length_app. simpl.
      assert (length w' ≤ length (b nd)); [|lia].
      apply Hmax; [done|]. by eapply has_path_prefix.
  Qed.

  (** No child for [c] at the end of the failure chain: no non-empty suffix of
      [t ++ [c]] is a path. *)
Lemma goto_none t c r rd :
    hp !! r = Some rd → b rd = [] → child rd c = None →
    (∀ w, w `suffix_of` t → has_path hp (w ++ [c]) → length w ≤ length (b rd)) →
    longest_suffix hp (t ++ [c]) r.
  Proof.
    intros Hr Hb Hc Hmax. exists rd. rewrite Hb. split_and!; [done|apply suffix_nil|].
    intros w Hw Hp. destruct (suffix_snoc_path t c w Hw) as [->|(w' & -> & Hw')]; [done|].
    specialize (Hmax w' Hw' Hp). rewrite Hb in Hmax.
    destruct w'; [|simpl in Hmax; lia].
    destruct Hp as (q & Hq).
    assert (node_at hp q (b rd ++ [c])) as Hq' by by rewrite Hb.
    by rewrite (node_at_child hp Hsh r rd c q) in Hc.
  Qed.

Lemma goto_fails t a nd c r :
    longest_suffix hp t a → hp !! a = Some nd → child nd c = None →
    fails_target hp nd c r →
    ∃ rd, hp !! r = Some rd ∧
          match child rd c with
          | Some f => longest_suffix hp (t ++ [c]) f
          | None => r = 0 ∧ longest_suffix hp (t ++ [c]) 0
          end.
  Proof.
    intros (nd' & Ha & Hsuf & Hmax) Ha' Hc (rd & Hr & Hrs & Hrc & Hrmax).
    rewrite Ha' in Ha. apply (inj Some) in Ha as <-.
    exists rd. split; [done|].
    assert (∀ w, w `suffix_of` t → has_path hp (w ++ [c]) → length w ≤ length (b rd)) as Hall.
    { intros w Hw Hp. apply Hrmax; [|done].
      eapply suffix_of_suffix; eauto. apply Hmax; [done|]. by eapply has_path_prefix. }
    destruct (child rd c) as [f|] eqn:Hcr.
    - destruct (sh_child _ Hsh r rd c f Hr Hcr) as (fd & Hf & Hb).
      exists fd. rewrite Hb. split_and!; [done|by apply suffix_app; etrans|].
      intros w Hw Hp. destruct (suffix_snoc_path t c w Hw) as [->|(w' & -> & Hw')].
      + simpl. lia.
      + rewrite !length_app. simpl. specialize (Hall w' Hw' Hp). lia.
    - destruct Hrc as [->|?]; [|done]. split; [done|].
      destruct (sh_root _ Hsh) as (rd' & Hr' & _ & Hb).
      rewrite Hr in Hr'. apply (inj Some) in Hr' as <-.
      by apply (goto_none t c 0 rd).
  Qed.

  (** The path of a non-root output node that is a suffix of the text read is
      a suffix of the current node's path. *)
Lemma output_suffix_current t a nd q qd :
    longest_suffix hp t a → hp !! a = Some nd → hp !! q = Some qd →
    b qd `suffix_of` t → b qd `suffix_of` b nd.
  Proof.
    intros (nd' & Ha & Hsuf & Hmax) Ha' Hq Hqs. rewrite Ha' in Ha. apply (inj Some) in Ha as <-.
    eapply suffix_of_suffix; eauto. apply Hmax; [done|]. by exists q, qd.
  Qed.
End goto.

End FixedArrayGoto.

Module FixedArrayScan.
Import FixedArray FixedArrayTrie FixedArrayBuild FixedArrayInsert FixedArrayLinks FixedArrayBfs
       FixedArrayFails FixedArrayGoto.

Lemma longest_suffix_same hp hp' t a :
  same_frame hp hp' → longest_suffix hp t a → longest_suffix hp' t a.
Proof.
  intros Hsf (nd & Ha & Hs & Hmax).
  destruct (same_by_lookup _ _ _ _ _ Hsf Ha) as (nd' & Ha' & Hk).
  apply frame_fields in Hk as (_ & Hb & _). exists nd'. rewrite Hb. split_and!; [done..|].
  intros w Hw Hp. apply Hmax; [done|]. eapply has_path_same; [|done]. by apply same_by_sym.
Qed.

Section scan.
  Context (D : list (list byte)) (cnt : Z).

  (** [Match] writes only counters, and only the value [cnt]. *)
Definition stamps (hp hp' : list node) : Prop :=
    same_uncounted hp hp' ∧
    ∀ a nd nd', hp !! a = Some nd → hp' !! a = Some nd' →
                counter nd' = counter nd ∨ counter nd' = cnt.

Lemma stamps_refl hp : stamps hp hp.
  Proof. split; [done|]. intros a nd nd' H1 H2. left. congruence. Qed.

Lemma stamps_trans hp1 hp2 hp3 : stamps hp1 hp2 → stamps hp2 hp3 → stamps hp1 hp3.
  Proof.
    intros [H1 H1'] [H2 H2']. split; [by eapply same_by_trans|].
    intros a nd1 nd3 Ha1 Ha3.
    destruct (same_by_lookup _ _ _ _ _ H1 Ha1) as (nd2 & Ha2 & _).
    destruct (H1' a nd1 nd2 Ha1 Ha2) as [E1|E1], (H2' a nd2 nd3 Ha2 Ha3) as [E2|E2];
      [left|right|right|right]; congruence.
  Qed.

Lemma stamps_mark hp s : stamps hp (alter (set_counter cnt) s hp).
  Proof.
    split; [by apply same_by_alter|]. intros a nd nd' Ha Ha'.
    destruct (decide (a = s)) as [->|Hne].
    - rewrite list_lookup_alter_eq, Ha in Ha'. simplify_eq/=. by right.
    - rewrite list_lookup_alter_ne in Ha' by done. left. congruence.
  Qed.

  (** A node is marked for this call when its counter is [cnt]; the marked
      nodes are the non-root output nodes that satisfy [P]. *)
Definition marks_ok (hp : list node) (P : list byte → Prop) : Prop :=
    ∀ q qd, hp !! q = Some qd → (counter qd = cnt ↔ q ≠ 0 ∧ output qd = true ∧ P (b qd)).

  (** [hits] lists the indices of the marked nodes, each node once. *)
Definition hits_ok (hp : list node) (hits : list Z) : Prop :=
    ∃ ms, NoDup ms ∧ (∀ q, q ∈ ms ↔ ∃ qd, hp !! q = Some qd ∧ counter qd = cnt) ∧
          Forall2 (λ q z, ∃ qd, hp !! q = Some qd ∧ counter qd = cnt ∧ index qd = z) ms hits.

Lemma hits_ok_mark hp s sd hits :
    hp !! s = Some sd → counter sd ≠ cnt → hits_ok hp hits →
    hits_ok (alter (set_counter cnt) s hp) (hits ++ [index sd]).
  Proof.
    intros Hs Hc (ms & Hnd & Hin & Hall).
    assert (s ∉ ms) as Hsms.
    { intros (qd & Hq & Hqc)%Hin. by simplify_eq. }
    exists (ms ++ [s]). split_and!.
    - apply NoDup_app. split_and!; [done| |apply NoDup_singleton].
      intros x Hx ->%list_elem_of_singleton. done.
    - intros q. rewrite elem_of_app, list_elem_of_singleton, Hin.
      destruct (decide (q = s)) as [->|Hne].
      + rewrite list_lookup_alter_eq, Hs. simpl. split; [|tauto].
        intros _. by eexists.
      + rewrite list_lookup_alter_ne by done. tauto.
    - apply Forall2_app.
      + eapply Forall2_impl; [done|]. intros q z (qd & Hq & Hqc & Hi).
        exists qd. rewrite list_lookup_alter_ne; [done|]. intros ->. by simplify_eq.
      + constructor; [|constructor]. exists (set_counter cnt sd).
        by rewrite list_lookup_alter_eq, Hs.
  Qed.

Lemma suffix_walk_eq fuel hp f hits :
    suffix_walk fuel cnt hp f hits =
    fd ← hp !! f;
    sd ← deref hp (suffix fd);
    if root sd then Some (hp, hits)
    else match fuel with
         | O => None
         | S fuel =>
             s ← suffix fd;
             if decide (counter sd ≠ cnt)
             then suffix_walk fuel cnt (alter (set_counter cnt) s hp) s (hits ++ [index sd])
             else Some (hp, hits)
         end.
  Proof. by destruct fuel. Qed.

  (** The walk up the suffix links from [f], entered when every output node
      whose path is a suffix of [t'] at least as long as [f]'s is marked. *)
Lemma suffix_walk_spec (t t' : list byte) : ∀ fuel hp f fd hits,
    automaton hp D → hp !! f = Some fd → f ≠ 0 → b fd `suffix_of` t' →
    length (b fd) ≤ fuel →
    marks_ok hp (λ w, occurs w t ∨ (w `suffix_of` t' ∧ length (b fd) ≤ length w)) →
    hits_ok hp hits →
    ∃ hp' hits',
      suffix_walk fuel cnt hp f hits = Some (hp', hits') ∧ stamps hp hp' ∧
      marks_ok hp' (λ w, occurs w t ∨ w `suffix_of` t') ∧ hits_ok hp' hits'.
  Proof.
    induction fuel as [|fuel IH]; intros hp f fd hits Hau Hf Hf0 Hft Hfuel Hmarks Hhits.
    all: pose proof (au_shape _ _ Hau) as Hsh.
    all: destruct (au_linked _ _ Hau f fd Hf Hf0)
           as [_ (s & sd & Hsuf & Hs & [Hss Hsl] & Hsout & Hsmax)].
    all: rewrite suffix_walk_eq, Hf, bind_some, Hsuf; simpl; rewrite Hs, bind_some.
    all: assert (∀ q qd, hp !! q = Some qd → q ≠ 0 → output qd = true →
                   b qd `suffix_of` t' → ¬ length (b fd) ≤ length (b qd) →
                   b qd `suffix_of` b sd) as Hbelow.
    1,3: intros q qd Hq Hq0 Hqo Hqt Hql;
         assert (b qd `suffix_of` b fd) as Hqf
           by (apply (suffix_of_suffix _ _ t'); [done..|lia]);
         apply (suffix_of_suffix _ _ (b fd)); [done..|];
         apply (Hsmax q qd); [done..|]; split; [done|lia].
    all: destruct (root sd) eqn:Hroot.
    1,3: assert (s = 0) as ->
           by (destruct (decide (s = 0)); [done|];
               by rewrite (sh_nonroot _ Hsh s sd) in Hroot).
    1,2: exists hp, hits; split_and!; [done|apply stamps_refl| |done];
         intros q qd Hq; rewrite (Hmarks q qd Hq);
         split; [tauto|]; intros (Hq0 & Hqo & [?|Hqt]); [tauto|];
         split_and!; [done..|];
         destruct (decide (length (b fd) ≤ length (b qd))); [tauto|];
         destruct (sh_root _ Hsh) as (rd & Hr & _ & Hrb);
         assert (sd = rd) as -> by congruence;
         pose proof (Hbelow q qd Hq Hq0 Hqo Hqt ltac:(done)) as Hq';
         rewrite Hrb in Hq'; apply suffix_nil_inv in Hq';
         destruct Hq0; apply (node_at_nil hp Hsh); by exists qd.
    all: assert (s ≠ 0) as Hs0
        by (intros ->; destruct (sh_root _ Hsh) as (rd & Hr & Hrr & _); congruence).
    - assert (b sd ≠ []) by (eapply (node_at_nonroot hp Hsh s); [by exists sd|done]).
      destruct (b sd); simpl in *; [done|lia].
    - destruct Hsout as [?|Hso]; [done|].
      destruct (decide (counter sd ≠ cnt)) as [Hunmarked|Hmarked].
      + set (hp1 := alter (set_counter cnt) s hp).
        pose proof (stamps_mark hp s) as Hst1. fold hp1 in Hst1.
        assert (hp1 !! s = Some (set_counter cnt sd)) as Hs1
          by (unfold hp1; by rewrite list_lookup_alter_eq, Hs).
        destruct (IH hp1 s (set_counter cnt sd) (hits ++ [index sd]))
          as (hp' & hits' & Hwalk & Hst' & Hmarks' & Hhits').
        * eapply automaton_same; [apply Hst1|done].
        * done.
        * done.
        * simpl. by etrans.
        * simpl. lia.
        * intros q qd1 Hq1. simpl. destruct (decide (q = s)) as [->|Hne].
          -- rewrite Hs1 in Hq1. apply (inj Some) in Hq1 as <-. simpl.
             split; [|done]. intros _. split_and!; [done..|]. right. split; [by etrans|done].
          -- unfold hp1 in Hq1. rewrite list_lookup_alter_ne in Hq1 by done.
             rewrite (Hmarks q qd1 Hq1). split.
             ++ intros (? & ? & [?|[? ?]]); split_and!; [done|done|by left|done|done|].
                right. split; [done|]. lia.
             ++ intros (Hq0 & Hqo & [?|[Hqt Hql]]); split_and!; [done|done|by left|done|done|].
                right. split; [done|].
                destruct (decide (length (b fd) ≤ length (b qd1))) as [|Hlt]; [done|].
                destruct Hne. eapply (sh_inj _ Hsh); eauto.
                eapply (suffix_same_length _ _ t'); [done|by etrans|].
                pose proof (suffix_length _ _ (Hbelow q qd1 Hq1 Hq0 Hqo Hqt Hlt)). lia.
        * by apply hits_ok_mark.
        * exists hp', hits'. split_and!; [done| |done|done]. by eapply stamps_trans.
      + apply dec_stable in Hmarked.
        exists hp, hits. split_and!; [done|apply stamps_refl| |done].
        intros q qd Hq. rewrite (Hmarks q qd Hq).
        split; [tauto|]. intros (Hq0 & Hqo & [?|Hqt]); [tauto|].
        split_and!; [done..|].
        destruct (decide (length (b fd) ≤ length (b qd))); [tauto|]. left.
        apply (occurs_suffix _ (b sd)); [by apply (Hbelow q qd)|].
        apply (Hmarks s sd Hs) in Hmarked as (_ & _ & [?|[_ ?]]); [done|lia].
  Qed.
End scan.

End FixedArrayScan.

(** What [Match] may report for dictionary [D] and input [S]: the last index
    of a non-empty pattern that occurs in [S]. *)
Definition reported (D : list (list byte)) (S : list byte) (z : Z) : Prop :=
  ∃ w, last_index D w z ∧ w ≠ [] ∧ occurs w S.

Module FixedArrayMatch.
Import FixedArray FixedArrayTrie FixedArrayBuild FixedArrayInsert FixedArrayLinks FixedArrayBfs
       FixedArrayFails FixedArrayGoto FixedArrayScan.

Section scan.
  Context (D : list (list byte)) (cnt : Z).

  (** The part of [match_byte] that runs once the child [f] is entered. *)
Definition enter (hp : list node) (f : nat) (hits : list Z)
    : option (list node * ptr * list Z) :=
    fd ← hp !! f;
    let '(hp, hits) :=
      if output fd && bool_decide (counter fd ≠ cnt)
      then (alter (set_counter cnt) f hp, hits ++ [index fd])
      else (hp, hits) in
    '(hp, hits) ← suffix_walk (length hp) cnt hp f hits;
    Some (hp, Some f, hits).

Lemma match_byte_eq hp a nd hits c :
    hp !! a = Some nd →
    match_byte cnt (hp, Some a, hits) c =
    match child nd c with
    | Some f => enter hp f hits
    | None =>
        if root nd then Some (hp, Some a, hits)
        else rd ← deref hp (fails nd c);
             match child rd c with
             | Some f => enter hp f hits
             | None => Some (hp, fails nd c, hits)
             end
    end.
  Proof.
    intros Ha. unfold match_byte, enter. simpl. rewrite Ha. simpl.
    destruct (child nd c) as [f|] eqn:Hc.
    - rewrite andb_false_r. simpl. rewrite Ha. simpl. by rewrite Hc.
    - destruct (root nd); simpl.
      + rewrite Ha. simpl. by rewrite Hc.
      + done.
  Qed.

Lemma marks_stay hp t c :
    automaton hp D → longest_suffix hp (t ++ [c]) 0 →
    marks_ok cnt hp (λ w, occurs w t) → marks_ok cnt hp (λ w, occurs w (t ++ [c])).
  Proof.
    intros Hau (rd & Hr & _ & Hmax) Hmarks q qd Hq. rewrite (Hmarks q qd Hq).
    pose proof (au_shape _ _ Hau) as Hsh.
    destruct (sh_root _ Hsh) as (rd' & Hr' & _ & Hrb).
    rewrite Hr in Hr'. apply (inj Some) in Hr' as <-.
    rewrite occurs_snoc. split; [tauto|]. intros (Hq0 & Hqo & [?|Hqs]); [tauto|].
    destruct Hq0. apply (node_at_nil hp Hsh). exists qd. split; [done|].
    assert (length (b qd) ≤ length (b rd)) as Hl by (apply Hmax; [done|by exists q, qd]).
    rewrite Hrb in Hl. destruct (b qd); [done|simpl in Hl; lia].
  Qed.

Lemma enter_spec hp t c f hits :
    automaton hp D → longest_suffix hp (t ++ [c]) f → f ≠ 0 →
    marks_ok cnt hp (λ w, occurs w t) → hits_ok cnt hp hits →
    ∃ hp' hits',
      enter hp f hits = Some (hp', Some f, hits') ∧ stamps cnt hp hp' ∧
      marks_ok cnt hp' (λ w, occurs w (t ++ [c])) ∧ hits_ok cnt hp' hits'.
  Proof.
    intros Hau (fd & Hf & Hft & Hfmax) Hf0 Hmarks Hhits.
    pose proof (au_shape _ _ Hau) as Hsh.
    unfold enter. rewrite Hf, bind_some.
    set (st1 := if output fd && bool_decide (counter fd ≠ cnt)
                then (alter (set_counter cnt) f hp, hits ++ [index fd]) else (hp, hits)).
    assert (∃ fd1, stamps cnt hp st1.1 ∧ st1.1 !! f = Some fd1 ∧ b fd1 = b fd ∧
              hits_ok cnt st1.1 st1.2 ∧
              marks_ok cnt st1.1
                (λ w, occurs w t ∨ (w `suffix_of` t ++ [c] ∧ length (b fd1) ≤ length w)))
      as (fd1 & Hst1 & Hf1 & Hb1 & Hhits1 & Hmarks1).
    { assert (∀ q qd, hp !! q = Some qd → b qd `suffix_of` t ++ [c] →
                length (b fd) ≤ length (b qd) → q = f) as Honly.
      { intros q qd Hq Hqs Hql. eapply (sh_inj _ Hsh); eauto.
        eapply (suffix_same_length _ _ (t ++ [c])); [done..|].
        assert (length (b qd) ≤ length (b fd)); [|lia]. apply Hfmax; [done|by exists q, qd]. }
      unfold st1. destruct (output fd) eqn:Hfo; simpl.
      - destruct (decide (counter fd ≠ cnt)) as [Hun|Hm].
        + rewrite bool_decide_eq_true_2 by done. simpl.
          exists (set_counter cnt fd). split_and!.
          * apply stamps_mark.
          * by rewrite list_lookup_alter_eq, Hf.
          * done.
          * by apply hits_ok_mark.
          * intros q qd1 Hq1. simpl. destruct (decide (q = f)) as [->|Hne].
            -- rewrite list_lookup_alter_eq, Hf in Hq1. apply (inj Some) in Hq1 as <-. simpl.
               split; [|done]. intros _. split_and!; [done..|]. by right.
            -- rewrite list_lookup_alter_ne in Hq1 by done. rewrite (Hmarks q qd1 Hq1).
               split; [tauto|]. intros (? & ? & [?|[? ?]]); [tauto|].
               destruct Hne. by eapply Honly.
        + rewrite bool_decide_eq_false_2 by done. simpl. apply dec_stable in Hm.
          exists fd. split_and!; [apply stamps_refl|done..|].
          intros q qd Hq. destruct (decide (q = f)) as [->|Hne].
          * assert (qd = fd) as -> by congruence. split; [|done].
            intros _. split_and!; [done..|]. by right.
          * rewrite (Hmarks q qd Hq). split; [tauto|].
            intros (? & ? & [?|[? ?]]); [tauto|]. destruct Hne. by eapply Honly.
      - exists fd. split_and!; [apply stamps_refl|done..|].
        intros q qd Hq. rewrite (Hmarks q qd Hq). split; [tauto|].
        intros (? & Hqo & [?|[? ?]]); [tauto|].
        assert (q = f) as -> by by eapply Honly. congruence. }
    destruct st1 as [hp1 hits1]. simpl in *.
    destruct (suffix_walk_spec D cnt t (t ++ [c]) (length hp1) hp1 f fd1 hits1)
      as (hp' & hits' & Hwalk & Hst' & Hmarks' & Hhits').
    { eapply automaton_same; [apply Hst1|done]. }
    { done. }
    { done. }
    { by rewrite Hb1. }
    { rewrite Hb1, <- (same_by_length _ _ _ (proj1 Hst1)).
      pose proof (sh_depth _ Hsh f fd Hf). apply lookup_lt_Some in Hf. lia. }
    { done. }
    { done. }
    rewrite Hwalk, bind_some. exists hp', hits'.
    split_and!; [done|by eapply stamps_trans| |done].
    intros q qd Hq. rewrite (Hmarks' q qd Hq), occurs_snoc. done.
  Qed.

Lemma match_byte_spec hp t c a hits :
    automaton hp D → longest_suffix hp t a →
    marks_ok cnt hp (λ w, occurs w t) → hits_ok cnt hp hits →
    ∃ hp' a' hits',
      match_byte cnt (hp, Some a, hits) c = Some (hp', Some a', hits') ∧ stamps cnt hp hp' ∧
      longest_suffix hp' (t ++ [c]) a' ∧
      marks_ok cnt hp' (λ w, occurs w (t ++ [c])) ∧ hits_ok cnt hp' hits'.
  Proof.
    intros Hau Hcur Hmarks Hhits. pose proof (au_shape _ _ Hau) as Hsh.
    pose proof Hcur as (nd & Ha & Hsuf & Hmax).
    rewrite (match_byte_eq hp a nd hits c Ha).
    assert (∀ r rd f, hp !! r = Some rd → child rd c = Some f →
              longest_suffix hp (t ++ [c]) f →
              ∃ hp' a' hits',
                enter hp f hits = Some (hp', Some a', hits') ∧ stamps cnt hp hp' ∧
                longest_suffix hp' (t ++ [c]) a' ∧
                marks_ok cnt hp' (λ w, occurs w (t ++ [c])) ∧ hits_ok cnt hp' hits') as Hmove.
    { intros r rd f Hr Hc Hls.
      assert (edge hp r c f) as He by by exists rd.
      destruct (edge_target hp r c f Hsh He) as [Hf0 _].
      destruct (enter_spec hp t c f hits Hau Hls Hf0 Hmarks Hhits)
        as (hp' & hits' & Hent & Hst & Hm' & Hh').
      exists hp', f, hits'. split_and!; [done..| |done|done].
      eapply longest_suffix_same; [|done]. apply same_uncounted_frame, Hst. }
    destruct (child nd c) as [f|] eqn:Hc.
    - apply (Hmove a nd f Ha Hc). by eapply goto_child.
    - destruct (root nd) eqn:Hroot.
      + assert (a = 0) as ->.
        { destruct (decide (a = 0)); [done|]. by rewrite (sh_nonroot _ Hsh a nd) in Hroot. }
        assert (longest_suffix hp (t ++ [c]) 0) as Hls.
        { destruct (sh_root _ Hsh) as (rd & Hr & _ & Hrb).
          rewrite Ha in Hr. apply (inj Some) in Hr as <-.
          eapply goto_none; eauto. intros w Hw Hp. apply Hmax; [done|].
          by eapply has_path_prefix. }
        exists hp, 0, hits. split_and!; [done|apply stamps_refl|done| |done].
        by eapply marks_stay.
      + destruct (au_fails _ _ Hau a nd Ha c) as (r & Hfl & Htarget).
        destruct (goto_fails hp D Hau t a nd c r Hcur Ha Hc Htarget) as (rd & Hr & Hgoto).
        rewrite Hfl. simpl. rewrite Hr, bind_some.
        destruct (child rd c) as [f|] eqn:Hcr.
        * by apply (Hmove r rd f Hr Hcr).
        * destruct Hgoto as [-> Hls].
          exists hp, 0, hits. split_and!; [done|apply stamps_refl|done| |done].
          by eapply marks_stay.
  Qed.

Lemma match_loop_cons st c rest :
    match_loop cnt st (c :: rest) = st' ← match_byte cnt st c; match_loop cnt st' rest.
  Proof. done. Qed.

Lemma match_loop_spec input : ∀ hp t a hits,
    automaton hp D → longest_suffix hp t a →
    marks_ok cnt hp (λ w, occurs w t) → hits_ok cnt hp hits →
    ∃ hp' a' hits',
      match_loop cnt (hp, Some a, hits) input = Some (hp', Some a', hits') ∧
      stamps cnt hp hp' ∧
      marks_ok cnt hp' (λ w, occurs w (t ++ input)) ∧ hits_ok cnt hp' hits'.
  Proof.
    induction input as [|c rest IH]; intros hp t a hits Hau Hcur Hmarks Hhits.
    - exists hp, a, hits. rewrite app_nil_r. split_and!; [done|apply stamps_refl|done..].
    - destruct (match_byte_spec hp t c a hits Hau Hcur Hmarks Hhits)
        as (hp1 & a1 & hits1 & Hstep & Hst1 & Hcur1 & Hmarks1 & Hhits1).
      destruct (IH hp1 (t ++ [c]) a1 hits1) as (hp' & a' & hits' & Hrest & Hst' & Hmarks' & Hhits');
        [by eapply automaton_same; [apply Hst1|]|done..|].
      exists hp', a', hits'. rewrite match_loop_cons, Hstep, bind_some.
      rewrite <- app_assoc in Hmarks'. split_and!; [done|by eapply stamps_trans|done..].
  Qed.
End scan.

(** A matcher as [NewMatcher] builds it and [Match] keeps it. *)
Definition matcher_ok (D : list (list byte)) (m : Matcher) : Prop :=
  m_root m = Some 0 ∧ automaton (mem m) D.

(** No node carries the stamp that the next call will use. *)
Definition unstamped (m : Matcher) : Prop :=
  ∀ a nd, mem m !! a = Some nd → counter nd ≠ wrap_int (m_counter m + 1).

Lemma Forall2_NoDup {A B} (R : A → B → Prop) (l : list A) (k : list B) :
  Forall2 R l k → NoDup l → (∀ x x' y, R x y → R x' y → x = x') → NoDup k.
Proof.
  intros Hall Hnd Hinj. induction Hall as [|x y l k Hxy Hall IH]; [constructor|].
  apply NoDup_cons in Hnd as [Hx Hnd]. constructor; [|by apply IH].
  intros Hy. apply list_elem_of_lookup in Hy as (i & Hi).
  destruct (Forall2_lookup_r _ _ _ _ _ Hall Hi) as (x' & Hx' & Hx'y).
  apply Hx. rewrite (Hinj x x' y Hxy Hx'y). by eapply list_elem_of_lookup_2.
Qed.

Theorem Match_spec D m input :
  matcher_ok D m → unstamped m →
  ∃ hits m',
    Match m input = Some (hits, m') ∧
    m_root m' = m_root m ∧ m_counter m' = wrap_int (m_counter m + 1) ∧
    stamps (wrap_int (m_counter m + 1)) (mem m) (mem m') ∧
    NoDup hits ∧ ∀ z, z ∈ hits ↔ reported D input z.
Proof.
  intros [Hroot Hau] Hun. pose proof (au_shape _ _ Hau) as Hsh.
  set (cnt := wrap_int (m_counter m + 1)).
  destruct (match_loop_spec D cnt input (mem m) [] 0 [])
    as (hp' & a' & hits & Hloop & Hst & Hmarks & Hhits); [done|by eapply longest_suffix_nil| | |].
  { intros q qd Hq. split; [intros Hc; by destruct (Hun q qd Hq)|].
    intros (Hq0 & _ & Hn%occurs_nil_inv). destruct Hq0. apply (node_at_nil _ Hsh). by exists qd. }
  { exists []. split_and!; [constructor| |constructor].
    intros q. split; [by intros ?%elem_of_nil|]. intros (qd & Hq & Hc). by destruct (Hun q qd Hq). }
  simpl in Hmarks.
  exists hits, (mkMatcher cnt (m_root m) hp'). unfold Match. fold cnt.
  rewrite Hroot, Hloop, bind_some. split_and!; [done..| |].
  all: pose proof (automaton_same _ _ D (proj1 Hst) Hau) as Hau'.
  all: pose proof (au_shape _ _ Hau') as Hsh'; pose proof (au_out _ _ Hau') as Hout'.
  all: destruct Hhits as (ms & Hnd & Hin & Hall).
  all: assert (∀ q qd q' qd', hp' !! q = Some qd → counter qd = cnt →
                 hp' !! q' = Some qd' → counter qd' = cnt → index qd = index qd' → q = q')
         as Hinj.
  1,3: intros q qd q' qd' Hq Hqc Hq' Hqc' Hi;
       apply (Hmarks q qd Hq) in Hqc as (_ & Hqo & _);
       apply (Hmarks q' qd' Hq') in Hqc' as (_ & Hqo' & _);
       pose proof (out_index _ _ Hout' q qd Hq Hqo) as Hl;
       pose proof (out_index _ _ Hout' q' qd' Hq' Hqo') as Hl';
       rewrite Hi in Hl; eapply (sh_inj _ Hsh'); eauto; by eapply last_index_unique.
  - (* no index twice *)
    eapply Forall2_NoDup; [done..|].
    intros q q' z (qd & Hq & Hqc & Hqi) (qd' & Hq' & Hqc' & Hqi').
    eapply Hinj; eauto. congruence.
  - intros z. trans (∃ q qd, hp' !! q = Some qd ∧ counter qd = cnt ∧ index qd = z).
    + split.
      * intros Hz. apply list_elem_of_lookup in Hz as (i & Hi).
        destruct (Forall2_lookup_r _ _ _ _ _ Hall Hi) as (q & _ & qd & ? & ? & ?). eauto.
      * intros (q & qd & Hq & Hqc & Hqi).
        assert (q ∈ ms) as Hqms by (apply Hin; eauto).
        apply list_elem_of_lookup in Hqms as (i & Hi).
        destruct (Forall2_lookup_l _ _ _ _ _ Hall Hi) as (z' & Hz' & qd' & Hq' & _ & Hqi').
        assert (z' = z) as <- by congruence. by eapply list_elem_of_lookup_2.
    + split.
      * intros (q & qd & Hq & Hqc & Hqi).
        apply (Hmarks q qd Hq) in Hqc as (Hq0 & Hqo & Hocc).
        exists (b qd). split_and!; [|by eapply (node_at_nonroot hp' Hsh' q); [exists qd|]|done].
        rewrite <- Hqi. by eapply out_index.
      * intros (w & Hlast & Hw & Hocc).
        assert (w ∈ D) as HwD.
        { destruct Hlast as (i & _ & Hi & _). by eapply list_elem_of_lookup_2. }
        assert (has_path hp' w) as (q & qd & Hq & Hb).
        { apply (au_paths _ _ Hau'). right. by exists w. }
        assert (output qd = true) as Hqo by (apply (out_iff _ _ Hout' q qd Hq); by rewrite Hb).
        exists q, qd. split_and!; [done| |].
        -- apply (Hmarks q qd Hq). rewrite Hb. split_and!; [|done..].
           intros ->. destruct (sh_root _ Hsh') as (rd & Hr & _ & Hrb). congruence.
        -- eapply last_index_fun; [|done]. rewrite <- Hb. by eapply out_index.
Qed.

End FixedArrayMatch.

Module FixedArrayFrame.
Import FixedArray FixedArrayTrie FixedArrayBuild FixedArrayInsert FixedArrayLinks FixedArrayBfs
       FixedArrayFails FixedArrayGoto FixedArrayScan FixedArrayMatch.

(** ** What a call writes, for any matcher *)

Lemma suffix_walk_frame cnt : ∀ fuel hp f hits hp' hits',
  suffix_walk fuel cnt hp f hits = Some (hp', hits') → stamps cnt hp hp'.
Proof.
  induction fuel as [|fuel IH]; intros hp f hits hp' hits' H.
  all: rewrite suffix_walk_eq in H.
  all: apply bind_Some in H as (fd & Hf & H); apply bind_Some in H as (sd & Hs & H).
  all: destruct (root sd); [simplify_eq; apply stamps_refl|].
  - done.
  - apply bind_Some in H as (s & Hsuf & H).
    destruct (decide (counter sd ≠ cnt)); [|simplify_eq; apply stamps_refl].
    eapply stamps_trans; [apply stamps_mark|]. by eapply IH.
Qed.

Lemma match_byte_frame cnt hp n hits c hp' n' hits' :
  match_byte cnt (hp, n, hits) c = Some (hp', n', hits') → stamps cnt hp hp'.
Proof.
  unfold match_byte. intros H.
  apply bind_Some in H as (nd & Hn & H). apply bind_Some in H as (nd' & Hn' & H).
  destruct (child nd' c) as [f|]; [|simplify_eq; apply stamps_refl].
  apply bind_Some in H as (fd & Hf & H).
  destruct (output fd && bool_decide (counter fd ≠ cnt)).
  - apply bind_Some in H as ([hp1 hits1] & Hw & H). simplify_eq.
    eapply stamps_trans; [apply stamps_mark|]. by eapply suffix_walk_frame.
  - apply bind_Some in H as ([hp1 hits1] & Hw & H). simplify_eq.
    by eapply suffix_walk_frame.
Qed.

Lemma match_loop_frame cnt input : ∀ hp n hits hp' n' hits',
  match_loop cnt (hp, n, hits) input = Some (hp', n', hits') → stamps cnt hp hp'.
Proof.
  induction input as [|c rest IH]; intros hp n hits hp' n' hits' H.
  - simpl in H. simplify_eq. apply stamps_refl.
  - rewrite match_loop_cons in H. apply bind_Some in H as ([[hp1 n1] hits1] & Hstep & H).
    eapply stamps_trans; [by eapply match_byte_frame|by eapply IH].
Qed.

Lemma Match_frame m input hits m' :
  Match m input = Some (hits, m') →
  m_root m' = m_root m ∧ m_counter m' = wrap_int (m_counter m + 1) ∧
  stamps (wrap_int (m_counter m + 1)) (mem m) (mem m').
Proof.
  unfold Match. intros H. apply bind_Some in H as ([[hp n] hits1] & Hloop & H).
  simplify_eq. simpl. split_and!; [done..|]. by eapply match_loop_frame.
Qed.

(** ** The suffix walk ends, whatever the counters are *)

Lemma suffix_walk_total D cnt : ∀ fuel hp f fd hits,
  automaton hp D → hp !! f = Some fd → f ≠ 0 → length (b fd) ≤ fuel →
  ∃ r, suffix_walk fuel cnt hp f hits = Some r.
Proof.
  induction fuel as [|fuel IH]; intros hp f fd hits Hau Hf Hf0 Hfuel.
  all: pose proof (au_shape _ _ Hau) as Hsh.
  all: destruct (au_linked _ _ Hau f fd Hf Hf0)
         as [_ (s & sd & Hsuf & Hs & [Hss Hsl] & Hsout & Hsmax)].
  all: rewrite suffix_walk_eq, Hf, bind_some, Hsuf; simpl; rewrite Hs, bind_some.
  all: destruct (root sd) eqn:Hroot; [by eexists|].
  all: assert (s ≠ 0) as Hs0
      by (intros ->; destruct (sh_root _ Hsh) as (rd & Hr & Hrr & _); congruence).
  - assert (b sd ≠ []) by (eapply (node_at_nonroot hp Hsh s); [by exists sd|done]).
    destruct (b sd); simpl in *; [done|lia].
  - destruct (decide (counter sd ≠ cnt)); [|by eexists].
    apply (IH _ s (set_counter cnt sd)).
    + eapply automaton_same; [apply (stamps_mark cnt)|done].
    + by rewrite list_lookup_alter_eq, Hs.
    + done.
    + simpl. lia.
Qed.

(** ** Sequences of calls *)

(** The matcher after the calls [Match(in)] for [in] in [inputs]. *)
Fixpoint run_calls (m : Matcher) (inputs : list (list byte)) : option Matcher :=
  match inputs with
  | [] => Some m
  | input :: rest => '(_, m') ← Match m input; run_calls m' rest
  end.

Lemma wrap_int_succ z : wrap_int (wrap_int z + 1) = wrap_int (z + 1).
Proof.
  unfold wrap_int.
  replace ((z + 2 ^ 63) `mod` 2 ^ 64 - 2 ^ 63 + 1 + 2 ^ 63)%Z
    with ((z + 2 ^ 63) `mod` 2 ^ 64 + 1)%Z by lia.
  replace (z + 1 + 2 ^ 63)%Z with ((z + 2 ^ 63) + 1)%Z by lia.
  by rewrite Zplus_mod_idemp_l.
Qed.

Lemma wrap_int_inj (j k : Z) :
  (0 ≤ j < k)%Z → (k - j < 2 ^ 64)%Z → wrap_int j ≠ wrap_int k.
Proof.
  unfold wrap_int. intros Hjk Hlt Heq.
  assert ((j + 2 ^ 63) `mod` 2 ^ 64 = (k + 2 ^ 63) `mod` 2 ^ 64)%Z as Hm by lia.
  assert (((k + 2 ^ 63) - (j + 2 ^ 63)) `mod` 2 ^ 64 = 0)%Z as H0.
  { rewrite Zminus_mod, Hm, Z.sub_diag. done. }
  replace (k + 2 ^ 63 - (j + 2 ^ 63))%Z with (k - j)%Z in H0 by lia.
  rewrite Z.mod_small in H0 by lia. lia.
Qed.

(** The matcher has served [k] calls since it was built. *)
Definition served (D : list (list byte)) (k : Z) (m : Matcher) : Prop :=
  matcher_ok D m ∧ (0 ≤ k)%Z ∧ m_counter m = wrap_int k ∧
  ∀ a nd, mem m !! a = Some nd → ∃ j, (0 ≤ j ≤ k)%Z ∧ counter nd = wrap_int j.

Lemma served_unstamped D k m : served D k m → (k + 1 < 2 ^ 64)%Z → unstamped m.
Proof.
  intros (_ & Hk & Hc & Hnodes) Hlt a nd Ha. destruct (Hnodes a nd Ha) as (j & Hj & ->).
  rewrite Hc, wrap_int_succ. apply wrap_int_inj; lia.
Qed.

Lemma served_Match D k m input :
  served D k m → (k + 1 < 2 ^ 64)%Z →
  ∃ hits m', Match m input = Some (hits, m') ∧ served D (k + 1) m' ∧
             NoDup hits ∧ ∀ z, z ∈ hits ↔ reported D input z.
Proof.
  intros Hserved Hlt. pose proof (served_unstamped D k m Hserved Hlt) as Hun.
  destruct Hserved as ([Hroot Hau] & Hk & Hc & Hnodes).
  destruct (Match_spec D m input (conj Hroot Hau) Hun)
    as (hits & m' & HM & Hroot' & Hcnt' & [Hsu Hst] & Hnd & Hhits).
  exists hits, m'. split_and!; [done| |done..].
  split_and!.
  - split; [congruence|]. by eapply automaton_same.
  - lia.
  - by rewrite Hcnt', Hc, wrap_int_succ.
  - intros a nd' Ha'.
    destruct (same_by_lookup _ _ _ _ _ (same_by_sym _ _ _ Hsu) Ha') as (nd & Ha & _).
    destruct (Hnodes a nd Ha) as (j & Hj & Hcj).
    destruct (Hst a nd nd' Ha Ha') as [E|E].
    + exists j. split; [lia|congruence].
    + exists (k + 1)%Z. split; [lia|]. by rewrite E, Hc, wrap_int_succ.
Qed.

Lemma served_new D : ∃ m, NewMatcher D = Some m ∧ served D 0 m.
Proof.
  destruct (NewMatcher_spec D) as (hp & Hnew & Hau & Hzero & _).
  eexists. split; [done|]. split; [done|]. split; [lia|]. split; [done|].
  intros a nd Ha. exists 0%Z. split; [lia|]. by apply (Hzero a nd).
Qed.

Lemma run_calls_cons m input rest :
  run_calls m (input :: rest) = '(_, m') ← Match m input; run_calls m' rest.
Proof. done. Qed.

Lemma served_run_calls D inputs : ∀ k m,
  served D k m → (k + Z.of_nat (length inputs) < 2 ^ 64)%Z →
  ∃ m', run_calls m inputs = Some m' ∧ served D (k + Z.of_nat (length inputs)) m'.
Proof.
  induction inputs as [|input rest IH]; intros k m Hs Hlt.
  - exists m. simpl. by rewrite Z.add_0_r.
  - simpl length in *. destruct (served_Match D k m input Hs) as (hits & m1 & HM & Hs1 & _); [lia|].
    destruct (IH (k + 1)%Z m1 Hs1) as (m' & Hrun & Hs'); [lia|].
    exists m'. rewrite run_calls_cons, HM, bind_some.
    replace (k + Z.of_nat (S (length rest)))%Z with (k + 1 + Z.of_nat (length rest))%Z by lia.
    done.
Qed.

End FixedArrayFrame.

(** * The table version simulates the fixed-array version *)
Module TableSim.
Module F := FixedArray.
Module T := Table.
Import FixedArrayTrie FixedArrayBuild FixedArrayInsert FixedArrayLinks FixedArrayBfs
       FixedArrayFails.

Ltac dlia := Z.to_euclidean_division_equations; lia.

(** The identifier of a pointer: 0 for [nil], the address plus one otherwise
    (the root, allocated first, has identifier 1). *)
Definition enc (p : ptr) : Z :=
  match p with
  | None => 0
  | Some a => Z.of_nat a + 1
  end.

Definition ptr_valid (n : nat) (p : ptr) : Prop :=
  match p with
  | None => True
  | Some a => a < n
  end.

Lemma enc_inj p q : enc p = enc q → p = q.
Proof. destruct p, q; simpl; intros; f_equal; lia. Qed.

Lemma enc_zero p : enc p = 0%Z ↔ p = None.
Proof. destruct p; simpl; split; (done || lia). Qed.

Lemma enc_one p : enc p = 1%Z ↔ p = Some 0.
Proof. destruct p; simpl; split; intros; simplify_eq; (done || f_equal; lia || lia). Qed.

(** [tableGet] on the rows alone. *)
Definition tget (t : list (list ptr)) (i : Z) : option ptr :=
  row ← T.at_index t (i `quot` T.TABLE_WIDTH);
  T.at_index row (i `rem` T.TABLE_WIDTH).

Lemma tableGet_tget m i : T.tableGet m i = tget (T.table m) i.
Proof. done. Qed.

Lemma at_index_nat {A} (s : list A) (i : Z) : (0 ≤ i)%Z → T.at_index s i = s !! Z.to_nat i.
Proof. intros. unfold T.at_index. by rewrite decide_True. Qed.

(** The table when [n] nodes are allocated: identifiers [0..n] are in use. *)
Record table_ok (t : list (list ptr)) (n : nat) : Prop := mkTableOk {
  tb_rows : ∀ r row, t !! r = Some row → length row = 1024;
  tb_len : Z.of_nat (length t) = (Z.of_nat n `quot` 1024 + 1)%Z;
  tb_get : ∀ p, ptr_valid n p → tget t (enc p) = Some p;
  tb_bound : (Z.of_nat n + 1 < 2 ^ 31)%Z
}.

Lemma wrap_int32_small z : (0 ≤ z < 2 ^ 31)%Z → T.wrap_int32 z = z.
Proof. unfold T.wrap_int32. intros. dlia. Qed.

Lemma table_alloc t n m :
  table_ok t n → T.table m = t → (Z.of_nat n + 2 < 2 ^ 31)%Z →
  ∃ t', T.tableSet m (Z.of_nat n + 1) (Some n) = Some (T.set_table t' m) ∧
        table_ok t' (S n).
Proof.
  intros [Hrows Hlen Hget Hbound] Ht Hlt. unfold T.tableSet. rewrite Ht.
  set (i := (Z.of_nat n + 1)%Z). unfold T.TABLE_WIDTH.
  assert (0 ≤ i `quot` 1024 ∧ 0 ≤ i `rem` 1024 < 1024)%Z as [Hq Hr] by dlia.
  rewrite wrap_int32_small by dlia.
  set (tbl := if decide (Z.of_nat (length t) ≤ i `quot` 1024)%Z
              then t ++ [replicate (Z.to_nat 1024) None] else t).
  assert (∃ row, tbl !! Z.to_nat (i `quot` 1024) = Some row ∧ length row = 1024 ∧
            (∀ r row', tbl !! r = Some row' → length row' = 1024) ∧
            Z.of_nat (length tbl) = (i `quot` 1024 + 1)%Z ∧
            ∀ j, (0 ≤ j < i)%Z → tget tbl j = tget t j) as (row & Hrow & Hrl & Hrows' & Hlen' & Hold).
  { unfold tbl. destruct (decide _) as [Hnew|Hnonew].
    - assert (i `quot` 1024 = Z.of_nat (length t))%Z as Hiq by dlia.
      exists (replicate (Z.to_nat 1024) None). split_and!.
      + rewrite Hiq, Nat2Z.id. by apply list_lookup_middle.
      + by rewrite length_replicate.
      + intros r row' [?|[_ Hr']]%lookup_app_Some; [eauto|].
        apply list_lookup_singleton_Some in Hr' as [_ <-]. by rewrite length_replicate.
      + rewrite length_app. simpl. lia.
      + intros j Hj. unfold tget, T.TABLE_WIDTH.
        assert (0 ≤ j `quot` 1024 < Z.of_nat (length t))%Z as Hjq by dlia.
        rewrite !at_index_nat by lia. rewrite lookup_app_l by lia. done.
    - assert (i `quot` 1024 < Z.of_nat (length t))%Z as Hiq by lia.
      destruct (lookup_lt_is_Some_2 t (Z.to_nat (i `quot` 1024)%Z)) as [row Hrow]; [lia|].
      exists row. split_and!; [done|by eapply Hrows|done|dlia|done]. }
  rewrite at_index_nat, Hrow, bind_some by lia.
  destruct (lookup_lt_is_Some_2 row (Z.to_nat (i `rem` 1024)%Z)) as [old Hold']; [lia|].
  rewrite at_index_nat, Hold', bind_some by lia.
  eexists. split; [done|]. split.
  - intros r row' Hr'. destruct (decide (r = Z.to_nat (i `quot` 1024)%Z)) as [->|Hne].
    + rewrite list_lookup_insert_eq in Hr' by (by eapply lookup_lt_Some).
      apply (inj Some) in Hr' as <-. by rewrite length_insert.
    + rewrite list_lookup_insert_ne in Hr' by done. eauto.
  - rewrite length_insert, Hlen'. unfold i. dlia.
  - intros p Hp. unfold tget, T.TABLE_WIDTH.
    destruct (decide (enc p = i)) as [Hpi|Hpi].
    + rewrite Hpi, !at_index_nat by lia.
      rewrite list_lookup_insert_eq by (by eapply lookup_lt_Some). rewrite bind_some.
      rewrite at_index_nat by lia. rewrite list_lookup_insert_eq by lia. f_equal.
      apply enc_inj. by rewrite Hpi.
    + assert (0 ≤ enc p < i)%Z as Hrange.
      { destruct p as [a|]; simpl in *; unfold i in *; lia. }
      assert (ptr_valid n p) as Hp'.
      { destruct p as [a|]; simpl in *; unfold i in *; lia. }
      rewrite <- (Hget p Hp'), <- (Hold (enc p) Hrange). unfold tget, T.TABLE_WIDTH.
      assert (0 ≤ enc p `quot` 1024 ∧ 0 ≤ enc p `rem` 1024 < 1024)%Z as [? ?] by dlia.
      rewrite !at_index_nat by lia.
      destruct (decide (Z.to_nat (enc p `quot` 1024)%Z = Z.to_nat (i `quot` 1024)%Z)) as [Heq|Hne].
      * rewrite Heq, Hrow, list_lookup_insert_eq by (by eapply lookup_lt_Some).
        rewrite !bind_some, !at_index_nat by lia.
        rewrite list_lookup_insert_ne; [done|]. unfold i in *. dlia.
      * by rewrite list_lookup_insert_ne.
  - lia.
Qed.

End TableSim.

Module TableInsert.
Module F := FixedArray.
Module T := Table.
Import FixedArrayTrie FixedArrayBuild FixedArrayInsert FixedArrayLinks FixedArrayBfs
       FixedArrayFails TableSim.

(** A node of the table version holds the identifiers of the pointers that
    the node of the fixed-array version at the same address holds. *)
Definition node_rel (nd1 : F.node) (nd3 : T.node) : Prop :=
  T.b nd3 = F.b nd1 ∧ T.output nd3 = F.output nd1 ∧ T.index nd3 = F.index nd1 ∧
  (∀ c, T.getChild nd3 c = enc (F.child nd1 c)) ∧
  T.suffix nd3 = enc (F.suffix nd1) ∧ T.fail nd3 = enc (F.fail nd1).

Record sim (hp : list F.node) (m : T.Matcher) : Prop := mkSim {
  sim_root : T.m_root m = Some 0;
  sim_size : T.tableSize m = (Z.of_nat (length hp) + 1)%Z;
  sim_table : table_ok (T.table m) (length hp);
  sim_nodes : Forall2 node_rel hp (T.mem m)
}.

Lemma sim_length hp m : sim hp m → length (T.mem m) = length hp.
Proof. intros H. symmetry. by eapply Forall2_length, sim_nodes. Qed.

Lemma sim_lookup hp m a nd1 :
  sim hp m → hp !! a = Some nd1 → ∃ nd3, T.mem m !! a = Some nd3 ∧ node_rel nd1 nd3.
Proof. intros H Ha. eapply Forall2_lookup_l; [by apply sim_nodes|done]. Qed.

Lemma sim_tableGet hp m p :
  sim hp m → ptr_valid (length hp) p → T.tableGet m (enc p) = Some p.
Proof. intros H Hp. rewrite tableGet_tget. by apply (tb_get _ _ (sim_table _ _ H)). Qed.

Lemma sim_alter hp m c (f : F.node → F.node) (g : T.node → T.node) :
  sim hp m → (∀ nd1 nd3, node_rel nd1 nd3 → node_rel (f nd1) (g nd3)) →
  sim (alter f c hp) (T.set_mem (alter g c (T.mem m)) m).
Proof.
  intros [H1 H2 H3 H4] Hfg. split; simpl; rewrite ?length_alter; [done..|].
  apply Forall2_alter; [done|]. intros x y _ _. apply Hfg.
Qed.

Lemma sim_same hp hp' m : same_unfailed hp hp' → sim hp m → sim hp' m.
Proof.
  intros Hsu [H1 H2 H3 H4]. pose proof (same_by_length _ _ _ Hsu) as Hl.
  split; rewrite <- ?Hl; [done..|].
  apply Forall2_same_length_lookup. split; [rewrite <- Hl; by eapply Forall2_length|].
  intros i nd' nd3 Hi' Hi3.
  destruct (same_by_lookup _ _ _ _ _ (same_by_sym _ _ _ Hsu) Hi') as (nd & Hi & Hk).
  apply unfailed_fields in Hk as (Hk & _ & Hs & Hf).
  apply skel_fields in Hk as (Hk%frame_fields & Ho & Hx). destruct Hk as (_ & Hb & Hc).
  pose proof (Forall2_lookup_lr _ _ _ _ _ _ H4 Hi Hi3) as (? & ? & ? & ? & ? & ?).
  split_and!; try congruence. all: intros c; rewrite Hc; done.
Qed.

Lemma shape_child_valid hp a nd c :
  shape hp → hp !! a = Some nd → ptr_valid (length hp) (F.child nd c).
Proof.
  intros Hsh Ha. destruct (F.child nd c) as [q|] eqn:Hc; [|done].
  destruct (sh_child _ Hsh a nd c q Ha Hc) as (qd & Hq & _). by eapply lookup_lt_Some.
Qed.

Lemma node_rel_zero : node_rel F.zero_node T.zero_node.
Proof. done. Qed.

Lemma getChild_setChild c v nd c' :
  T.getChild (T.setChild c v nd) c' = if decide (c' = c) then v else T.getChild nd c'.
Proof. unfold T.getChild, T.setChild. simpl. destruct (T.child nd); by destruct (decide _). Qed.

Lemma sim_trie_step hp nodes n path c m hp' nodes' n' path' :
  shape hp → sim hp m → (Z.of_nat (length hp) + 2 < 2 ^ 31)%Z →
  F.trie_step (Some 0) (hp, nodes, Some n, path) c = Some (hp', nodes', n', path') →
  ∃ m', T.trie_step (m, Some n, path) c = Some (m', n', path') ∧ sim hp' m'.
Proof.
  intros Hsh Hsim Hlt H. unfold F.trie_step in H. simpl in H.
  apply bind_Some in H as (nd & Hn & H).
  destruct (sim_lookup hp m n nd Hsim Hn) as (nd3 & Hn3 & Hrel).
  pose proof Hrel as (Hb & Ho & Hi & Hc & Hs & Hf).
  unfold T.trie_step. simpl. rewrite Hn3, bind_some, Hc.
  rewrite (sim_tableGet hp m) by (done || by eapply shape_child_valid). rewrite bind_some.
  destruct (F.child nd c) as [q|] eqn:Hch.
  - simplify_eq. simpl. eauto.
  - simplify_eq. simpl.
    destruct Hsim as [S1 S2 S3 S4].
    pose proof (Forall2_length _ _ _ S4) as Hlen.
    destruct (table_alloc (T.table m) (length hp)
                (T.set_mem (T.mem m ++ [T.zero_node]) m) S3 eq_refl Hlt) as (t' & Hset & Htok).
    simpl. rewrite S2, <- Hlen, Hset, bind_some. simpl. rewrite !S2.
    assert (n < length hp) as Hnlt by by eapply lookup_lt_Some.
    assert (Forall2 node_rel
              (alter (F.set_b (path ++ [c])) (length hp)
                 (alter (F.set_child c (Some (length hp))) n (hp ++ [F.zero_node])))
              (alter (T.set_b (path ++ [c])) (length hp)
                 (alter (T.setChild c (Z.of_nat (length hp) + 1)) n
                    (T.mem m ++ [T.zero_node])))) as Hbase.
    { apply Forall2_alter; [|by intros ?? _ _ (?&?&?&?&?&?)].
      apply Forall2_alter; [by apply Forall2_app; [|repeat constructor]|].
      intros x y _ _ (?&?&?&Hxc&?&?). split_and!; try done.
      intros c'. rewrite getChild_setChild. simpl. destruct (decide (c' = c)); [done|].
      apply Hxc. }
    destruct (decide (length (path ++ [c]) = 1)).
    all: eexists; split; [done|]; split; simpl.
    all: rewrite ?length_alter, ?length_app; simpl.
    1,5: done.
    1,4: rewrite wrap_int32_small; lia.
    1,3: by rewrite Nat.add_1_r.
    + apply Forall2_alter; [|by intros ?? _ _ (?&?&?&?&?&?)].
      apply Forall2_alter; [|by intros ?? _ _ (?&?&?&?&?&?)]. done.
    + apply Forall2_alter; [|by intros ?? _ _ (?&?&?&?&?&?)]. done.
Qed.

End TableInsert.

Module TableBuild.
Module F := FixedArray.
Module T := Table.
Import FixedArrayTrie FixedArrayBuild FixedArrayInsert FixedArrayLinks FixedArrayBfs
       FixedArrayFails TableSim TableInsert.

(** ** Insertion *)

Lemma T_trie_blice_cons st c rest :
  T.trie_blice st (c :: rest) = st' ← T.trie_step st c; T.trie_blice st' rest.
Proof. done. Qed.

Lemma sim_trie_blice bl : ∀ hp nodes n path D (P : list byte → Prop) m,
  building hp nodes D → node_at hp n path → within hp P →
  (∀ w, w `prefix_of` path ++ bl → P w) →
  sim hp m → (Z.of_nat (length hp + length bl) + 1 < 2 ^ 31)%Z →
  ∃ hp' nodes' n' m',
    F.trie_blice (Some 0) (hp, nodes, Some n, path) bl = Some (hp', nodes', Some n', path ++ bl) ∧
    T.trie_blice (m, Some n, path) bl = Some (m', Some n', path ++ bl) ∧ sim hp' m'.
Proof.
  induction bl as [|c bl IH]; intros hp nodes n path D P m Hbd Hn Hw HP Hsim Hlt.
  - exists hp, nodes, n, m. rewrite app_nil_r. done.
  - destruct (trie_step_spec hp nodes n path c D P) as (hp1 & nodes1 & n1 & Hstep & Hbd1 & Hn1 & Hw1 & Hl1);
      [done..| |].
    { apply HP. exists bl. by rewrite <- app_assoc. }
    destruct (sim_trie_step hp nodes n path c m _ _ _ _ (bd_shape _ _ _ Hbd) Hsim
                ltac:(simpl in Hlt; lia) Hstep) as (m1 & HstepT & Hsim1).
    destruct (IH hp1 nodes1 n1 (path ++ [c]) D P m1) as (hp2 & nodes2 & n2 & m2 & HF & HT & Hsim2);
      [done..| |done| |].
    { intros w Hpre. apply HP. by rewrite <- app_assoc in Hpre. }
    { simpl in Hlt. lia. }
    exists hp2, nodes2, n2, m2. rewrite trie_blice_cons, Hstep, T_trie_blice_cons, HstepT, !bind_some.
    rewrite <- app_assoc in HF, HT. done.
Qed.

Lemma sim_trie_entry hp nodes D blice m :
  building hp nodes D → within hp (is_path D) → sim hp m →
  (Z.of_nat (length hp + length blice) + 1 < 2 ^ 31)%Z →
  ∃ hp' nodes' m',
    F.trie_entry (Some 0) (hp, nodes) (length D) blice = Some (hp', nodes') ∧
    T.trie_entry m (length D) blice = Some m' ∧ sim hp' m'.
Proof.
  intros Hbd Hw Hsim Hlt.
  destruct (sim_trie_blice blice hp nodes 0 [] D (is_path (D ++ [blice])) m)
    as (hp1 & nodes1 & n & m1 & HF & HT & Hsim1); [done| | | |done..|].
  { apply node_at_root, Hbd. }
  { intros w Hp. apply is_path_snoc. left. by apply Hw. }
  { intros w Hp. apply is_path_snoc. by right. }
  destruct (trie_blice_spec blice hp nodes 0 [] D (is_path (D ++ [blice])))
    as (hp1' & nodes1' & n' & HF' & _ & (nd & Hn & _) & _); [done| | | |].
  { apply node_at_root, Hbd. }
  { intros w Hp. apply is_path_snoc. left. by apply Hw. }
  { intros w Hp. apply is_path_snoc. by right. }
  rewrite HF in HF'. simplify_eq.
  destruct (sim_lookup _ _ _ _ Hsim1 Hn) as (nd3 & Hn3 & _).
  eexists _, _, _. unfold F.trie_entry, T.trie_entry. cbv beta iota.
  rewrite HF, (sim_root _ _ Hsim), HT, !bind_some. simpl. rewrite Hn, Hn3. simpl.
  split_and!; [done..|].
  apply (sim_alter _ (T.set_mem _ m1)); [|by intros ?? (?&?&?&?&?&?)].
  apply sim_alter; [done|by intros ?? (?&?&?&?&?&?)].
Qed.

Lemma T_trie_entries_cons m i blice rest :
  T.trie_entries m i (blice :: rest) = m' ← T.trie_entry m i blice; T.trie_entries m' (S i) rest.
Proof. done. Qed.

Lemma sim_trie_entries D1 : ∀ hp nodes D0 m,
  building hp nodes D0 → within hp (is_path D0) → sim hp m →
  (Z.of_nat (length hp + total_length D1) + 1 < 2 ^ 31)%Z →
  ∃ hp' nodes' m',
    F.trie_entries (Some 0) (hp, nodes) (length D0) D1 = Some (hp', nodes') ∧
    T.trie_entries m (length D0) D1 = Some m' ∧ sim hp' m'.
Proof.
  induction D1 as [|blice D1 IH]; intros hp nodes D0 m Hbd Hw Hsim Hlt.
  - by exists hp, nodes, m.
  - assert (total_length (blice :: D1) = length blice + total_length D1) as Htl by done.
    destruct (sim_trie_entry hp nodes D0 blice m) as (hp1 & nodes1 & m1 & HF & HT & Hsim1);
      [done..|lia|].
    destruct (trie_entry_spec hp nodes D0 blice) as (hp1' & nodes1' & HF' & Hbd1 & Hw1 & Hl1);
      [done..|].
    rewrite HF in HF'. simplify_eq.
    destruct (IH hp1' nodes1' (D0 ++ [blice]) m1) as (hp2 & nodes2 & m2 & HF2 & HT2 & Hsim2);
      [done..|lia|].
    rewrite length_app, Nat.add_1_r in HF2, HT2.
    exists hp2, nodes2, m2.
    rewrite trie_entries_cons, HF, T_trie_entries_cons, HT, !bind_some. done.
Qed.

(** ** Links *)

Lemma T_findBlice_cons m i c w :
  T.findBlice_loop m i (c :: w) =
  if decide (i = 0%Z) then Some i
  else p ← T.tableGet m i; nd ← T.deref (T.mem m) p; T.findBlice_loop m (T.getChild nd c) w.
Proof. done. Qed.

Lemma sim_findBlice hp m w : shape hp → sim hp m → ∀ p r,
  ptr_valid (length hp) p → F.findBlice_loop hp p w = Some r →
  T.findBlice_loop m (enc p) w = Some (enc r) ∧ ptr_valid (length hp) r.
Proof.
  intros Hsh Hsim. induction w as [|c w IH]; intros p r Hp H.
  - simpl in *. by simplify_eq.
  - simpl in H. destruct p as [a|]; [|by simplify_eq].
    apply bind_Some in H as (nd & Ha & H).
    destruct (sim_lookup _ _ _ _ Hsim Ha) as (nd3 & Ha3 & Hrel).
    pose proof Hrel as (_ & _ & _ & Hc & _ & _).
    rewrite T_findBlice_cons, decide_False by (simpl; lia).
    rewrite (sim_tableGet hp m (Some a)) by done. rewrite bind_some. simpl.
    rewrite Ha3, bind_some, Hc. apply IH; [|done]. by eapply shape_child_valid.
Qed.

Lemma F_fail_loop_frame c sufs : ∀ hp hp',
  F.fail_loop (Some 0) hp c sufs = Some hp' → same_unlinked hp hp'.
Proof.
  induction sufs as [|s rest IH]; intros hp hp' H.
  - simpl in H. by simplify_eq.
  - rewrite fail_loop_cons in H. apply bind_Some in H as (r & Hr & H).
    assert (same_unlinked hp (alter (F.set_fail r) c hp)) by by apply same_by_alter.
    destruct r; [by simplify_eq|]. eapply same_by_trans; [done|by apply IH].
Qed.

Lemma F_suffix_loop_frame c sufs : ∀ hp hp',
  F.suffix_loop (Some 0) hp c sufs = Some hp' → same_unlinked hp hp'.
Proof.
  induction sufs as [|s rest IH]; intros hp hp' H.
  - simpl in H. by simplify_eq.
  - simpl in H. apply bind_Some in H as (r & Hr & H). destruct r as [a|]; [|by apply IH].
    apply bind_Some in H as (sd & Hs & H). destruct (F.output sd); [|by apply IH].
    simplify_eq. by apply same_by_alter.
Qed.

Lemma sim_fail_loop c sufs : ∀ hp m hp',
  shape hp → sim hp m → F.fail_loop (Some 0) hp c sufs = Some hp' →
  ∃ m', T.fail_loop m c sufs = Some m' ∧ sim hp' m'.
Proof.
  induction sufs as [|s rest IH]; intros hp m hp' Hsh Hsim H.
  - simpl in *. simplify_eq. eauto.
  - rewrite fail_loop_cons in H. apply bind_Some in H as (r & Hr & H).
    destruct (sim_findBlice hp m s Hsh Hsim (Some 0) r) as [HrT _]; [|done|].
    { destruct (sh_root _ Hsh) as (rd & Hrd & _). by eapply lookup_lt_Some. }
    simpl T.fail_loop. unfold T.findBlice. change (enc (Some 0)) with 1%Z in HrT.
    rewrite HrT, bind_some.
    assert (sim (alter (F.set_fail r) c hp)
              (T.set_mem (alter (T.set_fail (enc r)) c (T.mem m)) m)) as Hsim1.
    { apply sim_alter; [done|]. by intros ?? (?&?&?&?&?&?). }
    destruct r as [a|].
    + simplify_eq. rewrite decide_True by (simpl; lia). eauto.
    + rewrite decide_False by (simpl; lia).
      apply (IH (alter (F.set_fail None) c hp)); [|done..].
      eapply shape_same; [|done]. by apply same_by_alter.
Qed.

Lemma sim_suffix_loop c sufs hp m hp' :
  shape hp → sim hp m → F.suffix_loop (Some 0) hp c sufs = Some hp' →
  ∃ m', T.suffix_loop m c sufs = Some m' ∧ sim hp' m'.
Proof.
  intros Hsh Hsim. induction sufs as [|s rest IH]; intros H.
  - simpl in *. simplify_eq. eauto.
  - simpl in H. apply bind_Some in H as (r & Hr & H).
    destruct (sim_findBlice hp m s Hsh Hsim (Some 0) r) as [HrT Hrv]; [|done|].
    { destruct (sh_root _ Hsh) as (rd & Hrd & _). by eapply lookup_lt_Some. }
    simpl T.suffix_loop. unfold T.findBlice. change (enc (Some 0)) with 1%Z in HrT.
    rewrite HrT, bind_some.
    destruct r as [a|].
    + apply bind_Some in H as (sd & Hs & H).
      destruct (sim_lookup _ _ _ _ Hsim Hs) as (sd3 & Hs3 & Hrel).
      pose proof Hrel as (_ & Ho & _).
      rewrite decide_True by (simpl; lia).
      rewrite (sim_tableGet hp m (Some a)) by done. rewrite bind_some. simpl.
      rewrite Hs3, bind_some, Ho. destruct (F.output sd); [|by apply IH].
      simplify_eq. eexists. split; [done|].
      apply sim_alter; [done|]. by intros ?? (?&?&?&?&?&?).
    + rewrite decide_False by (simpl; lia). by apply IH.
Qed.

Lemma sim_fix_links hp m c hp' :
  shape hp → sim hp m → F.fix_links (Some 0) hp c = Some hp' →
  ∃ m', T.fix_links m c = Some m' ∧ sim hp' m' ∧ same_unlinked hp hp'.
Proof.
  intros Hsh Hsim H. unfold F.fix_links in H.
  apply bind_Some in H as (cd & Hc & H). apply bind_Some in H as (hp1 & Hfl & H).
  apply bind_Some in H as (cd1 & Hc1 & H). apply bind_Some in H as (cd2 & Hc2 & H).
  pose proof (F_fail_loop_frame _ _ _ _ Hfl) as Hfr1.
  assert (shape hp1) as Hsh1.
  { eapply shape_same; [|done]. by apply same_trie_frame, same_unlinked_trie. }
  destruct (sim_lookup _ _ _ _ Hsim Hc) as (cd3 & Hc3 & (Hb & _)).
  destruct (sim_fail_loop c _ hp m hp1 Hsh Hsim Hfl) as (m1 & HflT & Hsim1).
  destruct (sim_lookup _ _ _ _ Hsim1 Hc1) as (cd13 & Hc13 & (_ & _ & _ & _ & _ & Hf1)).
  set (hp2 := if F.fail cd1 is None then alter (F.set_fail (Some 0)) c hp1 else hp1) in *.
  set (m2 := if decide (T.fail cd13 = 0%Z)
             then T.set_mem (alter (T.set_fail 1) c (T.mem m1)) m1 else m1).
  assert (sim hp2 m2 ∧ same_unlinked hp1 hp2) as [Hsim2 Hfr2].
  { unfold hp2, m2. rewrite Hf1. destruct (F.fail cd1) as [x|]; simpl.
    - rewrite decide_False by lia. done.
    - split; [|by apply same_by_alter].
      apply sim_alter; [done|]. by intros ?? (?&?&?&?&?&?). }
  assert (shape hp2) as Hsh2.
  { eapply shape_same; [|exact Hsh1]. by apply same_trie_frame, same_unlinked_trie. }
  destruct (sim_lookup _ _ _ _ Hsim2 Hc2) as (cd23 & Hc23 & (Hb2 & _)).
  destruct (sim_suffix_loop c _ hp2 m2 hp' Hsh2 Hsim2 H) as (m3 & HslT & Hsim3).
  exists m3. unfold T.fix_links. rewrite Hc3, bind_some, Hb, HflT, bind_some, Hc13, bind_some.
  fold m2. rewrite Hc23, bind_some, Hb2. split_and!; [done..|].
  eapply same_by_trans; [done|]. eapply same_by_trans; [done|].
  by eapply F_suffix_loop_frame.
Qed.

Lemma T_bfs_children_cons m l n i rest :
  T.bfs_children m l n (i :: rest) =
  nd ← T.mem m !! n;
  p ← T.tableGet m (T.getChild nd i);
  match p with
  | Some c => m' ← T.fix_links m c; T.bfs_children m' (l ++ [p]) n rest
  | None => T.bfs_children m l n rest
  end.
Proof. done. Qed.

Lemma sim_bfs_children n bytes : ∀ hp m l hp' l',
  shape hp → sim hp m → F.bfs_children (Some 0) hp l n bytes = Some (hp', l') →
  ∃ m', T.bfs_children m l n bytes = Some (m', l') ∧ sim hp' m' ∧ same_unlinked hp hp'.
Proof.
  induction bytes as [|i rest IH]; intros hp m l hp' l' Hsh Hsim H.
  - simpl in *. simplify_eq. exists m. split_and!; [done|done|apply same_by_refl].
  - rewrite bfs_children_cons in H. apply bind_Some in H as (nd & Hn & H).
    destruct (sim_lookup _ _ _ _ Hsim Hn) as (nd3 & Hn3 & (_ & _ & _ & Hc & _)).
    rewrite T_bfs_children_cons, Hn3, bind_some, Hc.
    rewrite (sim_tableGet hp m) by (done || by eapply shape_child_valid). rewrite bind_some.
    destruct (F.child nd i) as [c|]; [|by apply IH].
    apply bind_Some in H as (hp1 & Hfix & H).
    destruct (sim_fix_links hp m c hp1 Hsh Hsim Hfix) as (m1 & HfixT & Hsim1 & Hfr1).
    rewrite HfixT, bind_some.
    destruct (IH hp1 m1 (l ++ [Some c]) hp' l') as (m' & HT & Hsim' & Hfr'); [|done..|].
    { eapply shape_same; [|done]. by apply same_trie_frame, same_unlinked_trie. }
    exists m'. split_and!; [done..|]. by eapply same_by_trans.
Qed.

Lemma T_bfs_cons fuel m p l :
  T.bfs (S fuel) m (p :: l) =
  n ← p; '(m', l') ← T.bfs_children m l n all_bytes; T.bfs fuel m' l'.
Proof. done. Qed.

Lemma sim_bfs fuel : ∀ hp m l hp',
  shape hp → sim hp m → F.bfs fuel (Some 0) hp l = Some hp' →
  ∃ m', T.bfs fuel m l = Some m' ∧ sim hp' m'.
Proof.
  induction fuel as [|fuel IH]; intros hp m l hp' Hsh Hsim H.
  - destruct l; simpl in *; simplify_eq. eauto.
  - destruct l as [|p l]; [simpl in *; simplify_eq; eauto|].
    rewrite bfs_cons in H. apply bind_Some in H as (n & -> & H).
    apply bind_Some in H as ([hp1 l1] & Hch & H).
    destruct (sim_bfs_children n all_bytes hp m l hp1 l1 Hsh Hsim Hch) as (m1 & HT & Hsim1 & Hfr).
    rewrite T_bfs_cons, bind_some, HT, bind_some. apply (IH hp1); [|done..].
    eapply shape_same; [|done]. by apply same_trie_frame, same_unlinked_trie.
Qed.

End TableBuild.

Module TableMatch.
Module F := FixedArray.
Module T := Table.
Import FixedArrayTrie FixedArrayBuild FixedArrayInsert FixedArrayLinks FixedArrayBfs
       FixedArrayFails FixedArrayGoto FixedArrayMatch TableSim TableInsert TableBuild.

(** ** The matcher that the table version builds *)

(** The matcher before the first loop: the root alone, at identifier 1. *)
Definition init_Matcher : T.Matcher :=
  T.mkMatcher (Some 0) [<[1 := Some 0]> (replicate 1024 None)] 2 [T.zero_node].

Lemma init_tableSet_0 :
  T.tableSet (T.mkMatcher (Some 0) [] 0 [T.zero_node]) 0 None
  = Some (T.mkMatcher (Some 0) [replicate 1024 None] 0 [T.zero_node]).
Proof. vm_compute. reflexivity. Qed.

Lemma init_tableSet_1 :
  T.tableSet (T.mkMatcher (Some 0) [replicate 1024 None] 0 [T.zero_node]) 1 (Some 0)
  = Some (T.mkMatcher (Some 0) [<[1 := Some 0]> (replicate 1024 None)] 0 [T.zero_node]).
Proof. vm_compute. reflexivity. Qed.

Lemma sim_init : sim [F.set_root true F.zero_node] init_Matcher.
Proof.
  split.
  - done.
  - done.
  - split.
    + intros [|r] row Hr; [|done]. apply (inj Some) in Hr as <-.
      by rewrite length_insert, length_replicate.
    + done.
    + intros [a|] Hp; simpl in Hp.
      * assert (a = 0) as -> by lia. vm_compute. reflexivity.
      * vm_compute. reflexivity.
    + done.
  - repeat constructor; done.
Qed.

Lemma T_NewMatcher_eq D :
  T.NewMatcher D = m ← T.trie_entries init_Matcher 0 D; T.bfs (length (T.mem m)) m [T.m_root m].
Proof.
  unfold T.NewMatcher, T.buildTrie, T.new_Matcher.
  change (T.set_m_root _ (T.set_mem _ (T.set_table _ _)))
    with (T.mkMatcher (Some 0) [] 0 [T.zero_node]).
  rewrite init_tableSet_0, bind_some.
  change (T.m_root (T.mkMatcher (Some 0) [replicate 1024 None] 0 [T.zero_node])) with (Some 0).
  rewrite init_tableSet_1, bind_some. done.
Qed.

Theorem NewMatcher_sim D :
  (Z.of_nat (total_length D) + 2 < 2 ^ 31)%Z →
  ∃ hp m, F.NewMatcher D = Some (F.mkMatcher 0 (Some 0) hp) ∧ T.NewMatcher D = Some m ∧
          sim hp m ∧ automaton hp D.
Proof.
  intros Hlt. destruct (NewMatcher_spec D) as (hp & Hnew & Hau & _).
  pose proof Hnew as Hnew'. unfold F.NewMatcher, F.buildTrie in Hnew'.
  apply bind_Some in Hnew' as ([hp1 nodes1] & Hins & Hnew').
  apply bind_Some in Hnew' as (hp2 & Hbfs & Hnew').
  apply bind_Some in Hnew' as (hp3 & Hfails & Hnew').
  assert (hp3 = hp) as -> by congruence. clear Hnew'.
  destruct (sim_trie_entries D _ _ [] init_Matcher building_init within_init sim_init)
    as (hp1' & nodes1' & m1 & Hins' & HinsT & Hsim1); [simpl; lia|].
  destruct (trie_entries_spec D _ _ [] building_init within_init)
    as (hp1'' & nodes1'' & Hins'' & Hbd & _).
  change (length []) with 0 in *. change ([] ++ D) with D in Hbd.
  assert (hp1' = hp1 ∧ nodes1' = nodes1) as [-> ->] by (split; congruence).
  assert (hp1'' = hp1 ∧ nodes1'' = nodes1) as [-> ->] by (split; congruence).
  pose proof (bd_shape _ _ _ Hbd) as Hsh1.
  destruct (sim_bfs _ _ _ _ _ Hsh1 Hsim1 Hbfs) as (m2 & HbfsT & Hsim2).
  destruct (bfs_links _ _ _ Hbd) as (hp2' & Hbfs' & Hsu & Hall).
  assert (hp2' = hp2) as -> by congruence.
  destruct (fails_nodes_spec nodes1 (seq 0 (length nodes1)) hp2 [])
    as (hp3' & Hfails' & Hsu3 & _).
  { eapply shape_same; [|done]. by apply same_trie_frame, same_unlinked_trie. }
  { done. }
  { rewrite <- (same_by_length _ _ _ Hsu). apply (bd_nodes _ _ _ Hbd). }
  { intros i Hi. apply elem_of_seq in Hi.
    rewrite (bd_nodes _ _ _ Hbd), length_fmap, length_seq, (same_by_length _ _ _ Hsu) in Hi. lia. }
  { intros i nd Hi. by apply elem_of_nil in Hi. }
  assert (hp3' = hp) as -> by congruence.
  exists hp, m2. split_and!; [done| |by eapply sim_same|done].
  rewrite T_NewMatcher_eq, HinsT, bind_some, (sim_length _ _ Hsim1), (sim_root _ _ Hsim1). done.
Qed.

(** ** Match *)
Section scan.
  Context (hp : list F.node) (m : T.Matcher) (D : list (list byte)).
  Context (Hsim : sim hp m) (Hau : automaton hp D).
Let Hsh : shape hp := au_shape _ _ Hau.

  (** The marked identifiers are those of the nodes [ms], which are distinct
      non-root output nodes, and [hits] lists their indices. *)
Definition hits_ok (marks : gmap Z bool) (hits : list Z) : Prop :=
    ∃ ms, NoDup ms ∧ (∀ k, is_Some (marks !! k) ↔ ∃ q, q ∈ ms ∧ k = enc (Some q)) ∧
          Forall2 (λ q z, q ≠ 0 ∧ ∃ qd, hp !! q = Some qd ∧ F.output qd = true ∧ F.index qd = z)
                  ms hits.

Lemma T_hits_ok_mark marks hits q qd :
    hits_ok marks hits → marks !! enc (Some q) = None →
    q ≠ 0 → hp !! q = Some qd → F.output qd = true →
    hits_ok (<[enc (Some q) := true]> marks) (hits ++ [F.index qd]).
  Proof.
    intros (ms & Hnd & Hin & Hall) Hnone Hq0 Hq Hqo.
    assert (q ∉ ms) as Hqms.
    { intros Hqin. assert (is_Some (marks !! enc (Some q))) as [? ?] by (apply Hin; eauto).
      congruence. }
    exists (ms ++ [q]). split_and!.
    - apply NoDup_app. split_and!; [done| |apply NoDup_singleton].
      intros x Hx Hx'. apply list_elem_of_singleton in Hx' as ->. done.
    - intros k. rewrite lookup_insert_is_Some, Hin. split.
      + intros [Hk|[_ (q' & ? & Hk)]]; subst k.
        * exists q. split; [|done]. apply elem_of_app. right. by apply list_elem_of_singleton.
        * exists q'. split; [|done]. apply elem_of_app. by left.
      + intros (q' & [?|Hq']%elem_of_app & ->); [|apply list_elem_of_singleton in Hq' as ->].
        * destruct (decide (enc (Some q) = enc (Some q'))) as [?|?]; [by left|].
          right. split; [done|]. eauto.
        * by left.
    - apply Forall2_app; [done|]. repeat constructor; eauto.
  Qed.

Lemma T_suffix_walk_eq fuel f marks hits :
    T.suffix_walk fuel m f marks hits =
    fd ← T.deref (T.mem m) f;
    if decide (T.suffix fd = 1%Z) then Some (marks, hits)
    else match fuel with
         | O => None
         | S fuel =>
             f' ← T.tableGet m (T.suffix fd);
             fd' ← T.deref (T.mem m) f';
             match marks !! T.suffix fd with
             | None => T.suffix_walk fuel m f' (<[T.suffix fd := true]> marks)
                         (hits ++ [T.index fd'])
             | Some _ => Some (marks, hits)
             end
         end.
  Proof. by destruct fuel. Qed.

Lemma T_suffix_walk_spec : ∀ fuel f fd marks hits,
    hp !! f = Some fd → f ≠ 0 → length (F.b fd) ≤ fuel → hits_ok marks hits →
    ∃ marks' hits', T.suffix_walk fuel m (Some f) marks hits = Some (marks', hits') ∧
                    hits_ok marks' hits'.
  Proof.
    induction fuel as [|fuel IH]; intros f fd marks hits Hf Hf0 Hfuel Hhits.
    all: destruct (au_linked _ _ Hau f fd Hf Hf0)
           as [_ (s & sd & Hsuf & Hs & [Hss Hsl] & Hsout & Hsmax)].
    all: destruct (sim_lookup _ _ _ _ Hsim Hf) as (fd3 & Hf3 & (_ & _ & _ & _ & Hsuf3 & _)).
    all: destruct (sim_lookup _ _ _ _ Hsim Hs) as (sd3 & Hs3 & (_ & _ & Hi3 & _)).
    all: rewrite T_suffix_walk_eq; simpl T.deref; rewrite Hf3, bind_some, Hsuf3, Hsuf.
    all: destruct (decide (enc (Some s) = 1%Z)) as [?|Hs1]; [by eauto|].
    all: assert (s ≠ 0) as Hs0 by (intros ->; by apply Hs1).
    - assert (F.b sd ≠ []) by (eapply (node_at_nonroot hp Hsh s); [by exists sd|done]).
      destruct (F.b sd); simpl in *; [done|lia].
    - rewrite (sim_tableGet hp m (Some s)) by (done || by eapply lookup_lt_Some).
      rewrite bind_some. simpl T.deref. rewrite Hs3, bind_some, Hi3.
      destruct Hsout as [?|Hso]; [done|].
      destruct (marks !! enc (Some s)) eqn:Hm; [by eauto|].
      apply (IH s sd); [done|done|lia|]. by apply T_hits_ok_mark.
  Qed.

Lemma T_match_byte_spec ni a marks hits c :
    a < length hp → (ni = 1%Z ↔ a = 0) → hits_ok marks hits →
    ∃ ni' a' marks' hits',
      T.match_byte m (ni, Some a, marks, hits) c = Some (ni', Some a', marks', hits') ∧
      a' < length hp ∧ (ni' = 1%Z ↔ a' = 0) ∧ hits_ok marks' hits'.
  Proof.
    intros Ha Hni Hhits. destruct (lookup_lt_is_Some_2 _ _ Ha) as [nd Hnd].
    destruct (sim_lookup _ _ _ _ Hsim Hnd) as (nd3 & Hnd3 & (_ & _ & _ & Hc3 & _ & Hf3)).
    unfold T.match_byte. simpl T.deref. rewrite Hnd3, bind_some.
    (* the state after the failure step *)
    assert (∃ ni1 a1 nd1 nd13,
              (if decide (ni ≠ 1%Z ∧ T.getChild nd3 c = 0%Z)
               then p ← T.tableGet m (T.fail nd3); Some (T.fail nd3, p)
               else Some (ni, Some a)) = Some (ni1, Some a1) ∧
              hp !! a1 = Some nd1 ∧ T.mem m !! a1 = Some nd13 ∧
              (∀ c, T.getChild nd13 c = enc (F.child nd1 c)) ∧ (ni1 = 1%Z ↔ a1 = 0))
      as (ni1 & a1 & nd1 & nd13 & -> & Hnd1 & Hnd13 & Hc13 & Hni1).
    { destruct (decide _) as [[Hn1 _]|_]; [|by exists ni, a, nd, nd3].
      assert (a ≠ 0) as Ha0 by tauto.
      destruct (au_linked _ _ Hau a nd Hnd Ha0) as [(r & rd & Hf & Hr & _) _].
      destruct (sim_lookup _ _ _ _ Hsim Hr) as (rd3 & Hr3 & (_ & _ & _ & Hcr & _)).
      rewrite Hf3, Hf, (sim_tableGet hp m (Some r)) by (done || by eapply lookup_lt_Some).
      rewrite bind_some. exists (enc (Some r)), r, rd, rd3. split_and!; [done..|].
      simpl. split; intros; [f_equal|]; lia. }
    rewrite bind_some. simpl T.deref. rewrite Hnd13, bind_some, Hc13.
    destruct (F.child nd1 c) as [f|] eqn:Hch.
    - destruct (sh_child _ Hsh a1 nd1 c f Hnd1 Hch) as (fd & Hfd & Hfb).
      destruct (sim_lookup _ _ _ _ Hsim Hfd) as (fd3 & Hfd3 & (_ & Ho3 & Hi3 & _)).
      assert (f ≠ 0) as Hf0.
      { intros ->. destruct (sh_root _ Hsh) as (rd & Hr & _ & Hrb).
        assert (fd = rd) as -> by congruence. rewrite Hrb in Hfb.
        by apply app_cons_not_nil in Hfb. }
      rewrite decide_True by (simpl; lia).
      rewrite (sim_tableGet hp m (Some f)) by (done || by eapply lookup_lt_Some).
      rewrite bind_some. simpl T.deref. rewrite Hfd3, bind_some, Ho3, Hi3.
      set (st1 := match marks !! enc (Some f) with
                  | Some _ => (marks, hits)
                  | None => if F.output fd
                            then (<[enc (Some f):=true]> marks, hits ++ [F.index fd])
                            else (marks, hits)
                  end).
      assert (hits_ok st1.1 st1.2) as Hhits1.
      { unfold st1. destruct (marks !! enc (Some f)) eqn:Hm; [done|].
        destruct (F.output fd) eqn:Hfo; [|done]. simpl. by apply T_hits_ok_mark. }
      destruct st1 as [marks1 hits1]. simpl in Hhits1.
      destruct (T_suffix_walk_spec (length (T.mem m)) f fd marks1 hits1)
        as (marks' & hits' & Hwalk & Hhits'); [done|done| |done|].
      { rewrite (sim_length _ _ Hsim). pose proof (sh_depth _ Hsh f fd Hfd).
        apply lookup_lt_Some in Hfd. lia. }
      rewrite Hwalk, bind_some. exists (enc (Some f)), f, marks', hits'.
      split_and!; [done|by eapply lookup_lt_Some| |done].
      simpl. split; intros; lia.
    - rewrite decide_False by (simpl; lia).
      exists ni1, a1, marks, hits. split_and!; [done|by eapply lookup_lt_Some|done..].
  Qed.

Lemma T_match_loop_cons st c rest :
    T.match_loop m st (c :: rest) = st' ← T.match_byte m st c; T.match_loop m st' rest.
  Proof. done. Qed.

Lemma T_match_loop_spec input : ∀ ni a marks hits,
    a < length hp → (ni = 1%Z ↔ a = 0) → hits_ok marks hits →
    ∃ ni' a' marks' hits',
      T.match_loop m (ni, Some a, marks, hits) input = Some (ni', a', marks', hits') ∧
      hits_ok marks' hits'.
  Proof.
    induction input as [|c rest IH]; intros ni a marks hits Ha Hni Hhits.
    - by exists ni, (Some a), marks, hits.
    - destruct (T_match_byte_spec ni a marks hits c Ha Hni Hhits)
        as (ni1 & a1 & marks1 & hits1 & Hstep & Ha1 & Hni1 & Hhits1).
      destruct (IH ni1 a1 marks1 hits1 Ha1 Hni1 Hhits1) as (ni' & a' & marks' & hits' & Hrest & Hh').
      exists ni', a', marks', hits'. by rewrite T_match_loop_cons, Hstep, bind_some.
  Qed.

  (** [Match] returns: no index twice, and only indices that are the last
      position of a non-empty pattern. *)
Theorem T_Match_spec input :
    ∃ hits, T.Match m input = Some (hits, m) ∧ NoDup hits ∧
            ∀ z, z ∈ hits → ∃ w, last_index D w z ∧ w ≠ [].
  Proof.
    destruct (sh_root _ Hsh) as (rd & Hr & _).
    destruct (T_match_loop_spec input 1 0 ∅ [])
      as (ni' & a' & marks' & hits & Hloop & (ms & Hnd & Hin & Hall)).
    { by eapply lookup_lt_Some. }
    { done. }
    { exists []. split_and!; [constructor| |constructor].
      intros k. rewrite lookup_empty. split; [by intros [? ?]|].
      by intros (q & ?%elem_of_nil & _). }
    exists hits. unfold T.Match. rewrite (sim_root _ _ Hsim), Hloop, bind_some.
    pose proof (au_out _ _ Hau) as Hout. split_and!; [done| |].
    - eapply Forall2_NoDup; [done..|].
      intros q q' z (Hq0 & qd & Hq & Hqo & Hqi) (Hq0' & qd' & Hq' & Hqo' & Hqi').
      pose proof (out_index _ _ Hout q qd Hq Hqo) as Hl.
      pose proof (out_index _ _ Hout q' qd' Hq' Hqo') as Hl'.
      rewrite Hqi in Hl. rewrite Hqi' in Hl'.
      eapply (sh_inj _ Hsh); eauto. by eapply last_index_unique.
    - intros z Hz. apply list_elem_of_lookup in Hz as (i & Hi).
      destruct (Forall2_lookup_r _ _ _ _ _ Hall Hi) as (q & _ & Hq0 & qd & Hq & Hqo & Hqi).
      exists (F.b qd). split.
      + rewrite <- Hqi. by eapply out_index.
      + eapply (node_at_nonroot hp Hsh q); [by exists qd|done].
  Qed.
End scan.

End TableMatch.

(** * The properties of the specification *)
Module Specification.
Module F := FixedArray.
Module T := Table.
Import FixedArrayTrie FixedArrayBuild FixedArrayInsert FixedArrayLinks FixedArrayFails
       FixedArrayGoto FixedArrayMatch FixedArrayFrame TableSim TableInsert TableMatch.

Definition bytes_of (s : string) : list byte := String.list_byte_of_string s.

(** [scan(build(D), S)]: the hits of the first [Match] on a new matcher. *)
Definition fixed_scan (D : list (list byte)) (S : list byte) : option (list Z) :=
  m ← F.NewMatcher D; r ← F.Match m S; Some r.1.

Definition table_scan (D : list (list byte)) (S : list byte) : option (list Z) :=
  m ← T.NewMatcher D; r ← T.Match m S; Some r.1.

(** The identifiers of the table version are [int32]: the root, the nodes
    and the next free identifier stay below 2^31. *)
Definition fits_int32 (D : list (list byte)) : Prop :=
  (Z.of_nat (total_length D) + 2 < 2 ^ 31)%Z.

(** The node the table version stands on after the bytes of [S]. *)
Definition table_position (D : list (list byte)) (S : list byte) : option Z :=
  m ← T.NewMatcher D;
  st ← T.match_loop m (1%Z, T.m_root m, ∅, []) S;
  Some st.1.1.1.

(** The transition as the specification words it, on the table version's
    nodes: follow [fail] while the node is not the root and has no child for
    [c]; then move to the child for [c] if there is one, and stay otherwise. *)
Fixpoint follow_fail_chain (fuel : nat) (m : T.Matcher) (ni : Z) (c : byte) : option Z :=
  p ← T.tableGet m ni;
  nd ← T.deref (T.mem m) p;
  if decide (ni ≠ 1%Z ∧ T.getChild nd c = 0%Z)
  then match fuel with
       | O => None
       | S fuel => follow_fail_chain fuel m (T.fail nd) c
       end
  else Some (if decide (T.getChild nd c ≠ 0%Z) then T.getChild nd c else ni).

Fixpoint follow_input (m : T.Matcher) (ni : Z) (S : list byte) : option Z :=
  match S with
  | [] => Some ni
  | c :: rest => ni ← follow_fail_chain (length (T.mem m)) m ni c; follow_input m ni rest
  end.

Definition spec_position (D : list (list byte)) (S : list byte) : option Z :=
  m ← T.NewMatcher D; follow_input m 1 S.

(** The identifier of the node of path [w]. *)
Definition table_node (D : list (list byte)) (w : list byte) : option Z :=
  m ← T.NewMatcher D; T.findBlice m w.

Lemma fixed_scan_spec D S :
  ∃ hits, fixed_scan D S = Some hits ∧ NoDup hits ∧ ∀ z, z ∈ hits ↔ reported D S z.
Proof.
  destruct (served_new D) as (m & Hnew & Hs).
  destruct (served_Match D 0 m S Hs) as (hits & m' & HM & _ & Hnd & Hhits); [lia|].
  exists hits. unfold fixed_scan. rewrite Hnew, bind_some, HM, bind_some. done.
Qed.

Lemma table_scan_spec D S :
  fits_int32 D →
  ∃ hits, table_scan D S = Some hits ∧ NoDup hits ∧
          ∀ z, z ∈ hits → ∃ w, last_index D w z ∧ w ≠ [].
Proof.
  intros Hfit. destruct (NewMatcher_sim D Hfit) as (hp & m & _ & Hnew & Hsim & Hau).
  destruct (T_Match_spec hp m D Hsim Hau S) as (hits & HM & Hnd & Hhits).
  exists hits. unfold table_scan. rewrite Hnew, bind_some, HM, bind_some. done.
Qed.

Lemma last_index_lookup D w i : last_index D w (Z.of_nat i) → D !! i = Some w.
Proof. intros (i' & Hi & Hw & _). by replace i with i' by lia. Qed.

Lemma last_index_last D w i j : last_index D w (Z.of_nat i) → i < j → D !! j ≠ Some w.
Proof. intros (i' & Hi & _ & Hlast) Hij. apply Hlast. lia. Qed.

(** C1 (amended).  In the fixed-array version, the result of [Match] on the
    automaton built from [D] holds no index twice, and holds [z] exactly when
    [z] is the last position in [D] of a non-empty pattern that occurs in [S]. *)
Theorem Match_reports_last_indices D S :
  ∃ hits, fixed_scan D S = Some hits ∧ NoDup hits ∧ ∀ z, z ∈ hits ↔ reported D S z.
Proof. apply fixed_scan_spec. Qed.

(** C1 as stated fails: with the pattern "a" at the indices 0 and 1, the
    pattern at index 0 occurs in the input "a" and 0 is not reported. *)
Lemma Match_omits_earlier_duplicate :
  fixed_scan [bytes_of "a"; bytes_of "a"] (bytes_of "a") = Some [1%Z] ∧
  [bytes_of "a"; bytes_of "a"] !! 0 = Some (bytes_of "a") ∧
  occurs (bytes_of "a") (bytes_of "a") ∧
  0%Z ∉ [1%Z].
Proof.
  split_and!.
  - vm_compute. reflexivity.
  - reflexivity.
  - exists [], []. reflexivity.
  - intros H. apply list_elem_of_singleton in H. discriminate H.
Qed.

(** C2, at the dictionary ["aa"; "b"] and the input "aab": the table version
    follows [fail] once, from the node of "aa" to the node of "a", and stays
    there, where the specification's transition goes on to the root and then
    to the node of "b". *)
Theorem table_Match_follows_fail_once :
  table_position [bytes_of "aa"; bytes_of "b"] (bytes_of "aab")
    = table_node [bytes_of "aa"; bytes_of "b"] (bytes_of "a") ∧
  spec_position [bytes_of "aa"; bytes_of "b"] (bytes_of "aab")
    = table_node [bytes_of "aa"; bytes_of "b"] (bytes_of "b") ∧
  table_node [bytes_of "aa"; bytes_of "b"] (bytes_of "a") = Some 2%Z ∧
  table_node [bytes_of "aa"; bytes_of "b"] (bytes_of "b") = Some 4%Z.
Proof. split_and!; vm_compute; reflexivity. Qed.

(** C3, at the dictionary ["aa"; "b"] and the input "aab": the fixed-array
    version reports both patterns, the table version only the first. *)
Theorem versions_disagree :
  fixed_scan [bytes_of "aa"; bytes_of "b"] (bytes_of "aab") = Some [0%Z; 1%Z] ∧
  table_scan [bytes_of "aa"; bytes_of "b"] (bytes_of "aab") = Some [0%Z].
Proof. split; vm_compute; reflexivity. Qed.

(** The table version can also report a pattern that does not occur. *)
Lemma table_scan_reports_absent_pattern :
  table_scan [bytes_of "aaX"; bytes_of "aY"] (bytes_of "aabY") = Some [1%Z] ∧
  fixed_scan [bytes_of "aaX"; bytes_of "aY"] (bytes_of "aabY") = Some [].
Proof. split; vm_compute; reflexivity. Qed.

(** C9 (amended).  A dictionary may hold a zero-length pattern: the matcher
    is built and [Match] returns, and the index of a zero-length pattern is
    never in the result. *)
Theorem empty_pattern_never_reported D i S :
  D !! i = Some [] → fits_int32 D →
  (∃ hits, fixed_scan D S = Some hits ∧ Z.of_nat i ∉ hits) ∧
  (∃ hits, table_scan D S = Some hits ∧ Z.of_nat i ∉ hits).
Proof.
  intros Hi Hfit. split.
  - destruct (fixed_scan_spec D S) as (hits & Hscan & _ & Hhits).
    exists hits. split; [done|]. intros (w & Hw & Hne & _)%Hhits.
    apply last_index_lookup in Hw. congruence.
  - destruct (table_scan_spec D S Hfit) as (hits & Hscan & _ & Hhits).
    exists hits. split; [done|]. intros (w & Hw & Hne)%Hhits.
    apply last_index_lookup in Hw. congruence.
Qed.

Lemma empty_pattern_never_reported_witness :
  (∃ hits, fixed_scan [bytes_of "a"; []] (bytes_of "a") = Some hits ∧ Z.of_nat 1 ∉ hits) ∧
  (∃ hits, table_scan [bytes_of "a"; []] (bytes_of "a") = Some hits ∧ Z.of_nat 1 ∉ hits).
Proof.
  apply (empty_pattern_never_reported [bytes_of "a"; []] 1 (bytes_of "a")).
  - reflexivity.
  - vm_compute. reflexivity.
Defined.

(** C9 as stated fails: the dictionary [""] is accepted, and index 0 is
    reported neither on the empty input nor on the input "a". *)
Lemma empty_pattern_not_matched :
  [bytes_of ""] !! 0 = Some [] ∧
  fixed_scan [bytes_of ""] [] = Some [] ∧
  fixed_scan [bytes_of ""] (bytes_of "a") = Some [] ∧
  table_scan [bytes_of ""] [] = Some [] ∧
  table_scan [bytes_of ""] (bytes_of "a") = Some [].
Proof. split_and!; vm_compute; reflexivity. Qed.

(** C10.  When the pattern at index [i] stands again at a later index [j],
    [Match] does not report [i]. *)
Theorem earlier_duplicate_never_reported D i j p S :
  i < j → D !! i = Some p → D !! j = Some p → fits_int32 D →
  (∃ hits, fixed_scan D S = Some hits ∧ Z.of_nat i ∉ hits) ∧
  (∃ hits, table_scan D S = Some hits ∧ Z.of_nat i ∉ hits).
Proof.
  intros Hij Hi Hj Hfit. split.
  - destruct (fixed_scan_spec D S) as (hits & Hscan & _ & Hhits).
    exists hits. split; [done|]. intros (w & Hw & _)%Hhits.
    pose proof (last_index_lookup _ _ _ Hw) as Hw'.
    apply (last_index_last _ _ _ j Hw Hij). congruence.
  - destruct (table_scan_spec D S Hfit) as (hits & Hscan & _ & Hhits).
    exists hits. split; [done|]. intros (w & Hw & _)%Hhits.
    pose proof (last_index_lookup _ _ _ Hw) as Hw'.
    apply (last_index_last _ _ _ j Hw Hij). congruence.
Qed.

Lemma earlier_duplicate_never_reported_witness :
  (∃ hits, fixed_scan [bytes_of "a"; bytes_of "a"] (bytes_of "a") = Some hits ∧ Z.of_nat 0 ∉ hits) ∧
  (∃ hits, table_scan [bytes_of "a"; bytes_of "a"] (bytes_of "a") = Some hits ∧ Z.of_nat 0 ∉ hits).
Proof.
  apply (earlier_duplicate_never_reported [bytes_of "a"; bytes_of "a"] 0 1 (bytes_of "a")).
  - lia.
  - reflexivity.
  - reflexivity.
  - vm_compute. reflexivity.
Defined.

End Specification.

Module Calls.
Module F := FixedArray.
Module T := Table.
Import FixedArrayTrie FixedArrayBuild FixedArrayInsert FixedArrayLinks FixedArrayFails
       FixedArrayGoto FixedArrayScan FixedArrayMatch FixedArrayFrame
       TableSim TableInsert TableMatch Specification.

(** The results of the calls [Match(in)], [in] ranging over [inputs], made
    one after the other on the same matcher. *)
Fixpoint fixed_calls (m : F.Matcher) (inputs : list (list byte)) : option (list (list Z)) :=
  match inputs with
  | [] => Some []
  | input :: rest =>
      r ← F.Match m input; results ← fixed_calls r.2 rest; Some (r.1 :: results)
  end.

Fixpoint table_calls (m : T.Matcher) (inputs : list (list byte)) : option (list (list Z)) :=
  match inputs with
  | [] => Some []
  | input :: rest =>
      r ← T.Match m input; results ← table_calls r.2 rest; Some (r.1 :: results)
  end.

(** [n] calls [Match([]byte{})] in a row. *)
Definition idle_calls (n : N) (m : F.Matcher) : option F.Matcher :=
  N.iter n (λ om, m ← om; r ← F.Match m []; Some r.2) (Some m).

(** A matcher that holds the root alone. *)
Definition bare_fixed : F.Matcher := F.mkMatcher 0 (Some 0) [F.set_root true F.zero_node].
Definition bare_table : T.Matcher := init_Matcher.

Lemma uncounted_set_counter nd nd' :
  uncounted nd' = uncounted nd → nd' = F.set_counter (F.counter nd') nd.
Proof.
  destruct nd, nd'. unfold uncounted, skel, frame, F.set_counter. simpl.
  intros H. injection H as -> -> -> -> -> -> -> ->. done.
Qed.

Lemma T_Match_same m input hits m' : T.Match m input = Some (hits, m') → m' = m.
Proof.
  unfold T.Match. intros H. apply bind_Some in H as ([[[ni n] marks] hits1] & _ & H).
  by simplify_eq.
Qed.

(** C4 (amended).  A call to [Match] leaves the root pointer and, in every
    node, every field but [counter] as it was.  The fixed-array version adds
    one to the matcher's counter and leaves in a node's counter its old value
    or the matcher's new one; the table version writes nothing. *)
Theorem Match_writes_only_counters (mF : F.Matcher) (mT : T.Matcher) (input : list byte) :
  (∀ hits mF', F.Match mF input = Some (hits, mF') →
     F.m_root mF' = F.m_root mF ∧
     F.m_counter mF' = wrap_int (F.m_counter mF + 1) ∧
     length (F.mem mF') = length (F.mem mF) ∧
     ∀ a nd, F.mem mF !! a = Some nd →
       ∃ c, (c = F.counter nd ∨ c = F.m_counter mF') ∧
            F.mem mF' !! a = Some (F.set_counter c nd)) ∧
  (∀ hits mT', T.Match mT input = Some (hits, mT') → mT' = mT).
Proof.
  split.
  - intros hits mF' HM. destruct (Match_frame _ _ _ _ HM) as (Hroot & Hcnt & Hsu & Hst).
    split_and!; [done|done|symmetry; by eapply same_by_length|].
    intros a nd Ha. destruct (same_by_lookup _ _ _ _ _ Hsu Ha) as (nd' & Ha' & Hk).
    exists (F.counter nd'). split.
    + rewrite Hcnt. by apply (Hst a nd nd').
    + rewrite Ha'. f_equal. by apply uncounted_set_counter.
  - apply T_Match_same.
Qed.

Lemma Match_writes_only_counters_witness :
  (F.m_root (F.mkMatcher 1 (Some 0) [F.set_root true F.zero_node]) = F.m_root bare_fixed ∧
   F.m_counter (F.mkMatcher 1 (Some 0) [F.set_root true F.zero_node])
     = wrap_int (F.m_counter bare_fixed + 1) ∧
   length (F.mem (F.mkMatcher 1 (Some 0) [F.set_root true F.zero_node]))
     = length (F.mem bare_fixed) ∧
   ∀ a nd, F.mem bare_fixed !! a = Some nd →
     ∃ c, (c = F.counter nd ∨ c = F.m_counter (F.mkMatcher 1 (Some 0) [F.set_root true F.zero_node])) ∧
          F.mem (F.mkMatcher 1 (Some 0) [F.set_root true F.zero_node]) !! a
            = Some (F.set_counter c nd)) ∧
  bare_table = bare_table.
Proof.
  destruct (Match_writes_only_counters bare_fixed bare_table (bytes_of "a")) as [HF HT].
  split.
  - apply (HF []). vm_compute. reflexivity.
  - apply (HT []). vm_compute. reflexivity.
Defined.

(** C4 as stated fails: on the matcher of ["a"], [Match("a")] changes the
    matcher's counter from 0 to 1, and the counter of the node of "a" too. *)
Lemma Match_advances_counters :
  ∃ m hits m',
    F.NewMatcher [bytes_of "a"] = Some m ∧ F.Match m (bytes_of "a") = Some (hits, m') ∧
    F.m_counter m = 0%Z ∧ F.m_counter m' = 1%Z ∧
    F.counter <$> F.mem m = [0%Z; 0%Z] ∧ F.counter <$> F.mem m' = [0%Z; 1%Z].
Proof.
  assert ((m ← F.NewMatcher [bytes_of "a"]; r ← F.Match m (bytes_of "a");
           Some (F.m_counter m, F.m_counter r.2, F.counter <$> F.mem m, F.counter <$> F.mem r.2))
          = Some (0%Z, 1%Z, [0%Z; 0%Z], [0%Z; 1%Z])) as Hc by (vm_compute; reflexivity).
  apply bind_Some in Hc as (m & Hnew & Hc). apply bind_Some in Hc as ([hits m'] & HM & Hc).
  exists m, hits, m'. simpl in Hc. apply (inj Some) in Hc.
  pose proof (f_equal (λ x, x.1.1.1) Hc). pose proof (f_equal (λ x, x.1.1.2) Hc).
  pose proof (f_equal (λ x, x.1.2) Hc). pose proof (f_equal (λ x, x.2) Hc).
  split_and!; done.
Qed.

(** ** Call sequences *)

Lemma fixed_calls_cons m input rest :
  fixed_calls m (input :: rest)
  = r ← F.Match m input; results ← fixed_calls r.2 rest; Some (r.1 :: results).
Proof. done. Qed.

Lemma table_calls_cons m input rest :
  table_calls m (input :: rest)
  = r ← T.Match m input; results ← table_calls r.2 rest; Some (r.1 :: results).
Proof. done. Qed.

Lemma served_fixed_calls D inputs : ∀ k m,
  served D k m → (k + Z.of_nat (length inputs) < 2 ^ 64)%Z →
  ∃ results, fixed_calls m inputs = Some results ∧
             Forall2 (λ S hits, ∀ z, z ∈ hits ↔ reported D S z) inputs results.
Proof.
  induction inputs as [|input rest IH]; intros k m Hs Hlt.
  - exists []. split; [done|constructor].
  - simpl length in Hlt.
    destruct (served_Match D k m input Hs) as (hits & m1 & HM & Hs1 & _ & Hhits); [lia|].
    destruct (IH (k + 1)%Z m1 Hs1) as (results & Hrest & Hall); [lia|].
    exists (hits :: results). rewrite fixed_calls_cons, HM, bind_some. simpl.
    rewrite Hrest. split; [done|]. by constructor.
Qed.

Lemma table_calls_spec hp m D inputs :
  sim hp m → automaton hp D →
  ∃ results, table_calls m inputs = Some results ∧
             Forall2 (λ S hits, T.Match m S = Some (hits, m)) inputs results.
Proof.
  intros Hsim Hau. induction inputs as [|input rest (results & Hrest & Hall)].
  - exists []. split; [done|constructor].
  - destruct (T_Match_spec hp m D Hsim Hau input) as (hits & HM & _).
    exists (hits :: results). rewrite table_calls_cons, HM, bind_some. simpl.
    rewrite Hrest. split; [done|]. by constructor.
Qed.

(** X29.  On a new matcher of the fixed-array version that serves fewer
    than 2^64 calls in all (the range of its [int] counter), two calls
    [Match(S)] return the same set of indices, whatever calls are made
    before and between them. *)
Theorem fixed_repeated_Match_same_set D inputs :
  (Z.of_nat (length inputs) < 2 ^ 64)%Z →
  ∃ m results,
    F.NewMatcher D = Some m ∧ fixed_calls m inputs = Some results ∧
    length results = length inputs ∧
    ∀ i j S ri rj, inputs !! i = Some S → inputs !! j = Some S →
                   results !! i = Some ri → results !! j = Some rj →
                   ∀ z, z ∈ ri ↔ z ∈ rj.
Proof.
  intros Hlt. destruct (served_new D) as (m & Hnew & Hs).
  destruct (served_fixed_calls D inputs 0 m Hs) as (results & Hcalls & Hall); [lia|].
  exists m, results. split_and!; [done|done|symmetry; by eapply Forall2_length|].
  intros i j S ri rj Hi Hj Hri Hrj z.
  pose proof (Forall2_lookup_lr _ _ _ _ _ _ Hall Hi Hri) as H1.
  pose proof (Forall2_lookup_lr _ _ _ _ _ _ Hall Hj Hrj) as H2.
  simpl in H1, H2. by rewrite H1, H2.
Qed.

Lemma fixed_repeated_Match_same_set_witness :
  ∃ m results,
    F.NewMatcher [bytes_of "a"] = Some m ∧
    fixed_calls m [bytes_of "a"; bytes_of "b"; bytes_of "a"] = Some results ∧
    length results = length [bytes_of "a"; bytes_of "b"; bytes_of "a"] ∧
    ∀ i j S ri rj, [bytes_of "a"; bytes_of "b"; bytes_of "a"] !! i = Some S →
                   [bytes_of "a"; bytes_of "b"; bytes_of "a"] !! j = Some S →
                   results !! i = Some ri → results !! j = Some rj →
                   ∀ z, z ∈ ri ↔ z ∈ rj.
Proof.
  apply (fixed_repeated_Match_same_set [bytes_of "a"]
           [bytes_of "a"; bytes_of "b"; bytes_of "a"]).
  vm_compute. reflexivity.
Defined.

(** X30.  On a new matcher of the version with the [marks] map (dictionary
    within the range of the [int32] identifiers), two calls [Match(S)]
    return the same slice, for any number of calls before and between
    them. *)
Theorem table_repeated_Match_same_slice D inputs :
  fits_int32 D →
  ∃ m results,
    T.NewMatcher D = Some m ∧ table_calls m inputs = Some results ∧
    length results = length inputs ∧
    ∀ i j S ri rj, inputs !! i = Some S → inputs !! j = Some S →
                   results !! i = Some ri → results !! j = Some rj → ri = rj.
Proof.
  intros Hfit. destruct (NewMatcher_sim D Hfit) as (hp & m & _ & Hnew & Hsim & Hau).
  destruct (table_calls_spec hp m D inputs Hsim Hau) as (results & Hcalls & Hall).
  exists m, results. split_and!; [done|done|symmetry; by eapply Forall2_length|].
  intros i j S ri rj Hi Hj Hri Hrj.
  pose proof (Forall2_lookup_lr _ _ _ _ _ _ Hall Hi Hri) as H1.
  pose proof (Forall2_lookup_lr _ _ _ _ _ _ Hall Hj Hrj) as H2.
  simpl in H1, H2. congruence.
Qed.

Lemma table_repeated_Match_same_slice_witness :
  ∃ m results,
    T.NewMatcher [bytes_of "a"] = Some m ∧
    table_calls m [bytes_of "a"; bytes_of "b"; bytes_of "a"] = Some results ∧
    length results = length [bytes_of "a"; bytes_of "b"; bytes_of "a"] ∧
    ∀ i j S ri rj, [bytes_of "a"; bytes_of "b"; bytes_of "a"] !! i = Some S →
                   [bytes_of "a"; bytes_of "b"; bytes_of "a"] !! j = Some S →
                   results !! i = Some ri → results !! j = Some rj → ri = rj.
Proof.
  apply (table_repeated_Match_same_slice [bytes_of "a"]
           [bytes_of "a"; bytes_of "b"; bytes_of "a"]).
  vm_compute. reflexivity.
Defined.

(** ** Counter wrap-around *)

Lemma Match_nil m :
  F.Match m [] = Some ([], F.mkMatcher (wrap_int (F.m_counter m + 1)) (F.m_root m) (F.mem m)).
Proof. reflexivity. Qed.

Lemma idle_calls_spec c r hp (n : N) :
  idle_calls n (F.mkMatcher (wrap_int c) r hp)
  = Some (F.mkMatcher (wrap_int (c + Z.of_N n)) r hp).
Proof.
  unfold idle_calls. induction n as [|n IH] using N.peano_ind.
  - simpl. by rewrite Z.add_0_r.
  - rewrite N.iter_succ, IH, bind_some, Match_nil, bind_some. simpl.
    rewrite wrap_int_succ. do 3 f_equal. lia.
Qed.

(** C5.  The fixed-array version does not keep what the claim says: on the
    matcher of ["a"], [Match("a")] returns [0]; after 2^64 - 1 further calls
    on the empty input the matcher's counter, a Go [int], has wrapped around
    to 0; the next call stamps with 1, the stamp that the node of "a" still
    carries from the first call, and [Match("a")] returns no index although
    "a" occurs in the input. *)
Lemma Match_differs_after_wraparound :
  ∃ m0 m1 m2 m3,
    F.NewMatcher [bytes_of "a"] = Some m0 ∧
    F.Match m0 (bytes_of "a") = Some ([0%Z], m1) ∧
    idle_calls (2 ^ 64 - 1) m1 = Some m2 ∧
    F.Match m2 (bytes_of "a") = Some ([], m3).
Proof.
  assert ((m0 ← F.NewMatcher [bytes_of "a"]; r1 ← F.Match m0 (bytes_of "a");
           r2 ← F.Match (F.mkMatcher 0 (F.m_root r1.2) (F.mem r1.2)) (bytes_of "a");
           Some (F.m_counter m0, r1.1, r2.1)) = Some (0%Z, [0%Z], [])) as Hc
    by (vm_compute; reflexivity).
  apply bind_Some in Hc as (m0 & Hnew & Hc). apply bind_Some in Hc as ([h1 m1] & HM1 & Hc).
  apply bind_Some in Hc as ([h2 m3] & HM2 & Hc). simpl in Hc, HM2. apply (inj Some) in Hc.
  pose proof (f_equal (λ x, x.1.1) Hc) as Hc0. pose proof (f_equal (λ x, x.1.2) Hc) as Hh1.
  pose proof (f_equal (λ x, x.2) Hc) as Hh2. simpl in Hc0, Hh1, Hh2. subst h1 h2.
  destruct (Match_frame _ _ _ _ HM1) as (_ & Hcnt & _).
  exists m0, m1, (F.mkMatcher 0 (F.m_root m1) (F.mem m1)), m3. split_and!; [done..| |done].
  destruct m1 as [c1 r1 hp1]. simpl in Hcnt. simpl F.m_root. simpl F.mem. rewrite Hcnt, Hc0.
  rewrite (idle_calls_spec (0 + 1) r1 hp1 (2 ^ 64 - 1)).
  assert (wrap_int (0 + 1 + Z.of_N (2 ^ 64 - 1)) = 0%Z) as -> by (vm_compute; reflexivity).
  reflexivity.
Qed.

End Calls.

(** * The links of the automaton *)
Module Links.
Module F := FixedArray.
Module T := Table.
Import FixedArrayTrie FixedArrayBuild FixedArrayInsert FixedArrayLinks FixedArrayBfs
       FixedArrayFails FixedArrayGoto FixedArrayScan FixedArrayMatch FixedArrayFrame
       TableSim TableInsert TableBuild TableMatch Specification.

(** [Q] is the longest non-empty proper suffix of [P] that is [good], or the
    empty path (the path of the root) when no non-empty proper suffix of [P]
    is [good]. *)
Definition longest_proper_suffix (good : list byte → Prop) (P Q : list byte) : Prop :=
  (Q ≠ [] ∧ strict_suffix Q P ∧ good Q ∧
   ∀ w, w ≠ [] → strict_suffix w P → good w → length w ≤ length Q) ∨
  (Q = [] ∧ ∀ w, w ≠ [] → strict_suffix w P → ¬ good w).

(** ** Fixed-array version *)

(** [nd] is the node of path [P]: the node [findBlice] arrives at. *)
Definition fixed_at (m : F.Matcher) (P : list byte) (nd : F.node) : Prop :=
  ∃ a, F.findBlice m P = Some (Some a) ∧ F.mem m !! a = Some nd.

(** The pointer [p] is the address of the node of path [Q]. *)
Definition fixed_link (m : F.Matcher) (p : ptr) (Q : list byte) : Prop :=
  is_Some p ∧ F.findBlice m Q = Some p.

Definition fixed_path (m : F.Matcher) (w : list byte) : Prop := ∃ nd, fixed_at m w nd.

Definition fixed_output (m : F.Matcher) (w : list byte) : Prop :=
  ∃ nd, fixed_at m w nd ∧ F.output nd = true.

Definition fixed_fail_links (m : F.Matcher) : Prop :=
  ∀ P nd, fixed_at m P nd →
    (2 ≤ length P →
     ∃ Q, fixed_link m (F.fail nd) Q ∧ longest_proper_suffix (fixed_path m) P Q) ∧
    (length P = 1 → F.fail nd = F.m_root m).

Definition fixed_suffix_links (m : F.Matcher) : Prop :=
  ∀ P nd, P ≠ [] → fixed_at m P nd →
    ∃ Q, fixed_link m (F.suffix nd) Q ∧ longest_proper_suffix (fixed_output m) P Q.

(** The pointers met from [p] by [p = p.suffix], up to the root. *)
Fixpoint fixed_suffix_chain (fuel : nat) (m : F.Matcher) (p : ptr) : option (list ptr) :=
  if decide (p = F.m_root m) then Some []
  else match fuel with
       | O => None
       | S fuel =>
           nd ← F.deref (F.mem m) p;
           rest ← fixed_suffix_chain fuel m (F.suffix nd);
           Some (F.suffix nd :: rest)
       end.

Definition fixed_suffix_chains (m : F.Matcher) : Prop :=
  ∀ P p, is_Some p → F.findBlice m P = Some p →
    (∃ chain, fixed_suffix_chain (length P) m p = Some chain ∧
              NoDup (p :: chain) ∧ last (p :: chain) = Some (F.m_root m)) ∧
    (P ≠ [] → ∀ a hp cnt hits, p = Some a → same_uncounted (F.mem m) hp →
              is_Some (F.suffix_walk (length hp) cnt hp a hits)).

(** ** Table version *)

Definition table_at (m : T.Matcher) (P : list byte) (nd : T.node) : Prop :=
  ∃ i p, T.findBlice m P = Some i ∧ i ≠ 0%Z ∧
         T.tableGet m i = Some p ∧ T.deref (T.mem m) p = Some nd.

Definition table_link (m : T.Matcher) (i : Z) (Q : list byte) : Prop :=
  i ≠ 0%Z ∧ T.findBlice m Q = Some i.

Definition table_path (m : T.Matcher) (w : list byte) : Prop := ∃ nd, table_at m w nd.

Definition table_output (m : T.Matcher) (w : list byte) : Prop :=
  ∃ nd, table_at m w nd ∧ T.output nd = true.

Definition table_fail_links (m : T.Matcher) : Prop :=
  ∀ P nd, table_at m P nd →
    (2 ≤ length P →
     ∃ Q, table_link m (T.fail nd) Q ∧ longest_proper_suffix (table_path m) P Q) ∧
    (length P = 1 → T.fail nd = 1%Z).

Definition table_suffix_links (m : T.Matcher) : Prop :=
  ∀ P nd, P ≠ [] → table_at m P nd →
    ∃ Q, table_link m (T.suffix nd) Q ∧ longest_proper_suffix (table_output m) P Q.

Fixpoint table_suffix_chain (fuel : nat) (m : T.Matcher) (i : Z) : option (list Z) :=
  if decide (i = 1%Z) then Some []
  else match fuel with
       | O => None
       | S fuel =>
           p ← T.tableGet m i;
           nd ← T.deref (T.mem m) p;
           rest ← table_suffix_chain fuel m (T.suffix nd);
           Some (T.suffix nd :: rest)
       end.

Definition table_suffix_chains (m : T.Matcher) : Prop :=
  ∀ P i, i ≠ 0%Z → T.findBlice m P = Some i →
    (∃ chain, table_suffix_chain (length P) m i = Some chain ∧
              NoDup (i :: chain) ∧ last (i :: chain) = Some 1%Z) ∧
    (P ≠ [] → ∃ p, T.tableGet m i = Some p ∧
              ∀ marks hits, is_Some (T.suffix_walk (length (T.mem m)) m p marks hits)).

(** ** On the store *)

Lemma longest_proper_suffix_iff (good good' : list byte → Prop) P Q :
  (∀ w, good w ↔ good' w) → longest_proper_suffix good P Q → longest_proper_suffix good' P Q.
Proof.
  intros Hiff [(HQ & Hs & Hg & Hmax)|(HQ & Hnone)]; [left|right].
  - split_and!; [done|done|by apply Hiff|]. intros w ? ? ?%Hiff. by apply Hmax.
  - split; [done|]. intros w ? ? ?%Hiff. by eapply Hnone.
Qed.

Definition output_path (hp : list F.node) (w : list byte) : Prop :=
  ∃ q qd, hp !! q = Some qd ∧ F.b qd = w ∧ F.output qd = true.

Section store.
Context (hp : list F.node) (D : list (list byte)) (Hau : automaton hp D).

Let Hsh : shape hp := au_shape _ _ Hau.

Lemma nil_length_inv (w : list byte) : length w ≤ 0 → w = [].
Proof. destruct w; simpl; [done|lia]. Qed.

Lemma fail_longest a nd :
  hp !! a = Some nd → a ≠ 0 →
  ∃ r rd, F.fail nd = Some r ∧ hp !! r = Some rd ∧
          longest_proper_suffix (has_path hp) (F.b nd) (F.b rd) ∧
          (length (F.b nd) = 1 → r = 0).
Proof.
  intros Ha Ha0. destruct (au_linked _ _ Hau a nd Ha Ha0) as [(r & rd & Hf & Hr & Hs & Hmax) _].
  exists r, rd. split_and!; [done..| |].
  - destruct (decide (F.b rd = [])) as [Hnil|Hne]; [right|left].
    + split; [done|]. intros w Hw Hsw Hp. apply Hw, nil_length_inv.
      rewrite <- (length_zero_iff_nil (F.b rd)) in Hnil. rewrite <- Hnil. by apply Hmax.
    + split_and!; [done|done|by exists r, rd|]. intros w _ Hsw Hp. by apply Hmax.
  - intros Hl. destruct Hs as [_ Hlt]. eapply (node_at_nil hp Hsh r). exists rd. split; [done|].
    apply nil_length_inv. lia.
Qed.

Lemma suffix_longest a nd :
  hp !! a = Some nd → a ≠ 0 →
  ∃ r rd, F.suffix nd = Some r ∧ hp !! r = Some rd ∧
          longest_proper_suffix (output_path hp) (F.b nd) (F.b rd).
Proof.
  intros Ha Ha0.
  destruct (au_linked _ _ Hau a nd Ha Ha0) as [_ (r & rd & Hf & Hr & Hs & Hout & Hmax)].
  exists r, rd. split_and!; [done..|].
  assert (∀ w, w ≠ [] → strict_suffix w (F.b nd) → output_path hp w →
               length w ≤ length (F.b rd)) as Hmax'.
  { intros w Hw Hsw (q & qd & Hq & Hb & Hqo). rewrite <- Hb. apply (Hmax q qd); [done| |done|].
    - intros ->. apply Hw. destruct (sh_root _ Hsh) as (rd' & Hr' & _ & Hb'). congruence.
    - by rewrite Hb. }
  destruct (decide (r = 0)) as [->|Hr0]; [right|left].
  - assert (F.b rd = []) as Hnil.
    { destruct (sh_root _ Hsh) as (rd' & Hr' & _ & Hb'). congruence. }
    split; [done|]. intros w Hw Hsw Hp. apply Hw, nil_length_inv.
    rewrite <- (length_zero_iff_nil (F.b rd)) in Hnil. rewrite <- Hnil. by apply Hmax'.
  - destruct Hout as [?|Hout]; [done|]. split_and!; [|done|by exists r, rd|done].
    eapply (node_at_nonroot hp Hsh r); [by exists rd|done].
Qed.

Lemma fixed_chain_step fuel m p :
  fixed_suffix_chain fuel m p =
  if decide (p = F.m_root m) then Some []
  else match fuel with
       | O => None
       | S fuel =>
           nd ← F.deref (F.mem m) p;
           rest ← fixed_suffix_chain fuel m (F.suffix nd);
           Some (F.suffix nd :: rest)
       end.
Proof. by destruct fuel. Qed.

(** The chain from a node visits nodes of shorter and shorter paths. *)
Lemma fixed_chain c : ∀ fuel a nd,
  hp !! a = Some nd → length (F.b nd) ≤ fuel →
  ∃ chain, fixed_suffix_chain fuel (F.mkMatcher c (Some 0) hp) (Some a) = Some chain ∧
           Forall (λ p, ∃ s sd, p = Some s ∧ hp !! s = Some sd ∧
                                length (F.b sd) < length (F.b nd)) chain ∧
           NoDup chain ∧ last (Some a :: chain) = Some (Some 0).
Proof.
  induction fuel as [|fuel IH]; intros a nd Ha Hfuel.
  all: rewrite fixed_chain_step; simpl F.m_root; simpl F.mem.
  all: destruct (decide (Some a = Some 0)) as [Ha0|Ha0];
    [exists []; split_and!; [done|constructor|constructor|by rewrite Ha0]|].
  all: assert (a ≠ 0) as Ha0' by congruence.
  - destruct (node_at_nonroot hp Hsh a (F.b nd)); [by exists nd|done|by apply nil_length_inv].
  - destruct (au_linked _ _ Hau a nd Ha Ha0') as [_ (s & sd & Hsuf & Hs & [_ Hlt] & _)].
    destruct (IH s sd Hs) as (rest & Hrest & Hall & Hnd & Hlast); [lia|].
    exists (Some s :: rest). simpl F.deref. rewrite Ha, bind_some, Hsuf, Hrest, bind_some.
    split_and!; [done| | |done].
    + constructor; [by exists s, sd|].
      eapply Forall_impl; [done|]. intros p (s' & sd' & -> & Hs' & Hlt'). exists s', sd'.
      split_and!; [done..|lia].
    + constructor; [|done]. intros Hin.
      rewrite Forall_forall in Hall. destruct (Hall _ Hin) as (s' & sd' & Heq & Hs' & Hlt').
      assert (s' = s) as -> by congruence. assert (sd' = sd) as -> by congruence. lia.
Qed.

Lemma fixed_chain_NoDup c fuel a nd :
  hp !! a = Some nd → length (F.b nd) ≤ fuel →
  ∃ chain, fixed_suffix_chain fuel (F.mkMatcher c (Some 0) hp) (Some a) = Some chain ∧
           NoDup (Some a :: chain) ∧ last (Some a :: chain) = Some (Some 0).
Proof.
  intros Ha Hfuel. destruct (fixed_chain c fuel a nd Ha Hfuel) as (chain & Hc & Hall & Hnd & Hl).
  exists chain. split_and!; [done| |done]. constructor; [|done]. intros Hin.
  rewrite Forall_forall in Hall. destruct (Hall _ Hin) as (s' & sd' & Heq & Hs' & Hlt').
  assert (s' = a) as -> by congruence. assert (sd' = nd) as -> by congruence. lia.
Qed.

(** What [findBlice] finds is the node whose [b] is the path. *)
Lemma findBlice_node c P a :
  F.findBlice (F.mkMatcher c (Some 0) hp) P = Some (Some a) → node_at hp a P.
Proof.
  unfold F.findBlice. simpl. intros H.
  destruct (findBlice_root_spec hp Hsh P) as (r & Hr & Hspec). rewrite Hr in H.
  apply (inj Some) in H. by subst r.
Qed.

Lemma fixed_at_iff c P nd :
  fixed_at (F.mkMatcher c (Some 0) hp) P nd ↔ ∃ a, hp !! a = Some nd ∧ F.b nd = P.
Proof.
  split.
  - intros (a & Hf & Ha). simpl in Ha. destruct (findBlice_node c P a Hf) as (nd' & Ha' & Hb).
    exists a. split; [done|]. congruence.
  - intros (a & Ha & Hb). exists a. split; [|done].
    apply (findBlice_found hp Hsh). by exists nd.
Qed.

Lemma fixed_path_iff c w : fixed_path (F.mkMatcher c (Some 0) hp) w ↔ has_path hp w.
Proof.
  unfold fixed_path. split.
  - intros (nd & (a & Ha & Hb)%fixed_at_iff). by exists a, nd.
  - intros (a & nd & Ha & Hb). exists nd. apply fixed_at_iff. by exists a.
Qed.

Lemma fixed_output_iff c w : fixed_output (F.mkMatcher c (Some 0) hp) w ↔ output_path hp w.
Proof.
  unfold fixed_output. split.
  - intros (nd & (a & Ha & Hb)%fixed_at_iff & Ho). by exists a, nd.
  - intros (a & nd & Ha & Hb & Ho). exists nd. split; [|done]. apply fixed_at_iff. by exists a.
Qed.

Lemma fixed_link_intro c r rd :
  hp !! r = Some rd → fixed_link (F.mkMatcher c (Some 0) hp) (Some r) (F.b rd).
Proof. intros Hr. split; [done|]. apply (findBlice_found hp Hsh). by exists rd. Qed.

Lemma nonroot_of_path a nd : hp !! a = Some nd → F.b nd ≠ [] → a ≠ 0.
Proof.
  intros Ha Hne ->. destruct (sh_root _ Hsh) as (rd & Hr & _ & Hb). congruence.
Qed.

Lemma fixed_fail_links_store c : fixed_fail_links (F.mkMatcher c (Some 0) hp).
Proof.
  intros P nd (a & Ha & Hb)%fixed_at_iff.
  assert (P ≠ [] → ∃ r rd, F.fail nd = Some r ∧ hp !! r = Some rd ∧
            longest_proper_suffix (has_path hp) P (F.b rd) ∧ (length P = 1 → r = 0)) as Hf.
  { intros HP. rewrite <- Hb. apply (fail_longest a); [done|]. apply (nonroot_of_path a nd Ha).
    by rewrite Hb. }
  split.
  - intros Hl. destruct Hf as (r & rd & Hfail & Hr & Hlps & _); [intros ->; simpl in Hl; lia|].
    exists (F.b rd). rewrite Hfail. split; [by apply fixed_link_intro|].
    eapply longest_proper_suffix_iff; [|done]. intros w. symmetry. apply fixed_path_iff.
  - intros Hl. destruct Hf as (r & rd & Hfail & Hr & _ & Hr0); [intros ->; simpl in Hl; lia|].
    rewrite Hfail, (Hr0 Hl). done.
Qed.

Lemma fixed_suffix_links_store c : fixed_suffix_links (F.mkMatcher c (Some 0) hp).
Proof.
  intros P nd HP (a & Ha & Hb)%fixed_at_iff.
  destruct (suffix_longest a nd Ha) as (r & rd & Hsuf & Hr & Hlps).
  { apply (nonroot_of_path a nd Ha). by rewrite Hb. }
  exists (F.b rd). rewrite Hsuf. split; [by apply fixed_link_intro|].
  rewrite <- Hb. eapply longest_proper_suffix_iff; [|done].
  intros w. symmetry. apply fixed_output_iff.
Qed.

Lemma fixed_suffix_chains_store c : fixed_suffix_chains (F.mkMatcher c (Some 0) hp).
Proof.
  intros P p [a ->] Hfind. destruct (findBlice_node c P a Hfind) as (nd & Ha & Hb). split.
  - simpl F.m_root. apply (fixed_chain_NoDup c (length P) a nd Ha). by rewrite Hb.
  - intros HP a' hp' cnt hits Ha' Hsu. apply (inj Some) in Ha' as <-. simpl in Hsu.
    destruct (same_by_lookup _ _ _ _ _ Hsu Ha) as (nd' & Hnd' & Hk).
    pose proof (automaton_same _ _ _ Hsu Hau) as Hau'.
    destruct (suffix_walk_total D cnt (length hp') hp' a nd' hits) as [r Hr]; [done|done| | |by eexists].
    + apply (nonroot_of_path a nd Ha). by rewrite Hb.
    + pose proof (sh_depth _ (au_shape _ _ Hau') a nd' Hnd'). apply lookup_lt_Some in Hnd'. lia.
Qed.

(** The paths that [findBlice] finds a node on are the prefixes of the
    patterns, and the output nodes are the nodes of the patterns. *)
Lemma output_path_iff w : output_path hp w ↔ w ∈ D.
Proof.
  split.
  - intros (q & qd & Hq & Hb & Ho). rewrite <- Hb. by apply (out_iff _ _ (au_out _ _ Hau) q qd Hq).
  - intros Hw. assert (is_path D w) as Hp by (right; by exists w).
    apply (au_paths _ _ Hau) in Hp as (q & qd & Hq & Hb). exists q, qd. split_and!; [done..|].
    apply (out_iff _ _ (au_out _ _ Hau) q qd Hq). by rewrite Hb.
Qed.

Lemma fixed_paths_store c P : fixed_path (F.mkMatcher c (Some 0) hp) P ↔ is_path D P.
Proof. rewrite fixed_path_iff. apply (au_paths _ _ Hau). Qed.

Lemma fixed_outputs_store c P : fixed_output (F.mkMatcher c (Some 0) hp) P ↔ P ∈ D.
Proof. rewrite fixed_output_iff. apply output_path_iff. Qed.

(** ** Across the simulation *)
Context (m : T.Matcher) (Hsim : sim hp m).

Lemma table_findBlice P :
  ∃ r, F.findBlice_loop hp (Some 0) P = Some r ∧ T.findBlice m P = Some (enc r) ∧
       ptr_valid (length hp) r.
Proof.
  destruct (findBlice_root_spec hp Hsh P) as (r & Hr & _). exists r. split; [done|].
  destruct (sim_findBlice hp m P Hsh Hsim (Some 0) r) as [HT Hv]; [|done|done].
  simpl. destruct (sh_root _ Hsh) as (rd & Hrd & _). by eapply lookup_lt_Some.
Qed.

Lemma table_findBlice_inv P i :
  T.findBlice m P = Some i → i ≠ 0%Z →
  ∃ a nd nd3, i = enc (Some a) ∧ hp !! a = Some nd ∧ F.b nd = P ∧
              T.mem m !! a = Some nd3 ∧ node_rel nd nd3 ∧ T.tableGet m i = Some (Some a).
Proof.
  intros Hi Hi0. destruct (table_findBlice P) as (r & HF & HT & Hv).
  assert (i = enc r) as -> by congruence. destruct r as [a|]; [|done].
  destruct (findBlice_root_spec hp Hsh P) as (r' & Hr' & Hspec).
  assert (r' = Some a) as -> by congruence. destruct Hspec as (nd & Ha & Hb).
  destruct (sim_lookup _ _ _ _ Hsim Ha) as (nd3 & Ha3 & Hrel).
  exists a, nd, nd3. split_and!; [done..|]. by apply (sim_tableGet hp).
Qed.

Lemma table_findBlice_found a nd :
  hp !! a = Some nd → T.findBlice m (F.b nd) = Some (enc (Some a)).
Proof.
  intros Ha. destruct (table_findBlice (F.b nd)) as (r & HF & HT & _).
  rewrite (findBlice_found hp Hsh (F.b nd) a) in HF by (by exists nd). congruence.
Qed.

Lemma table_at_iff P nd3 :
  table_at m P nd3 ↔ ∃ a nd, hp !! a = Some nd ∧ F.b nd = P ∧
                             T.mem m !! a = Some nd3 ∧ node_rel nd nd3.
Proof.
  split.
  - intros (i & p & Hi & Hi0 & Hget & Hderef).
    destruct (table_findBlice_inv P i Hi Hi0) as (a & nd & nd3' & -> & Ha & Hb & Ha3 & Hrel & Hg).
    assert (p = Some a) as -> by congruence. simpl in Hderef.
    exists a, nd. split_and!; [done..|congruence|congruence].
  - intros (a & nd & Ha & Hb & Ha3 & Hrel). exists (enc (Some a)), (Some a). split_and!.
    + rewrite <- Hb. by apply table_findBlice_found.
    + simpl. lia.
    + apply (sim_tableGet hp); [done|]. by eapply lookup_lt_Some.
    + done.
Qed.

Lemma table_path_iff w : table_path m w ↔ has_path hp w.
Proof.
  unfold table_path. split.
  - intros (nd3 & (a & nd & Ha & Hb & _)%table_at_iff). by exists a, nd.
  - intros (a & nd & Ha & Hb). destruct (sim_lookup _ _ _ _ Hsim Ha) as (nd3 & Ha3 & Hrel).
    exists nd3. apply table_at_iff. by exists a, nd.
Qed.

Lemma table_output_iff w : table_output m w ↔ output_path hp w.
Proof.
  unfold table_output. split.
  - intros (nd3 & (a & nd & Ha & Hb & _ & Hrel)%table_at_iff & Ho).
    exists a, nd. split_and!; [done..|]. destruct Hrel as (_ & Ho' & _). congruence.
  - intros (a & nd & Ha & Hb & Ho). destruct (sim_lookup _ _ _ _ Hsim Ha) as (nd3 & Ha3 & Hrel).
    exists nd3. split; [apply table_at_iff; by exists a, nd|].
    destruct Hrel as (_ & Ho' & _). congruence.
Qed.

Lemma table_paths_store P : table_path m P ↔ is_path D P.
Proof. rewrite table_path_iff. apply (au_paths _ _ Hau). Qed.

Lemma table_outputs_store P : table_output m P ↔ P ∈ D.
Proof. rewrite table_output_iff. apply output_path_iff. Qed.

Lemma table_link_intro r rd : hp !! r = Some rd → table_link m (enc (Some r)) (F.b rd).
Proof. intros Hr. split; [simpl; lia|]. by apply table_findBlice_found. Qed.

Lemma table_fail_links_store : table_fail_links m.
Proof.
  intros P nd3 (a & nd & Ha & Hb & Ha3 & Hrel)%table_at_iff.
  destruct Hrel as (_ & _ & _ & _ & _ & Hfail3).
  assert (P ≠ [] → ∃ r rd, F.fail nd = Some r ∧ hp !! r = Some rd ∧
            longest_proper_suffix (has_path hp) P (F.b rd) ∧ (length P = 1 → r = 0)) as Hf.
  { intros HP. rewrite <- Hb. apply (fail_longest a); [done|]. apply (nonroot_of_path a nd Ha).
    by rewrite Hb. }
  split.
  - intros Hl. destruct Hf as (r & rd & Hfail & Hr & Hlps & _); [intros ->; simpl in Hl; lia|].
    exists (F.b rd). rewrite Hfail3, Hfail. split; [by apply table_link_intro|].
    eapply longest_proper_suffix_iff; [|done]. intros w. symmetry. apply table_path_iff.
  - intros Hl. destruct Hf as (r & rd & Hfail & Hr & _ & Hr0); [intros ->; simpl in Hl; lia|].
    rewrite Hfail3, Hfail, (Hr0 Hl). done.
Qed.

Lemma table_suffix_links_store : table_suffix_links m.
Proof.
  intros P nd3 HP (a & nd & Ha & Hb & Ha3 & Hrel)%table_at_iff.
  destruct Hrel as (_ & _ & _ & _ & Hsuf3 & _).
  destruct (suffix_longest a nd Ha) as (r & rd & Hsuf & Hr & Hlps).
  { apply (nonroot_of_path a nd Ha). by rewrite Hb. }
  exists (F.b rd). rewrite Hsuf3, Hsuf. split; [by apply table_link_intro|].
  rewrite <- Hb. eapply longest_proper_suffix_iff; [|done].
  intros w. symmetry. apply table_output_iff.
Qed.

Lemma table_chain_step fuel i :
  table_suffix_chain fuel m i =
  if decide (i = 1%Z) then Some []
  else match fuel with
       | O => None
       | S fuel =>
           p ← T.tableGet m i;
           nd ← T.deref (T.mem m) p;
           rest ← table_suffix_chain fuel m (T.suffix nd);
           Some (T.suffix nd :: rest)
       end.
Proof. by destruct fuel. Qed.

(** The chain of the table version is the chain of the fixed-array version,
    pointer by pointer. *)
Lemma table_chain c : ∀ fuel a chain,
  a < length hp →
  fixed_suffix_chain fuel (F.mkMatcher c (Some 0) hp) (Some a) = Some chain →
  Forall (ptr_valid (length hp)) chain →
  table_suffix_chain fuel m (enc (Some a)) = Some (enc <$> chain).
Proof.
  induction fuel as [|fuel IH]; intros a chain Ha.
  all: rewrite fixed_chain_step, table_chain_step; simpl F.m_root; simpl F.mem.
  all: destruct (decide (Some a = Some 0)) as [Ha0|Ha0].
  all: try (rewrite decide_True by (apply enc_one; done); intros H _; by simplify_eq).
  all: rewrite decide_False by (by intros ?%enc_one).
  - done.
  - intros H Hv. apply bind_Some in H as (nd & Hnd & H). simpl in Hnd.
    apply bind_Some in H as (rest & Hrest & H). apply (inj Some) in H as <-.
    destruct (sim_lookup _ _ _ _ Hsim Hnd) as (nd3 & Ha3 & (_ & _ & _ & _ & Hsuf3 & _)).
    rewrite (sim_tableGet hp m (Some a)) by done. rewrite bind_some. simpl T.deref.
    rewrite Ha3, bind_some, Hsuf3. apply Forall_cons in Hv as [Hv1 Hv].
    destruct (F.suffix nd) as [s|] eqn:Hs.
    + rewrite (IH s rest Hv1 Hrest Hv), bind_some. done.
    + rewrite fixed_chain_step in Hrest. simpl F.m_root in Hrest.
      rewrite decide_False in Hrest by done. destruct fuel; [done|]. done.
Qed.

Lemma T_suffix_walk_total : ∀ fuel f fd marks hits,
  hp !! f = Some fd → f ≠ 0 → length (F.b fd) ≤ fuel →
  is_Some (T.suffix_walk fuel m (Some f) marks hits).
Proof.
  induction fuel as [|fuel IH]; intros f fd marks hits Hf Hf0 Hfuel.
  all: destruct (au_linked _ _ Hau f fd Hf Hf0)
         as [_ (s & sd & Hsuf & Hs & [Hss Hsl] & Hsout & Hsmax)].
  all: destruct (sim_lookup _ _ _ _ Hsim Hf) as (fd3 & Hf3 & (_ & _ & _ & _ & Hsuf3 & _)).
  all: destruct (sim_lookup _ _ _ _ Hsim Hs) as (sd3 & Hs3 & _).
  all: rewrite T_suffix_walk_eq; simpl T.deref; rewrite Hf3, bind_some, Hsuf3, Hsuf.
  all: destruct (decide (enc (Some s) = 1%Z)) as [?|Hs1]; [by eexists|].
  all: assert (s ≠ 0) as Hs0 by (intros ->; by apply Hs1).
  - assert (F.b sd ≠ []) by (eapply (node_at_nonroot hp Hsh s); [by exists sd|done]).
    destruct (F.b sd); simpl in *; [done|lia].
  - rewrite (sim_tableGet hp m (Some s)) by (done || by eapply lookup_lt_Some).
    rewrite bind_some. simpl T.deref. rewrite Hs3, bind_some.
    destruct (marks !! enc (Some s)); [by eexists|].
    apply (IH s sd); [done|done|lia].
Qed.

Lemma table_suffix_chains_store : table_suffix_chains m.
Proof.
  intros P i Hi0 Hfind.
  destruct (table_findBlice_inv P i Hfind Hi0) as (a & nd & nd3 & -> & Ha & Hb & Ha3 & Hrel & Hg).
  split.
  - destruct (fixed_chain 0 (length P) a nd Ha) as (chain & Hc & Hall & Hnd & Hl);
      [by rewrite Hb|].
    assert (Forall (ptr_valid (length hp)) chain) as Hv.
    { eapply Forall_impl; [done|]. intros p (s & sd & -> & Hs & _). by eapply lookup_lt_Some. }
    exists (enc <$> chain). split_and!.
    + apply (table_chain 0); [by eapply lookup_lt_Some|done|done].
    + change (enc (Some a) :: (enc <$> chain)) with (enc <$> (Some a :: chain)).
      apply (NoDup_fmap_2_strong enc); [intros p q _ _; apply enc_inj|].
      constructor; [|done]. intros Hin. rewrite Forall_forall in Hall.
      destruct (Hall _ Hin) as (s' & sd' & Heq & Hs' & Hlt').
      assert (s' = a) as -> by congruence. assert (sd' = nd) as -> by congruence. lia.
    + change (enc (Some a) :: (enc <$> chain)) with (enc <$> (Some a :: chain)).
      rewrite fmap_last, Hl. done.
  - intros HP. exists (Some a). split; [done|]. intros marks hits.
    apply (T_suffix_walk_total _ a nd); [done| |].
    + apply (nonroot_of_path a nd Ha). by rewrite Hb.
    + rewrite (sim_length _ _ Hsim). pose proof (sh_depth _ Hsh a nd Ha).
      apply lookup_lt_Some in Ha. lia.
Qed.

End store.

(** ** The links of a new matcher *)

(** The one non-empty proper suffix of a path of two bytes is its last
    byte. *)
Lemma longest_proper_suffix_pair (good : list byte → Prop) x y Q :
  good [y] → longest_proper_suffix good [x; y] Q → Q = [y].
Proof.
  intros Hy [(HQ & [[k Hk] Hl] & _)|(_ & Hnone)].
  - destruct Q as [|z [|z' Q]]; [done| |simpl in Hl; lia].
    destruct k as [|k1 [|k2 k]]; simplify_eq/=; [done|]. by destruct k.
  - destruct (Hnone [y]); [done| |done]. split; [by exists [x]|simpl; lia].
Qed.

(** What the links of a trie of [D] are at a path of two bytes whose last
    byte is a path, or a pattern, too. *)
Lemma fixed_fail_link_at m D x y :
  (∀ P, fixed_path m P ↔ is_path D P) → fixed_fail_links m →
  is_path D [x; y] → is_path D [y] →
  ∃ nd, fixed_at m [x; y] nd ∧ fixed_link m (F.fail nd) [y].
Proof.
  intros Hp Hl Hxy Hy. apply Hp in Hxy as (nd & Hat). exists nd. split; [done|].
  destruct (Hl _ _ Hat) as [H2 _]. destruct H2 as (Q & Hlink & Hlps); [simpl; lia|].
  apply longest_proper_suffix_pair in Hlps as ->; [done|]. by apply Hp.
Qed.

Lemma table_fail_link_at m D x y :
  (∀ P, table_path m P ↔ is_path D P) → table_fail_links m →
  is_path D [x; y] → is_path D [y] →
  ∃ nd, table_at m [x; y] nd ∧ table_link m (T.fail nd) [y].
Proof.
  intros Hp Hl Hxy Hy. apply Hp in Hxy as (nd & Hat). exists nd. split; [done|].
  destruct (Hl _ _ Hat) as [H2 _]. destruct H2 as (Q & Hlink & Hlps); [simpl; lia|].
  apply longest_proper_suffix_pair in Hlps as ->; [done|]. by apply Hp.
Qed.

Lemma fixed_suffix_link_at m D x y :
  (∀ P, fixed_path m P ↔ is_path D P) → (∀ P, fixed_output m P ↔ P ∈ D) →
  fixed_suffix_links m → is_path D [x; y] → [y] ∈ D →
  ∃ nd, fixed_at m [x; y] nd ∧ fixed_link m (F.suffix nd) [y].
Proof.
  intros Hp Ho Hl Hxy Hy. apply Hp in Hxy as (nd & Hat). exists nd. split; [done|].
  destruct (Hl [x; y] nd) as (Q & Hlink & Hlps); [done|done|].
  apply longest_proper_suffix_pair in Hlps as ->; [done|]. by apply Ho.
Qed.

Lemma table_suffix_link_at m D x y :
  (∀ P, table_path m P ↔ is_path D P) → (∀ P, table_output m P ↔ P ∈ D) →
  table_suffix_links m → is_path D [x; y] → [y] ∈ D →
  ∃ nd, table_at m [x; y] nd ∧ table_link m (T.suffix nd) [y].
Proof.
  intros Hp Ho Hl Hxy Hy. apply Hp in Hxy as (nd & Hat). exists nd. split; [done|].
  destruct (Hl [x; y] nd) as (Q & Hlink & Hlps); [done|done|].
  apply longest_proper_suffix_pair in Hlps as ->; [done|]. by apply Ho.
Qed.

Lemma is_path_ab_b :
  is_path [bytes_of "ab"; bytes_of "b"] (bytes_of "ab") ∧
  is_path [bytes_of "ab"; bytes_of "b"] (bytes_of "b") ∧
  bytes_of "b" ∈ [bytes_of "ab"; bytes_of "b"].
Proof.
  split_and!.
  - right. exists (bytes_of "ab"). split; [by left|done].
  - right. exists (bytes_of "b"). split; [by right; left|done].
  - by right; left.
Qed.

(** C6.  [NewMatcher] returns a matcher whose trie is the trie of [D]: the
    paths that lead to a node are the empty path, which leads to the root,
    and the prefixes of the patterns.  In it the fail link of a node whose
    path [P] has two bytes or more points to the node of the longest proper
    suffix of [P] that is a path of the trie, and to the root when there is
    none; the fail link of a child of the root is the root.  The table
    version does so when its identifiers fit [int32]. *)
Theorem fail_links_longest_suffix D :
  (∃ m, F.NewMatcher D = Some m ∧ (∀ P, fixed_path m P ↔ is_path D P) ∧ fixed_fail_links m) ∧
  (fits_int32 D →
   ∃ m, T.NewMatcher D = Some m ∧ (∀ P, table_path m P ↔ is_path D P) ∧ table_fail_links m).
Proof.
  split.
  - destruct (NewMatcher_spec D) as (hp & HF & Hau & _).
    eexists. split; [done|]. split.
    + intros P. by eapply fixed_paths_store.
    + by eapply fixed_fail_links_store.
  - intros Hfit. destruct (NewMatcher_sim D Hfit) as (hp & m & HF & HT & Hsim & Hau).
    exists m. split; [done|]. split.
    + intros P. by eapply table_paths_store.
    + by eapply table_fail_links_store.
Qed.

(** In the matchers of ["ab"; "b"], the fail link of the node of "ab" points
    to the node of "b". *)
Lemma fail_links_longest_suffix_witness :
  (∃ m nd, F.NewMatcher [bytes_of "ab"; bytes_of "b"] = Some m ∧
           fixed_at m (bytes_of "ab") nd ∧ fixed_link m (F.fail nd) (bytes_of "b")) ∧
  (∃ m nd, T.NewMatcher [bytes_of "ab"; bytes_of "b"] = Some m ∧
           table_at m (bytes_of "ab") nd ∧ table_link m (T.fail nd) (bytes_of "b")).
Proof.
  destruct (fail_links_longest_suffix [bytes_of "ab"; bytes_of "b"])
    as [(mF & HF & HpF & HlF) HT].
  destruct HT as (mT & HT & HpT & HlT); [vm_compute; reflexivity|].
  destruct is_path_ab_b as (Hab & Hb & _).
  split.
  - destruct (fixed_fail_link_at mF _ _ _ HpF HlF Hab Hb) as (nd & Hat & Hlink).
    exists mF, nd. split; [exact HF|]. split; [exact Hat|exact Hlink].
  - destruct (table_fail_link_at mT _ _ _ HpT HlT Hab Hb) as (nd & Hat & Hlink).
    exists mT, nd. split; [exact HT|]. split; [exact Hat|exact Hlink].
Defined.

(** C7.  In the matcher that [NewMatcher] returns, whose paths are the
    prefixes of the patterns and whose output nodes are the nodes of the
    patterns, the suffix link of a node of a non-empty path [P] points to
    the node of the longest proper suffix of [P] that is an output node, and
    to the root when no proper suffix of [P] is one.  The table version does
    so when its identifiers fit [int32]. *)
Theorem suffix_links_longest_output D :
  (∃ m, F.NewMatcher D = Some m ∧ (∀ P, fixed_path m P ↔ is_path D P) ∧
        (∀ P, fixed_output m P ↔ P ∈ D) ∧ fixed_suffix_links m) ∧
  (fits_int32 D →
   ∃ m, T.NewMatcher D = Some m ∧ (∀ P, table_path m P ↔ is_path D P) ∧
        (∀ P, table_output m P ↔ P ∈ D) ∧ table_suffix_links m).
Proof.
  split.
  - destruct (NewMatcher_spec D) as (hp & HF & Hau & _).
    eexists. split; [done|]. split_and!.
    + intros P. by eapply fixed_paths_store.
    + intros P. by eapply fixed_outputs_store.
    + by eapply fixed_suffix_links_store.
  - intros Hfit. destruct (NewMatcher_sim D Hfit) as (hp & m & HF & HT & Hsim & Hau).
    exists m. split; [done|]. split_and!.
    + intros P. by eapply table_paths_store.
    + intros P. by eapply table_outputs_store.
    + by eapply table_suffix_links_store.
Qed.

(** In the matchers of ["ab"; "b"], the suffix link of the node of "ab"
    points to the node of the pattern "b". *)
Lemma suffix_links_longest_output_witness :
  (∃ m nd, F.NewMatcher [bytes_of "ab"; bytes_of "b"] = Some m ∧
           fixed_at m (bytes_of "ab") nd ∧ fixed_link m (F.suffix nd) (bytes_of "b")) ∧
  (∃ m nd, T.NewMatcher [bytes_of "ab"; bytes_of "b"] = Some m ∧
           table_at m (bytes_of "ab") nd ∧ table_link m (T.suffix nd) (bytes_of "b")).
Proof.
  destruct (suffix_links_longest_output [bytes_of "ab"; bytes_of "b"])
    as [(mF & HF & HpF & HoF & HlF) HT].
  destruct HT as (mT & HT & HpT & HoT & HlT); [vm_compute; reflexivity|].
  destruct is_path_ab_b as (Hab & _ & Hb).
  split.
  - destruct (fixed_suffix_link_at mF _ _ _ HpF HoF HlF Hab Hb) as (nd & Hat & Hlink).
    exists mF, nd. split; [exact HF|]. split; [exact Hat|exact Hlink].
  - destruct (table_suffix_link_at mT _ _ _ HpT HoT HlT Hab Hb) as (nd & Hat & Hlink).
    exists mT, nd. split; [exact HT|]. split; [exact Hat|exact Hlink].
Defined.

(** The root, whose path is empty, keeps the suffix link it is created
    with: in the matcher of ["a"] it is [nil] (the identifier 0 in the table
    version).  [Match] never reads it. *)
Lemma root_suffix_link_is_nil :
  (∃ m rd, F.NewMatcher [bytes_of "a"] = Some m ∧ fixed_at m [] rd ∧
           F.suffix rd = None ∧ F.m_root m = Some 0) ∧
  (∃ m rd, T.NewMatcher [bytes_of "a"] = Some m ∧ table_at m [] rd ∧
           T.suffix rd = 0%Z ∧ T.findBlice m [] = Some 1%Z).
Proof.
  split.
  - assert ((m ← F.NewMatcher [bytes_of "a"]; p ← F.findBlice m []; rd ← F.deref (F.mem m) p;
             Some (p, F.suffix rd, F.m_root m)) = Some (Some 0, None, Some 0)) as Hc
      by (vm_compute; reflexivity).
    apply bind_Some in Hc as (m & Hnew & Hc). apply bind_Some in Hc as (p & Hp & Hc).
    apply bind_Some in Hc as (rd & Hrd & Hc). apply (inj Some) in Hc.
    pose proof (f_equal (λ x, x.1.1) Hc) as H1. pose proof (f_equal (λ x, x.1.2) Hc) as H2.
    pose proof (f_equal (λ x, x.2) Hc) as H3. simpl in H1, H2, H3. subst p.
    exists m, rd. split_and!; [done| |done|done]. exists 0. split; [done|]. done.
  - assert ((m ← T.NewMatcher [bytes_of "a"]; i ← T.findBlice m []; p ← T.tableGet m i;
             rd ← T.deref (T.mem m) p; Some (i, T.suffix rd)) = Some (1%Z, 0%Z)) as Hc
      by (vm_compute; reflexivity).
    apply bind_Some in Hc as (m & Hnew & Hc). apply bind_Some in Hc as (i & Hi & Hc).
    apply bind_Some in Hc as (p & Hp & Hc). apply bind_Some in Hc as (rd & Hrd & Hc).
    apply (inj Some) in Hc.
    pose proof (f_equal fst Hc) as H1. pose proof (f_equal snd Hc) as H2.
    simpl in H1, H2. subst i.
    exists m, rd. split_and!; [done| |done|done]. exists 1%Z, p. split_and!; done.
Qed.

(** C8.  In the matcher that [NewMatcher] returns, the suffix links from any
    node lead to the root, in at most as many steps as the node's path has
    bytes and through nodes that are all different; and the walk of [Match]
    along them returns from every node other than the root, whatever the
    counters or marks are. *)
Theorem suffix_chains_reach_root D :
  fits_int32 D →
  (∃ m, F.NewMatcher D = Some m ∧ fixed_suffix_chains m) ∧
  (∃ m, T.NewMatcher D = Some m ∧ table_suffix_chains m).
Proof.
  intros Hfit. destruct (NewMatcher_sim D Hfit) as (hp & m & HF & HT & Hsim & Hau). split.
  - eexists. split; [done|]. by eapply fixed_suffix_chains_store.
  - exists m. split; [done|]. by eapply table_suffix_chains_store.
Qed.

Lemma suffix_chains_reach_root_witness :
  (∃ m, F.NewMatcher [bytes_of "ab"; bytes_of "b"] = Some m ∧ fixed_suffix_chains m) ∧
  (∃ m, T.NewMatcher [bytes_of "ab"; bytes_of "b"] = Some m ∧ table_suffix_chains m).
Proof.
  apply (suffix_chains_reach_root [bytes_of "ab"; bytes_of "b"]).
  vm_compute. reflexivity.
Defined.

End Links.

(** * The matcher that [NewMatcher] returns (src/ahocorasick.go) *)
Module BuiltMatcher.
Module F := FixedArray.
Import FixedArrayTrie FixedArrayBuild FixedArrayInsert FixedArrayLinks FixedArrayBfs
       FixedArrayFails FixedArrayGoto FixedArrayScan FixedArrayMatch FixedArrayFrame
       Specification.

(** [NewStringMatcher]: [d = append(d, []byte(s))] for every string, then
    [buildTrie(d)]. *)
Definition NewStringMatcher (dictionary : list string) : option F.Matcher :=
  let d := foldl (λ d s, d ++ [bytes_of s]) [] dictionary in
  F.buildTrie F.new_Matcher d.

(** [findBlice] on the matcher of [D]: the node found, if any. *)
Definition lookup (D : list (list byte)) (w : list byte) : option (option F.node) :=
  m ← F.NewMatcher D;
  p ← F.findBlice m w;
  match p with
  | None => Some None
  | Some a => nd ← F.mem m !! a; Some (Some nd)
  end.

Lemma lookup_spec D w :
  ∃ hp, F.NewMatcher D = Some (F.mkMatcher 0 (Some 0) hp) ∧ automaton hp D ∧
        ((∃ a nd, lookup D w = Some (Some nd) ∧ hp !! a = Some nd ∧ F.b nd = w ∧ is_path D w) ∨
         (lookup D w = Some None ∧ ¬ is_path D w)).
Proof.
  destruct (NewMatcher_spec D) as (hp & Hnew & Hau & _). exists hp. split; [done|]. split; [done|].
  pose proof (au_shape _ _ Hau) as Hsh.
  unfold lookup. rewrite Hnew, bind_some. unfold F.findBlice. simpl F.mem. simpl F.m_root.
  destruct (findBlice_root_spec hp Hsh w) as ([a|] & Hr & Hspec); rewrite Hr, bind_some.
  - left. destruct Hspec as (nd & Ha & Hb). exists a, nd. rewrite Ha, bind_some.
    split_and!; [done..|]. apply (au_paths _ _ Hau). by exists a, nd.
  - right. split; [done|]. intros Hp. apply Hspec. by apply (au_paths _ _ Hau).
Qed.

(** X1.  On the matcher of [D], [findBlice(w)] returns a node exactly when
    [w] is empty or a prefix of a pattern of [D], and the node it returns
    holds [w] as its [b]; for every other [w] it returns [nil]. *)
Theorem findBlice_finds_the_prefixes D w :
  (is_path D w → ∃ nd, lookup D w = Some (Some nd) ∧ F.b nd = w) ∧
  (¬ is_path D w → lookup D w = Some None).
Proof.
  destruct (lookup_spec D w) as (hp & _ & _ & [(a & nd & Hl & _ & Hb & Hp)|[Hl Hp]]).
  - split; [|done]. intros _. by exists nd.
  - split; [done|]. done.
Qed.

Lemma findBlice_finds_the_prefixes_witness :
  (is_path [bytes_of "abc"] (bytes_of "ab") →
   ∃ nd, lookup [bytes_of "abc"] (bytes_of "ab") = Some (Some nd) ∧ F.b nd = bytes_of "ab") ∧
  (¬ is_path [bytes_of "abc"] (bytes_of "ab") →
   lookup [bytes_of "abc"] (bytes_of "ab") = Some None).
Proof. apply (findBlice_finds_the_prefixes [bytes_of "abc"] (bytes_of "ab")). Defined.

(** X2.  On the matcher of [D], the node of a pattern is an output node and
    its [index] is the last position of the pattern in [D]; a node that is
    not the node of a pattern is no output node. *)
Theorem patterns_are_output_nodes D w :
  (w ∈ D → ∃ nd, lookup D w = Some (Some nd) ∧ F.output nd = true ∧
                 last_index D w (F.index nd)) ∧
  (∀ nd, lookup D w = Some (Some nd) → F.output nd = true → w ∈ D).
Proof.
  destruct (lookup_spec D w) as (hp & _ & Hau & [(a & nd & Hl & Ha & Hb & Hp)|[Hl Hp]]).
  - pose proof (au_out _ _ Hau) as Hout. split.
    + intros Hw. exists nd. split; [done|].
      assert (F.output nd = true) as Ho by (apply (out_iff _ _ Hout a nd Ha); by rewrite Hb).
      split; [done|]. rewrite <- Hb. by apply (out_index _ _ Hout a).
    + intros nd' Hl' Ho. assert (nd' = nd) as -> by congruence.
      rewrite <- Hb. by apply (out_iff _ _ Hout a nd Ha).
  - split.
    + intros Hw. destruct Hp. right. by exists w.
    + intros nd Hl'. congruence.
Qed.

Lemma patterns_are_output_nodes_witness :
  (bytes_of "ab" ∈ [bytes_of "ab"; bytes_of "c"; bytes_of "ab"] →
   ∃ nd, lookup [bytes_of "ab"; bytes_of "c"; bytes_of "ab"] (bytes_of "ab") = Some (Some nd) ∧
         F.output nd = true ∧
         last_index [bytes_of "ab"; bytes_of "c"; bytes_of "ab"] (bytes_of "ab") (F.index nd)) ∧
  (∀ nd, lookup [bytes_of "ab"; bytes_of "c"; bytes_of "ab"] (bytes_of "ab") = Some (Some nd) →
         F.output nd = true → bytes_of "ab" ∈ [bytes_of "ab"; bytes_of "c"; bytes_of "ab"]).
Proof.
  apply (patterns_are_output_nodes [bytes_of "ab"; bytes_of "c"; bytes_of "ab"] (bytes_of "ab")).
Defined.

(** X3.  [buildTrie] allocates one node for each distinct prefix of the
    patterns, the root being the node of the empty prefix, and no other
    node: at most [1 + sum of len(pattern)] nodes, the capacity it reserves. *)
Theorem one_node_per_prefix D :
  ∃ m, F.NewMatcher D = Some m ∧
       length (F.mem m) ≤ 1 + total_length D ∧
       (∀ a nd, F.mem m !! a = Some nd → is_path D (F.b nd)) ∧
       (∀ w, is_path D w → ∃ a nd, F.mem m !! a = Some nd ∧ F.b nd = w) ∧
       (∀ a a' nd nd', F.mem m !! a = Some nd → F.mem m !! a' = Some nd' →
                       F.b nd = F.b nd' → a = a').
Proof.
  destruct (NewMatcher_spec D) as (hp & Hnew & Hau & _ & Hlen).
  eexists. split; [done|]. simpl. split_and!.
  - done.
  - intros a nd Ha. apply (au_paths _ _ Hau). by exists a, nd.
  - intros w Hw. apply (au_paths _ _ Hau) in Hw as (a & nd & Ha & Hb). by exists a, nd.
  - apply (sh_inj _ (au_shape _ _ Hau)).
Qed.

(** X4.  After [buildTrie], [n.fails[c]] is never [nil]: it is the node of
    the longest suffix of the path of [n] (the path itself included) that
    has a child for [c], and the root when no suffix has one. *)
Theorem fails_table_longest_suffix D :
  ∃ m, F.NewMatcher D = Some m ∧
       ∀ a nd c, F.mem m !! a = Some nd →
         ∃ r rd, F.fails nd c = Some r ∧ F.mem m !! r = Some rd ∧
                 F.b rd `suffix_of` F.b nd ∧
                 (Some r = F.m_root m ∨ F.child rd c ≠ None) ∧
                 ∀ w, w `suffix_of` F.b nd → is_path D (w ++ [c]) →
                      length w ≤ length (F.b rd).
Proof.
  destruct (NewMatcher_spec D) as (hp & Hnew & Hau & _).
  eexists. split; [done|]. simpl. intros a nd c Ha.
  destruct (au_fails _ _ Hau a nd Ha c) as (r & Hf & rd & Hr & Hs & Hc & Hmax).
  exists r, rd. split_and!; [done..| |].
  - destruct Hc as [->|Hc]; [by left|by right].
  - intros w Hw Hp. apply Hmax; [done|]. by apply (au_paths _ _ Hau).
Qed.


Lemma reported_app_l D S1 S2 z : reported D S1 z → reported D (S1 ++ S2) z.
Proof.
  intros (w & Hl & Hne & t1 & t2 & ->). exists w. split_and!; [done..|].
  exists t1, (t2 ++ S2). by rewrite <- !app_assoc.
Qed.

Lemma reported_app_r D S1 S2 z : reported D S2 z → reported D (S1 ++ S2) z.
Proof.
  intros (w & Hl & Hne & t1 & t2 & ->). exists w. split_and!; [done..|].
  exists (S1 ++ t1), t2. by rewrite <- !app_assoc.
Qed.

(** X6.  On new matchers of the same dictionary, every index that [Match]
    returns on [S1] or on [S2] is among those it returns on [S1 ++ S2]. *)
Theorem Match_of_concatenation D S1 S2 :
  ∃ h1 h2 h, fixed_scan D S1 = Some h1 ∧ fixed_scan D S2 = Some h2 ∧
             fixed_scan D (S1 ++ S2) = Some h ∧
             ∀ z, z ∈ h1 ∨ z ∈ h2 → z ∈ h.
Proof.
  destruct (fixed_scan_spec D S1) as (h1 & H1 & _ & Hh1).
  destruct (fixed_scan_spec D S2) as (h2 & H2 & _ & Hh2).
  destruct (fixed_scan_spec D (S1 ++ S2)) as (h & H & _ & Hh).
  exists h1, h2, h. split_and!; [done..|].
  intros z [Hz|Hz]; apply Hh.
  - by apply reported_app_l, Hh1.
  - by apply reported_app_r, Hh2.
Qed.

Lemma no_elements (h : list Z) : (∀ z, z ∉ h) → h = [].
Proof. destruct h as [|z h]; [done|]. intros H. destruct (H z). by left. Qed.

(** X7.  [Match] returns no index on the empty input, whatever the
    dictionary, and none on any input when every pattern of the dictionary
    is empty (in particular with the empty dictionary). *)
Theorem Match_without_hits D S :
  S = [] ∨ (∀ p, p ∈ D → p = []) → fixed_scan D S = Some [].
Proof.
  intros Hcase. destruct (fixed_scan_spec D S) as (h & H & _ & Hh).
  rewrite H. f_equal. apply no_elements. intros z (w & Hl & Hne & Hocc)%Hh.
  destruct Hcase as [->|Hall].
  - by apply occurs_nil_inv in Hocc.
  - destruct Hl as (i & _ & Hi & _). apply Hne, Hall. by eapply list_elem_of_lookup_2.
Qed.

Lemma Match_without_hits_witness :
  fixed_scan [[]; []] (bytes_of "abc") = Some [].
Proof.
  apply (Match_without_hits [[]; []] (bytes_of "abc")). right.
  intros p Hp. apply elem_of_cons in Hp as [->|Hp]; [reflexivity|].
  apply elem_of_cons in Hp as [->|Hp]; [reflexivity|]. by apply elem_of_nil in Hp.
Defined.

Lemma foldl_snoc_fmap {A B} (f : A → B) (l : list A) (acc : list B) :
  foldl (λ d s, d ++ [f s]) acc l = acc ++ (f <$> l).
Proof.
  revert acc. induction l as [|x l IH]; intros acc; simpl.
  - by rewrite app_nil_r.
  - by rewrite IH, <- app_assoc.
Qed.

(** X8.  [NewStringMatcher] returns the matcher that [NewMatcher] returns
    for the byte sequences of the strings: [Match] on it returns, each
    once, the last positions of the non-empty strings that occur in the
    input. *)
Theorem NewStringMatcher_matches_strings dictionary S :
  NewStringMatcher dictionary = F.NewMatcher (bytes_of <$> dictionary) ∧
  ∃ m hits m', NewStringMatcher dictionary = Some m ∧ F.Match m S = Some (hits, m') ∧
               NoDup hits ∧ ∀ z, z ∈ hits ↔ reported (bytes_of <$> dictionary) S z.
Proof.
  assert (NewStringMatcher dictionary = F.NewMatcher (bytes_of <$> dictionary)) as Heq.
  { unfold NewStringMatcher, F.NewMatcher. by rewrite foldl_snoc_fmap. }
  split; [done|]. rewrite Heq.
  destruct (served_new (bytes_of <$> dictionary)) as (m & Hnew & Hs).
  destruct (served_Match _ 0 m S Hs) as (hits & m' & HM & _ & Hnd & Hhits); [lia|].
  by exists m, hits, m'.
Qed.

End BuiltMatcher.

(** * The table version (src/unnamed/part_001, second file) *)
Module TableFacts.
Module F := FixedArray.
Module T := Table.
Import FixedArrayTrie FixedArrayBuild FixedArrayInsert FixedArrayLinks FixedArrayBfs
       FixedArrayFails TableSim TableInsert TableBuild TableMatch Specification Links.

(** The rows of [m.table], as [tableSet] makes them: [TABLE_WIDTH] entries
    each, and fewer than 2^31 rows. *)
Definition rows_ok (m : T.Matcher) : Prop :=
  (Z.of_nat (length (T.table m)) < 2 ^ 31)%Z ∧
  ∀ r row, T.table m !! r = Some row → length row = 1024.

Lemma quot_rem_range i : (0 ≤ i)%Z → (0 ≤ i `quot` 1024 ∧ 0 ≤ i `rem` 1024 < 1024)%Z.
Proof. intros. dlia. Qed.

Lemma quot_rem_same i j :
  (i `quot` 1024 = j `quot` 1024)%Z → (i `rem` 1024 = j `rem` 1024)%Z → i = j.
Proof. intros. dlia. Qed.

(** X9.  [tableSet(i, n)] on a table of [k] rows succeeds for [0 <= i] with
    [i / TABLE_WIDTH <= k] (it appends one row when [i / TABLE_WIDTH = k]);
    then [tableGet(i)] is [n], every other entry that [tableGet] could read
    is as before, and the rows keep their width. *)
Theorem tableSet_then_tableGet m i v :
  rows_ok m → (0 ≤ i)%Z → (i `quot` 1024 ≤ Z.of_nat (length (T.table m)))%Z →
  ∃ m', T.tableSet m i v = Some m' ∧
        T.tableGet m' i = Some v ∧
        (∀ j x, j ≠ i → T.tableGet m j = Some x → T.tableGet m' j = Some x) ∧
        (∀ r row, T.table m' !! r = Some row → length row = 1024) ∧
        Z.of_nat (length (T.table m')) = Z.max (Z.of_nat (length (T.table m))) (i `quot` 1024 + 1) ∧
        T.mem m' = T.mem m ∧ T.m_root m' = T.m_root m ∧ T.tableSize m' = T.tableSize m.
Proof.
  intros [Hlen Hrows] Hi Hq. unfold T.tableSet, T.TABLE_WIDTH.
  destruct (quot_rem_range i Hi) as [Hq0 Hr].
  rewrite wrap_int32_small by lia.
  set (t := T.table m) in *.
  set (tbl := if decide (Z.of_nat (length t) ≤ i `quot` 1024)%Z
              then t ++ [replicate (Z.to_nat 1024) None] else t).
  assert (∃ row, tbl !! Z.to_nat (i `quot` 1024) = Some row ∧
            (∀ r row', tbl !! r = Some row' → length row' = 1024) ∧
            Z.of_nat (length tbl) = Z.max (Z.of_nat (length t)) (i `quot` 1024 + 1) ∧
            ∀ r row', t !! r = Some row' → tbl !! r = Some row')
    as (row & Hrow & Hrows' & Hlen' & Hold).
  { unfold tbl. destruct (decide _) as [Hnew|Hnonew].
    - assert (i `quot` 1024 = Z.of_nat (length t))%Z as Hiq by lia.
      exists (replicate (Z.to_nat 1024) None). split_and!.
      + rewrite Hiq, Nat2Z.id. by apply list_lookup_middle.
      + intros r row' [?|[_ Hr']]%lookup_app_Some; [eauto|].
        apply list_lookup_singleton_Some in Hr' as [_ <-]. by rewrite length_replicate.
      + rewrite length_app. simpl. lia.
      + intros r row' Hr'. by apply lookup_app_l_Some.
    - destruct (lookup_lt_is_Some_2 t (Z.to_nat (i `quot` 1024)%Z)) as [row Hrow]; [lia|].
      exists row. split_and!; [done|done|lia|done]. }
  pose proof (Hrows' _ _ Hrow) as Hrl.
  rewrite at_index_nat, Hrow, bind_some by lia.
  destruct (lookup_lt_is_Some_2 row (Z.to_nat (i `rem` 1024)%Z)) as [old Hold']; [lia|].
  rewrite at_index_nat, Hold', bind_some by lia.
  eexists. split; [done|]. simpl. split_and!; [| | | |done..].
  - unfold T.tableGet, T.TABLE_WIDTH. simpl. rewrite at_index_nat by lia.
    rewrite list_lookup_insert_eq by (by eapply lookup_lt_Some). rewrite bind_some.
    rewrite at_index_nat by lia. by rewrite list_lookup_insert_eq by lia.
  - intros j x Hji. unfold T.tableGet, T.TABLE_WIDTH. simpl. fold t.
    intros Hj. apply bind_Some in Hj as (rowj & Hrowj & Hj).
    unfold T.at_index in Hrowj, Hj.
    destruct (decide (0 ≤ j `quot` 1024)%Z) as [Hjq|]; [|done].
    destruct (decide (0 ≤ j `rem` 1024)%Z) as [Hjr|]; [|done].
    rewrite at_index_nat by lia.
    destruct (decide (Z.to_nat (j `quot` 1024) = Z.to_nat (i `quot` 1024))) as [Heq|Hne].
    + rewrite Heq, list_lookup_insert_eq by (by eapply lookup_lt_Some). rewrite bind_some.
      rewrite at_index_nat by lia.
      assert (rowj = row) as ->.
      { apply Hold in Hrowj. rewrite Heq in Hrowj. congruence. }
      rewrite list_lookup_insert_ne; [done|].
      intros Hrem. apply Hji. symmetry. apply quot_rem_same; lia.
    + rewrite list_lookup_insert_ne by done. rewrite (Hold _ _ Hrowj), bind_some.
      by rewrite at_index_nat by lia.
  - intros r row' Hr'. destruct (decide (r = Z.to_nat (i `quot` 1024)%Z)) as [->|Hne].
    + rewrite list_lookup_insert_eq in Hr' by (by eapply lookup_lt_Some).
      apply (inj Some) in Hr' as <-. by rewrite length_insert.
    + rewrite list_lookup_insert_ne in Hr' by done. eauto.
  - by rewrite length_insert.
Qed.

Lemma tableSet_then_tableGet_witness :
  ∃ m', T.tableSet init_Matcher 1024 (Some 7) = Some m' ∧
        T.tableGet m' 1024 = Some (Some 7) ∧
        (∀ j x, j ≠ 1024%Z → T.tableGet init_Matcher j = Some x → T.tableGet m' j = Some x) ∧
        (∀ r row, T.table m' !! r = Some row → length row = 1024) ∧
        Z.of_nat (length (T.table m'))
          = Z.max (Z.of_nat (length (T.table init_Matcher))) (1024 `quot` 1024 + 1) ∧
        T.mem m' = T.mem init_Matcher ∧ T.m_root m' = T.m_root init_Matcher ∧
        T.tableSize m' = T.tableSize init_Matcher.
Proof.
  apply (tableSet_then_tableGet init_Matcher 1024 (Some 7)).
  - split; [vm_compute; reflexivity|]. intros [|r] row Hr; [|done].
    apply (inj Some) in Hr as <-. vm_compute. reflexivity.
  - lia.
  - vm_compute. discriminate.
Defined.

(** X10.  [tableSet(i, n)] panics (index out of range) when [i] is negative
    and when [i / TABLE_WIDTH] is past the row it would append. *)
Theorem tableSet_out_of_range m i v :
  rows_ok m → (i < 0 ∨ Z.of_nat (length (T.table m)) < i `quot` 1024)%Z →
  T.tableSet m i v = None.
Proof.
  intros [Hlen Hrows] Hcase. unfold T.tableSet, T.TABLE_WIDTH.
  rewrite wrap_int32_small by lia.
  set (t := T.table m) in *.
  set (tbl := if decide (Z.of_nat (length t) ≤ i `quot` 1024)%Z
              then t ++ [replicate (Z.to_nat 1024) None] else t).
  assert (Z.of_nat (length tbl) ≤ Z.of_nat (length t) + 1)%Z as Hlen'.
  { unfold tbl. destruct (decide _); [rewrite length_app; simpl|]; lia. }
  assert (∀ r row', tbl !! r = Some row' → length row' = 1024) as Hrows'.
  { unfold tbl. destruct (decide _); [|done].
    intros r row' [?|[_ Hr']]%lookup_app_Some; [eauto|].
    apply list_lookup_singleton_Some in Hr' as [_ <-]. by rewrite length_replicate. }
  destruct (T.at_index tbl (i `quot` 1024)) as [row|] eqn:Hrow; [|done].
  rewrite bind_some. unfold T.at_index in Hrow.
  destruct (decide (0 ≤ i `quot` 1024)%Z) as [Hq|]; [|done].
  destruct Hcase as [Hneg|Hpast].
  - unfold T.at_index. rewrite decide_False; [done|]. dlia.
  - apply lookup_lt_Some in Hrow. lia.
Qed.

Lemma tableSet_out_of_range_witness : T.tableSet init_Matcher 2048 None = None.
Proof.
  apply (tableSet_out_of_range init_Matcher 2048 None).
  - split; [vm_compute; reflexivity|]. intros [|r] row Hr; [|done].
    apply (inj Some) in Hr as <-. vm_compute. reflexivity.
  - right. vm_compute. reflexivity.
Defined.

(** X11.  [getChild] reads what [setChild] wrote: on a node whose child
    slice is still [nil] every child is 0, and [setChild(i, v)] changes the
    child for [i] alone, allocating the slice when there is none. *)
Theorem getChild_after_setChild nd i v :
  T.getChild T.zero_node i = 0%Z ∧
  T.getChild (T.setChild i v nd) i = v ∧
  (∀ j, j ≠ i → T.getChild (T.setChild i v nd) j = T.getChild nd j) ∧
  T.child (T.setChild i v nd) ≠ None ∧
  T.b (T.setChild i v nd) = T.b nd ∧ T.output (T.setChild i v nd) = T.output nd ∧
  T.index (T.setChild i v nd) = T.index nd ∧ T.suffix (T.setChild i v nd) = T.suffix nd ∧
  T.fail (T.setChild i v nd) = T.fail nd.
Proof.
  split_and!; try done.
  - rewrite getChild_setChild. by rewrite decide_True.
  - intros j Hj. rewrite getChild_setChild. by rewrite decide_False.
Qed.

(** X12.  [buildTrie] of the table version builds the automaton of the
    fixed-array version: the same nodes in the same order, the node at
    position [a] under the identifier [a + 1] (0 for [nil]), with the same
    [b], [output], [index], children, [suffix] and [fail]; [tableSize] is
    the next free identifier. *)
Theorem table_build_refines_fixed D :
  fits_int32 D →
  ∃ mF mT, F.NewMatcher D = Some mF ∧ T.NewMatcher D = Some mT ∧
           F.m_root mF = Some 0 ∧ T.m_root mT = Some 0 ∧
           T.tableSize mT = (Z.of_nat (length (F.mem mF)) + 1)%Z ∧
           Forall2 node_rel (F.mem mF) (T.mem mT) ∧
           T.tableGet mT 0 = Some None ∧
           ∀ a, a < length (F.mem mF) → T.tableGet mT (Z.of_nat a + 1) = Some (Some a).
Proof.
  intros Hfit. destruct (NewMatcher_sim D Hfit) as (hp & m & HF & HT & Hsim & Hau).
  eexists _, m. split; [done|]. split; [done|]. simpl. split_and!.
  - done.
  - apply (sim_root _ _ Hsim).
  - apply (sim_size _ _ Hsim).
  - apply (sim_nodes _ _ Hsim).
  - by apply (sim_tableGet hp m None).
  - intros a Ha. by apply (sim_tableGet hp m (Some a)).
Qed.

Lemma table_build_refines_fixed_witness :
  ∃ mF mT, F.NewMatcher [bytes_of "ab"; bytes_of "b"] = Some mF ∧
           T.NewMatcher [bytes_of "ab"; bytes_of "b"] = Some mT ∧
           F.m_root mF = Some 0 ∧ T.m_root mT = Some 0 ∧
           T.tableSize mT = (Z.of_nat (length (F.mem mF)) + 1)%Z ∧
           Forall2 node_rel (F.mem mF) (T.mem mT) ∧
           T.tableGet mT 0 = Some None ∧
           ∀ a, a < length (F.mem mF) → T.tableGet mT (Z.of_nat a + 1) = Some (Some a).
Proof.
  apply (table_build_refines_fixed [bytes_of "ab"; bytes_of "b"]). vm_compute. reflexivity.
Defined.

(** X13.  On a matcher of the table version, [Match] does not panic and
    leaves the matcher as it was; it returns no index twice, and every
    index it returns is the last position in [D] of a non-empty pattern. *)
Theorem table_Match_returns_pattern_indices D S :
  fits_int32 D →
  ∃ m hits, T.NewMatcher D = Some m ∧ T.Match m S = Some (hits, m) ∧ NoDup hits ∧
            ∀ z, z ∈ hits → ∃ i w, z = Z.of_nat i ∧ D !! i = Some w ∧ w ≠ [] ∧
                                   ∀ j, i < j → D !! j ≠ Some w.
Proof.
  intros Hfit. destruct (NewMatcher_sim D Hfit) as (hp & m & _ & Hnew & Hsim & Hau).
  destruct (T_Match_spec hp m D Hsim Hau S) as (hits & HM & Hnd & Hhits).
  exists m, hits. split_and!; [done..|].
  intros z (w & (i & Hz & Hi & Hlast) & Hne)%Hhits. by exists i, w.
Qed.

Lemma table_Match_returns_pattern_indices_witness :
  ∃ m hits, T.NewMatcher [bytes_of "ab"; bytes_of "b"] = Some m ∧
            T.Match m (bytes_of "abb") = Some (hits, m) ∧ NoDup hits ∧
            ∀ z, z ∈ hits → ∃ i w, z = Z.of_nat i ∧
                                   [bytes_of "ab"; bytes_of "b"] !! i = Some w ∧ w ≠ [] ∧
                                   ∀ j, i < j → [bytes_of "ab"; bytes_of "b"] !! j ≠ Some w.
Proof.
  apply (table_Match_returns_pattern_indices [bytes_of "ab"; bytes_of "b"] (bytes_of "abb")).
  vm_compute. reflexivity.
Defined.

(** X14.  On a matcher of the table version, [findBlice(w)] returns the
    identifier of a node exactly when [w] is empty or a prefix of a pattern
    (1, the root, for the empty [w]), and 0 for every other [w]. *)
Theorem table_findBlice_finds_the_prefixes D :
  fits_int32 D →
  ∃ m, T.NewMatcher D = Some m ∧ T.findBlice m [] = Some 1%Z ∧
       ∀ w, (is_path D w → ∃ i nd, T.findBlice m w = Some i ∧ i ≠ 0%Z ∧
                                   table_at m w nd ∧ T.b nd = w) ∧
            (¬ is_path D w → T.findBlice m w = Some 0%Z).
Proof.
  intros Hfit. destruct (NewMatcher_sim D Hfit) as (hp & m & _ & Hnew & Hsim & Hau).
  pose proof (au_shape _ _ Hau) as Hsh.
  exists m. split_and!; [done|done|]. intros w. split.
  - intros (a & nd & Ha & Hb)%(au_paths _ _ Hau).
    destruct (sim_lookup _ _ _ _ Hsim Ha) as (nd3 & Ha3 & Hrel).
    exists (enc (Some a)), nd3. split_and!.
    + rewrite <- Hb. by apply (table_findBlice_found hp D Hau m Hsim).
    + simpl. lia.
    + apply (table_at_iff hp D Hau m Hsim). by exists a, nd.
    + destruct Hrel as (Hb3 & _). congruence.
  - intros Hp. destruct (table_findBlice hp D Hau m Hsim w) as (r & HF & HT & _).
    destruct r as [a|]; [|done]. destruct Hp. apply (au_paths _ _ Hau).
    destruct (findBlice_root_spec hp Hsh w) as (r' & Hr' & Hspec).
    assert (r' = Some a) as -> by congruence. by exists a.
Qed.

Lemma table_findBlice_finds_the_prefixes_witness :
  ∃ m, T.NewMatcher [bytes_of "ab"; bytes_of "b"] = Some m ∧ T.findBlice m [] = Some 1%Z ∧
       ∀ w, (is_path [bytes_of "ab"; bytes_of "b"] w →
             ∃ i nd, T.findBlice m w = Some i ∧ i ≠ 0%Z ∧ table_at m w nd ∧ T.b nd = w) ∧
            (¬ is_path [bytes_of "ab"; bytes_of "b"] w → T.findBlice m w = Some 0%Z).
Proof.
  apply (table_findBlice_finds_the_prefixes [bytes_of "ab"; bytes_of "b"]).
  vm_compute. reflexivity.
Defined.

End TableFacts.

(** * src/unnamed/part_000, the version with lazily allocated arrays

    The nodes are linked by pointers as in src/ahocorasick.go; [child] and
    [fails] are slices that stay [nil] until the first [setChild] or
    [setFails], and [buildTrie] keeps the pointers to all nodes in rows of
    [NODES_WIDTH] entries. *)
Module Arena.

Definition NODES_WIDTH : Z := 1024.

Record node := mkNode {
  root : bool;
  b : list byte;
  output : bool;
  index : Z;
  counter : Z;
  child : option (byte → ptr);     (* []*node, nil or 256 entries *)
  fails : option (byte → ptr);     (* []*node, nil or 256 entries *)
  suffix : ptr;
  fail : ptr
}.

Record Matcher := mkMatcher {
  m_counter : Z;
  m_root : ptr;
  mem : list node
}.

(** [&node{}] *)
Definition zero_node : node := mkNode false [] false 0 0 None None None None.

Definition set_root (v : bool) (n : node) : node :=
  mkNode v (b n) (output n) (index n) (counter n) (child n) (fails n) (suffix n) (fail n).
Definition set_b (v : list byte) (n : node) : node :=
  mkNode (root n) v (output n) (index n) (counter n) (child n) (fails n) (suffix n) (fail n).
Definition set_output (v : bool) (n : node) : node :=
  mkNode (root n) (b n) v (index n) (counter n) (child n) (fails n) (suffix n) (fail n).
Definition set_index (v : Z) (n : node) : node :=
  mkNode (root n) (b n) (output n) v (counter n) (child n) (fails n) (suffix n) (fail n).
Definition set_counter (v : Z) (n : node) : node :=
  mkNode (root n) (b n) (output n) (index n) v (child n) (fails n) (suffix n) (fail n).
Definition set_suffix (v : ptr) (n : node) : node :=
  mkNode (root n) (b n) (output n) (index n) (counter n) (child n) (fails n) v (fail n).
Definition set_fail (v : ptr) (n : node) : node :=
  mkNode (root n) (b n) (output n) (index n) (counter n) (child n) (fails n) (suffix n) v.

Definition getChild (n : node) (i : byte) : ptr :=
  match child n with
  | None => None
  | Some a => a i
  end.

Definition setChild (i : byte) (v : ptr) (n : node) : node :=
  let a := match child n with
           | None => λ _, None
           | Some a => a
           end in
  mkNode (root n) (b n) (output n) (index n) (counter n)
         (Some (λ x, if decide (x = i) then v else a x)) (fails n) (suffix n) (fail n).

Definition getFails (n : node) (i : byte) : ptr :=
  match fails n with
  | None => None
  | Some a => a i
  end.

Definition setFails (i : byte) (v : ptr) (n : node) : node :=
  let a := match fails n with
           | None => λ _, None
           | Some a => a
           end in
  mkNode (root n) (b n) (output n) (index n) (counter n) (child n)
         (Some (λ x, if decide (x = i) then v else a x)) (suffix n) (fail n).

(** [*p]: panics on [nil]. *)
Definition deref (hp : list node) (p : ptr) : option node := a ← p; hp !! a.

(** [s[i]] on a slice: panics when [i] is out of range. *)
Definition at_index {A} (s : list A) (i : Z) : option A :=
  if decide (0 ≤ i)%Z then s !! Z.to_nat i else None.

(** [nodes[i / NODES_WIDTH][i % NODES_WIDTH]] *)
Definition nodes_get (nodes : list (list ptr)) (i : Z) : option ptr :=
  row ← at_index nodes (i `quot` NODES_WIDTH);
  at_index row (i `rem` NODES_WIDTH).

(** [nodes[i / NODES_WIDTH][i % NODES_WIDTH] = c] *)
Definition nodes_set (nodes : list (list ptr)) (i : Z) (c : ptr) : option (list (list ptr)) :=
  row ← at_index nodes (i `quot` NODES_WIDTH);
  _ ← at_index row (i `rem` NODES_WIDTH);
  Some (<[Z.to_nat (i `quot` NODES_WIDTH) := <[Z.to_nat (i `rem` NODES_WIDTH) := c]> row]> nodes).

(** [findBlice]: the loop [for n != nil && len(b) > 0], started at [n]. *)
Fixpoint findBlice_loop (hp : list node) (n : ptr) (bl : list byte) : option ptr :=
  match bl with
  | [] => Some n
  | c :: bl' =>
      match n with
      | None => Some None
      | Some a => nd ← hp !! a; findBlice_loop hp (getChild nd c) bl'
      end
  end.

Definition findBlice (m : Matcher) (bl : list byte) : option ptr :=
  findBlice_loop (mem m) (m_root m) bl.

(** *** buildTrie (lines 105-205) *)

(** [max := 1; for _, blice := range dictionary { max += len(blice) }] *)
Definition max_nodes (dictionary : list (list byte)) : Z :=
  foldl (λ max blice, wrap_int (max + Z.of_nat (length blice))) 1%Z dictionary.

(** [make([][]*node, max / NODES_WIDTH + 1)], every row
    [make([]*node, NODES_WIDTH)]. *)
Definition make_nodes (max : Z) : list (list ptr) :=
  replicate (Z.to_nat (max `quot` NODES_WIDTH + 1)) (replicate (Z.to_nat NODES_WIDTH) None).

(** One iteration of [for _, b := range blice]; the state is the store,
    [nodes], [nodes_counter], the pointer [n] and [path]. *)
Definition trie_step (rt : ptr) (st : list node * list (list ptr) * Z * ptr * list byte) (c : byte)
  : option (list node * list (list ptr) * Z * ptr * list byte) :=
  let '(hp, nodes, nodes_counter, n, path) := st in
  let path := path ++ [c] in
  a ← n; nd ← hp !! a;
  match getChild nd c with
  | Some q => Some (hp, nodes, nodes_counter, Some q, path)
  | None =>
      let q := length hp in
      let hp := hp ++ [zero_node] in
      nodes ← nodes_set nodes nodes_counter (Some q);
      let nodes_counter := wrap_int (nodes_counter + 1) in
      let hp := alter (setChild c (Some q)) a hp in
      let hp := alter (set_b path) q hp in
      let hp := if decide (length path = 1) then alter (set_fail rt) q hp else hp in
      let hp := alter (set_suffix rt) q hp in
      Some (hp, nodes, nodes_counter, Some q, path)
  end.

Fixpoint trie_blice (rt : ptr) (st : list node * list (list ptr) * Z * ptr * list byte)
    (blice : list byte) : option (list node * list (list ptr) * Z * ptr * list byte) :=
  match blice with
  | [] => Some st
  | c :: rest => st ← trie_step rt st c; trie_blice rt st rest
  end.

(** One iteration of [for i, blice := range dictionary]. *)
Definition trie_entry (rt : ptr) (st : list node * list (list ptr) * Z) (i : nat)
    (blice : list byte) : option (list node * list (list ptr) * Z) :=
  let '(hp, nodes, nodes_counter) := st in
  '(hp, nodes, nodes_counter, n, _) ← trie_blice rt (hp, nodes, nodes_counter, rt, []) blice;
  a ← n; _ ← hp !! a;
  let hp := alter (set_output true) a hp in
  let hp := alter (set_index (Z.of_nat i)) a hp in
  Some (hp, nodes, nodes_counter).

Fixpoint trie_entries (rt : ptr) (st : list node * list (list ptr) * Z) (i : nat)
    (dictionary : list (list byte)) : option (list node * list (list ptr) * Z) :=
  match dictionary with
  | [] => Some st
  | blice :: rest => st ← trie_entry rt st i blice; trie_entries rt st (S i) rest
  end.

(** [for j := 1; j < len(c.b); j++ { c.fail = m.findBlice(c.b[j:]); ... }] *)
Fixpoint fail_loop (rt : ptr) (hp : list node) (c : nat) (sufs : list (list byte))
  : option (list node) :=
  match sufs with
  | [] => Some hp
  | s :: rest =>
      r ← findBlice_loop hp rt s;
      let hp := alter (set_fail r) c hp in
      if r is Some _ then Some hp else fail_loop rt hp c rest
  end.

(** [for j := 1; j < len(c.b); j++ { s := m.findBlice(c.b[j:]); ... }] *)
Fixpoint suffix_loop (rt : ptr) (hp : list node) (c : nat) (sufs : list (list byte))
  : option (list node) :=
  match sufs with
  | [] => Some hp
  | s :: rest =>
      r ← findBlice_loop hp rt s;
      match r with
      | Some a =>
          sd ← hp !! a;
          if output sd then Some (alter (set_suffix r) c hp)
          else suffix_loop rt hp c rest
      | None => suffix_loop rt hp c rest
      end
  end.

Definition fix_links (rt : ptr) (hp : list node) (c : nat) : option (list node) :=
  cd ← hp !! c;
  hp ← fail_loop rt hp c (strict_suffixes (b cd));
  cd ← hp !! c;
  let hp := if fail cd is None then alter (set_fail rt) c hp else hp in
  cd ← hp !! c;
  suffix_loop rt hp c (strict_suffixes (b cd)).

(** [for i := 0; i < 256; i++] for the dequeued node [n]; [l] is the queue. *)
Fixpoint bfs_children (rt : ptr) (hp : list node) (l : list ptr) (n : nat) (bytes : list byte)
  : option (list node * list ptr) :=
  match bytes with
  | [] => Some (hp, l)
  | i :: rest =>
      nd ← hp !! n;
      match getChild nd i with
      | Some c =>
          hp ← fix_links rt hp c;
          bfs_children rt hp (l ++ [Some c]) n rest
      | None => bfs_children rt hp l n rest
      end
  end.

(** [for l.Len() > 0]; [fuel] bounds the number of dequeues. *)
Fixpoint bfs (fuel : nat) (rt : ptr) (hp : list node) (l : list ptr) : option (list node) :=
  match l with
  | [] => Some hp
  | p :: l =>
      match fuel with
      | O => None
      | S fuel =>
          n ← p;
          '(hp, l) ← bfs_children rt hp l n all_bytes;
          bfs fuel rt hp l
      end
  end.

(** [for n.getChild(c) == nil && !n.root { n = n.fail }] *)
Fixpoint follow_fail (fuel : nat) (hp : list node) (n : ptr) (c : byte) : option ptr :=
  nd ← deref hp n;
  match getChild nd c with
  | Some _ => Some n
  | None =>
      if root nd then Some n
      else match fuel with
           | O => None
           | S fuel => follow_fail fuel hp (fail nd) c
           end
  end.

(** [for c := 0; c < 256; c++], for the node at position [i] of [nodes]. *)
Fixpoint fails_bytes (hp : list node) (nodes : list (list ptr)) (i : Z) (bytes : list byte)
  : option (list node) :=
  match bytes with
  | [] => Some hp
  | c :: rest =>
      n ← nodes_get nodes i;
      n ← follow_fail (length hp) hp n c;
      p ← nodes_get nodes i; a ← p; _ ← hp !! a;
      fails_bytes (alter (setFails c n) a hp) nodes i rest
  end.

(** [for i := 0; i < nodes_counter; i++] *)
Fixpoint fails_nodes (hp : list node) (nodes : list (list ptr)) (ixs : list nat)
  : option (list node) :=
  match ixs with
  | [] => Some hp
  | i :: rest =>
      hp ← fails_bytes hp nodes (Z.of_nat i) all_bytes; fails_nodes hp nodes rest
  end.

Definition buildTrie (m : Matcher) (dictionary : list (list byte)) : option Matcher :=
  let nodes := make_nodes (max_nodes dictionary) in
  let hp := [set_root true zero_node] in
  let rt : ptr := Some 0 in
  nodes ← nodes_set nodes 0 rt;
  '(hp, nodes, nodes_counter) ← trie_entries rt (hp, nodes, 1%Z) 0 dictionary;
  hp ← bfs (length hp) rt hp [rt];
  hp ← fails_nodes hp nodes (seq 0 (Z.to_nat nodes_counter));
  Some (mkMatcher (m_counter m) rt hp).

(** [new(Matcher)] *)
Definition new_Matcher : Matcher := mkMatcher 0 None [].

Definition NewMatcher (dictionary : list (list byte)) : option Matcher :=
  buildTrie new_Matcher dictionary.

(** [NewStringMatcher] *)
Definition NewStringMatcher (dictionary : list string) : option Matcher :=
  let d := foldl (λ d s, d ++ [String.list_byte_of_string s]) [] dictionary in
  buildTrie new_Matcher d.

(** *** Match (lines 234-274) *)

(** [for !f.suffix.root { ... }]; [cnt] is [m.counter]. *)
Fixpoint suffix_walk (fuel : nat) (cnt : Z) (hp : list node) (f : nat) (hits : list Z)
  : option (list node * list Z) :=
  fd ← hp !! f;
  sd ← deref hp (suffix fd);
  if root sd then Some (hp, hits)
  else match fuel with
       | O => None
       | S fuel =>
           s ← suffix fd;
           if decide (counter sd ≠ cnt)
           then suffix_walk fuel cnt (alter (set_counter cnt) s hp) s (hits ++ [index sd])
           else Some (hp, hits)
       end.

(** One iteration of [for _, b := range in]. *)
Definition match_byte (cnt : Z) (st : list node * ptr * list Z) (c : byte)
  : option (list node * ptr * list Z) :=
  let '(hp, n, hits) := st in
  nd ← deref hp n;
  let n := if negb (root nd) && bool_decide (getChild nd c = None) then getFails nd c else n in
  nd ← deref hp n;
  match getChild nd c with
  | Some f =>
      fd ← hp !! f;
      let '(hp, hits) :=
        if output fd && bool_decide (counter fd ≠ cnt)
        then (alter (set_counter cnt) f hp, hits ++ [index fd])
        else (hp, hits) in
      '(hp, hits) ← suffix_walk (length hp) cnt hp f hits;
      Some (hp, Some f, hits)
  | None => Some (hp, n, hits)
  end.

Fixpoint match_loop (cnt : Z) (st : list node * ptr * list Z) (input : list byte)
  : option (list node * ptr * list Z) :=
  match input with
  | [] => Some st
  | c :: rest => st ← match_byte cnt st c; match_loop cnt st rest
  end.

(** [Match]: the hits and the matcher as the call leaves it. *)
Definition Match (m : Matcher) (input : list byte) : option (list Z * Matcher) :=
  let cnt := wrap_int (m_counter m + 1) in
  '(hp, _, hits) ← match_loop cnt (mem m, m_root m, []) input;
  Some (hits, mkMatcher cnt (m_root m) hp).

End Arena.

(** * The version with lazily allocated arrays runs in lockstep with the
      fixed-array version *)
Module ArenaLockstep.
Module F := FixedArray.
Module A := Arena.
Import FixedArrayInsert FixedArrayLinks FixedArrayBfs FixedArrayFails FixedArrayMatch.

(** The same node in the two versions: equal fields, and slices that read
    as the arrays do. *)
Record node_rel (ndF : F.node) (ndA : A.node) : Prop := mkNodeRel {
  nr_root : A.root ndA = F.root ndF;
  nr_b : A.b ndA = F.b ndF;
  nr_output : A.output ndA = F.output ndF;
  nr_index : A.index ndA = F.index ndF;
  nr_counter : A.counter ndA = F.counter ndF;
  nr_suffix : A.suffix ndA = F.suffix ndF;
  nr_fail : A.fail ndA = F.fail ndF;
  nr_child : ∀ c, A.getChild ndA c = F.child ndF c;
  nr_fails : ∀ c, A.getFails ndA c = F.fails ndF c
}.

Abbreviation stores := (Forall2 node_rel).

Definition matcher_rel (mF : F.Matcher) (mA : A.Matcher) : Prop :=
  A.m_counter mA = F.m_counter mF ∧ A.m_root mA = F.m_root mF ∧
  stores (F.mem mF) (A.mem mA).

(** The result of a step that returns a store and something else. *)
Definition with_store {X} (rF : list F.node * X) (rA : list A.node * X) : Prop :=
  stores rF.1 rA.1 ∧ rF.2 = rA.2.

Definition scan_rel (rF : list F.node * ptr * list Z) (rA : list A.node * ptr * list Z) : Prop :=
  stores rF.1.1 rA.1.1 ∧ rF.1.2 = rA.1.2 ∧ rF.2 = rA.2.

Definition result_rel (rF : list Z * F.Matcher) (rA : list Z * A.Matcher) : Prop :=
  rF.1 = rA.1 ∧ matcher_rel rF.2 rA.2.

Lemma rel_bind {X Y X' Y'} (R : X → X' → Prop) (S : Y → Y' → Prop) x y f g :
  option_Forall2 R x y → (∀ a a', R a a' → option_Forall2 S (f a) (g a')) →
  option_Forall2 S (x ≫= f) (y ≫= g).
Proof. intros [a a' H|] Hfg; simpl; [by apply Hfg|constructor]. Qed.

Lemma rel_eq {X} (x y : option X) : x = y → option_Forall2 eq x y.
Proof. intros ->. by destruct y; constructor. Qed.

Lemma rel_lookup hF hA i : stores hF hA → option_Forall2 node_rel (hF !! i) (hA !! i).
Proof. intros H. by apply Forall2_lookup. Qed.

Lemma rel_deref hF hA p : stores hF hA → option_Forall2 node_rel (F.deref hF p) (A.deref hA p).
Proof. intros H. destruct p as [a|]; simpl; [by apply rel_lookup|constructor]. Qed.

(** ** The setters *)

Lemma A_getChild_setChild c v nd x :
  A.getChild (A.setChild c v nd) x = if decide (x = c) then v else A.getChild nd x.
Proof. unfold A.getChild, A.setChild. simpl. destruct (A.child nd); by destruct (decide _). Qed.

Lemma A_getFails_setFails c v nd x :
  A.getFails (A.setFails c v nd) x = if decide (x = c) then v else A.getFails nd x.
Proof. unfold A.getFails, A.setFails. simpl. destruct (A.fails nd); by destruct (decide _). Qed.

Lemma rel_zero : node_rel F.zero_node A.zero_node.
Proof. by split. Qed.

Lemma rel_set_root v ndF ndA : node_rel ndF ndA → node_rel (F.set_root v ndF) (A.set_root v ndA).
Proof. intros []. by split. Qed.

Lemma rel_set_b v ndF ndA : node_rel ndF ndA → node_rel (F.set_b v ndF) (A.set_b v ndA).
Proof. intros []. by split. Qed.

Lemma rel_set_output v ndF ndA :
  node_rel ndF ndA → node_rel (F.set_output v ndF) (A.set_output v ndA).
Proof. intros []. by split. Qed.

Lemma rel_set_index v ndF ndA :
  node_rel ndF ndA → node_rel (F.set_index v ndF) (A.set_index v ndA).
Proof. intros []. by split. Qed.

Lemma rel_set_counter v ndF ndA :
  node_rel ndF ndA → node_rel (F.set_counter v ndF) (A.set_counter v ndA).
Proof. intros []. by split. Qed.

Lemma rel_set_suffix v ndF ndA :
  node_rel ndF ndA → node_rel (F.set_suffix v ndF) (A.set_suffix v ndA).
Proof. intros []. by split. Qed.

Lemma rel_set_fail v ndF ndA :
  node_rel ndF ndA → node_rel (F.set_fail v ndF) (A.set_fail v ndA).
Proof. intros []. by split. Qed.

Lemma rel_setChild c v ndF ndA :
  node_rel ndF ndA → node_rel (F.set_child c v ndF) (A.setChild c v ndA).
Proof.
  intros []. split; try done.
  intros x. rewrite A_getChild_setChild. simpl. by destruct (decide _).
Qed.

Lemma rel_setFails c v ndF ndA :
  node_rel ndF ndA → node_rel (F.set_fails c v ndF) (A.setFails c v ndA).
Proof.
  intros []. split; try done.
  intros x. rewrite A_getFails_setFails. simpl. by destruct (decide _).
Qed.

Lemma rel_alter f g i hF hA :
  stores hF hA → (∀ ndF ndA, node_rel ndF ndA → node_rel (f ndF) (g ndA)) →
  stores (alter f i hF) (alter g i hA).
Proof. intros H Hfg. apply Forall2_alter; [done|]. intros x y _ _. apply Hfg. Qed.

Create HintDb lockstep.

#[export] Hint Resolve rel_set_root rel_set_b rel_set_output rel_set_index rel_set_counter
  rel_set_suffix rel_set_fail rel_setChild rel_setFails rel_zero : lockstep.

Ltac altered := repeat (apply rel_alter; [|by auto with lockstep]); try done.

(** ** findBlice and the link loops *)

Lemma findBlice_loop_lockstep hF hA w : ∀ n,
  stores hF hA → A.findBlice_loop hA n w = F.findBlice_loop hF n w.
Proof.
  induction w as [|c w IH]; intros n H; [done|].
  destruct n as [a|]; [|done]. simpl.
  destruct (rel_lookup hF hA a H) as [ndF ndA Hrel|]; [|done].
  simpl. rewrite (nr_child _ _ Hrel). by apply IH.
Qed.

Lemma A_fail_loop_cons rt hp c s rest :
  A.fail_loop rt hp c (s :: rest) =
  r ← A.findBlice_loop hp rt s;
  if r is Some _ then Some (alter (A.set_fail r) c hp)
  else A.fail_loop rt (alter (A.set_fail r) c hp) c rest.
Proof. done. Qed.

Lemma fail_loop_lockstep rt c sufs : ∀ hF hA,
  stores hF hA → option_Forall2 stores (F.fail_loop rt hF c sufs) (A.fail_loop rt hA c sufs).
Proof.
  induction sufs as [|s rest IH]; intros hF hA H; [by constructor|].
  rewrite fail_loop_cons, A_fail_loop_cons, (findBlice_loop_lockstep hF hA s rt H).
  destruct (F.findBlice_loop hF rt s) as [r|]; [|constructor]. rewrite !bind_some.
  destruct r as [q|]; [constructor|apply IH]; altered.
Qed.

Lemma F_suffix_loop_cons rt hp c s rest :
  F.suffix_loop rt hp c (s :: rest) =
  r ← F.findBlice_loop hp rt s;
  match r with
  | Some a => sd ← hp !! a;
              if F.output sd then Some (alter (F.set_suffix r) c hp)
              else F.suffix_loop rt hp c rest
  | None => F.suffix_loop rt hp c rest
  end.
Proof. done. Qed.

Lemma A_suffix_loop_cons rt hp c s rest :
  A.suffix_loop rt hp c (s :: rest) =
  r ← A.findBlice_loop hp rt s;
  match r with
  | Some a => sd ← hp !! a;
              if A.output sd then Some (alter (A.set_suffix r) c hp)
              else A.suffix_loop rt hp c rest
  | None => A.suffix_loop rt hp c rest
  end.
Proof. done. Qed.

Lemma suffix_loop_lockstep rt c sufs : ∀ hF hA,
  stores hF hA → option_Forall2 stores (F.suffix_loop rt hF c sufs) (A.suffix_loop rt hA c sufs).
Proof.
  induction sufs as [|s rest IH]; intros hF hA H; [by constructor|].
  rewrite F_suffix_loop_cons, A_suffix_loop_cons, (findBlice_loop_lockstep hF hA s rt H).
  destruct (F.findBlice_loop hF rt s) as [r|]; [|constructor]. rewrite !bind_some.
  destruct r as [a|]; [|by apply IH].
  apply (rel_bind node_rel); [by apply rel_lookup|]. intros sdF sdA Hrel.
  rewrite (nr_output _ _ Hrel). destruct (F.output sdF); [constructor; altered|by apply IH].
Qed.

Lemma fix_links_lockstep rt c hF hA :
  stores hF hA → option_Forall2 stores (F.fix_links rt hF c) (A.fix_links rt hA c).
Proof.
  intros H. unfold F.fix_links, A.fix_links.
  apply (rel_bind node_rel); [by apply rel_lookup|]. intros cdF cdA Hrel.
  rewrite (nr_b _ _ Hrel).
  apply (rel_bind stores); [by apply fail_loop_lockstep|]. intros hF1 hA1 H1.
  apply (rel_bind node_rel); [by apply rel_lookup|]. intros cdF1 cdA1 Hrel1.
  rewrite (nr_fail _ _ Hrel1).
  assert (stores (if F.fail cdF1 is None then alter (F.set_fail rt) c hF1 else hF1)
                 (if F.fail cdF1 is None then alter (A.set_fail rt) c hA1 else hA1)) as H2.
  { destruct (F.fail cdF1); [done|altered]. }
  apply (rel_bind node_rel); [by apply rel_lookup|]. intros cdF2 cdA2 Hrel2.
  rewrite (nr_b _ _ Hrel2). by apply suffix_loop_lockstep.
Qed.

(** ** The breadth-first loop *)

Lemma A_bfs_children_cons rt hp l n i rest :
  A.bfs_children rt hp l n (i :: rest) =
  nd ← hp !! n;
  match A.getChild nd i with
  | Some c => hp' ← A.fix_links rt hp c; A.bfs_children rt hp' (l ++ [Some c]) n rest
  | None => A.bfs_children rt hp l n rest
  end.
Proof. done. Qed.

Lemma bfs_children_lockstep rt n bytes : ∀ hF hA l,
  stores hF hA →
  option_Forall2 with_store (F.bfs_children rt hF l n bytes) (A.bfs_children rt hA l n bytes).
Proof.
  induction bytes as [|i rest IH]; intros hF hA l H; [by constructor|].
  rewrite bfs_children_cons, A_bfs_children_cons.
  apply (rel_bind node_rel); [by apply rel_lookup|]. intros ndF ndA Hrel.
  rewrite (nr_child _ _ Hrel). destruct (F.child ndF i) as [c|]; [|by apply IH].
  apply (rel_bind stores); [by apply fix_links_lockstep|]. intros hF1 hA1 H1. by apply IH.
Qed.

Lemma A_bfs_cons fuel rt hp p l :
  A.bfs (S fuel) rt hp (p :: l) =
  n ← p; '(hp', l') ← A.bfs_children rt hp l n all_bytes; A.bfs fuel rt hp' l'.
Proof. done. Qed.

Lemma bfs_lockstep rt fuel : ∀ hF hA l,
  stores hF hA → option_Forall2 stores (F.bfs fuel rt hF l) (A.bfs fuel rt hA l).
Proof.
  induction fuel as [|fuel IH]; intros hF hA l H.
  - destruct l; by constructor.
  - destruct l as [|p l]; [by constructor|]. rewrite bfs_cons, A_bfs_cons.
    destruct p as [n|]; [|constructor]. rewrite !bind_some.
    apply (rel_bind with_store); [by apply bfs_children_lockstep|].
    intros [hF1 lF] [hA1 lA] [H1 Hl]. simpl in H1, Hl. subst lA. by apply IH.
Qed.

(** ** The fails arrays *)

Lemma A_follow_fail_eq fuel hp n c :
  A.follow_fail fuel hp n c =
  nd ← A.deref hp n;
  match A.getChild nd c with
  | Some _ => Some n
  | None =>
      if A.root nd then Some n
      else match fuel with
           | O => None
           | S fuel => A.follow_fail fuel hp (A.fail nd) c
           end
  end.
Proof. by destruct fuel. Qed.

Lemma follow_fail_lockstep c fuel : ∀ hF hA n,
  stores hF hA → A.follow_fail fuel hA n c = F.follow_fail fuel hF n c.
Proof.
  induction fuel as [|fuel IH]; intros hF hA n H.
  all: rewrite follow_fail_eq, A_follow_fail_eq.
  all: destruct (rel_deref hF hA n H) as [ndF ndA Hrel|]; [|done].
  all: rewrite !bind_some, (nr_child _ _ Hrel), (nr_root _ _ Hrel), ?(nr_fail _ _ Hrel).
  all: destruct (F.child ndF c); [done|]; destruct (F.root ndF); [done|].
  - done.
  - by apply IH.
Qed.

Lemma A_fails_bytes_cons hp nodes i c rest :
  A.fails_bytes hp nodes i (c :: rest) =
  n ← A.nodes_get nodes i;
  n ← A.follow_fail (length hp) hp n c;
  p ← A.nodes_get nodes i; a ← p; _ ← hp !! a;
  A.fails_bytes (alter (A.setFails c n) a hp) nodes i rest.
Proof. done. Qed.

Lemma fails_bytes_lockstep nodesF nodes i bytes : ∀ hF hA,
  nodesF !! i = Some (Some i) → A.nodes_get nodes (Z.of_nat i) = Some (Some i) →
  stores hF hA →
  option_Forall2 stores (F.fails_bytes hF nodesF i bytes)
                        (A.fails_bytes hA nodes (Z.of_nat i) bytes).
Proof.
  induction bytes as [|c rest IH]; intros hF hA HnF HnA H; [by constructor|].
  rewrite fails_bytes_cons, A_fails_bytes_cons, HnF, HnA, !bind_some.
  rewrite (follow_fail_lockstep c _ hF hA (Some i) H), <- (Forall2_length _ _ _ H).
  destruct (F.follow_fail (length hF) hF (Some i) c) as [r|]; [|constructor].
  rewrite !bind_some.
  apply (rel_bind node_rel); [by apply rel_lookup|]. intros ndF ndA Hrel.
  apply IH; [done|done|altered].
Qed.

Lemma A_fails_nodes_cons hp nodes i rest :
  A.fails_nodes hp nodes (i :: rest) =
  hp' ← A.fails_bytes hp nodes (Z.of_nat i) all_bytes; A.fails_nodes hp' nodes rest.
Proof. done. Qed.

Lemma fails_nodes_lockstep nodesF nodes ixs : ∀ hF hA,
  (∀ i, i ∈ ixs → nodesF !! i = Some (Some i) ∧
                  A.nodes_get nodes (Z.of_nat i) = Some (Some i)) →
  stores hF hA →
  option_Forall2 stores (F.fails_nodes hF nodesF ixs) (A.fails_nodes hA nodes ixs).
Proof.
  induction ixs as [|i rest IH]; intros hF hA Hix H; [by constructor|].
  rewrite fails_nodes_cons, A_fails_nodes_cons.
  destruct (Hix i) as [HnF HnA]; [by left|].
  apply (rel_bind stores); [by apply fails_bytes_lockstep|]. intros hF1 hA1 H1.
  apply IH; [|done]. intros j Hj. apply Hix. by right.
Qed.

(** ** Match *)

Lemma F_suffix_walk_step fuel cnt hp f hits :
  F.suffix_walk fuel cnt hp f hits =
  fd ← hp !! f;
  sd ← F.deref hp (F.suffix fd);
  if F.root sd then Some (hp, hits)
  else match fuel with
       | O => None
       | S fuel =>
           s ← F.suffix fd;
           if decide (F.counter sd ≠ cnt)
           then F.suffix_walk fuel cnt (alter (F.set_counter cnt) s hp) s (hits ++ [F.index sd])
           else Some (hp, hits)
       end.
Proof. by destruct fuel. Qed.

Lemma A_suffix_walk_step fuel cnt hp f hits :
  A.suffix_walk fuel cnt hp f hits =
  fd ← hp !! f;
  sd ← A.deref hp (A.suffix fd);
  if A.root sd then Some (hp, hits)
  else match fuel with
       | O => None
       | S fuel =>
           s ← A.suffix fd;
           if decide (A.counter sd ≠ cnt)
           then A.suffix_walk fuel cnt (alter (A.set_counter cnt) s hp) s (hits ++ [A.index sd])
           else Some (hp, hits)
       end.
Proof. by destruct fuel. Qed.

Lemma suffix_walk_lockstep cnt fuel : ∀ hF hA f hits,
  stores hF hA →
  option_Forall2 with_store (F.suffix_walk fuel cnt hF f hits)
                            (A.suffix_walk fuel cnt hA f hits).
Proof.
  induction fuel as [|fuel IH]; intros hF hA f hits H.
  all: rewrite F_suffix_walk_step, A_suffix_walk_step.
  all: apply (rel_bind node_rel); [by apply rel_lookup|]; intros fdF fdA Hf.
  all: rewrite (nr_suffix _ _ Hf).
  all: apply (rel_bind node_rel); [by apply rel_deref|]; intros sdF sdA Hs.
  all: rewrite (nr_root _ _ Hs); destruct (F.root sdF); [by constructor|].
  - constructor.
  - destruct (F.suffix fdF) as [s|]; [|constructor]. rewrite !bind_some.
    rewrite (nr_counter _ _ Hs), (nr_index _ _ Hs).
    destruct (decide (F.counter sdF ≠ cnt)); [|by constructor].
    apply IH. altered.
Qed.

Lemma match_byte_lockstep cnt c stF stA :
  scan_rel stF stA →
  option_Forall2 scan_rel (F.match_byte cnt stF c) (A.match_byte cnt stA c).
Proof.
  destruct stF as [[hF n] hits], stA as [[hA n'] hits']. intros (H & Hn & Hh).
  simpl in H, Hn, Hh. subst n' hits'. unfold F.match_byte, A.match_byte.
  apply (rel_bind node_rel); [by apply rel_deref|]. intros ndF ndA Hrel.
  rewrite (nr_root _ _ Hrel), (nr_child _ _ Hrel), (nr_fails _ _ Hrel).
  set (n1 := if negb (F.root ndF) && bool_decide (F.child ndF c = None)
             then F.fails ndF c else n).
  apply (rel_bind node_rel); [by apply rel_deref|]. intros ndF1 ndA1 Hrel1.
  rewrite (nr_child _ _ Hrel1). destruct (F.child ndF1 c) as [f|]; [|by constructor].
  apply (rel_bind node_rel); [by apply rel_lookup|]. intros fdF fdA Hf.
  rewrite (nr_output _ _ Hf), (nr_counter _ _ Hf), (nr_index _ _ Hf).
  destruct (F.output fdF && bool_decide (F.counter fdF ≠ cnt)).
  - rewrite !length_alter, <- (Forall2_length _ _ _ H).
    apply (rel_bind with_store); [apply suffix_walk_lockstep; altered|].
    intros [hF1 h1] [hA1 h1'] [H1 Hh1]. simpl in H1, Hh1. subst h1'. by constructor.
  - rewrite <- (Forall2_length _ _ _ H).
    apply (rel_bind with_store); [by apply suffix_walk_lockstep|].
    intros [hF1 h1] [hA1 h1'] [H1 Hh1]. simpl in H1, Hh1. subst h1'. by constructor.
Qed.

Lemma F_match_loop_cons cnt st c rest :
  F.match_loop cnt st (c :: rest) = st' ← F.match_byte cnt st c; F.match_loop cnt st' rest.
Proof. done. Qed.

Lemma A_match_loop_cons cnt st c rest :
  A.match_loop cnt st (c :: rest) = st' ← A.match_byte cnt st c; A.match_loop cnt st' rest.
Proof. done. Qed.

Lemma match_loop_lockstep cnt input : ∀ stF stA,
  scan_rel stF stA →
  option_Forall2 scan_rel (F.match_loop cnt stF input) (A.match_loop cnt stA input).
Proof.
  induction input as [|c rest IH]; intros stF stA H; [by constructor|].
  rewrite F_match_loop_cons, A_match_loop_cons.
  apply (rel_bind scan_rel); [by apply match_byte_lockstep|]. intros stF1 stA1 H1. by apply IH.
Qed.

Lemma Match_lockstep mF mA input :
  matcher_rel mF mA → option_Forall2 result_rel (F.Match mF input) (A.Match mA input).
Proof.
  intros (Hc & Hr & H). unfold F.Match, A.Match. rewrite Hc, Hr.
  apply (rel_bind scan_rel); [by apply match_loop_lockstep|].
  intros [[hF n] hits] [[hA n'] hits'] (H1 & Hn & Hh). simpl in H1, Hn, Hh. subst n' hits'.
  constructor. split; [done|]. by split.
Qed.

End ArenaLockstep.

(** * [buildTrie] of the version with lazily allocated arrays *)
Module ArenaBuild.
Module F := FixedArray.
Module A := Arena.
Import FixedArrayTrie FixedArrayBuild FixedArrayInsert FixedArrayLinks FixedArrayBfs
       FixedArrayFails TableSim ArenaLockstep.

(** The rows of [nodes] when the first [n] nodes are registered. *)
Record grid_ok (nodes : list (list ptr)) (n : nat) : Prop := mkGridOk {
  gr_rows : ∀ r row, nodes !! r = Some row → length row = 1024;
  gr_get : ∀ i, i < n → A.nodes_get nodes (Z.of_nat i) = Some (Some i)
}.

(** The number of entries of [nodes]. *)
Definition capacity (nodes : list (list ptr)) : Z := (Z.of_nat (length nodes) * 1024)%Z.

(** The dictionary is small enough for [max] not to wrap around. *)
Definition fits_int (D : list (list byte)) : Prop :=
  (Z.of_nat (total_length D) + 1 < 2 ^ 63)%Z.

Lemma wrap_int_small z : (- 2 ^ 63 ≤ z < 2 ^ 63)%Z → wrap_int z = z.
Proof. unfold wrap_int. intros. dlia. Qed.

Lemma A_at_index_nat {X} (s : list X) (i : Z) : (0 ≤ i)%Z → A.at_index s i = s !! Z.to_nat i.
Proof. intros. unfold A.at_index. by rewrite decide_True. Qed.

Lemma grid_alloc nodes n :
  grid_ok nodes n → (Z.of_nat n < capacity nodes)%Z →
  ∃ nodes', A.nodes_set nodes (Z.of_nat n) (Some n) = Some nodes' ∧
            grid_ok nodes' (S n) ∧ length nodes' = length nodes.
Proof.
  intros [Hrows Hget] Hcap. unfold capacity in Hcap. unfold A.nodes_set, A.NODES_WIDTH.
  set (i := Z.of_nat n).
  assert (0 ≤ i `quot` 1024 < Z.of_nat (length nodes) ∧ 0 ≤ i `rem` 1024 < 1024)%Z
    as [Hq Hr] by (unfold i; dlia).
  destruct (lookup_lt_is_Some_2 nodes (Z.to_nat (i `quot` 1024)%Z)) as [row Hrow]; [lia|].
  pose proof (Hrows _ _ Hrow) as Hrl.
  rewrite A_at_index_nat, Hrow, bind_some by lia.
  destruct (lookup_lt_is_Some_2 row (Z.to_nat (i `rem` 1024)%Z)) as [old Hold]; [lia|].
  rewrite A_at_index_nat, Hold, bind_some by lia.
  eexists. split; [done|]. split; [split|by rewrite length_insert].
  - intros r row' Hr'. destruct (decide (r = Z.to_nat (i `quot` 1024)%Z)) as [->|Hne].
    + rewrite list_lookup_insert_eq in Hr' by (by eapply lookup_lt_Some).
      apply (inj Some) in Hr' as <-. by rewrite length_insert.
    + rewrite list_lookup_insert_ne in Hr' by done. eauto.
  - intros j Hj. unfold A.nodes_get, A.NODES_WIDTH.
    assert (0 ≤ Z.of_nat j `quot` 1024 ∧ 0 ≤ Z.of_nat j `rem` 1024 < 1024)%Z as [Hjq Hjr] by dlia.
    rewrite A_at_index_nat by lia.
    destruct (decide (j = n)) as [->|Hjn].
    + fold i. rewrite list_lookup_insert_eq by (by eapply lookup_lt_Some). rewrite bind_some.
      rewrite A_at_index_nat by lia. by rewrite list_lookup_insert_eq by lia.
    + assert (j < n) as Hlt by lia. specialize (Hget j Hlt).
      unfold A.nodes_get, A.NODES_WIDTH in Hget. rewrite A_at_index_nat in Hget by lia.
      destruct (decide (Z.to_nat (Z.of_nat j `quot` 1024) = Z.to_nat (i `quot` 1024))) as [Heq|Hne].
      * rewrite Heq in Hget |- *. rewrite Hrow, bind_some in Hget.
        rewrite list_lookup_insert_eq by (by eapply lookup_lt_Some). rewrite bind_some.
        rewrite A_at_index_nat in Hget |- * by lia.
        rewrite list_lookup_insert_ne; [done|]. unfold i in *. dlia.
      * by rewrite list_lookup_insert_ne.
Qed.

Lemma rel_Some_l {X Y} (R : X → Y → Prop) x y a :
  option_Forall2 R x y → x = Some a → ∃ b, y = Some b ∧ R a b.
Proof. intros [a' b H|] Hx; [|done]. apply (inj Some) in Hx as ->. by exists b. Qed.

(** ** Insertion *)

Section insertion.
Context (rt : ptr) (N : nat) (HN : (Z.of_nat N < 2 ^ 63)%Z).

Lemma arena_trie_step hF nodesF n path c hF' nodesF' n' path' hA nodes :
  stores hF hA → grid_ok nodes (length hF) →
  length hF < N → (Z.of_nat N ≤ capacity nodes)%Z →
  F.trie_step rt (hF, nodesF, n, path) c = Some (hF', nodesF', n', path') →
  ∃ hA' nodes',
    A.trie_step rt (hA, nodes, Z.of_nat (length hF), n, path) c
      = Some (hA', nodes', Z.of_nat (length hF'), n', path') ∧
    stores hF' hA' ∧ grid_ok nodes' (length hF') ∧ length nodes' = length nodes ∧
    length hF' ≤ S (length hF).
Proof.
  intros H Hgrid Hlt Hcap HF. unfold F.trie_step in HF. cbv beta iota zeta in HF.
  apply bind_Some in HF as (a & -> & HF). apply bind_Some in HF as (nd & Ha & HF).
  destruct (Forall2_lookup_l _ _ _ _ _ H Ha) as (ndA & HaA & Hrel).
  pose proof (Forall2_length _ _ _ H) as Hlen.
  unfold A.trie_step. cbv beta iota zeta. rewrite bind_some, HaA, bind_some, (nr_child _ _ Hrel).
  destruct (F.child nd c) as [q|] eqn:Hch.
  - apply (inj Some) in HF.
    pose proof (f_equal (λ x, x.1.1.1) HF) as E1. pose proof (f_equal (λ x, x.1.2) HF) as E2.
    pose proof (f_equal (λ x, x.2) HF) as E3. simpl in E1, E2, E3. subst hF' n' path'.
    exists hA, nodes. split_and!; [done..|lia].
  - destruct (grid_alloc nodes (length hF) Hgrid) as (nodes1 & Hset & Hgrid1 & Hlen1); [lia|].
    rewrite <- Hlen, Hset, bind_some.
    rewrite wrap_int_small by lia.
    apply (inj Some) in HF.
    pose proof (f_equal (λ x, x.1.1.1) HF) as E1. pose proof (f_equal (λ x, x.1.2) HF) as E2.
    pose proof (f_equal (λ x, x.2) HF) as E3. simpl in E1, E2, E3. subst hF' n' path'.
    assert (stores (hF ++ [F.zero_node]) (hA ++ [A.zero_node])) as Hbase.
    { apply Forall2_app; [done|]. constructor; [apply rel_zero|constructor]. }
    destruct (decide (length (path ++ [c]) = 1)).
    all: eexists _, nodes1.
    all: split; [rewrite ?length_alter, ?length_app; simpl;
                 replace (Z.of_nat (length hF + 1)) with (Z.of_nat (length hF) + 1)%Z by lia;
                 done|].
    all: split; [altered|].
    all: rewrite ?length_alter, ?length_app; simpl.
    all: rewrite Nat.add_1_r; split_and!; [done|done|lia].
Qed.

Lemma A_trie_blice_cons st c rest :
  A.trie_blice rt st (c :: rest) = st' ← A.trie_step rt st c; A.trie_blice rt st' rest.
Proof. done. Qed.

Lemma arena_trie_blice bl : ∀ hF nodesF n path hF' nodesF' n' path' hA nodes,
  stores hF hA → grid_ok nodes (length hF) →
  length hF + length bl ≤ N → (Z.of_nat N ≤ capacity nodes)%Z →
  F.trie_blice rt (hF, nodesF, n, path) bl = Some (hF', nodesF', n', path') →
  ∃ hA' nodes',
    A.trie_blice rt (hA, nodes, Z.of_nat (length hF), n, path) bl
      = Some (hA', nodes', Z.of_nat (length hF'), n', path') ∧
    stores hF' hA' ∧ grid_ok nodes' (length hF') ∧ length nodes' = length nodes ∧
    length hF' ≤ length hF + length bl.
Proof.
  induction bl as [|c bl IH]; intros hF nodesF n path hF' nodesF' n' path' hA nodes
    H Hgrid Hlt Hcap HF.
  - simpl in HF. apply (inj Some) in HF.
    pose proof (f_equal (λ x, x.1.1.1) HF) as E1. pose proof (f_equal (λ x, x.1.2) HF) as E2.
    pose proof (f_equal (λ x, x.2) HF) as E3. simpl in E1, E2, E3. subst hF' n' path'.
    exists hA, nodes. split_and!; [done..|lia].
  - rewrite trie_blice_cons in HF. apply bind_Some in HF as ([[[hF1 nodesF1] n1] path1] & Hstep & HF).
    simpl length in Hlt.
    destruct (arena_trie_step _ _ _ _ _ _ _ _ _ hA nodes H Hgrid ltac:(lia) Hcap Hstep)
      as (hA1 & nodes1 & HstepA & H1 & Hgrid1 & Hlen1 & Hl1).
    destruct (IH _ _ _ _ _ _ _ _ hA1 nodes1 H1 Hgrid1 ltac:(lia)
                ltac:(unfold capacity in *; rewrite Hlen1; done) HF)
      as (hA2 & nodes2 & HA & H2 & Hgrid2 & Hlen2 & Hl2).
    exists hA2, nodes2. rewrite A_trie_blice_cons, HstepA, bind_some.
    split_and!; [done|done|done|congruence|simpl; lia].
Qed.

Lemma arena_trie_entry hF nodesF i blice hF' nodesF' hA nodes :
  stores hF hA → grid_ok nodes (length hF) →
  length hF + length blice ≤ N → (Z.of_nat N ≤ capacity nodes)%Z →
  F.trie_entry rt (hF, nodesF) i blice = Some (hF', nodesF') →
  ∃ hA' nodes',
    A.trie_entry rt (hA, nodes, Z.of_nat (length hF)) i blice
      = Some (hA', nodes', Z.of_nat (length hF')) ∧
    stores hF' hA' ∧ grid_ok nodes' (length hF') ∧ length nodes' = length nodes ∧
    length hF' ≤ length hF + length blice.
Proof.
  intros H Hgrid Hlt Hcap HF. unfold F.trie_entry in HF. cbv beta iota zeta in HF.
  apply bind_Some in HF as ([[[hF1 nodesF1] n1] path1] & Hbl & HF).
  apply bind_Some in HF as (a & -> & HF). apply bind_Some in HF as (nd & Ha & HF).
  apply (inj Some) in HF.
  pose proof (f_equal fst HF) as E1. simpl in E1. subst hF'.
  destruct (arena_trie_blice _ _ _ _ _ _ _ _ _ hA nodes H Hgrid Hlt Hcap Hbl)
    as (hA1 & nodes1 & HA & H1 & Hgrid1 & Hlen1 & Hl1).
  destruct (Forall2_lookup_l _ _ _ _ _ H1 Ha) as (ndA & HaA & Hrel).
  unfold A.trie_entry. cbv beta iota zeta. rewrite HA, bind_some. cbv beta iota zeta.
  rewrite bind_some, HaA, bind_some, !length_alter.
  eexists _, nodes1. split; [done|]. split_and!; [altered|done..].
Qed.

Lemma A_trie_entries_cons st i blice rest :
  A.trie_entries rt st i (blice :: rest) =
  st' ← A.trie_entry rt st i blice; A.trie_entries rt st' (S i) rest.
Proof. done. Qed.

Lemma arena_trie_entries D : ∀ hF nodesF i hF' nodesF' hA nodes,
  stores hF hA → grid_ok nodes (length hF) →
  length hF + total_length D ≤ N → (Z.of_nat N ≤ capacity nodes)%Z →
  F.trie_entries rt (hF, nodesF) i D = Some (hF', nodesF') →
  ∃ hA' nodes',
    A.trie_entries rt (hA, nodes, Z.of_nat (length hF)) i D
      = Some (hA', nodes', Z.of_nat (length hF')) ∧
    stores hF' hA' ∧ grid_ok nodes' (length hF') ∧ length nodes' = length nodes.
Proof.
  induction D as [|blice D IH]; intros hF nodesF i hF' nodesF' hA nodes H Hgrid Hlt Hcap HF.
  - simpl in HF. apply (inj Some) in HF. pose proof (f_equal fst HF) as E1. simpl in E1.
    subst hF'. by exists hA, nodes.
  - assert (total_length (blice :: D) = length blice + total_length D) as Htl by done.
    rewrite trie_entries_cons in HF. apply bind_Some in HF as ([hF1 nodesF1] & Hent & HF).
    destruct (arena_trie_entry hF nodesF i blice hF1 nodesF1 hA nodes H Hgrid)
      as (hA1 & nodes1 & HA1 & H1 & Hgrid1 & Hlen1 & Hl1); [lia|done|done|].
    destruct (IH _ _ _ _ _ hA1 nodes1 H1 Hgrid1 ltac:(lia)
                ltac:(unfold capacity in *; rewrite Hlen1; done) HF)
      as (hA2 & nodes2 & HA2 & H2 & Hgrid2 & Hlen2).
    exists hA2, nodes2. rewrite A_trie_entries_cons, HA1, bind_some.
    split_and!; [done..|congruence].
Qed.

End insertion.

(** ** buildTrie *)

Lemma max_nodes_spec D : fits_int D → A.max_nodes D = (Z.of_nat (total_length D) + 1)%Z.
Proof.
  unfold fits_int, A.max_nodes.
  assert (∀ acc, (0 ≤ acc)%Z → (acc + Z.of_nat (total_length D) < 2 ^ 63)%Z →
            foldl (λ max blice, wrap_int (max + Z.of_nat (length blice))) acc D
            = (acc + Z.of_nat (total_length D))%Z) as Hgen.
  { induction D as [|blice D IH]; intros acc Hacc Hlt.
    - simpl. unfold total_length. simpl. lia.
    - assert (total_length (blice :: D) = length blice + total_length D) as Htl by done.
      rewrite Htl in Hlt |- *. simpl foldl. rewrite wrap_int_small by lia.
      rewrite IH by lia. lia. }
  intros Hfit. rewrite Hgen by lia. lia.
Qed.

Lemma make_nodes_grid max :
  (0 ≤ max)%Z → grid_ok (A.make_nodes max) 0 ∧ (max < capacity (A.make_nodes max))%Z.
Proof.
  intros Hmax. unfold A.make_nodes, capacity, A.NODES_WIDTH. split; [split|].
  - intros r row Hr. apply lookup_replicate in Hr as [-> _]. by rewrite length_replicate.
  - intros i Hi. lia.
  - rewrite length_replicate. dlia.
Qed.

Lemma arena_NewMatcher D :
  fits_int D →
  ∃ hF hA, F.NewMatcher D = Some (F.mkMatcher 0 (Some 0) hF) ∧
           A.NewMatcher D = Some (A.mkMatcher 0 (Some 0) hA) ∧ stores hF hA.
Proof.
  intros Hfit. destruct (NewMatcher_spec D) as (hp & Hnew & Hau & _). exists hp.
  pose proof Hnew as Hnew'. unfold F.NewMatcher, F.buildTrie in Hnew'.
  apply bind_Some in Hnew' as ([hp1 nodes1] & Hins & Hnew').
  apply bind_Some in Hnew' as (hp2 & Hbfs & Hnew').
  apply bind_Some in Hnew' as (hp3 & Hfails & Hnew').
  assert (hp3 = hp) as -> by congruence. clear Hnew'.
  destruct (trie_entries_spec D _ _ [] building_init within_init)
    as (hp1' & nodes1' & Hins' & Hbd & _).
  change (length []) with 0 in Hins'. change ([] ++ D) with D in Hbd.
  assert (hp1' = hp1 ∧ nodes1' = nodes1) as [-> ->] by (split; congruence).
  destruct (bfs_links _ _ _ Hbd) as (hp2' & Hbfs' & Hsu & _).
  assert (hp2' = hp2) as -> by congruence.
  pose proof (same_by_length _ _ _ Hsu) as Hlen2.
  (* the rows *)
  pose proof (max_nodes_spec D Hfit) as Hmax.
  destruct (make_nodes_grid (A.max_nodes D)) as [Hgrid0 Hcap0]; [lia|].
  destruct (grid_alloc _ 0 Hgrid0) as (nodesA0 & Hset0 & HgridA0 & HlenA0); [lia|].
  (* insertion *)
  destruct (arena_trie_entries (Some 0) (1 + total_length D) ltac:(unfold fits_int in Hfit; lia)
              D [F.set_root true F.zero_node] [Some 0] 0 hp1 nodes1
              [A.set_root true A.zero_node] nodesA0)
    as (hA1 & nodesA1 & HinsA & H1 & Hgrid1 & _).
  { repeat constructor; done. }
  { done. }
  { simpl. lia. }
  { unfold capacity in *. rewrite HlenA0. lia. }
  { done. }
  change (Z.of_nat 0) with 0%Z in Hset0.
  change (Z.of_nat (length [F.set_root true F.zero_node])) with 1%Z in HinsA.
  (* links *)
  destruct (rel_Some_l _ _ _ _ (bfs_lockstep (Some 0) (length hp1) hp1 hA1 [Some 0] H1) Hbfs)
    as (hA2 & HbfsA & H2).
  (* fails *)
  assert (length nodes1 = length hp1) as Hln.
  { rewrite (bd_nodes _ _ _ Hbd), length_fmap, length_seq. done. }
  destruct (rel_Some_l _ _ _ _
              (fails_nodes_lockstep nodes1 nodesA1 (seq 0 (length nodes1)) hp2 hA2
                 ltac:(intros i Hi; apply elem_of_seq in Hi; split;
                       [rewrite (bd_nodes _ _ _ Hbd), list_lookup_fmap, lookup_seq_lt by lia; done
                       |apply (gr_get _ _ Hgrid1); lia]) H2) Hfails)
    as (hA3 & HfailsA & H3).
  exists hA3. split; [done|]. split; [|done].
  unfold A.NewMatcher, A.buildTrie. cbv zeta.
  rewrite Hset0, bind_some, HinsA, bind_some. cbv beta iota.
  rewrite <- (Forall2_length _ _ _ H1), HbfsA, bind_some, Nat2Z.id, <- Hln, HfailsA, bind_some.
  done.
Qed.

End ArenaBuild.

(** * The version with lazily allocated arrays (src/unnamed/part_000) *)
Module ArenaFacts.
Module F := FixedArray.
Module A := Arena.
Import FixedArrayInsert FixedArrayMatch FixedArrayFrame Specification Calls
       ArenaLockstep ArenaBuild.

Definition arena_scan (D : list (list byte)) (S : list byte) : option (list Z) :=
  m ← A.NewMatcher D; r ← A.Match m S; Some r.1.

(** The results of the calls [Match(in)], [in] ranging over [inputs], made
    one after the other on the same matcher. *)
Fixpoint arena_calls (m : A.Matcher) (inputs : list (list byte)) : option (list (list Z)) :=
  match inputs with
  | [] => Some []
  | input :: rest =>
      r ← A.Match m input; results ← arena_calls r.2 rest; Some (r.1 :: results)
  end.

(** Matchers that hold the root alone. *)
Definition bare_arena : A.Matcher := A.mkMatcher 0 (Some 0) [A.set_root true A.zero_node].

Lemma bare_rel : matcher_rel bare_fixed bare_arena.
Proof. split; [done|]. split; [done|]. repeat constructor; done. Qed.

Lemma arena_calls_cons m input rest :
  arena_calls m (input :: rest)
  = r ← A.Match m input; results ← arena_calls r.2 rest; Some (r.1 :: results).
Proof. done. Qed.

Lemma calls_lockstep inputs : ∀ mF mA,
  matcher_rel mF mA → arena_calls mA inputs = fixed_calls mF inputs.
Proof.
  induction inputs as [|input rest IH]; intros mF mA H; [done|].
  rewrite arena_calls_cons, fixed_calls_cons.
  destruct (Match_lockstep mF mA input H) as [[hF mF1] [hA mA1] [Hh H1]|]; [|done].
  simpl in Hh, H1. subst hA. rewrite !bind_some. simpl. by rewrite (IH mF1 mA1 H1).
Qed.

(** X15.  For a dictionary of fewer than 2^63 - 1 bytes in all, [buildTrie]
    of the version with lazily allocated arrays registers every node in
    [nodes] without leaving its rows, and builds the automaton of the
    fixed-array version: the same nodes in the same order with the same
    fields, a [nil] slice reading as an array of [nil] pointers. *)
Theorem arena_build_refines_fixed D :
  fits_int D →
  ∃ mF mA, F.NewMatcher D = Some mF ∧ A.NewMatcher D = Some mA ∧ matcher_rel mF mA.
Proof.
  intros Hfit. destruct (arena_NewMatcher D Hfit) as (hF & hA & HF & HA & H).
  eexists _, _. split; [done|]. split; [done|]. by split.
Qed.

Lemma arena_build_refines_fixed_witness :
  ∃ mF mA, F.NewMatcher [bytes_of "ab"; bytes_of "b"] = Some mF ∧
           A.NewMatcher [bytes_of "ab"; bytes_of "b"] = Some mA ∧ matcher_rel mF mA.
Proof.
  apply (arena_build_refines_fixed [bytes_of "ab"; bytes_of "b"]). vm_compute. reflexivity.
Defined.

(** X16.  On matchers that hold the same automaton, [Match] of the two
    versions runs in lockstep: both panic or both return, with the same
    hits in the same order, leaving matchers that again hold the same
    automaton and counters. *)
Theorem arena_Match_lockstep mF mA input :
  matcher_rel mF mA →
  match F.Match mF input, A.Match mA input with
  | Some (hitsF, mF'), Some (hitsA, mA') => hitsA = hitsF ∧ matcher_rel mF' mA'
  | None, None => True
  | _, _ => False
  end.
Proof.
  intros H. destruct (Match_lockstep mF mA input H) as [[hF mF1] [hA mA1] [Hh H1]|]; [|done].
  simpl in Hh, H1. by subst hA.
Qed.

Lemma arena_Match_lockstep_witness :
  match F.Match bare_fixed (bytes_of "a"), A.Match bare_arena (bytes_of "a") with
  | Some (hitsF, mF'), Some (hitsA, mA') => hitsA = hitsF ∧ matcher_rel mF' mA'
  | None, None => True
  | _, _ => False
  end.
Proof. apply (arena_Match_lockstep bare_fixed bare_arena (bytes_of "a")), bare_rel. Defined.

(** X17.  For a dictionary of fewer than 2^63 - 1 bytes in all, any
    sequence of [Match] calls on a new matcher of the version with lazily
    allocated arrays returns, call by call, the slices that the same calls
    return on a new matcher of the fixed-array version. *)
Theorem arena_calls_as_fixed D inputs :
  fits_int D →
  (m ← A.NewMatcher D; arena_calls m inputs) = (m ← F.NewMatcher D; fixed_calls m inputs).
Proof.
  intros Hfit. destruct (arena_NewMatcher D Hfit) as (hF & hA & HF & HA & H).
  rewrite HF, HA, !bind_some. apply calls_lockstep. by split.
Qed.

Lemma arena_calls_as_fixed_witness :
  (m ← A.NewMatcher [bytes_of "aa"; bytes_of "b"];
   arena_calls m [bytes_of "aab"; bytes_of "b"; bytes_of "aab"])
  = (m ← F.NewMatcher [bytes_of "aa"; bytes_of "b"];
     fixed_calls m [bytes_of "aab"; bytes_of "b"; bytes_of "aab"]).
Proof.
  apply (arena_calls_as_fixed [bytes_of "aa"; bytes_of "b"]). vm_compute. reflexivity.
Defined.

(** X18.  For a dictionary of fewer than 2^63 - 1 bytes in all, [Match] on
    a new matcher of the version with lazily allocated arrays returns no
    index twice, and returns [z] exactly when [z] is the last position in
    [D] of a non-empty pattern that occurs in the input. *)
Theorem arena_Match_reports_last_indices D S :
  fits_int D →
  ∃ hits, arena_scan D S = Some hits ∧ NoDup hits ∧ ∀ z, z ∈ hits ↔ reported D S z.
Proof.
  intros Hfit. destruct (arena_NewMatcher D Hfit) as (hF & hA & HF & HA & H).
  destruct (served_new D) as (mF & Hnew & Hs).
  destruct (served_Match D 0 mF S Hs) as (hits & mF' & HM & _ & Hnd & Hhits); [lia|].
  assert (mF = F.mkMatcher 0 (Some 0) hF) as -> by congruence.
  exists hits. split; [|done]. unfold arena_scan. rewrite HA, bind_some.
  destruct (Match_lockstep (F.mkMatcher 0 (Some 0) hF) (A.mkMatcher 0 (Some 0) hA) S)
    as [[h1 m1] [h2 m2] [Hh _]|]; [by split| |].
  - simpl in Hh. rewrite bind_some. simpl. congruence.
  - done.
Qed.

Lemma arena_Match_reports_last_indices_witness :
  ∃ hits, arena_scan [bytes_of "aa"; bytes_of "b"] (bytes_of "aab") = Some hits ∧ NoDup hits ∧
          ∀ z, z ∈ hits ↔ reported [bytes_of "aa"; bytes_of "b"] (bytes_of "aab") z.
Proof.
  apply (arena_Match_reports_last_indices [bytes_of "aa"; bytes_of "b"] (bytes_of "aab")).
  vm_compute. reflexivity.
Defined.

(** X19.  [getChild] and [getFails] return [nil] while the slice is [nil];
    [setChild(i, v)] and [setFails(i, v)] allocate the slice if need be and
    change the entry for [i] alone, each leaving the other slice as it was. *)
Theorem arena_slices_read_what_was_set nd i v :
  A.getChild A.zero_node i = None ∧ A.getFails A.zero_node i = None ∧
  A.getChild (A.setChild i v nd) i = v ∧
  (∀ j, j ≠ i → A.getChild (A.setChild i v nd) j = A.getChild nd j) ∧
  (∀ j, A.getFails (A.setChild i v nd) j = A.getFails nd j) ∧
  A.getFails (A.setFails i v nd) i = v ∧
  (∀ j, j ≠ i → A.getFails (A.setFails i v nd) j = A.getFails nd j) ∧
  (∀ j, A.getChild (A.setFails i v nd) j = A.getChild nd j) ∧
  A.child (A.setChild i v nd) ≠ None ∧ A.fails (A.setFails i v nd) ≠ None.
Proof.
  split_and!; try done.
  - rewrite A_getChild_setChild. by rewrite decide_True.
  - intros j Hj. rewrite A_getChild_setChild. by rewrite decide_False.
  - rewrite A_getFails_setFails. by rewrite decide_True.
  - intros j Hj. rewrite A_getFails_setFails. by rewrite decide_False.
Qed.

(** X20.  On matchers that hold the same automaton, [findBlice] of the two
    versions returns the same pointer, or panics in both. *)
Theorem arena_findBlice_as_fixed mF mA w :
  matcher_rel mF mA → A.findBlice mA w = F.findBlice mF w.
Proof.
  intros (_ & Hr & H). unfold A.findBlice, F.findBlice. rewrite Hr.
  by apply findBlice_loop_lockstep.
Qed.

Lemma arena_findBlice_as_fixed_witness :
  A.findBlice bare_arena (bytes_of "a") = F.findBlice bare_fixed (bytes_of "a").
Proof. apply (arena_findBlice_as_fixed bare_fixed bare_arena (bytes_of "a")), bare_rel. Defined.

End ArenaFacts.

(** * src/unnamed/part_001, first file: [int32] identifiers, call counter

    The nodes are addressed by [int32] identifiers through [m.table], as in
    the second file of the part; [Match] suppresses duplicates with the call
    counter and resumes through the [fails] slices, as in
    src/ahocorasick.go. *)
Module TableCounter.

Definition TABLE_WIDTH : Z := 1024.

(** Go's [int32]: [+] wraps around. *)
Definition wrap_int32 (z : Z) : Z := ((z + 2 ^ 31) `mod` 2 ^ 32 - 2 ^ 31)%Z.

Record node := mkNode {
  root : bool;
  b : list byte;
  output : bool;
  index : Z;
  counter : Z;
  child : option (byte → Z);   (* []int32: nil, or make([]int32, 256) *)
  fails : option (byte → Z);   (* []int32: nil, or make([]int32, 256) *)
  suffix : Z;
  fail : Z
}.

(** [Matcher], with the store of its nodes. *)
Record Matcher := mkMatcher {
  m_counter : Z;
  m_root : ptr;
  table : list (list ptr);
  tableSize : Z;
  mem : list node
}.

(** [&node{}] *)
Definition zero_node : node := mkNode false [] false 0 0 None None 0 0.

Definition set_root (v : bool) (n : node) : node :=
  mkNode v (b n) (output n) (index n) (counter n) (child n) (fails n) (suffix n) (fail n).
Definition set_b (v : list byte) (n : node) : node :=
  mkNode (root n) v (output n) (index n) (counter n) (child n) (fails n) (suffix n) (fail n).
Definition set_output (v : bool) (n : node) : node :=
  mkNode (root n) (b n) v (index n) (counter n) (child n) (fails n) (suffix n) (fail n).
Definition set_index (v : Z) (n : node) : node :=
  mkNode (root n) (b n) (output n) v (counter n) (child n) (fails n) (suffix n) (fail n).
Definition set_counter (v : Z) (n : node) : node :=
  mkNode (root n) (b n) (output n) (index n) v (child n) (fails n) (suffix n) (fail n).
Definition set_suffix (v : Z) (n : node) : node :=
  mkNode (root n) (b n) (output n) (index n) (counter n) (child n) (fails n) v (fail n).
Definition set_fail (v : Z) (n : node) : node :=
  mkNode (root n) (b n) (output n) (index n) (counter n) (child n) (fails n) (suffix n) v.

Definition set_m_counter (v : Z) (m : Matcher) : Matcher :=
  mkMatcher v (m_root m) (table m) (tableSize m) (mem m).
Definition set_m_root (v : ptr) (m : Matcher) : Matcher :=
  mkMatcher (m_counter m) v (table m) (tableSize m) (mem m).
Definition set_table (v : list (list ptr)) (m : Matcher) : Matcher :=
  mkMatcher (m_counter m) (m_root m) v (tableSize m) (mem m).
Definition set_tableSize (v : Z) (m : Matcher) : Matcher :=
  mkMatcher (m_counter m) (m_root m) (table m) v (mem m).
Definition set_mem (v : list node) (m : Matcher) : Matcher :=
  mkMatcher (m_counter m) (m_root m) (table m) (tableSize m) v.

(** [*p]: panics on [nil]. *)
Definition deref (hp : list node) (p : ptr) : option node := a ← p; hp !! a.

(** [s[i]] on a slice: panics when [i] is out of range. *)
Definition at_index {A} (s : list A) (i : Z) : option A :=
  if decide (0 ≤ i)%Z then s !! Z.to_nat i else None.

(** Go's [/] and [%] truncate towards zero. *)
Definition tableGet (m : Matcher) (i : Z) : option ptr :=
  row ← at_index (table m) (i `quot` TABLE_WIDTH);
  at_index row (i `rem` TABLE_WIDTH).

Definition tableSet (m : Matcher) (i : Z) (n : ptr) : option Matcher :=
  let tbl :=
    if decide (wrap_int32 (Z.of_nat (length (table m))) ≤ i `quot` TABLE_WIDTH)%Z
    then table m ++ [replicate (Z.to_nat TABLE_WIDTH) None]
    else table m in
  row ← at_index tbl (i `quot` TABLE_WIDTH);
  _ ← at_index row (i `rem` TABLE_WIDTH);
  Some (set_table (<[Z.to_nat (i `quot` TABLE_WIDTH) :=
                      <[Z.to_nat (i `rem` TABLE_WIDTH) := n]> row]> tbl) m).

Definition getChild (n : node) (i : byte) : Z :=
  match child n with
  | None => 0%Z
  | Some a => a i
  end.

Definition setChild (i : byte) (v : Z) (n : node) : node :=
  let a := match child n with
           | None => λ _, 0%Z
           | Some a => a
           end in
  mkNode (root n) (b n) (output n) (index n) (counter n)
         (Some (λ x, if decide (x = i) then v else a x)) (fails n) (suffix n) (fail n).

Definition getFails (n : node) (i : byte) : Z :=
  match fails n with
  | None => 0%Z
  | Some a => a i
  end.

Definition setFails (i : byte) (v : Z) (n : node) : node :=
  let a := match fails n with
           | None => λ _, 0%Z
           | Some a => a
           end in
  mkNode (root n) (b n) (output n) (index n) (counter n) (child n)
         (Some (λ x, if decide (x = i) then v else a x)) (suffix n) (fail n).

(** [findBlice]: the loop [for n != nil && len(b) > 0], on [n] and [i]. *)
Fixpoint findBlice_loop (m : Matcher) (n : ptr) (i : Z) (bl : list byte) : option Z :=
  match bl with
  | [] => Some i
  | c :: bl' =>
      match n with
      | None => Some i
      | Some a =>
          nd ← mem m !! a;
          let i := getChild nd c in
          n ← tableGet m i;
          findBlice_loop m n i bl'
      end
  end.

Definition findBlice (m : Matcher) (bl : list byte) : option Z :=
  findBlice_loop m (m_root m) 1 bl.

(** *** buildTrie, first loop: insertion (lines 134-171) *)

Definition trie_step (st : Matcher * ptr * list byte) (c : byte)
  : option (Matcher * ptr * list byte) :=
  let '(m, n, path) := st in
  let path := path ++ [c] in
  nd ← deref (mem m) n;
  p ← tableGet m (getChild nd c);
  match p with
  | Some _ => Some (m, p, path)
  | None =>
      let q := length (mem m) in
      let m := set_mem (mem m ++ [zero_node]) m in
      m ← tableSet m (tableSize m) (Some q);
      a ← n;
      let m := set_mem (alter (setChild c (tableSize m)) a (mem m)) m in
      let m := set_tableSize (wrap_int32 (tableSize m + 1)) m in
      let m := set_mem (alter (set_b path) q (mem m)) m in
      let m := if decide (length path = 1)
               then set_mem (alter (set_fail 1) q (mem m)) m else m in
      let m := set_mem (alter (set_suffix 1) q (mem m)) m in
      Some (m, Some q, path)
  end.

Fixpoint trie_blice (st : Matcher * ptr * list byte) (blice : list byte)
  : option (Matcher * ptr * list byte) :=
  match blice with
  | [] => Some st
  | c :: rest => st ← trie_step st c; trie_blice st rest
  end.

Definition trie_entry (m : Matcher) (i : nat) (blice : list byte) : option Matcher :=
  '(m, n, _) ← trie_blice (m, m_root m, []) blice;
  a ← n; _ ← mem m !! a;
  let m := set_mem (alter (set_output true) a (mem m)) m in
  let m := set_mem (alter (set_index (Z.of_nat i)) a (mem m)) m in
  Some m.

Fixpoint trie_entries (m : Matcher) (i : nat) (dictionary : list (list byte))
  : option Matcher :=
  match dictionary with
  | [] => Some m
  | blice :: rest => m ← trie_entry m i blice; trie_entries m (S i) rest
  end.

(** *** buildTrie, second loop: breadth-first links (lines 173-204) *)

Fixpoint fail_loop (m : Matcher) (c : nat) (sufs : list (list byte)) : option Matcher :=
  match sufs with
  | [] => Some m
  | s :: rest =>
      r ← findBlice m s;
      let m := set_mem (alter (set_fail r) c (mem m)) m in
      if decide (r ≠ 0%Z) then Some m else fail_loop m c rest
  end.

Fixpoint suffix_loop (m : Matcher) (c : nat) (sufs : list (list byte)) : option Matcher :=
  match sufs with
  | [] => Some m
  | s :: rest =>
      si ← findBlice m s;
      if decide (si ≠ 0%Z)
      then p ← tableGet m si; sd ← deref (mem m) p;
           if output sd then Some (set_mem (alter (set_suffix si) c (mem m)) m)
           else suffix_loop m c rest
      else suffix_loop m c rest
  end.

Definition fix_links (m : Matcher) (c : nat) : option Matcher :=
  cd ← mem m !! c;
  m ← fail_loop m c (strict_suffixes (b cd));
  cd ← mem m !! c;
  let m := if decide (fail cd = 0%Z)
           then set_mem (alter (set_fail 1) c (mem m)) m else m in
  cd ← mem m !! c;
  suffix_loop m c (strict_suffixes (b cd)).

Fixpoint bfs_children (m : Matcher) (l : list ptr) (n : nat) (bytes : list byte)
  : option (Matcher * list ptr) :=
  match bytes with
  | [] => Some (m, l)
  | i :: rest =>
      nd ← mem m !! n;
      p ← tableGet m (getChild nd i);
      match p with
      | Some c =>
          m ← fix_links m c;
          bfs_children m (l ++ [p]) n rest
      | None => bfs_children m l n rest
      end
  end.

Fixpoint bfs (fuel : nat) (m : Matcher) (l : list ptr) : option Matcher :=
  match l with
  | [] => Some m
  | p :: l =>
      match fuel with
      | O => None
      | S fuel =>
          n ← p;
          '(m, l) ← bfs_children m l n all_bytes;
          bfs fuel m l
      end
  end.

(** *** buildTrie, third loop: the [fails] slices (lines 206-216) *)

(** [for n.getChild(c) == 0 && !n.root { j = n.fail; n = m.tableGet(j) }] *)
Fixpoint follow_fail (fuel : nat) (m : Matcher) (n : ptr) (j : Z) (c : byte) : option Z :=
  nd ← deref (mem m) n;
  if decide (getChild nd c = 0%Z) then
    if root nd then Some j
    else match fuel with
         | O => None
         | S fuel => n' ← tableGet m (fail nd); follow_fail fuel m n' (fail nd) c
         end
  else Some j.

(** [for c := 0; c < 256; c++], for the identifier [i]. *)
Fixpoint fails_bytes (m : Matcher) (i : Z) (bytes : list byte) : option Matcher :=
  match bytes with
  | [] => Some m
  | c :: rest =>
      n ← tableGet m i;
      j ← follow_fail (length (mem m)) m n i c;
      p ← tableGet m i; a ← p; _ ← mem m !! a;
      fails_bytes (set_mem (alter (setFails c j) a (mem m)) m) i rest
  end.

(** [for i := int32(1); i < m.tableSize; i++] *)
Fixpoint fails_nodes (m : Matcher) (ids : list Z) : option Matcher :=
  match ids with
  | [] => Some m
  | i :: rest => m ← fails_bytes m i all_bytes; fails_nodes m rest
  end.

(** The identifiers 1, 2, ..., [tableSize - 1]. *)
Definition node_ids (m : Matcher) : list Z :=
  Z.of_nat <$> seq 1 (Z.to_nat (tableSize m) - 1).

Definition buildTrie (m : Matcher) (dictionary : list (list byte)) : option Matcher :=
  let m := set_table [] m in
  let m := set_m_root (Some (length (mem m)))
             (set_mem (mem m ++ [set_root true zero_node]) m) in
  m ← tableSet m 0 None;
  m ← tableSet m 1 (m_root m);
  let m := set_tableSize 2 m in
  m ← trie_entries m 0 dictionary;
  m ← bfs (length (mem m)) m [m_root m];
  fails_nodes m (node_ids m).

(** [new(Matcher)] *)
Definition new_Matcher : Matcher := mkMatcher 0 None [] 0 [].

Definition NewMatcher (dictionary : list (list byte)) : option Matcher :=
  buildTrie new_Matcher dictionary.

(** [NewStringMatcher]: [d = append(d, []byte(s))] for every string, then
    [buildTrie(d)]. *)
Definition NewStringMatcher (dictionary : list string) : option Matcher :=
  let d := foldl (λ d s, d ++ [String.list_byte_of_string s]) [] dictionary in
  buildTrie new_Matcher d.

(** *** Match (lines 246-286) *)

(** [for !m.tableGet(f.suffix).root { ... }]; [cnt] is [m.counter] and [hp]
    the store that the call writes the counters to. *)
Fixpoint suffix_walk (fuel : nat) (m : Matcher) (cnt : Z) (hp : list node) (f : nat)
    (hits : list Z) : option (list node * list Z) :=
  fd ← hp !! f;
  sp ← tableGet m (suffix fd);
  sd ← deref hp sp;
  if root sd then Some (hp, hits)
  else match fuel with
       | O => None
       | S fuel =>
           s ← sp;
           if decide (counter sd ≠ cnt)
           then suffix_walk fuel m cnt (alter (set_counter cnt) s hp) s (hits ++ [index sd])
           else Some (hp, hits)
       end.

(** One iteration of [for _, b := range in]. *)
Definition match_byte (m : Matcher) (cnt : Z) (st : list node * ptr * list Z) (c : byte)
  : option (list node * ptr * list Z) :=
  let '(hp, n, hits) := st in
  nd ← deref hp n;
  n ← (if root nd then Some n
       else p ← tableGet m (getChild nd c);
            if p is None then tableGet m (getFails nd c) else Some n);
  nd ← deref hp n;
  f ← tableGet m (getChild nd c);
  match f with
  | Some fa =>
      fd ← hp !! fa;
      let '(hp, hits) :=
        if output fd && bool_decide (counter fd ≠ cnt)
        then (alter (set_counter cnt) fa hp, hits ++ [index fd])
        else (hp, hits) in
      '(hp, hits) ← suffix_walk (length hp) m cnt hp fa hits;
      Some (hp, Some fa, hits)
  | None => Some (hp, n, hits)
  end.

Fixpoint match_loop (m : Matcher) (cnt : Z) (st : list node * ptr * list Z) (input : list byte)
  : option (list node * ptr * list Z) :=
  match input with
  | [] => Some st
  | c :: rest => st ← match_byte m cnt st c; match_loop m cnt st rest
  end.

(** [Match]: the hits and the matcher as the call leaves it. *)
Definition Match (m : Matcher) (input : list byte) : option (list Z * Matcher) :=
  let cnt := wrap_int (m_counter m + 1) in
  '(hp, _, hits) ← match_loop m cnt (mem m, m_root m, []) input;
  Some (hits, set_mem hp (set_m_counter cnt m)).

End TableCounter.

(** * The first file of part_001 simulates the fixed-array version *)
Module CounterBuild.
Module F := FixedArray.
Module T := Table.
Module C := TableCounter.
Import FixedArrayTrie FixedArrayBuild FixedArrayInsert FixedArrayLinks FixedArrayBfs
       FixedArrayFails TableSim TableInsert TableBuild.

(** The table operations are those of the second file. *)
Lemma C_tableGet_tget m i : C.tableGet m i = tget (C.table m) i.
Proof. done. Qed.

Lemma C_tableSet_as_table m i v :
  C.tableSet m i v
  = (λ m', C.set_table (T.table m') m) <$> T.tableSet (T.mkMatcher None (C.table m) 0 []) i v.
Proof.
  unfold C.tableSet, T.tableSet. simpl T.table.
  change C.wrap_int32 with T.wrap_int32. change C.TABLE_WIDTH with T.TABLE_WIDTH.
  change (@C.at_index) with (@T.at_index).
  destruct (T.at_index _ _) as [row|]; [|done]. simpl.
  destruct (T.at_index row _); done.
Qed.

Lemma C_table_alloc t n m :
  table_ok t n → C.table m = t → (Z.of_nat n + 2 < 2 ^ 31)%Z →
  ∃ t', C.tableSet m (Z.of_nat n + 1) (Some n) = Some (C.set_table t' m) ∧ table_ok t' (S n).
Proof.
  intros Hok Ht Hlt.
  destruct (table_alloc t n (T.mkMatcher None (C.table m) 0 []) Hok Ht Hlt) as (t' & Hset & Hok').
  exists t'. by rewrite C_tableSet_as_table, Hset.
Qed.

(** A node of this version holds the identifiers of the pointers that the
    node of the fixed-array version at the same address holds; the [fails]
    slices are related apart, while they are being filled. *)
Definition cnode_rel (nd1 : F.node) (nd3 : C.node) : Prop :=
  C.b nd3 = F.b nd1 ∧ C.output nd3 = F.output nd1 ∧ C.index nd3 = F.index nd1 ∧
  (∀ c, C.getChild nd3 c = enc (F.child nd1 c)) ∧
  C.suffix nd3 = enc (F.suffix nd1) ∧ C.fail nd3 = enc (F.fail nd1) ∧
  C.root nd3 = F.root nd1 ∧ C.counter nd3 = F.counter nd1.

Record csim (hp : list F.node) (m : C.Matcher) : Prop := mkCsim {
  csim_root : C.m_root m = Some 0;
  csim_size : C.tableSize m = (Z.of_nat (length hp) + 1)%Z;
  csim_table : table_ok (C.table m) (length hp);
  csim_nodes : Forall2 cnode_rel hp (C.mem m);
  csim_counter : C.m_counter m = 0%Z
}.

Lemma csim_length hp m : csim hp m → length (C.mem m) = length hp.
Proof. intros H. symmetry. by eapply Forall2_length, csim_nodes. Qed.

Lemma csim_lookup hp m a nd1 :
  csim hp m → hp !! a = Some nd1 → ∃ nd3, C.mem m !! a = Some nd3 ∧ cnode_rel nd1 nd3.
Proof. intros H Ha. eapply Forall2_lookup_l; [by apply csim_nodes|done]. Qed.

Lemma csim_tableGet hp m p :
  csim hp m → ptr_valid (length hp) p → C.tableGet m (enc p) = Some p.
Proof. intros H Hp. rewrite C_tableGet_tget. by apply (tb_get _ _ (csim_table _ _ H)). Qed.

Lemma csim_alter hp m c (f : F.node → F.node) (g : C.node → C.node) :
  csim hp m → (∀ nd1 nd3, cnode_rel nd1 nd3 → cnode_rel (f nd1) (g nd3)) →
  csim (alter f c hp) (C.set_mem (alter g c (C.mem m)) m).
Proof.
  intros [H1 H2 H3 H4 H5] Hfg. split; simpl; rewrite ?length_alter; [done..| |done].
  apply Forall2_alter; [done|]. intros x y _ _. apply Hfg.
Qed.

Lemma csim_same hp hp' m : same_unfailed hp hp' → csim hp m → csim hp' m.
Proof.
  intros Hsu [H1 H2 H3 H4 H5]. pose proof (same_by_length _ _ _ Hsu) as Hl.
  split; rewrite <- ?Hl; [done..| |done].
  apply Forall2_same_length_lookup. split; [rewrite <- Hl; by eapply Forall2_length|].
  intros i nd' nd3 Hi' Hi3.
  destruct (same_by_lookup _ _ _ _ _ (same_by_sym _ _ _ Hsu) Hi') as (nd & Hi & Hk).
  apply unfailed_fields in Hk as (Hk & Hcn & Hs & Hf).
  apply skel_fields in Hk as (Hk%frame_fields & Ho & Hx). destruct Hk as (Hrt & Hb & Hc).
  pose proof (Forall2_lookup_lr _ _ _ _ _ _ H4 Hi Hi3) as (? & ? & ? & ? & ? & ? & ? & ?).
  split_and!; try congruence. all: intros c; rewrite Hc; done.
Qed.

Lemma cnode_rel_zero : cnode_rel F.zero_node C.zero_node.
Proof. done. Qed.

Lemma cgetChild_setChild c v nd c' :
  C.getChild (C.setChild c v nd) c' = if decide (c' = c) then v else C.getChild nd c'.
Proof. unfold C.getChild, C.setChild. simpl. destruct (C.child nd); by destruct (decide _). Qed.

Lemma csim_trie_step hp nodes n path c m hp' nodes' n' path' :
  shape hp → csim hp m → (Z.of_nat (length hp) + 2 < 2 ^ 31)%Z →
  F.trie_step (Some 0) (hp, nodes, Some n, path) c = Some (hp', nodes', n', path') →
  ∃ m', C.trie_step (m, Some n, path) c = Some (m', n', path') ∧ csim hp' m'.
Proof.
  intros Hsh Hsim Hlt H. unfold F.trie_step in H. simpl in H.
  apply bind_Some in H as (nd & Hn & H).
  destruct (csim_lookup hp m n nd Hsim Hn) as (nd3 & Hn3 & Hrel).
  pose proof Hrel as (Hb & Ho & Hi & Hc & Hs & Hf).
  unfold C.trie_step. simpl. rewrite Hn3, bind_some, Hc.
  rewrite (csim_tableGet hp m) by (done || by eapply shape_child_valid). rewrite bind_some.
  destruct (F.child nd c) as [q|] eqn:Hch.
  - simplify_eq. simpl. eauto.
  - simplify_eq. simpl.
    destruct Hsim as [S1 S2 S3 S4 S5].
    pose proof (Forall2_length _ _ _ S4) as Hlen.
    destruct (C_table_alloc (C.table m) (length hp)
                (C.set_mem (C.mem m ++ [C.zero_node]) m) S3 eq_refl Hlt) as (t' & Hset & Htok).
    simpl. rewrite S2, <- Hlen, Hset, bind_some. simpl. rewrite !S2.
    assert (n < length hp) as Hnlt by by eapply lookup_lt_Some.
    assert (Forall2 cnode_rel
              (alter (F.set_b (path ++ [c])) (length hp)
                 (alter (F.set_child c (Some (length hp))) n (hp ++ [F.zero_node])))
              (alter (C.set_b (path ++ [c])) (length hp)
                 (alter (C.setChild c (Z.of_nat (length hp) + 1)) n
                    (C.mem m ++ [C.zero_node])))) as Hbase.
    { apply Forall2_alter; [|by intros ?? _ _ (?&?&?&?&?&?&?&?)].
      apply Forall2_alter; [by apply Forall2_app; [|repeat constructor]|].
      intros x y _ _ (?&?&?&Hxc&?&?&?&?). split_and!; try done.
      intros c'. rewrite cgetChild_setChild. simpl. destruct (decide (c' = c)); [done|].
      apply Hxc. }
    destruct (decide (length (path ++ [c]) = 1)).
    all: eexists; split; [done|]; split; simpl.
    all: rewrite ?length_alter, ?length_app; simpl.
    1,5,6,10: done.
    1,4: rewrite wrap_int32_small; lia.
    1,3: by rewrite Nat.add_1_r.
    + apply Forall2_alter; [|by intros ?? _ _ (?&?&?&?&?&?&?&?)].
      apply Forall2_alter; [|by intros ?? _ _ (?&?&?&?&?&?&?&?)]. done.
    + apply Forall2_alter; [|by intros ?? _ _ (?&?&?&?&?&?&?&?)]. done.
Qed.

(** ** Insertion *)

Lemma C_trie_blice_cons st c rest :
  C.trie_blice st (c :: rest) = st' ← C.trie_step st c; C.trie_blice st' rest.
Proof. done. Qed.

Lemma csim_trie_blice bl : ∀ hp nodes n path D (P : list byte → Prop) m,
  building hp nodes D → node_at hp n path → within hp P →
  (∀ w, w `prefix_of` path ++ bl → P w) →
  csim hp m → (Z.of_nat (length hp + length bl) + 1 < 2 ^ 31)%Z →
  ∃ hp' nodes' n' m',
    F.trie_blice (Some 0) (hp, nodes, Some n, path) bl = Some (hp', nodes', Some n', path ++ bl) ∧
    C.trie_blice (m, Some n, path) bl = Some (m', Some n', path ++ bl) ∧ csim hp' m'.
Proof.
  induction bl as [|c bl IH]; intros hp nodes n path D P m Hbd Hn Hw HP Hsim Hlt.
  - exists hp, nodes, n, m. rewrite app_nil_r. done.
  - destruct (trie_step_spec hp nodes n path c D P) as (hp1 & nodes1 & n1 & Hstep & Hbd1 & Hn1 & Hw1 & Hl1);
      [done..| |].
    { apply HP. exists bl. by rewrite <- app_assoc. }
    destruct (csim_trie_step hp nodes n path c m _ _ _ _ (bd_shape _ _ _ Hbd) Hsim
                ltac:(simpl in Hlt; lia) Hstep) as (m1 & HstepT & Hsim1).
    destruct (IH hp1 nodes1 n1 (path ++ [c]) D P m1) as (hp2 & nodes2 & n2 & m2 & HF & HT & Hsim2);
      [done..| |done| |].
    { intros w Hpre. apply HP. by rewrite <- app_assoc in Hpre. }
    { simpl in Hlt. lia. }
    exists hp2, nodes2, n2, m2. rewrite trie_blice_cons, Hstep, C_trie_blice_cons, HstepT, !bind_some.
    rewrite <- app_assoc in HF, HT. done.
Qed.

Lemma csim_trie_entry hp nodes D blice m :
  building hp nodes D → within hp (is_path D) → csim hp m →
  (Z.of_nat (length hp + length blice) + 1 < 2 ^ 31)%Z →
  ∃ hp' nodes' m',
    F.trie_entry (Some 0) (hp, nodes) (length D) blice = Some (hp', nodes') ∧
    C.trie_entry m (length D) blice = Some m' ∧ csim hp' m'.
Proof.
  intros Hbd Hw Hsim Hlt.
  destruct (csim_trie_blice blice hp nodes 0 [] D (is_path (D ++ [blice])) m)
    as (hp1 & nodes1 & n & m1 & HF & HT & Hsim1); [done| | | |done..|].
  { apply node_at_root, Hbd. }
  { intros w Hp. apply is_path_snoc. left. by apply Hw. }
  { intros w Hp. apply is_path_snoc. by right. }
  destruct (trie_blice_spec blice hp nodes 0 [] D (is_path (D ++ [blice])))
    as (hp1' & nodes1' & n' & HF' & _ & (nd & Hn & _) & _); [done| | | |].
  { apply node_at_root, Hbd. }
  { intros w Hp. apply is_path_snoc. left. by apply Hw. }
  { intros w Hp. apply is_path_snoc. by right. }
  rewrite HF in HF'. simplify_eq.
  destruct (csim_lookup _ _ _ _ Hsim1 Hn) as (nd3 & Hn3 & _).
  eexists _, _, _. unfold F.trie_entry, C.trie_entry. cbv beta iota.
  rewrite HF, (csim_root _ _ Hsim), HT, !bind_some. simpl. rewrite Hn, Hn3. simpl.
  split_and!; [done..|].
  apply (csim_alter _ (C.set_mem _ m1)); [|by intros ?? (?&?&?&?&?&?&?&?)].
  apply csim_alter; [done|by intros ?? (?&?&?&?&?&?&?&?)].
Qed.

Lemma C_trie_entries_cons m i blice rest :
  C.trie_entries m i (blice :: rest) = m' ← C.trie_entry m i blice; C.trie_entries m' (S i) rest.
Proof. done. Qed.

Lemma csim_trie_entries D1 : ∀ hp nodes D0 m,
  building hp nodes D0 → within hp (is_path D0) → csim hp m →
  (Z.of_nat (length hp + total_length D1) + 1 < 2 ^ 31)%Z →
  ∃ hp' nodes' m',
    F.trie_entries (Some 0) (hp, nodes) (length D0) D1 = Some (hp', nodes') ∧
    C.trie_entries m (length D0) D1 = Some m' ∧ csim hp' m'.
Proof.
  induction D1 as [|blice D1 IH]; intros hp nodes D0 m Hbd Hw Hsim Hlt.
  - by exists hp, nodes, m.
  - assert (total_length (blice :: D1) = length blice + total_length D1) as Htl by done.
    destruct (csim_trie_entry hp nodes D0 blice m) as (hp1 & nodes1 & m1 & HF & HT & Hsim1);
      [done..|lia|].
    destruct (trie_entry_spec hp nodes D0 blice) as (hp1' & nodes1' & HF' & Hbd1 & Hw1 & Hl1);
      [done..|].
    rewrite HF in HF'. simplify_eq.
    destruct (IH hp1' nodes1' (D0 ++ [blice]) m1) as (hp2 & nodes2 & m2 & HF2 & HT2 & Hsim2);
      [done..|lia|].
    rewrite length_app, Nat.add_1_r in HF2, HT2.
    exists hp2, nodes2, m2.
    rewrite trie_entries_cons, HF, C_trie_entries_cons, HT, !bind_some. done.
Qed.

(** ** Links *)

Lemma C_findBlice_cons m n i c w :
  C.findBlice_loop m n i (c :: w) =
  match n with
  | None => Some i
  | Some a =>
      nd ← C.mem m !! a;
      n' ← C.tableGet m (C.getChild nd c);
      C.findBlice_loop m n' (C.getChild nd c) w
  end.
Proof. done. Qed.

Lemma csim_findBlice hp m w : shape hp → csim hp m → ∀ p r,
  ptr_valid (length hp) p → F.findBlice_loop hp p w = Some r →
  C.findBlice_loop m p (enc p) w = Some (enc r) ∧ ptr_valid (length hp) r.
Proof.
  intros Hsh Hsim. induction w as [|c w IH]; intros p r Hp H.
  - simpl in *. by simplify_eq.
  - simpl in H. rewrite C_findBlice_cons. destruct p as [a|]; [|by simplify_eq].
    apply bind_Some in H as (nd & Ha & H).
    destruct (csim_lookup _ _ _ _ Hsim Ha) as (nd3 & Ha3 & Hrel).
    pose proof Hrel as (_ & _ & _ & Hc & _).
    rewrite Ha3, bind_some, Hc.
    rewrite (csim_tableGet hp m) by (done || by eapply shape_child_valid). rewrite bind_some.
    apply IH; [|done]. by eapply shape_child_valid.
Qed.

Lemma csim_findBlice_root hp m w r :
  shape hp → csim hp m → F.findBlice_loop hp (Some 0) w = Some r →
  C.findBlice m w = Some (enc r) ∧ ptr_valid (length hp) r.
Proof.
  intros Hsh Hsim H. unfold C.findBlice. rewrite (csim_root _ _ Hsim).
  apply (csim_findBlice hp m w Hsh Hsim (Some 0) r); [|done].
  destruct (sh_root _ Hsh) as (rd & Hrd & _). by eapply lookup_lt_Some.
Qed.

Lemma csim_fail_loop c sufs : ∀ hp m hp',
  shape hp → csim hp m → F.fail_loop (Some 0) hp c sufs = Some hp' →
  ∃ m', C.fail_loop m c sufs = Some m' ∧ csim hp' m'.
Proof.
  induction sufs as [|s rest IH]; intros hp m hp' Hsh Hsim H.
  - simpl in *. simplify_eq. eauto.
  - rewrite fail_loop_cons in H. apply bind_Some in H as (r & Hr & H).
    destruct (csim_findBlice_root hp m s r Hsh Hsim Hr) as [HrT _].
    simpl C.fail_loop. rewrite HrT, bind_some.
    assert (csim (alter (F.set_fail r) c hp)
              (C.set_mem (alter (C.set_fail (enc r)) c (C.mem m)) m)) as Hsim1.
    { apply csim_alter; [done|]. by intros ?? (?&?&?&?&?&?&?&?). }
    destruct r as [a|].
    + simplify_eq. rewrite decide_True by (simpl; lia). eauto.
    + rewrite decide_False by (simpl; lia).
      apply (IH (alter (F.set_fail None) c hp)); [|done..].
      eapply shape_same; [|done]. by apply same_by_alter.
Qed.

Lemma csim_suffix_loop c sufs hp m hp' :
  shape hp → csim hp m → F.suffix_loop (Some 0) hp c sufs = Some hp' →
  ∃ m', C.suffix_loop m c sufs = Some m' ∧ csim hp' m'.
Proof.
  intros Hsh Hsim. induction sufs as [|s rest IH]; intros H.
  - simpl in *. simplify_eq. eauto.
  - simpl in H. apply bind_Some in H as (r & Hr & H).
    destruct (csim_findBlice_root hp m s r Hsh Hsim Hr) as [HrT Hrv].
    simpl C.suffix_loop. rewrite HrT, bind_some.
    destruct r as [a|].
    + apply bind_Some in H as (sd & Hs & H).
      destruct (csim_lookup _ _ _ _ Hsim Hs) as (sd3 & Hs3 & Hrel).
      pose proof Hrel as (_ & Ho & _).
      rewrite decide_True by (simpl; lia).
      rewrite (csim_tableGet hp m (Some a)) by done. rewrite bind_some. simpl.
      rewrite Hs3, bind_some, Ho. destruct (F.output sd); [|by apply IH].
      simplify_eq. eexists. split; [done|].
      apply csim_alter; [done|]. by intros ?? (?&?&?&?&?&?&?&?).
    + rewrite decide_False by (simpl; lia). by apply IH.
Qed.

Lemma csim_fix_links hp m c hp' :
  shape hp → csim hp m → F.fix_links (Some 0) hp c = Some hp' →
  ∃ m', C.fix_links m c = Some m' ∧ csim hp' m' ∧ same_unlinked hp hp'.
Proof.
  intros Hsh Hsim H. unfold F.fix_links in H.
  apply bind_Some in H as (cd & Hc & H). apply bind_Some in H as (hp1 & Hfl & H).
  apply bind_Some in H as (cd1 & Hc1 & H). apply bind_Some in H as (cd2 & Hc2 & H).
  pose proof (F_fail_loop_frame _ _ _ _ Hfl) as Hfr1.
  assert (shape hp1) as Hsh1.
  { eapply shape_same; [|done]. by apply same_trie_frame, same_unlinked_trie. }
  destruct (csim_lookup _ _ _ _ Hsim Hc) as (cd3 & Hc3 & (Hb & _)).
  destruct (csim_fail_loop c _ hp m hp1 Hsh Hsim Hfl) as (m1 & HflT & Hsim1).
  destruct (csim_lookup _ _ _ _ Hsim1 Hc1) as (cd13 & Hc13 & (_ & _ & _ & _ & _ & Hf1 & _)).
  set (hp2 := if F.fail cd1 is None then alter (F.set_fail (Some 0)) c hp1 else hp1) in *.
  set (m2 := if decide (C.fail cd13 = 0%Z)
             then C.set_mem (alter (C.set_fail 1) c (C.mem m1)) m1 else m1).
  assert (csim hp2 m2 ∧ same_unlinked hp1 hp2) as [Hsim2 Hfr2].
  { unfold hp2, m2. rewrite Hf1. destruct (F.fail cd1) as [x|]; simpl.
    - rewrite decide_False by lia. done.
    - split; [|by apply same_by_alter].
      apply csim_alter; [done|]. by intros ?? (?&?&?&?&?&?&?&?). }
  assert (shape hp2) as Hsh2.
  { eapply shape_same; [|exact Hsh1]. by apply same_trie_frame, same_unlinked_trie. }
  destruct (csim_lookup _ _ _ _ Hsim2 Hc2) as (cd23 & Hc23 & (Hb2 & _)).
  destruct (csim_suffix_loop c _ hp2 m2 hp' Hsh2 Hsim2 H) as (m3 & HslT & Hsim3).
  exists m3. unfold C.fix_links. rewrite Hc3, bind_some, Hb, HflT, bind_some, Hc13, bind_some.
  fold m2. rewrite Hc23, bind_some, Hb2. split_and!; [done..|].
  eapply same_by_trans; [done|]. eapply same_by_trans; [done|].
  by eapply F_suffix_loop_frame.
Qed.

Lemma C_bfs_children_cons m l n i rest :
  C.bfs_children m l n (i :: rest) =
  nd ← C.mem m !! n;
  p ← C.tableGet m (C.getChild nd i);
  match p with
  | Some c => m' ← C.fix_links m c; C.bfs_children m' (l ++ [p]) n rest
  | None => C.bfs_children m l n rest
  end.
Proof. done. Qed.

Lemma csim_bfs_children n bytes : ∀ hp m l hp' l',
  shape hp → csim hp m → F.bfs_children (Some 0) hp l n bytes = Some (hp', l') →
  ∃ m', C.bfs_children m l n bytes = Some (m', l') ∧ csim hp' m' ∧ same_unlinked hp hp'.
Proof.
  induction bytes as [|i rest IH]; intros hp m l hp' l' Hsh Hsim H.
  - simpl in *. simplify_eq. exists m. split_and!; [done|done|apply same_by_refl].
  - rewrite bfs_children_cons in H. apply bind_Some in H as (nd & Hn & H).
    destruct (csim_lookup _ _ _ _ Hsim Hn) as (nd3 & Hn3 & (_ & _ & _ & Hc & _)).
    rewrite C_bfs_children_cons, Hn3, bind_some, Hc.
    rewrite (csim_tableGet hp m) by (done || by eapply shape_child_valid). rewrite bind_some.
    destruct (F.child nd i) as [c|]; [|by apply IH].
    apply bind_Some in H as (hp1 & Hfix & H).
    destruct (csim_fix_links hp m c hp1 Hsh Hsim Hfix) as (m1 & HfixT & Hsim1 & Hfr1).
    rewrite HfixT, bind_some.
    destruct (IH hp1 m1 (l ++ [Some c]) hp' l') as (m' & HT & Hsim' & Hfr'); [|done..|].
    { eapply shape_same; [|done]. by apply same_trie_frame, same_unlinked_trie. }
    exists m'. split_and!; [done..|]. by eapply same_by_trans.
Qed.

Lemma C_bfs_cons fuel m p l :
  C.bfs (S fuel) m (p :: l) =
  n ← p; '(m', l') ← C.bfs_children m l n all_bytes; C.bfs fuel m' l'.
Proof. done. Qed.

Lemma csim_bfs fuel : ∀ hp m l hp',
  shape hp → csim hp m → F.bfs fuel (Some 0) hp l = Some hp' →
  ∃ m', C.bfs fuel m l = Some m' ∧ csim hp' m'.
Proof.
  induction fuel as [|fuel IH]; intros hp m l hp' Hsh Hsim H.
  - destruct l; simpl in *; simplify_eq. eauto.
  - destruct l as [|p l]; [simpl in *; simplify_eq; eauto|].
    rewrite bfs_cons in H. apply bind_Some in H as (n & -> & H).
    apply bind_Some in H as ([hp1 l1] & Hch & H).
    destruct (csim_bfs_children n all_bytes hp m l hp1 l1 Hsh Hsim Hch) as (m1 & HT & Hsim1 & Hfr).
    rewrite C_bfs_cons, bind_some, HT, bind_some. apply (IH hp1); [|done..].
    eapply shape_same; [|done]. by apply same_trie_frame, same_unlinked_trie.
Qed.

End CounterBuild.

(** * The [fails] slices and [NewMatcher] of the first file of part_001 *)
Module CounterFails.
Module F := FixedArray.
Module C := TableCounter.
Import FixedArrayTrie FixedArrayBuild FixedArrayInsert FixedArrayLinks FixedArrayBfs
       FixedArrayFails TableSim TableInsert TableBuild CounterBuild.

(** The entries of the [fails] slices that are filled so far, [P] telling
    which, hold the identifiers of the [fails] pointers of the fixed-array
    version. *)
Definition fails_rel (P : nat → byte → Prop) (hp : list F.node) (mem : list C.node) : Prop :=
  ∀ a nd1 nd3 c, P a c → hp !! a = Some nd1 → mem !! a = Some nd3 →
                 C.getFails nd3 c = enc (F.fails nd1 c).

Lemma cgetFails_setFails c v nd c' :
  C.getFails (C.setFails c v nd) c' = if decide (c' = c) then v else C.getFails nd c'.
Proof. unfold C.getFails, C.setFails. simpl. destruct (C.fails nd); by destruct (decide _). Qed.

Lemma cgetChild_setFails c v nd c' : C.getChild (C.setFails c v nd) c' = C.getChild nd c'.
Proof. done. Qed.

Lemma cnode_rel_set_fails c r v nd1 nd3 :
  cnode_rel nd1 nd3 → cnode_rel (F.set_fails c r nd1) (C.setFails c v nd3).
Proof. by intros (?&?&?&?&?&?&?&?). Qed.

Lemma shape_root_flag hp a nd : shape hp → hp !! a = Some nd → F.root nd = false → a ≠ 0.
Proof.
  intros Hsh Ha Hr ->. destruct (sh_root _ Hsh) as (rd & Hrd & Hrr & _). simplify_eq. congruence.
Qed.

Lemma linked_fail_valid hp a nd :
  all_linked hp → hp !! a = Some nd → a ≠ 0 → ptr_valid (length hp) (F.fail nd).
Proof.
  intros Hall Ha Ha0. destruct (Hall a nd Ha Ha0) as [(r & rd & Hf & Hr & _) _].
  rewrite Hf. simpl. by eapply lookup_lt_Some.
Qed.

Lemma linked_suffix_valid hp a nd :
  all_linked hp → hp !! a = Some nd → a ≠ 0 → ptr_valid (length hp) (F.suffix nd).
Proof.
  intros Hall Ha Ha0. destruct (Hall a nd Ha Ha0) as [_ (r & rd & Hf & Hr & _)].
  rewrite Hf. simpl. by eapply lookup_lt_Some.
Qed.

Lemma C_follow_fail_eq fuel m n j c :
  C.follow_fail fuel m n j c =
  nd ← C.deref (C.mem m) n;
  if decide (C.getChild nd c = 0%Z) then
    if C.root nd then Some j
    else match fuel with
         | O => None
         | S fuel => n' ← C.tableGet m (C.fail nd); C.follow_fail fuel m n' (C.fail nd) c
         end
  else Some j.
Proof. by destruct fuel. Qed.

(** The loop [for n.getChild(c) == 0 && !n.root] ends with the identifier
    of the node that the loop of the fixed-array version ends at. *)
Lemma csim_follow_fail hp m c :
  shape hp → all_linked hp → csim hp m →
  ∀ fuel n r, F.follow_fail fuel hp n c = Some r →
              C.follow_fail fuel m n (enc n) c = Some (enc r).
Proof.
  intros Hsh Hall Hsim.
  induction fuel as [|fuel IH]; intros n r H.
  all: rewrite follow_fail_eq in H; rewrite C_follow_fail_eq.
  all: destruct n as [a|]; [|done]; simpl in H |- *.
  all: apply bind_Some in H as (nd & Ha & H).
  all: destruct (csim_lookup hp m a nd Hsim Ha) as (nd3 & Ha3 & Hrel).
  all: pose proof Hrel as (_ & _ & _ & Hc & _ & Hf & Hrt & _).
  all: rewrite Ha3, bind_some, Hc, Hrt.
  all: destruct (F.child nd c) as [q|] eqn:Hch; simpl.
  all: try (rewrite decide_False by lia; by simplify_eq).
  all: rewrite ?decide_True by done.
  all: destruct (F.root nd) eqn:Hroot; [by simplify_eq|].
  - done.
  - rewrite Hf, (csim_tableGet hp m _ Hsim), bind_some.
    + by apply IH.
    + eapply linked_fail_valid; [done..|]. by eapply shape_root_flag.
Qed.

Lemma C_fails_bytes_cons m i c rest :
  C.fails_bytes m i (c :: rest) =
  n ← C.tableGet m i;
  j ← C.follow_fail (length (C.mem m)) m n i c;
  p ← C.tableGet m i; a ← p; _ ← C.mem m !! a;
  C.fails_bytes (C.set_mem (alter (C.setFails c j) a (C.mem m)) m) i rest.
Proof. done. Qed.

(** The inner loop, for the node at address [i], whose identifier is
    [i + 1]. *)
Lemma csim_fails_bytes i nodes bytes : ∀ hp m hp' (P : nat → byte → Prop),
  shape hp → all_linked hp → csim hp m → fails_rel P hp (C.mem m) →
  nodes = Some <$> seq 0 (length hp) → i < length hp →
  F.fails_bytes hp nodes i bytes = Some hp' →
  ∃ m', C.fails_bytes m (Z.of_nat i + 1) bytes = Some m' ∧ csim hp' m' ∧
        same_unfailed hp hp' ∧
        fails_rel (λ a c, P a c ∨ (a = i ∧ c ∈ bytes)) hp' (C.mem m').
Proof.
  induction bytes as [|c rest IH]; intros hp m hp' P Hsh Hall Hsim Hrel Hnodes Hi H.
  - simpl in H. simplify_eq. exists m. split_and!; [done|done|done|].
    intros a nd1 nd3 c [Hp|[_ Hc]]; [by apply Hrel|by apply elem_of_nil in Hc].
  - rewrite fails_bytes_cons in H.
    assert (nodes !! i = Some (Some i)) as Hni.
    { rewrite Hnodes, list_lookup_fmap, lookup_seq_lt by done. done. }
    rewrite Hni, bind_some in H.
    apply bind_Some in H as (r & Hff & H). rewrite !bind_some in H.
    apply bind_Some in H as (nd & Hnd & H).
    destruct (csim_lookup hp m i nd Hsim Hnd) as (nd3 & Hnd3 & Hndrel).
    rewrite C_fails_bytes_cons.
    change (Z.of_nat i + 1)%Z with (enc (Some i)).
    rewrite (csim_tableGet hp m (Some i)) by done. rewrite bind_some.
    rewrite (csim_length hp m Hsim), (csim_follow_fail hp m c Hsh Hall Hsim _ _ _ Hff).
    rewrite !bind_some, Hnd3, bind_some.
    set (hp1 := alter (F.set_fails c r) i hp) in *.
    set (m1 := C.set_mem (alter (C.setFails c (enc r)) i (C.mem m)) m).
    assert (same_unfailed hp hp1) as Hsu by by apply same_by_alter.
    pose proof (same_trie_frame _ _ (same_unfailed_trie _ _ Hsu)) as Hsf.
    destruct (IH hp1 m1 hp' (λ a c', P a c' ∨ (a = i ∧ c' = c)))
      as (m' & Hrest & Hsim' & Hsu' & Hrel').
    + by eapply shape_same.
    + by eapply all_linked_same.
    + apply csim_alter; [done|]. intros. by apply cnode_rel_set_fails.
    + intros a x1 x3 c' Hp Hx1 Hx3. unfold hp1 in Hx1. simpl in Hx3.
      destruct (decide (a = i)) as [->|Hne].
      * rewrite list_lookup_alter_eq, Hnd in Hx1. rewrite list_lookup_alter_eq, Hnd3 in Hx3.
        simplify_eq/=. rewrite cgetFails_setFails.
        destruct (decide (c' = c)) as [->|Hc']; [done|].
        destruct Hp as [Hp|[_ ?]]; [|done]. by apply (Hrel i).
      * rewrite list_lookup_alter_ne in Hx1 by done.
        rewrite list_lookup_alter_ne in Hx3 by done.
        destruct Hp as [Hp|[? _]]; [|done]. by apply (Hrel a).
    + unfold hp1. by rewrite length_alter.
    + unfold hp1. by rewrite length_alter.
    + done.
    + exists m'. split_and!; [done|done|by eapply same_by_trans|].
      intros a x1 x3 c' Hp. apply Hrel'.
      destruct Hp as [Hp|[-> Hc']]; [by left; left|].
      apply elem_of_cons in Hc' as [->|Hc']; [by left; right|by right].
Qed.

Lemma C_fails_nodes_cons m i rest :
  C.fails_nodes m (i :: rest) = m' ← C.fails_bytes m i all_bytes; C.fails_nodes m' rest.
Proof. done. Qed.

(** The outer loop, over the addresses [ixs]. *)
Lemma csim_fails_nodes nodes ixs : ∀ hp m hp' (P : nat → byte → Prop),
  shape hp → all_linked hp → csim hp m → fails_rel P hp (C.mem m) →
  nodes = Some <$> seq 0 (length hp) → (∀ i, i ∈ ixs → i < length hp) →
  F.fails_nodes hp nodes ixs = Some hp' →
  ∃ m', C.fails_nodes m ((λ a, Z.of_nat a + 1)%Z <$> ixs) = Some m' ∧ csim hp' m' ∧
        same_unfailed hp hp' ∧
        fails_rel (λ a c, P a c ∨ a ∈ ixs) hp' (C.mem m').
Proof.
  induction ixs as [|i rest IH]; intros hp m hp' P Hsh Hall Hsim Hrel Hnodes Hbound H.
  - simpl in H. simplify_eq. exists m. split_and!; [done|done|done|].
    intros a nd1 nd3 c [Hp|Hc]; [by apply Hrel|by apply elem_of_nil in Hc].
  - rewrite fails_nodes_cons in H. apply bind_Some in H as (hp1 & Hbytes & H).
    destruct (csim_fails_bytes i nodes all_bytes hp m hp1 P)
      as (m1 & Hbytes' & Hsim1 & Hsu & Hrel1); [done..|by apply Hbound; left|done|].
    rewrite fmap_cons, C_fails_nodes_cons, Hbytes', bind_some.
    pose proof (same_trie_frame _ _ (same_unfailed_trie _ _ Hsu)) as Hsf.
    destruct (IH hp1 m1 hp' (λ a c, P a c ∨ (a = i ∧ c ∈ all_bytes)))
      as (m' & Hrest & Hsim' & Hsu' & Hrel'); [..|done|].
    + by eapply shape_same.
    + by eapply all_linked_same.
    + done.
    + done.
    + by rewrite <- (same_by_length _ _ _ Hsu).
    + intros j Hj. rewrite <- (same_by_length _ _ _ Hsu). apply Hbound. by right.
    + exists m'. split_and!; [done|done|by eapply same_by_trans|].
      intros a x1 x3 c Hp. apply Hrel'.
      destruct Hp as [Hp|Hin]; [by left; left|].
      apply elem_of_cons in Hin as [->|Hin]; [|by right].
      left. right. split; [done|]. apply elem_of_all_bytes.
Qed.

Lemma node_ids_seq hp m :
  csim hp m → C.node_ids m = (λ a, Z.of_nat a + 1)%Z <$> seq 0 (length hp).
Proof.
  intros Hsim. unfold C.node_ids. rewrite (csim_size _ _ Hsim).
  replace (Z.to_nat (Z.of_nat (length hp) + 1) - 1) with (length hp) by lia.
  rewrite <- fmap_S_seq, <- list_fmap_compose. apply list_fmap_ext. intros _ a _. simpl. lia.
Qed.

(** ** The matcher that [NewMatcher] returns *)

(** The matcher before the first loop: the root alone, at identifier 1. *)
Definition cinit_Matcher : C.Matcher :=
  C.mkMatcher 0 (Some 0) [<[1 := Some 0]> (replicate 1024 None)] 2 [C.set_root true C.zero_node].

Lemma cinit_tableSet_0 :
  C.tableSet (C.mkMatcher 0 (Some 0) [] 0 [C.set_root true C.zero_node]) 0 None
  = Some (C.mkMatcher 0 (Some 0) [replicate 1024 None] 0 [C.set_root true C.zero_node]).
Proof. vm_compute. reflexivity. Qed.

Lemma cinit_tableSet_1 :
  C.tableSet (C.mkMatcher 0 (Some 0) [replicate 1024 None] 0 [C.set_root true C.zero_node])
             1 (Some 0)
  = Some (C.mkMatcher 0 (Some 0) [<[1 := Some 0]> (replicate 1024 None)] 0
            [C.set_root true C.zero_node]).
Proof. vm_compute. reflexivity. Qed.

Lemma csim_init : csim [F.set_root true F.zero_node] cinit_Matcher.
Proof.
  split.
  - done.
  - done.
  - split.
    + intros [|r] row Hr; [|done]. apply (inj Some) in Hr as <-.
      by rewrite length_insert, length_replicate.
    + done.
    + intros [a|] Hp; simpl in Hp.
      * assert (a = 0) as -> by lia. vm_compute. reflexivity.
      * vm_compute. reflexivity.
    + done.
  - repeat constructor; done.
  - done.
Qed.

Lemma C_NewMatcher_eq D :
  C.NewMatcher D =
  m ← C.trie_entries cinit_Matcher 0 D;
  m ← C.bfs (length (C.mem m)) m [C.m_root m];
  C.fails_nodes m (C.node_ids m).
Proof.
  unfold C.NewMatcher, C.buildTrie, C.new_Matcher.
  change (C.set_m_root _ (C.set_mem _ (C.set_table _ _)))
    with (C.mkMatcher 0 (Some 0) [] 0 [C.set_root true C.zero_node]).
  rewrite cinit_tableSet_0, bind_some.
  change (C.m_root (C.mkMatcher 0 (Some 0) [replicate 1024 None] 0
                      [C.set_root true C.zero_node])) with (Some 0).
  rewrite cinit_tableSet_1, bind_some. done.
Qed.

(** [NewMatcher] of this version builds the automaton of the fixed-array
    version, with every entry of the [fails] slices filled. *)
Lemma counter_NewMatcher D :
  (Z.of_nat (total_length D) + 2 < 2 ^ 31)%Z →
  ∃ hp m, F.NewMatcher D = Some (F.mkMatcher 0 (Some 0) hp) ∧ C.NewMatcher D = Some m ∧
          csim hp m ∧ fails_rel (λ _ _, True) hp (C.mem m) ∧ automaton hp D.
Proof.
  intros Hlt. destruct (NewMatcher_spec D) as (hp & Hnew & Hau & _).
  pose proof Hnew as Hnew'. unfold F.NewMatcher, F.buildTrie in Hnew'.
  apply bind_Some in Hnew' as ([hp1 nodes1] & Hins & Hnew').
  apply bind_Some in Hnew' as (hp2 & Hbfs & Hnew').
  apply bind_Some in Hnew' as (hp3 & Hfails & Hnew').
  assert (hp3 = hp) as -> by congruence. clear Hnew'.
  destruct (csim_trie_entries D _ _ [] cinit_Matcher building_init within_init csim_init)
    as (hp1' & nodes1' & m1 & Hins' & HinsC & Hsim1); [simpl; lia|].
  destruct (trie_entries_spec D _ _ [] building_init within_init)
    as (hp1'' & nodes1'' & Hins'' & Hbd & _).
  change (length []) with 0 in *. change ([] ++ D) with D in Hbd.
  assert (hp1' = hp1 ∧ nodes1' = nodes1) as [-> ->] by (split; congruence).
  assert (hp1'' = hp1 ∧ nodes1'' = nodes1) as [-> ->] by (split; congruence).
  pose proof (bd_shape _ _ _ Hbd) as Hsh1.
  destruct (csim_bfs _ _ _ _ _ Hsh1 Hsim1 Hbfs) as (m2 & HbfsC & Hsim2).
  destruct (bfs_links _ _ _ Hbd) as (hp2' & Hbfs' & Hsu & Hall).
  assert (hp2' = hp2) as -> by congruence.
  pose proof (bd_nodes _ _ _ Hbd) as Hnodes.
  pose proof (same_by_length _ _ _ Hsu) as Hlen.
  rewrite Hnodes, length_fmap, length_seq, Hlen in Hfails.
  destruct (csim_fails_nodes nodes1 (seq 0 (length hp2)) hp2 m2 hp (λ _ _, False))
    as (m3 & HfailsC & Hsim3 & Hsu3 & Hrel3).
  { eapply shape_same; [|done]. by apply same_trie_frame, same_unlinked_trie. }
  { done. }
  { done. }
  { by intros ? ? ? ? []. }
  { by rewrite <- Hlen. }
  { intros i Hi. apply elem_of_seq in Hi. lia. }
  { by rewrite Hnodes, Hlen. }
  exists hp, m3. split_and!; [done| |done| |done].
  - rewrite C_NewMatcher_eq, HinsC, bind_some, (csim_length _ _ Hsim1), (csim_root _ _ Hsim1).
    rewrite HbfsC, bind_some, (node_ids_seq hp2 m2 Hsim2). done.
  - intros a nd1 nd3 c _ Ha1 Ha3. apply (Hrel3 a nd1 nd3 c); [|done..].
    right. apply elem_of_seq. apply lookup_lt_Some in Ha1.
    pose proof (same_by_length _ _ _ Hsu3). lia.
Qed.

End CounterFails.

(** * [Match] of the first file of part_001 *)
Module CounterMatch.
Module F := FixedArray.
Module C := TableCounter.
Import FixedArrayTrie FixedArrayBuild FixedArrayInsert FixedArrayLinks FixedArrayBfs
       FixedArrayFails FixedArrayGoto FixedArrayScan FixedArrayMatch TableSim TableInsert TableBuild
       CounterBuild CounterFails.

(** The stores of the two versions during the calls of [Match]: the
    fixed-array store holds the automaton of [D], the table [t] gives the
    node of every identifier, and the nodes at the same address hold the
    same fields, identifiers standing for pointers. *)
Record cstores (D : list (list byte)) (t : list (list ptr))
    (hF : list F.node) (hC : list C.node) : Prop := mkCstores {
  cs_auto : automaton hF D;
  cs_table : table_ok t (length hF);
  cs_nodes : Forall2 cnode_rel hF hC;
  cs_fails : fails_rel (λ _ _, True) hF hC
}.

Definition cmatcher_rel (D : list (list byte)) (mF : F.Matcher) (mC : C.Matcher) : Prop :=
  C.m_counter mC = F.m_counter mF ∧ F.m_root mF = Some 0 ∧ C.m_root mC = Some 0 ∧
  cstores D (C.table mC) (F.mem mF) (C.mem mC).

Definition cwalk_rel D t (rF : list F.node * list Z) (rC : list C.node * list Z) : Prop :=
  cstores D t rF.1 rC.1 ∧ rF.2 = rC.2.

Definition cscan_rel D t (rF : list F.node * ptr * list Z) (rC : list C.node * ptr * list Z)
  : Prop :=
  cstores D t rF.1.1 rC.1.1 ∧ rF.1.2 = rC.1.2 ∧ rF.2 = rC.2.

Definition cresult_rel D (rF : list Z * F.Matcher) (rC : list Z * C.Matcher) : Prop :=
  rF.1 = rC.1 ∧ cmatcher_rel D rF.2 rC.2.

Section scan.
Context (D : list (list byte)) (m : C.Matcher) (cnt : Z).

Lemma cstores_get hF hC p :
  cstores D (C.table m) hF hC → ptr_valid (length hF) p → C.tableGet m (enc p) = Some p.
Proof. intros H Hp. rewrite C_tableGet_tget. by apply (tb_get _ _ (cs_table _ _ _ _ H)). Qed.

Lemma cstores_lookup hF hC i :
  cstores D (C.table m) hF hC →
  option_Forall2 (λ x y, cnode_rel x y ∧ hF !! i = Some x ∧ hC !! i = Some y)
                 (hF !! i) (hC !! i).
Proof.
  intros H. pose proof (proj1 (Forall2_lookup _ _ _) (cs_nodes _ _ _ _ H) i) as Hi.
  destruct (hF !! i), (hC !! i); inversion Hi; by constructor.
Qed.

Lemma cstores_mark hF hC s :
  cstores D (C.table m) hF hC →
  cstores D (C.table m) (alter (F.set_counter cnt) s hF) (alter (C.set_counter cnt) s hC).
Proof.
  intros [H1 H2 H3 H4]. split.
  - eapply automaton_same; [apply (stamps_mark cnt)|done].
  - by rewrite length_alter.
  - apply Forall2_alter; [done|]. by intros x y _ _ (?&?&?&?&?&?&?&?).
  - intros a nd1 nd3 c _ Ha1 Ha3. destruct (decide (a = s)) as [->|Hne].
    + rewrite list_lookup_alter_eq in Ha1. rewrite list_lookup_alter_eq in Ha3.
      destruct (hF !! s) as [x1|] eqn:Hx1; [|done].
      destruct (hC !! s) as [x3|] eqn:Hx3; [|done].
      simpl in Ha1, Ha3. simplify_eq. by apply (H4 s x1 x3 c).
    + rewrite list_lookup_alter_ne in Ha1 by done.
      rewrite list_lookup_alter_ne in Ha3 by done. by apply (H4 a).
Qed.

Lemma child_nonroot hp a nd c q : shape hp → hp !! a = Some nd → F.child nd c = Some q → q ≠ 0.
Proof.
  intros Hsh Ha Hc ->. destruct (sh_child _ Hsh a nd c 0 Ha Hc) as (qd & Hq & Hb).
  destruct (sh_root _ Hsh) as (rd & Hr & _ & Hrb). simplify_eq. rewrite Hrb in Hb.
  by destruct (F.b nd).
Qed.

Lemma fails_valid hp a nd c :
  automaton hp D → hp !! a = Some nd → ptr_valid (length hp) (F.fails nd c).
Proof.
  intros Hau Ha. destruct (au_fails _ _ Hau a nd Ha c) as (r & -> & rd & Hr & _).
  simpl. by eapply lookup_lt_Some.
Qed.

Lemma C_suffix_walk_step fuel hp f hits :
  C.suffix_walk fuel m cnt hp f hits =
  fd ← hp !! f;
  sp ← C.tableGet m (C.suffix fd);
  sd ← C.deref hp sp;
  if C.root sd then Some (hp, hits)
  else match fuel with
       | O => None
       | S fuel =>
           s ← sp;
           if decide (C.counter sd ≠ cnt)
           then C.suffix_walk fuel m cnt (alter (C.set_counter cnt) s hp) s
                  (hits ++ [C.index sd])
           else Some (hp, hits)
       end.
Proof. by destruct fuel. Qed.

(** The walk up the suffix links, from a node other than the root. *)
Lemma csuffix_walk_lockstep fuel : ∀ hF hC f hits,
  cstores D (C.table m) hF hC → f ≠ 0 →
  option_Forall2 (cwalk_rel D (C.table m))
    (F.suffix_walk fuel cnt hF f hits) (C.suffix_walk fuel m cnt hC f hits).
Proof.
  induction fuel as [|fuel IH]; intros hF hC f hits H Hf0.
  all: rewrite ArenaLockstep.F_suffix_walk_step, C_suffix_walk_step.
  all: pose proof (au_shape _ _ (cs_auto _ _ _ _ H)) as Hsh.
  all: pose proof (au_linked _ _ (cs_auto _ _ _ _ H)) as Hall.
  all: eapply ArenaLockstep.rel_bind; [by apply cstores_lookup|].
  all: intros fdF fdC (Hf & HfF & HfC).
  all: pose proof Hf as (_ & _ & _ & _ & -> & _).
  all: rewrite (cstores_get hF hC) by (done || by eapply linked_suffix_valid).
  all: rewrite bind_some.
  all: destruct (F.suffix fdF) as [s|]; [simpl|constructor].
  all: eapply ArenaLockstep.rel_bind; [by apply cstores_lookup|].
  all: intros sdF sdC (Hs & HsF & HsC).
  all: pose proof Hs as (_ & _ & Hi & _ & _ & _ & -> & Hc).
  all: destruct (F.root sdF) eqn:Hroot; [by constructor|].
  - constructor.
  - rewrite Hc, Hi. destruct (decide (F.counter sdF ≠ cnt)); [|by constructor].
    apply IH; [by apply cstores_mark|]. by eapply shape_root_flag.
Qed.

(** One byte of the input. *)
Lemma cmatch_byte_lockstep c stF stC :
  cscan_rel D (C.table m) stF stC →
  option_Forall2 (cscan_rel D (C.table m)) (F.match_byte cnt stF c) (C.match_byte m cnt stC c).
Proof.
  destruct stF as [[hF n] hits], stC as [[hC n'] hits']. intros (H & Hn & Hh).
  simpl in H, Hn, Hh. subst n' hits'. unfold F.match_byte, C.match_byte.
  pose proof (cs_auto _ _ _ _ H) as Hau. pose proof (au_shape _ _ Hau) as Hsh.
  destruct n as [a|]; [simpl|constructor].
  eapply ArenaLockstep.rel_bind; [by apply cstores_lookup|].
  intros ndF ndC (Hrel & HaF & HaC).
  pose proof Hrel as (_ & _ & _ & Hch & _ & _ & Hrt & _).
  set (n1 := if negb (F.root ndF) && bool_decide (F.child ndF c = None)
             then F.fails ndF c else Some a).
  assert ((if C.root ndC then Some (Some a)
           else p ← C.tableGet m (C.getChild ndC c);
                if p is None then C.tableGet m (C.getFails ndC c) else Some (Some a))
          = Some n1) as ->.
  { unfold n1. rewrite Hrt, Hch. destruct (F.root ndF); [done|].
    rewrite (cstores_get hF hC) by (done || by eapply shape_child_valid).
    rewrite bind_some. destruct (F.child ndF c) as [q|]; [done|]. simpl.
    rewrite (cs_fails _ _ _ _ H a ndF ndC c I HaF HaC).
    apply (cstores_get hF hC); [done|]. by eapply fails_valid. }
  rewrite bind_some.
  destruct n1 as [a1|]; [simpl|constructor].
  eapply ArenaLockstep.rel_bind; [by apply cstores_lookup|].
  intros ndF1 ndC1 (Hrel1 & HaF1 & HaC1).
  pose proof Hrel1 as (_ & _ & _ & Hch1 & _).
  rewrite Hch1, (cstores_get hF hC) by (done || by eapply shape_child_valid).
  rewrite bind_some.
  destruct (F.child ndF1 c) as [f|] eqn:Hf; [|by constructor].
  assert (f ≠ 0) as Hf0 by by eapply child_nonroot.
  eapply ArenaLockstep.rel_bind; [by apply cstores_lookup|].
  intros fdF fdC (Hfd & HfF & HfC).
  pose proof Hfd as (_ & -> & -> & _ & _ & _ & _ & ->).
  pose proof (Forall2_length _ _ _ (cs_nodes _ _ _ _ H)) as Hlen.
  destruct (F.output fdF && bool_decide (F.counter fdF ≠ cnt)).
  - rewrite !length_alter, <- Hlen.
    eapply ArenaLockstep.rel_bind;
      [apply csuffix_walk_lockstep; [by apply cstores_mark|done]|].
    intros [hF1 h1] [hC1 h1'] [H1 Hh1]. simpl in H1, Hh1. subst h1'. by constructor.
  - rewrite <- Hlen.
    eapply ArenaLockstep.rel_bind; [by apply csuffix_walk_lockstep|].
    intros [hF1 h1] [hC1 h1'] [H1 Hh1]. simpl in H1, Hh1. subst h1'. by constructor.
Qed.

Lemma C_match_loop_cons st c rest :
  C.match_loop m cnt st (c :: rest) = st' ← C.match_byte m cnt st c; C.match_loop m cnt st' rest.
Proof. done. Qed.

Lemma cmatch_loop_lockstep input : ∀ stF stC,
  cscan_rel D (C.table m) stF stC →
  option_Forall2 (cscan_rel D (C.table m))
    (F.match_loop cnt stF input) (C.match_loop m cnt stC input).
Proof.
  induction input as [|c rest IH]; intros stF stC H; [by constructor|].
  rewrite ArenaLockstep.F_match_loop_cons, C_match_loop_cons.
  eapply ArenaLockstep.rel_bind; [by apply cmatch_byte_lockstep|].
  intros stF1 stC1 H1. by apply IH.
Qed.

End scan.

Lemma cMatch_lockstep D mF mC input :
  cmatcher_rel D mF mC → option_Forall2 (cresult_rel D) (F.Match mF input) (C.Match mC input).
Proof.
  intros (Hc & HrF & HrC & H). unfold F.Match, C.Match. rewrite Hc, HrF, HrC.
  eapply ArenaLockstep.rel_bind; [by apply cmatch_loop_lockstep|].
  intros [[hF n] hits] [[hC n'] hits'] (H1 & Hn & Hh). simpl in H1, Hn, Hh. subst n' hits'.
  constructor. split; [done|]. split_and!; done.
Qed.

End CounterMatch.

(** * The version with [int32] identifiers and the call counter
    (src/unnamed/part_001, first file) *)
Module CounterFacts.
Module F := FixedArray.
Module A := Arena.
Module C := TableCounter.
Import FixedArrayTrie FixedArrayInsert FixedArrayFails FixedArrayMatch FixedArrayFrame
       Specification Calls TableSim CounterBuild CounterFails CounterMatch.

Definition counter_scan (D : list (list byte)) (S : list byte) : option (list Z) :=
  m ← C.NewMatcher D; r ← C.Match m S; Some r.1.

(** The results of the calls [Match(in)], [in] ranging over [inputs], made
    one after the other on the same matcher. *)
Fixpoint counter_calls (m : C.Matcher) (inputs : list (list byte)) : option (list (list Z)) :=
  match inputs with
  | [] => Some []
  | input :: rest =>
      r ← C.Match m input; results ← counter_calls r.2 rest; Some (r.1 :: results)
  end.

(** The node that the identifier [i] stands for. *)
Definition counter_node (m : C.Matcher) (i : Z) : option C.node :=
  p ← C.tableGet m i; C.deref (C.mem m) p.

Lemma counter_calls_cons m input rest :
  counter_calls m (input :: rest)
  = r ← C.Match m input; results ← counter_calls r.2 rest; Some (r.1 :: results).
Proof. done. Qed.

Lemma counter_calls_lockstep D inputs : ∀ mF mC,
  cmatcher_rel D mF mC → counter_calls mC inputs = fixed_calls mF inputs.
Proof.
  induction inputs as [|input rest IH]; intros mF mC H; [done|].
  rewrite counter_calls_cons, fixed_calls_cons.
  destruct (cMatch_lockstep D mF mC input H) as [[hF mF1] [hC mC1] [Hh H1]|]; [|done].
  simpl in Hh, H1. subst hC. rewrite !bind_some. simpl. by rewrite (IH mF1 mC1 H1).
Qed.

Lemma counter_new D :
  fits_int32 D →
  ∃ hp m, F.NewMatcher D = Some (F.mkMatcher 0 (Some 0) hp) ∧ C.NewMatcher D = Some m ∧
          csim hp m ∧ automaton hp D ∧ cmatcher_rel D (F.mkMatcher 0 (Some 0) hp) m.
Proof.
  intros Hfit. destruct (counter_NewMatcher D Hfit) as (hp & m & HF & HC & Hsim & Hrel & Hau).
  exists hp, m. split_and!; [done..|]. destruct Hsim as [H1 H2 H3 H4 H5].
  split_and!; [done..|]. by split.
Qed.

(** X21.  For a dictionary of fewer than 2^31 - 2 bytes in all, [buildTrie]
    of the version with identifiers and the call counter builds the
    automaton of the fixed-array version: the same nodes in the same order,
    each field that holds an identifier holding the identifier of the
    pointer of the fixed-array node, the [fails] slices included, and the
    table giving the node of every identifier. *)
Theorem counter_build_refines_fixed D :
  fits_int32 D →
  ∃ mF mC, F.NewMatcher D = Some mF ∧ C.NewMatcher D = Some mC ∧ cmatcher_rel D mF mC.
Proof.
  intros Hfit. destruct (counter_new D Hfit) as (hp & m & HF & HC & _ & _ & H).
  by eexists _, _.
Qed.

Lemma counter_build_refines_fixed_witness :
  ∃ mF mC, F.NewMatcher [bytes_of "ab"; bytes_of "b"] = Some mF ∧
           C.NewMatcher [bytes_of "ab"; bytes_of "b"] = Some mC ∧
           cmatcher_rel [bytes_of "ab"; bytes_of "b"] mF mC.
Proof.
  apply (counter_build_refines_fixed [bytes_of "ab"; bytes_of "b"]). vm_compute. reflexivity.
Defined.

(** X22.  On matchers that hold the same automaton, [Match] of the two
    versions runs in lockstep: both panic or both return, with the same
    hits in the same order, leaving matchers that again hold the same
    automaton and counters. *)
Theorem counter_Match_lockstep D mF mC input :
  cmatcher_rel D mF mC →
  match F.Match mF input, C.Match mC input with
  | Some (hitsF, mF'), Some (hitsC, mC') => hitsC = hitsF ∧ cmatcher_rel D mF' mC'
  | None, None => True
  | _, _ => False
  end.
Proof.
  intros H. destruct (cMatch_lockstep D mF mC input H) as [[hF mF1] [hC mC1] [Hh H1]|]; [|done].
  simpl in Hh, H1. by subst hC.
Qed.

Lemma counter_Match_lockstep_witness :
  ∃ mF mC, F.NewMatcher [bytes_of "ab"; bytes_of "b"] = Some mF ∧
           C.NewMatcher [bytes_of "ab"; bytes_of "b"] = Some mC ∧
           match F.Match mF (bytes_of "abb"), C.Match mC (bytes_of "abb") with
           | Some (hitsF, mF'), Some (hitsC, mC') =>
               hitsC = hitsF ∧ cmatcher_rel [bytes_of "ab"; bytes_of "b"] mF' mC'
           | None, None => True
           | _, _ => False
           end.
Proof.
  destruct (counter_new [bytes_of "ab"; bytes_of "b"]) as (hp & m & HF & HC & _ & _ & H).
  - vm_compute. reflexivity.
  - eexists _, _. split; [exact HF|]. split; [exact HC|].
    apply (counter_Match_lockstep [bytes_of "ab"; bytes_of "b"] _ _ (bytes_of "abb") H).
Defined.

(** X23.  For a dictionary of fewer than 2^31 - 2 bytes in all, any
    sequence of [Match] calls on a new matcher of the version with
    identifiers and the call counter returns, call by call, the slices that
    the same calls return on a new matcher of the fixed-array version. *)
Theorem counter_calls_as_fixed D inputs :
  fits_int32 D →
  (m ← C.NewMatcher D; counter_calls m inputs) = (m ← F.NewMatcher D; fixed_calls m inputs).
Proof.
  intros Hfit. destruct (counter_new D Hfit) as (hp & m & HF & HC & _ & _ & H).
  rewrite HF, HC, !bind_some. by apply (counter_calls_lockstep D).
Qed.

Lemma counter_calls_as_fixed_witness :
  (m ← C.NewMatcher [bytes_of "aa"; bytes_of "b"];
   counter_calls m [bytes_of "aab"; bytes_of "b"; bytes_of "aab"])
  = (m ← F.NewMatcher [bytes_of "aa"; bytes_of "b"];
     fixed_calls m [bytes_of "aab"; bytes_of "b"; bytes_of "aab"]).
Proof.
  apply (counter_calls_as_fixed [bytes_of "aa"; bytes_of "b"]). vm_compute. reflexivity.
Defined.

(** X24.  For a dictionary of fewer than 2^31 - 2 bytes in all, [Match] on
    a new matcher of the version with identifiers and the call counter
    returns no index twice, and returns [z] exactly when [z] is the last
    position in [D] of a non-empty pattern that occurs in the input. *)
Theorem counter_Match_reports_last_indices D S :
  fits_int32 D →
  ∃ hits, counter_scan D S = Some hits ∧ NoDup hits ∧ ∀ z, z ∈ hits ↔ reported D S z.
Proof.
  intros Hfit. destruct (counter_new D Hfit) as (hp & m & HF & HC & _ & _ & H).
  destruct (served_new D) as (mF & Hnew & Hs).
  destruct (served_Match D 0 mF S Hs) as (hits & mF' & HM & _ & Hnd & Hhits); [lia|].
  assert (mF = F.mkMatcher 0 (Some 0) hp) as -> by congruence.
  exists hits. split; [|done]. unfold counter_scan. rewrite HC, bind_some.
  destruct (cMatch_lockstep D (F.mkMatcher 0 (Some 0) hp) m S H)
    as [[h1 m1] [h2 m2] [Hh _]|].
  - simpl in Hh. rewrite bind_some. simpl. congruence.
  - done.
Qed.

Lemma counter_Match_reports_last_indices_witness :
  ∃ hits, counter_scan [bytes_of "aa"; bytes_of "b"] (bytes_of "aab") = Some hits ∧
          NoDup hits ∧
          ∀ z, z ∈ hits ↔ reported [bytes_of "aa"; bytes_of "b"] (bytes_of "aab") z.
Proof.
  apply (counter_Match_reports_last_indices [bytes_of "aa"; bytes_of "b"] (bytes_of "aab")).
  vm_compute. reflexivity.
Defined.

(** X25.  On a new matcher of the version with identifiers and the call
    counter, [findBlice(w)] returns the identifier of the node whose [b] is
    [w] when [w] is empty or a prefix of a pattern (1, the root, for the
    empty [w]), and 0 for every other [w]. *)
Theorem counter_findBlice_finds_the_prefixes D :
  fits_int32 D →
  ∃ m, C.NewMatcher D = Some m ∧ C.findBlice m [] = Some 1%Z ∧
       ∀ w, (is_path D w → ∃ i nd, C.findBlice m w = Some i ∧ i ≠ 0%Z ∧
                                   counter_node m i = Some nd ∧ C.b nd = w) ∧
            (¬ is_path D w → C.findBlice m w = Some 0%Z).
Proof.
  intros Hfit. destruct (counter_new D Hfit) as (hp & m & _ & HC & Hsim & Hau & _).
  pose proof (au_shape _ _ Hau) as Hsh.
  exists m. split_and!; [done|done|]. intros w.
  destruct (findBlice_root_spec hp Hsh w) as (r & Hr & Hspec).
  destruct (csim_findBlice_root hp m w r Hsh Hsim Hr) as [HrC Hvalid].
  split.
  - intros Hp. destruct r as [a|].
    + destruct Hspec as (nd & Ha & Hb).
      destruct (csim_lookup _ _ _ _ Hsim Ha) as (nd3 & Ha3 & Hrel).
      exists (enc (Some a)), nd3. split_and!; [done|simpl; lia| |].
      * unfold counter_node. by rewrite (csim_tableGet hp m (Some a) Hsim Hvalid), bind_some.
      * destruct Hrel as (Hb3 & _). congruence.
    + destruct Hspec. by apply (au_paths _ _ Hau).
  - intros Hp. destruct r as [a|]; [|done]. destruct Hp. apply (au_paths _ _ Hau). by exists a.
Qed.

Lemma counter_findBlice_finds_the_prefixes_witness :
  ∃ m, C.NewMatcher [bytes_of "ab"; bytes_of "b"] = Some m ∧ C.findBlice m [] = Some 1%Z ∧
       ∀ w, (is_path [bytes_of "ab"; bytes_of "b"] w →
             ∃ i nd, C.findBlice m w = Some i ∧ i ≠ 0%Z ∧
                     counter_node m i = Some nd ∧ C.b nd = w) ∧
            (¬ is_path [bytes_of "ab"; bytes_of "b"] w → C.findBlice m w = Some 0%Z).
Proof.
  apply (counter_findBlice_finds_the_prefixes [bytes_of "ab"; bytes_of "b"]).
  vm_compute. reflexivity.
Defined.

(** X26.  After [buildTrie] of the version with identifiers and the call
    counter, no entry of a [fails] slice is 0: [n.getFails(c)] is the
    identifier of the node of the longest suffix of the path of [n] (the
    path itself included) that has a child for [c], and 1, the root, when no
    suffix has one. *)
Theorem counter_fails_longest_suffix D :
  fits_int32 D →
  ∃ m, C.NewMatcher D = Some m ∧
       ∀ a nd c, C.mem m !! a = Some nd →
         ∃ rd, C.getFails nd c ≠ 0%Z ∧ counter_node m (C.getFails nd c) = Some rd ∧
               C.b rd `suffix_of` C.b nd ∧
               (C.getFails nd c = 1%Z ∨ C.getChild rd c ≠ 0%Z) ∧
               ∀ w, w `suffix_of` C.b nd → is_path D (w ++ [c]) →
                    length w ≤ length (C.b rd).
Proof.
  intros Hfit. destruct (counter_NewMatcher D Hfit) as (hp & m & _ & HC & Hsim & Hrel & Hau).
  exists m. split; [done|]. intros a nd3 c Ha3.
  destruct (Forall2_lookup_r _ _ _ _ _ (csim_nodes _ _ Hsim) Ha3) as (nd & Ha & Hnd).
  destruct (au_fails _ _ Hau a nd Ha c) as (r & Hf & rd & Hr & Hs & Hc & Hmax).
  destruct (csim_lookup _ _ _ _ Hsim Hr) as (rd3 & Hr3 & Hrd).
  rewrite (Hrel a nd nd3 c I Ha Ha3), Hf.
  pose proof Hnd as (Hb & _). pose proof Hrd as (Hbr & _ & _ & Hch & _).
  exists rd3. split_and!.
  - simpl. lia.
  - unfold counter_node. rewrite (csim_tableGet hp m (Some r) Hsim), bind_some; [done|].
    simpl. by eapply lookup_lt_Some.
  - by rewrite Hb, Hbr.
  - destruct Hc as [->|Hc]; [by left|]. right. rewrite Hch. by rewrite enc_zero.
  - intros w Hw Hp. rewrite Hbr. apply Hmax; [by rewrite <- Hb|]. by apply (au_paths _ _ Hau).
Qed.

Lemma counter_fails_longest_suffix_witness :
  ∃ m, C.NewMatcher [bytes_of "ab"; bytes_of "b"] = Some m ∧
       ∀ a nd c, C.mem m !! a = Some nd →
         ∃ rd, C.getFails nd c ≠ 0%Z ∧ counter_node m (C.getFails nd c) = Some rd ∧
               C.b rd `suffix_of` C.b nd ∧
               (C.getFails nd c = 1%Z ∨ C.getChild rd c ≠ 0%Z) ∧
               ∀ w, w `suffix_of` C.b nd → is_path [bytes_of "ab"; bytes_of "b"] (w ++ [c]) →
                    length w ≤ length (C.b rd).
Proof.
  apply (counter_fails_longest_suffix [bytes_of "ab"; bytes_of "b"]). vm_compute. reflexivity.
Defined.

(** X27.  After [buildTrie] of the version with identifiers and the call
    counter, [tableSize] is the number of nodes plus one; the identifier 0
    stands for [nil] and 1 for the root; every identifier from 1 up to
    [tableSize - 1] stands for a node, distinct identifiers for distinct
    nodes; and the matcher's counter is 0. *)
Theorem counter_table_is_dense D :
  fits_int32 D →
  ∃ m, C.NewMatcher D = Some m ∧ C.m_counter m = 0%Z ∧
       C.tableSize m = (Z.of_nat (length (C.mem m)) + 1)%Z ∧
       C.tableGet m 0 = Some None ∧ C.tableGet m 1 = Some (C.m_root m) ∧
       ∀ i, (1 ≤ i < C.tableSize m)%Z →
            C.tableGet m i = Some (Some (Z.to_nat (i - 1))) ∧
            is_Some (counter_node m i).
Proof.
  intros Hfit. destruct (counter_NewMatcher D Hfit) as (hp & m & _ & HC & Hsim & _ & Hau).
  pose proof (csim_length _ _ Hsim) as Hlen.
  exists m. split_and!; [done|by apply (csim_counter hp)| | | |].
  - by rewrite (csim_size _ _ Hsim), Hlen.
  - by apply (csim_tableGet hp m None).
  - rewrite (csim_root _ _ Hsim). apply (csim_tableGet hp m (Some 0) Hsim).
    destruct (sh_root _ (au_shape _ _ Hau)) as (rd & Hrd & _). simpl. by eapply lookup_lt_Some.
  - intros i Hi. rewrite (csim_size _ _ Hsim) in Hi.
    assert (i = enc (Some (Z.to_nat (i - 1)))) as Hienc by (simpl; lia).
    assert (Z.to_nat (i - 1) < length hp) as Hlt by lia.
    assert (C.tableGet m i = Some (Some (Z.to_nat (i - 1)))) as Hget.
    { rewrite Hienc at 1. by apply (csim_tableGet hp m (Some _) Hsim). }
    split; [done|]. unfold counter_node. rewrite Hget, bind_some. simpl.
    apply lookup_lt_is_Some. lia.
Qed.

Lemma counter_table_is_dense_witness :
  ∃ m, C.NewMatcher [bytes_of "ab"; bytes_of "b"] = Some m ∧ C.m_counter m = 0%Z ∧
       C.tableSize m = (Z.of_nat (length (C.mem m)) + 1)%Z ∧
       C.tableGet m 0 = Some None ∧ C.tableGet m 1 = Some (C.m_root m) ∧
       ∀ i, (1 ≤ i < C.tableSize m)%Z →
            C.tableGet m i = Some (Some (Z.to_nat (i - 1))) ∧
            is_Some (counter_node m i).
Proof.
  apply (counter_table_is_dense [bytes_of "ab"; bytes_of "b"]). vm_compute. reflexivity.
Defined.

(** X28.  [NewStringMatcher] of part_000 and of the first file of part_001
    build the matcher of the byte sequences of the strings: for strings of
    fewer than 2^31 - 2 bytes in all, [Match] on either returns, each once
    and in the same order, the last positions of the non-empty strings that
    occur in the input. *)
Theorem string_matchers_match_strings dictionary S :
  fits_int32 (bytes_of <$> dictionary) →
  ∃ mA mC hits mA' mC',
    A.NewStringMatcher dictionary = Some mA ∧ C.NewStringMatcher dictionary = Some mC ∧
    A.Match mA S = Some (hits, mA') ∧ C.Match mC S = Some (hits, mC') ∧
    NoDup hits ∧ ∀ z, z ∈ hits ↔ reported (bytes_of <$> dictionary) S z.
Proof.
  intros Hfit. set (D := bytes_of <$> dictionary) in *.
  assert (A.NewStringMatcher dictionary = A.NewMatcher D) as ->.
  { unfold A.NewStringMatcher, A.NewMatcher. cbv zeta.
    by rewrite (BuiltMatcher.foldl_snoc_fmap String.list_byte_of_string). }
  assert (C.NewStringMatcher dictionary = C.NewMatcher D) as ->.
  { unfold C.NewStringMatcher, C.NewMatcher. cbv zeta.
    by rewrite (BuiltMatcher.foldl_snoc_fmap String.list_byte_of_string). }
  destruct (counter_new D Hfit) as (hp & mC & HF & HC & _ & _ & H).
  destruct (ArenaBuild.arena_NewMatcher D) as (hF & hA & HF' & HA & HrelA).
  { unfold ArenaBuild.fits_int. unfold fits_int32 in Hfit. lia. }
  assert (hF = hp) as -> by congruence.
  destruct (served_new D) as (mF & Hnew & Hs).
  destruct (served_Match D 0 mF S Hs) as (hits & mF' & HM & _ & Hnd & Hhits); [lia|].
  assert (mF = F.mkMatcher 0 (Some 0) hp) as -> by congruence.
  pose proof (cMatch_lockstep D _ mC S H) as HlC. rewrite HM in HlC.
  assert (ArenaLockstep.matcher_rel (F.mkMatcher 0 (Some 0) hp) (A.mkMatcher 0 (Some 0) hA))
    as HrelA' by (split; [done|]; by split).
  pose proof (ArenaLockstep.Match_lockstep _ _ S HrelA') as HlA.
  rewrite HM in HlA.
  inversion HlC as [rF [hC mC'] [HhC _] Heq1 Heq2|]; subst rF. simpl in HhC. subst hC.
  inversion HlA as [rF [hA' mA'] [HhA _] Heq3 Heq4|]; subst rF.
  simpl in HhA. subst hA'.
  by exists (A.mkMatcher 0 (Some 0) hA), mC, hits, mA', mC'.
Qed.

Lemma string_matchers_match_strings_witness :
  ∃ mA mC hits mA' mC',
    A.NewStringMatcher ["aa"; "b"]%string = Some mA ∧
    C.NewStringMatcher ["aa"; "b"]%string = Some mC ∧
    A.Match mA (bytes_of "aab") = Some (hits, mA') ∧
    C.Match mC (bytes_of "aab") = Some (hits, mC') ∧
    NoDup hits ∧
    ∀ z, z ∈ hits ↔ reported (bytes_of <$> ["aa"; "b"]%string) (bytes_of "aab") z.
Proof.
  apply (string_matchers_match_strings ["aa"; "b"]%string (bytes_of "aab")).
  vm_compute. reflexivity.
Defined.

End CounterFacts.
